(** * cardprint: the PNG density patcher and the page builder

    A shallow embedding of the two parts of the program, and the
    properties stated about them.

    The first part is the header-only utility [png_dpi_util.h] that
    rewrites the [pHYs] chunk of a PNG file.  Its in-place function
    [update_png_dpi(path, dpi)] is modelled at the top level; its earlier
    three-argument form, which commits through a temporary file, is the
    module [TempFile].

    The second part is [main.c]: the layout of a page (sizes, margins,
    the nine slots and the rectangles the drawing functions fill), the
    loop of [main] over the pages, the helpers on strings ([Trim] and the
    parsers) and the reading of the configuration file.

    Conventions of the model.
    - A byte is [Init.Byte.byte]; [byte.unsigned] and [byte.of_Z] are the
      conversions to and from [uint8_t] values ([byte.of_Z] is the C cast
      [(uint8_t)v], which keeps the low 8 bits).
    - A [uint32_t] is a [Z] in [0, 2^32); where the C arithmetic can wrap,
      the wrap-around is written out with [u32].
    - [size_t] and pointer differences are those of an LP64 target
      (64 bits); every such value of the program stays far below 2^64, so
      they are plain [Z] offsets into the buffer.
    - [PNG_IN_BUF] with [in_sz] is the list of the bytes read from the
      file; a pointer into it is an offset.  [PNG_OUT_BUF] with [out_off]
      is the list of the bytes written so far ([out_off] is its length).
    - When a declared length passes the bound check only because
      [len + 4] wrapped, [p += len] moves the pointer past the buffer; the
      model keeps the offset, and the loop test [p + 12 <= end] is false
      from then on, as it is for the addresses of such a target.
    - An [int] of [main.c] is a [Z]; its values stay far inside 32 bits,
      and [/] and [%] are [Z.quot] and [Z.rem].  A [double] is a binary64
      value of [SpecFloat], a [float] a binary32 value; a decimal
      constant is the [double] nearest to it.
    - A [char] array is the list of its bytes and holds the string before
      its first NUL; a stream is the list of the bytes not yet read.
    - The drawing functions are the lists of the rectangles they hand to
      [SDL_RenderFillRect] and [SDL_RenderFillRects]; what SDL does with
      them is outside the model, as are [DrawQuarterArc] and the loading
      and scaling of images.
    - A loop whose number of turns is not bounded by its text takes a
      number of turns as an argument; lemmas say when it is enough, and
      that more turns change nothing. *)

From Stdlib Require Import ZArith List Lia Bool.
From Stdlib Require Import Init.Byte.
From Stdlib Require Import Floats.SpecFloat.
From coqutil Require Import Byte Z.bitblast.
Import ListNotations.
Local Open Scope Z_scope.

(** ** Constants *)

Definition MAX_PNG_SIZE : Z := 32 * 1024 * 1024.
Definition PNG_SIG_BYTES : Z := 8.
Definition PNG_SIG : list byte := [x89; x50; x4e; x47; x0d; x0a; x1a; x0a].

(** [sizeof(PNG_OUT_BUF)] *)
Definition PNG_OUT_CAP : Z := MAX_PNG_SIZE + 64.

(** The chunk tags the code compares with: "pHYs", "IDAT", "IEND". *)
Definition tag_pHYs : list byte := [x70; x48; x59; x73].
Definition tag_IDAT : list byte := [x49; x44; x41; x54].
Definition tag_IEND : list byte := [x49; x45; x4e; x44].

(** ** Fixed-width helpers *)

Definition u32 (z : Z) : Z := z mod 2 ^ 32.

(** [memcmp(a, b, n) == 0] on two spans of the same length. *)
Fixpoint bytes_eqb (a b : list byte) : bool :=
  match a, b with
  | [], [] => true
  | x :: a', y :: b' => Byte.eqb x y && bytes_eqb a' b'
  | _, _ => false
  end.

(** The [n] bytes at offset [off] of [buf] (those of them that [buf]
    has; the program only copies spans that lie inside the buffer). *)
Definition sub (buf : list byte) (off n : Z) : list byte :=
  firstn (Z.to_nat n) (skipn (Z.to_nat off) buf).

Definition _png_read_u32_be (b : list byte) : Z :=
  Z.lor (Z.lor (Z.lor (Z.shiftl (byte.unsigned (nth 0 b x00)) 24)
                      (Z.shiftl (byte.unsigned (nth 1 b x00)) 16))
               (Z.shiftl (byte.unsigned (nth 2 b x00)) 8))
        (byte.unsigned (nth 3 b x00)).

Definition _png_write_u32_be (v : Z) : list byte :=
  [byte.of_Z (Z.shiftr v 24); byte.of_Z (Z.shiftr v 16);
   byte.of_Z (Z.shiftr v 8); byte.of_Z v].

(** ** CRC-32 *)

(** One turn of the inner loop of [_png_crc_make_table]:
    [c = (c & 1) ? (0xEDB88320U ^ (c >> 1)) : (c >> 1)]. *)
Definition crc_shift (c : Z) : Z :=
  if Z.land c 1 =? 0 then Z.shiftr c 1
  else Z.lxor 0xEDB88320 (Z.shiftr c 1).

(** The table [_png_crc_make_table] fills: entry [n] is [n] after eight
    turns.  The [_png_crc_ready] flag only makes the table be computed
    once; the table itself never changes. *)
Definition _png_crc_make_table : list Z :=
  map (fun n => Nat.iter 8 crc_shift (Z.of_nat n)) (seq 0 256).

Definition _png_crc_table (i : Z) : Z :=
  nth (Z.to_nat i) _png_crc_make_table 0.

Definition crc_update (crc : Z) (b : byte) : Z :=
  Z.lxor (_png_crc_table (Z.land (Z.lxor crc (byte.unsigned b)) 0xFF))
         (Z.shiftr crc 8).

Definition _png_crc32 (buf : list byte) (crc : Z) : Z :=
  let crc := Z.lxor crc 0xFFFFFFFF in
  let crc := fold_left crc_update buf crc in
  Z.lxor crc 0xFFFFFFFF.

(** ** DPI to pixels per meter

    The conversion is [double] arithmetic; [double] is IEEE-754 binary64
    with every operation rounded to [double] (no wider intermediate
    format), which [SpecFloat] gives as executable definitions on [Z]
    (53 bits of precision, [emax] 1024, rounding to nearest even). *)

Definition dbl : Type := spec_float.
(** [(double)z], exact for the [int] values it is used on. *)
Definition dbl_of_int (z : Z) : dbl := binary_normalize 53 1024 z 0 false.
Definition dbl_mul : dbl -> dbl -> dbl := SFmul 53 1024.
Definition dbl_add : dbl -> dbl -> dbl := SFadd 53 1024.
Definition dbl_leb : dbl -> dbl -> bool := SFleb.
Definition dbl_ltb : dbl -> dbl -> bool := SFltb.

(** The value of a finite [double] cut towards zero, as the C conversion
    to an integer type does. *)
Definition dbl_trunc (x : dbl) : Z :=
  match x with
  | S754_finite s m e =>
      if s then - Z.shiftl (Zpos m) e else Z.shiftl (Zpos m) e
  | _ => 0
  end.

(** The constant [0.5]. *)
Definition dbl_half : dbl := S754_finite false 0x10000000000000 (-53).

(** The constant [39.37007874]: the [double] nearest to the decimal,
    [0x1.3af5ebd7a9f58p+5] (see [dbl_factor_nearest]). *)
Definition dbl_factor : dbl := S754_finite false 0x13af5ebd7a9f58 (-47).

Definition _png_round_u32 (x : dbl) : Z :=
  if dbl_leb x (dbl_of_int 1) then 1
  else if dbl_leb (dbl_of_int 4294967295) x then 4294967295
  else u32 (dbl_trunc (dbl_add x dbl_half)).

Definition _png_dpi_to_ppm (dpi : Z) : Z :=
  let dpi := if dpi <=? 0 then 1 else dpi in
  _png_round_u32 (dbl_mul (dbl_of_int dpi) dbl_factor).

(** ** The density chunk *)

(** The 21 bytes [_png_emit_pHYs_to_mem] stores at [dst + *dst_off]: the
    length 9, the type, the two densities and the unit, and the checksum
    of the type and then of the nine bytes just stored. *)
Definition pHYs_bytes (ppm : Z) : list byte :=
  let data := _png_write_u32_be ppm ++ _png_write_u32_be ppm ++ [x01] in
  let crc := _png_crc32 tag_pHYs 0 in
  let crc := _png_crc32 data crc in
  _png_write_u32_be 9 ++ tag_pHYs ++ data ++ _png_write_u32_be crc.

(** [_png_emit_pHYs_to_mem(dst, dst_cap, &dst_off, ppm)]: [dst] is the
    output written so far; [None] is the return value 0 (no room). *)
Definition _png_emit_pHYs_to_mem (dst : list byte) (dst_cap : Z) (ppm : Z)
  : option (list byte) :=
  if Z.of_nat (length dst) + 4 + 4 + 9 + 4 >? dst_cap then None
  else Some (dst ++ pHYs_bytes ppm).

(** ** The chunk walk of [update_png_dpi] *)

(** How a run of the model ends: the function went on to its end with a
    value, it left early with [return rc], or the model's recursion budget
    ran out (which [rebuild_loop_total] and [scan_loop_total] below exclude). *)
Inductive outcome (A : Type) : Type :=
| Done (a : A)
| Fail (rc : Z)
| OutOfFuel.
Arguments Done {A} a.
Arguments Fail {A} rc.
Arguments OutOfFuel {A}.

(** What the head of the [while] loop finds at offset [p]. *)
Inductive chunk_head : Type :=
| NoRoom                                   (* [p + 12 <= end] is false *)
| Malformed                                (* [return 21] *)
| Head (len : Z) (type : list byte) (next : Z).

(** Lines 164-169: the loop test, the two header reads, the bound check
    and the three pointer advances.  [len + 4] is [uint32_t] arithmetic;
    [end - p] is a [size_t]. *)
Definition read_head (buf : list byte) (p : Z) : chunk_head :=
  let in_sz := Z.of_nat (length buf) in
  if p + 12 <=? in_sz then
    let len := _png_read_u32_be (sub buf p 4) in
    let type := sub buf (p + 4) 4 in
    let p := p + 8 in
    if in_sz - p <? u32 (len + 4) then Malformed
    else Head len type (p + len + 4)
  else NoRoom.

(** The loop of [update_png_dpi] from offset [p] on, with the output
    written so far and the [wrote_phys] flag. *)
Fixpoint rebuild_loop (fuel : nat) (buf : list byte) (ppm : Z)
    (p : Z) (wrote_phys : bool) (out : list byte) : outcome (list byte) :=
  match fuel with
  | O => OutOfFuel
  | S fuel =>
    match read_head buf p with
    | NoRoom => Done out
    | Malformed => Fail 21
    | Head len type next =>
      if bytes_eqb type tag_pHYs then
        rebuild_loop fuel buf ppm next wrote_phys out
      else
        let inject := negb wrote_phys && bytes_eqb type tag_IDAT in
        match (if inject then _png_emit_pHYs_to_mem out PNG_OUT_CAP ppm
               else Some out) with
        | None => Fail 22
        | Some out =>
          let wrote_phys := wrote_phys || inject in
          if Z.of_nat (length out) + 4 + 4 + len + 4 >? PNG_OUT_CAP then Fail 23
          else
            let out := out ++ sub buf p (4 + 4 + len + 4) in
            if bytes_eqb type tag_IEND then Done out
            else rebuild_loop fuel buf ppm next wrote_phys out
        end
    end
  end.

(** A chunk as the loop copies it: its bytes from the length field to the
    trailer, all as read. *)
Abbreviation chunk := (list byte) (only parsing).
Definition chunk_type (c : chunk) : list byte := sub c 4 4.
Definition is_pHYs (c : chunk) : bool := bytes_eqb (chunk_type c) tag_pHYs.
Definition is_IDAT (c : chunk) : bool := bytes_eqb (chunk_type c) tag_IDAT.
Definition is_IEND (c : chunk) : bool := bytes_eqb (chunk_type c) tag_IEND.

(** The same walk with the copy policy taken out: the chunks the loop
    visits from offset [p] on, up to and with the first IEND. *)
Fixpoint scan_loop (fuel : nat) (buf : list byte) (p : Z)
  : outcome (list chunk) :=
  match fuel with
  | O => OutOfFuel
  | S fuel =>
    match read_head buf p with
    | NoRoom => Done []
    | Malformed => Fail 21
    | Head len type next =>
      let c := sub buf p (4 + 4 + len + 4) in
      if bytes_eqb type tag_IEND then Done [c]
      else
        match scan_loop fuel buf next with
        | Done cs => Done (c :: cs)
        | r => r
        end
    end
  end.

(** Lines 151-186 of [update_png_dpi]: the signature check, the copy of
    the signature and the loop, on the bytes read from the file. *)
Definition png_rebuild (buf : list byte) (dpi : Z) : outcome (list byte) :=
  if (Z.of_nat (length buf) <? PNG_SIG_BYTES)
     || negb (bytes_eqb (sub buf 0 PNG_SIG_BYTES) PNG_SIG)
  then Fail 3
  else rebuild_loop (S (length buf)) buf (_png_dpi_to_ppm dpi)
         PNG_SIG_BYTES false (sub buf 0 PNG_SIG_BYTES).

(** The chunks of a buffer: the walk started right after the signature. *)
Definition png_chunks (buf : list byte) : outcome (list chunk) :=
  scan_loop (S (length buf)) buf PNG_SIG_BYTES.

(** The chunks of a buffer whose walk ends well (none otherwise). *)
Definition chunks_of (buf : list byte) : list chunk :=
  match png_chunks buf with
  | Done cs => cs
  | _ => []
  end.

(** *** The copy policy on a list of chunks

    What the loop does to the chunks it visits, said on lists: the chunks
    tagged pHYs go, and the new density chunk comes before the first chunk
    tagged IDAT of what is left (nowhere when there is none). *)
Definition not_pHYs (c : chunk) : bool := negb (is_pHYs c).

Fixpoint insert_before_IDAT (phys : chunk) (cs : list chunk) : list chunk :=
  match cs with
  | [] => []
  | c :: cs' =>
      if is_IDAT c then phys :: c :: cs'
      else c :: insert_before_IDAT phys cs'
  end.

(** With [wrote_phys] already set nothing is inserted any more. *)
Definition place (wrote_phys : bool) (phys : chunk) (cs : list chunk)
  : list chunk :=
  if wrote_phys then cs else insert_before_IDAT phys cs.

(** The chunks of the output for the chunks [cs] of the input. *)
Definition patch_chunks (dpi : Z) (cs : list chunk) : list chunk :=
  insert_before_IDAT (pHYs_bytes (_png_dpi_to_ppm dpi)) (filter not_pHYs cs).

(** The declared length of a chunk, and a chunk that is whole: as many
    bytes as it declares, with a length whose [len + 4] does not wrap. *)
Definition chunk_len (c : chunk) : Z := _png_read_u32_be (sub c 0 4).

Definition whole (c : chunk) : Prop :=
  Z.of_nat (length c) = 4 + 4 + chunk_len c + 4 /\ chunk_len c + 4 < 2 ^ 32.

(** A chunk tagged IEND has nothing after it. *)
Fixpoint iend_last (cs : list chunk) : Prop :=
  match cs with
  | [] => True
  | c :: cs' => (is_IEND c = true -> cs' = []) /\ iend_last cs'
  end.

(** [update_png_dpi(path, dpi)] on the file at [path]: the status and the
    bytes of the file afterwards.  The calls of the C library ([fopen],
    [fseek], [ftell], [fread], [fwrite], [fclose]) are taken to succeed;
    the file is opened for writing only after the loop.  The status [-1]
    is no value of the C function: it stands for the recursion budget of
    the model running out, which [png_rebuild_total] excludes. *)
Definition update_png_dpi (file : list byte) (dpi : Z) : Z * list byte :=
  if Z.of_nat (length file) >? MAX_PNG_SIZE then (4, file)
  else
    match png_rebuild file dpi with
    | Done out => (0, out)
    | Fail rc => (rc, file)
    | OutOfFuel => (-1, file)
    end.

(** ** The reference CRC-32

    The checksum as the specification words it: the reflected CRC-32 with
    polynomial 0xEDB88320, initial value and final XOR 0xFFFFFFFF, one bit
    at a time and without a table. *)
Definition crc32_bit (c : Z) : Z :=
  if Z.testbit c 0 then Z.lxor (Z.shiftr c 1) 0xEDB88320 else Z.shiftr c 1.

Definition crc32_byte (c : Z) (b : byte) : Z :=
  Nat.iter 8 crc32_bit (Z.lxor c (byte.unsigned b)).

Definition crc32_reference (bytes : list byte) : Z :=
  Z.lxor (fold_left crc32_byte bytes 0xFFFFFFFF) 0xFFFFFFFF.

(** ** Writing a chunk to a stream

    [_png_write_chunk(out, type, data, len)] with [data] the [len] bytes
    to write; [out] is what the stream holds so far, and every [fwrite] is
    taken to succeed (return value 1). *)
Definition _png_write_chunk (out : list byte) (type data : list byte)
  : list byte :=
  let len := Z.of_nat (length data) in
  let crc := _png_crc32 type 0 in
  let crc := if len =? 0 then crc else _png_crc32 data crc in
  out ++ _png_write_u32_be len ++ type ++ data ++ _png_write_u32_be crc.

(** ** The variant with a temporary file ([src/unnamed/part_000])

    The same utility in its three-argument form
    [update_png_dpi(in_path, out_path, dpi)]: it reads the input as a
    stream, writes to a temporary file next to [out_path] and renames it
    over [out_path] at the end.  The input stream is the list of the bytes
    not yet read. *)
Module TempFile.

(** [llround]: to the nearest integer, halves away from zero. *)
Definition llround (x : dbl) : Z :=
  match x with
  | S754_finite s m e =>
      let r := (Z.shiftl (Zpos m) (e + 1) + 1) / 2 in
      if s then - r else r
  | _ => 0
  end.

Definition _png_dpi_to_ppm (dpi : Z) : Z :=
  let dpi := if dpi <=? 0 then 1 else dpi in
  let ppm := dbl_mul (dbl_of_int dpi) dbl_factor in
  let ppm := if dbl_ltb (dbl_of_int 4294967295) ppm
             then dbl_of_int 4294967295 else ppm in
  u32 (llround ppm).

Definition _png_write_pHYs (out : list byte) (ppm_x ppm_y : Z) : list byte :=
  let payload := _png_write_u32_be ppm_x ++ _png_write_u32_be ppm_y ++ [x01] in
  _png_write_chunk out tag_pHYs payload.

(** [fread(buf, 1, n, in) != n] *)
Definition short (rest : list byte) (n : Z) : bool :=
  Z.of_nat (length rest) <? n.

(** The [for (;;)] loop: [rest] is the unread input, [tmp] the bytes of
    the temporary file.  [malloc] and the writes are taken to succeed. *)
Fixpoint copy_loop (fuel : nat) (rest : list byte) (ppm : Z)
    (wrote_phys : bool) (tmp : list byte) : outcome (list byte) :=
  match fuel with
  | O => OutOfFuel
  | S fuel =>
    if short rest 4 then Done tmp
    else
      let len_be := sub rest 0 4 in
      let rest := skipn 4 rest in
      let len := _png_read_u32_be len_be in
      if short rest 4 then Done tmp
      else
        let type := sub rest 0 4 in
        let rest := skipn 4 rest in
        if negb (len =? 0) && short rest len then Fail 23
        else
          let data := sub rest 0 len in
          let rest := skipn (Z.to_nat len) rest in
          if short rest 4 then Fail 24
          else
            let crc_be := sub rest 0 4 in
            let rest := skipn 4 rest in
            if bytes_eqb type tag_pHYs then
              copy_loop fuel rest ppm wrote_phys tmp
            else
              let inject := negb wrote_phys && bytes_eqb type tag_IDAT in
              let tmp := if inject then _png_write_pHYs tmp ppm ppm
                         else tmp in
              let tmp := tmp ++ len_be ++ type ++ data ++ crc_be in
              if bytes_eqb type tag_IEND then Done tmp
              else copy_loop fuel rest ppm (wrote_phys || inject) tmp
  end.

(** The reads of the loop alone: does the stream break inside a chunk? *)
Fixpoint check_stream (fuel : nat) (rest : list byte) : outcome unit :=
  match fuel with
  | O => OutOfFuel
  | S fuel =>
    if short rest 4 then Done tt
    else
      let len := _png_read_u32_be (sub rest 0 4) in
      let rest := skipn 4 rest in
      if short rest 4 then Done tt
      else
        let type := sub rest 0 4 in
        let rest := skipn 4 rest in
        if negb (len =? 0) && short rest len then Fail 23
        else
          let rest := skipn (Z.to_nat len) rest in
          if short rest 4 then Fail 24
          else
            if bytes_eqb type tag_IEND then Done tt
            else check_stream fuel (skipn 4 rest)
  end.

(** The function on the bytes [src] of the file at [in_path] and the
    file at [out_path] ([None]: there is none): the status and the file
    at [out_path] afterwards.  On every early return the temporary file
    is unlinked and [out_path] is not touched; at the end the temporary
    file is renamed over [out_path].  Opening, writing, closing and
    renaming are taken to succeed.  The status [-1] is no value of the C
    function (see [copy_loop_total]). *)
Definition update_png_dpi (src : list byte) (dst : option (list byte))
    (dpi : Z) : Z * option (list byte) :=
  if short src PNG_SIG_BYTES
     || negb (bytes_eqb (sub src 0 PNG_SIG_BYTES) PNG_SIG)
  then (3, dst)
  else
    match copy_loop (S (length src)) (skipn 8 src) (_png_dpi_to_ppm dpi)
                    false (sub src 0 PNG_SIG_BYTES) with
    | Done tmp => (0, Some tmp)
    | Fail rc => (rc, dst)
    | OutOfFuel => (-1, dst)
    end.

End TempFile.

(** ** The exact conversion

    What the specification asks of the stored density: the integer nearest
    to the decimal product [D * 39.37007874].  [r] is such an integer when
    it is at most one half away from the product; scaled by [2 * 10^8]
    this is a statement on integers. *)
Definition nearest_to_product (D r : Z) : Prop :=
  2 * Z.abs (r * 100000000 - D * 3937007874) <= 100000000.

Definition nearest_to_productb (D r : Z) : bool :=
  2 * Z.abs (r * 100000000 - D * 3937007874) <=? 100000000.

(** [round(D * 39.37007874)] for a positive [D], as the C function
    [round] and the specification take it: the nearest integer, a half
    going up. *)
Definition round_product (D : Z) : Z :=
  (D * 3937007874 + 50000000) / 100000000.

(** ** The conversion on integers

    The location flags after shifting [k] bits out of a significand: with
    [rho] the bits shifted out, the round bit says [rho] is at least half
    of [2^k] and the sticky bit that [rho] is not a multiple of that
    half. *)
Definition flags_ok (k rho : Z) (r s : bool) : Prop :=
  (r = true <-> 2 ^ k <= 2 * rho) /\ (s = true <-> (2 * rho) mod 2 ^ k <> 0).

(** The value of a positive finite number times [2^100]; all the numbers
    of the conversion have exponents between -100 and 0. *)
Definition scaled (x : dbl) : Z :=
  match x with
  | S754_finite false m e => Zpos m * 2 ^ (e + 100)
  | _ => 0
  end.

(** A positive normal number with such an exponent. *)
Definition normal (x : dbl) : Prop :=
  exists m e, x = S754_finite false m e
              /\ Zpos (digits2_pos m) = 53 /\ -100 <= e <= 0.

(** [D * 39.37007874 + 0.5] is within [2 * 10^-6] of an integer. *)
Definition near_tie (D : Z) : bool :=
  let g := (D * 3937007874 + 50000000) mod 100000000 in
  (g <? 200) || (100000000 - 200 <? g).

(** The inputs near a tie: [1968503937 * 49999873 = 1 (mod 5 * 10^7)], so
    the residue of [D] is determined by the distance [j] (in units of
    [2 * 10^-8]) of [D * 39.37007874 + 0.5] from an integer. *)
Definition tie_candidate (j t : Z) : Z :=
  (49999873 * (j - 25000000)) mod 50000000 + t * 50000000.

(** An input near a tie is out of the range below the clamp, or the one
    exception, or stored as a nearest integer. *)
Definition tie_ok (D : Z) : bool :=
  negb ((1 <=? D) && (D <=? 109092169)) || (D =? 24999873)
  || nearest_to_productb D (_png_dpi_to_ppm D).

(** [tie_ok] for the candidates of the [n] distances from [j] on. *)
Fixpoint ties_ok (n : nat) (j : Z) : bool :=
  match n with
  | O => true
  | S n => tie_ok (tie_candidate j 0) && tie_ok (tie_candidate j 1)
           && tie_ok (tie_candidate j 2) && ties_ok n (j + 1)
  end.

(** ** Sample files *)

Definition tag_IHDR : list byte := [x49; x48; x44; x52].

(** A small stream: IHDR, a stale pHYs, two IDAT, IEND, and two bytes
    after IEND. *)
Definition sample_png : list byte :=
  let s := PNG_SIG in
  let s := _png_write_chunk s tag_IHDR [x00; x00; x00; x01; x00; x00; x00; x01;
                                        x08; x00; x00; x00; x00] in
  let s := _png_write_chunk s tag_pHYs [x00; x00; x0b; x13; x00; x00; x0b; x13;
                                        x01] in
  let s := _png_write_chunk s tag_IDAT [x78; x9c; x63] in
  let s := _png_write_chunk s tag_IDAT [x00; x01] in
  let s := _png_write_chunk s tag_IEND [] in
  s ++ [x0a; x0a].

(** Two whole chunks, IHDR and IDAT, as a list. *)
Definition sample_chunks : list chunk :=
  [_png_write_chunk [] tag_IHDR [x00; x00; x00; x01; x00; x00; x00; x01;
                                 x08; x00; x00; x00; x00];
   _png_write_chunk [] tag_IDAT [x78; x9c; x63]].

(** The chunks of [sample_png], one by one. *)
Definition sample_png_chunks : list chunk :=
  [_png_write_chunk [] tag_IHDR [x00; x00; x00; x01; x00; x00; x00; x01;
                                 x08; x00; x00; x00; x00];
   _png_write_chunk [] tag_pHYs [x00; x00; x0b; x13; x00; x00; x0b; x13;
                                 x01];
   _png_write_chunk [] tag_IDAT [x78; x9c; x63];
   _png_write_chunk [] tag_IDAT [x00; x01];
   _png_write_chunk [] tag_IEND []].

(** Seven bytes: too short for a signature. *)
Definition seven_bytes : list byte := [x89; x50; x4e; x47; x0d; x0a; x1a].

(** A chunk header that declares one data byte, with four bytes after it. *)
Definition overrun_tail : list byte :=
  [x00; x00; x00; x01] ++ tag_IDAT ++ [x00; x00; x00; x00].


(** A chunk tagged IDAT that declares one data byte and has only the four
    bytes of a trailer after its type. *)
Definition overrun_png : list byte := PNG_SIG ++ overrun_tail.

(** Chunks that declare the length 0xFFFFFFFF, with four bytes after the
    type: one tagged pHYs, one tagged IDAT. *)
Definition wrap_pHYs_png : list byte :=
  PNG_SIG ++ [xff; xff; xff; xff] ++ tag_pHYs ++ [x00; x00; x00; x00].

Definition wrap_IDAT_png : list byte :=
  PNG_SIG ++ [xff; xff; xff; xff] ++ tag_IDAT ++ [x00; x00; x00; x00].

(** ** A stream given by its bytes

    The chunks of a file said on its bytes, with no reader: after the
    signature come the whole chunks [cs], laid end to end, and then
    [tail].  The stream stops at its first chunk tagged IEND, whatever
    follows it; with no IEND it stops where fewer than 12 bytes are left,
    too few for a chunk. *)
Definition no_IEND (cs : list chunk) : Prop :=
  Forall (fun c => is_IEND c = false) cs.

Definition ends_at_IEND (cs : list chunk) : Prop :=
  exists ds iend, cs = ds ++ [iend] /\ no_IEND ds /\ is_IEND iend = true.

Definition stream_of (cs : list chunk) (tail : list byte) : Prop :=
  Forall whole cs
  /\ (ends_at_IEND cs \/ (no_IEND cs /\ Z.of_nat (length tail) < 12)).

(** What is left starts with a header tagged pHYs whose declared length
    plus 4 does not fit 32 bits. *)
Definition wrapped_pHYs (tail : list byte) : Prop :=
  12 <= Z.of_nat (length tail)
  /\ 2 ^ 32 - 4 <= _png_read_u32_be (sub tail 0 4)
  /\ sub tail 4 4 = tag_pHYs.

(** ** The two conversions compared *)

(** The two conversions on the inputs near a tie. *)
Definition tie_agree (D : Z) : bool :=
  TempFile._png_dpi_to_ppm D =? _png_dpi_to_ppm D.

Fixpoint ties_agree (n : nat) (j : Z) : bool :=
  match n with
  | O => true
  | S n => tie_agree (tie_candidate j 0) && tie_agree (tie_candidate j 1)
           && tie_agree (tie_candidate j 2) && ties_agree n (j + 1)
  end.

(** ** The status of [update_png_dpi] *)


(** ** The page layout ([main.c]) *)

(** [enum PPI] and [enum PaperSize], with the values the program gives
    them. *)
Inductive PPI : Type := ppi300 | ppi600 | ppi1200.

Definition ppi_val (ppi : PPI) : Z :=
  match ppi with
  | ppi300 => 300
  | ppi600 => 600
  | ppi1200 => 1200
  end.

Inductive PaperSize : Type := paperUS | paperA4.

(** [SDL_Rect], of [int] fields, and [SDL_Color], of [Uint8] fields. *)
Module SDL.

Record Rect : Type := mkRect { x : Z; y : Z; w : Z; h : Z }.

Record Color : Type := mkColor { r : Z; g : Z; b : Z; a : Z }.

End SDL.

Abbreviation CardShape := SDL.Rect (only parsing).

Abbreviation SDL_Color := SDL.Color (only parsing).

Definition GUTTER_THICKNESS_PIXELS : Z := 3.
Definition NUM_POINTS_300 : Z := 65.

Definition NUM_POINTS_600 : Z := 130.
Definition NUM_POINTS_1200 : Z := 260.

(** The [double] constants of the layout, each the [double] nearest to
    its decimal (see [layout_constants_nearest]). *)
Definition dbl_2_48031 : dbl := S754_finite false 0x13d7acc4ef88b9 (-51).

Definition dbl_3_46457 : dbl := S754_finite false 0x1bb77079e59f2c (-51).
Definition dbl_8_27 : dbl := S754_finite false 0x108a3d70a3d70a (-49).

Definition dbl_11_69 : dbl := S754_finite false 0x176147ae147ae1 (-49).

(** [CORNER_RADIUS_INCH] and [CARD_BORDER_INCH], 0.11811 *)
Definition dbl_0_11811 : dbl := S754_finite false 0x1e3c74fb549f95 (-56).

Definition dbl_div : dbl -> dbl -> dbl := SFdiv 53 1024.

(** [(int)(ppi * c)] for a [double] constant [c]. *)
Definition scale_ppi (ppi : PPI) (c : dbl) : Z :=
  dbl_trunc (dbl_mul (dbl_of_int (ppi_val ppi)) c).

Definition GetCardShape (ppi : PPI) : CardShape :=
  SDL.mkRect 0 0 (scale_ppi ppi dbl_2_48031) (scale_ppi ppi dbl_3_46457).

Definition PageWidth (ppi : PPI) (paperSize : PaperSize) : Z :=
  match paperSize with
  | paperA4 => scale_ppi ppi dbl_8_27
  | _ => ppi_val ppi * 8 + Z.quot (ppi_val ppi) 2
  end.

Definition PageHeight (ppi : PPI) (paperSize : PaperSize) : Z :=
  match paperSize with
  | paperA4 => scale_ppi ppi dbl_11_69
  | _ => ppi_val ppi * 11
  end.

Definition MarginHoriz (ppi : PPI) (paperSize : PaperSize)
    (cardShape : CardShape) : Z :=
  let page_width_pixels := PageWidth ppi paperSize in
  let content_width_pixels := 3 * SDL.w cardShape in
  Z.quot (page_width_pixels - content_width_pixels) 2.

Definition MarginVert (ppi : PPI) (paperSize : PaperSize)
    (cardShape : CardShape) : Z :=
  let page_height_pixels := PageHeight ppi paperSize in
  let content_height_pixels := 3 * SDL.h cardShape in
  Z.quot (page_height_pixels - content_height_pixels) 2.

(** [CardPlacement(pos, ppi, paperSize)]; the [assert] on [pos] is the
    caller's duty. *)
Definition CardPlacement (pos : Z) (ppi : PPI) (paperSize : PaperSize)
  : CardShape :=
  let card := GetCardShape ppi in
  let col := if (pos =? 1) || (pos =? 4) || (pos =? 7) then 1
             else if (pos =? 2) || (pos =? 5) || (pos =? 8) then 2
             else 0 in
  let row := if (pos =? 3) || (pos =? 4) || (pos =? 5) then 1
             else if (pos =? 6) || (pos =? 7) || (pos =? 8) then 2
             else 0 in
  let gutterCol := (col + 1) * GUTTER_THICKNESS_PIXELS in
  let gutterRow := (row + 1) * GUTTER_THICKNESS_PIXELS in
  SDL.mkRect (col * SDL.w card + gutterCol + MarginHoriz ppi paperSize card)
             (row * SDL.h card + gutterRow + MarginVert ppi paperSize card)
             (SDL.w card) (SDL.h card).

(** The drawing functions fill rectangles on the page; each is modelled
    as the list of the rectangles it hands to [SDL_RenderFillRect] (the
    two borders: to one call of [SDL_RenderFillRects]), in the order of
    the calls. *)
Definition DrawBackgroundLines (ppi : PPI) (paperSize : PaperSize)
  : list SDL.Rect :=
  let cardShape := GetCardShape ppi in
  map (fun i =>
         let gutter := i * GUTTER_THICKNESS_PIXELS in
         SDL.mkRect (SDL.w cardShape * i + gutter
                     + MarginHoriz ppi paperSize cardShape)
                    0 GUTTER_THICKNESS_PIXELS (PageHeight ppi paperSize))
      [0; 1; 2; 3]
  ++ map (fun i =>
            let gutter := i * GUTTER_THICKNESS_PIXELS in
            SDL.mkRect 0
                       (SDL.h cardShape * i + gutter
                        + MarginVert ppi paperSize cardShape)
                       (PageWidth ppi paperSize) GUTTER_THICKNESS_PIXELS)
       [0; 1; 2; 3].

Definition DrawGutterLines (ppi : PPI) (paperSize : PaperSize)
  : list SDL.Rect :=
  let cardShape := GetCardShape ppi in
  map (fun i =>
         let gutter := i * GUTTER_THICKNESS_PIXELS in
         SDL.mkRect (SDL.w cardShape * i + gutter
                     + MarginHoriz ppi paperSize cardShape)
                    (MarginVert ppi paperSize cardShape)
                    GUTTER_THICKNESS_PIXELS
                    (3 * SDL.h cardShape + 4 * GUTTER_THICKNESS_PIXELS))
      [0; 1; 2; 3]
  ++ map (fun i =>
            let gutter := i * GUTTER_THICKNESS_PIXELS in
            SDL.mkRect (MarginHoriz ppi paperSize cardShape)
                       (SDL.h cardShape * i + gutter
                        + MarginVert ppi paperSize cardShape)
                       (3 * SDL.w cardShape + 4 * GUTTER_THICKNESS_PIXELS)
                       GUTTER_THICKNESS_PIXELS)
       [0; 1; 2; 3].

(** [(int)(ppi * CARD_BORDER_INCH / 2.0)] *)
Definition border_pixels (ppi : PPI) : Z :=
  dbl_trunc (dbl_div (dbl_mul (dbl_of_int (ppi_val ppi)) dbl_0_11811)
                     (dbl_of_int 2)).

Definition DrawBlankCardBorder (pos : Z) (ppi : PPI) (paperSize : PaperSize)
  : list SDL.Rect :=
  let cardShape := CardPlacement pos ppi paperSize in
  let border_pixels := border_pixels ppi in
  [ SDL.mkRect (SDL.x cardShape) (SDL.y cardShape)
               (SDL.w cardShape) border_pixels;
    SDL.mkRect (SDL.x cardShape + SDL.w cardShape - border_pixels)
               (SDL.y cardShape + border_pixels)
               border_pixels (SDL.h cardShape - 2 * border_pixels);
    SDL.mkRect (SDL.x cardShape)
               (SDL.y cardShape + SDL.h cardShape - border_pixels)
               (SDL.w cardShape) border_pixels;
    SDL.mkRect (SDL.x cardShape) (SDL.y cardShape + border_pixels)
               border_pixels (SDL.h cardShape - 2 * border_pixels) ].

Definition DrawMarginBorder (ppi : PPI) (paperSize : PaperSize)
  : list SDL.Rect :=
  let cardShape := GetCardShape ppi in
  let horiz := MarginHoriz ppi paperSize cardShape in
  let vert := MarginVert ppi paperSize cardShape in
  let border_pixels := border_pixels ppi in
  let total_gutters := 4 * GUTTER_THICKNESS_PIXELS in
  [ SDL.mkRect (horiz - border_pixels) (vert - border_pixels)
               (3 * SDL.w cardShape + 2 * border_pixels + total_gutters)
               border_pixels;
    SDL.mkRect (horiz + 3 * SDL.w cardShape + total_gutters) vert
               border_pixels (3 * SDL.h cardShape + total_gutters);
    SDL.mkRect (horiz - border_pixels)
               (vert + 3 * SDL.h cardShape + total_gutters)
               (3 * SDL.w cardShape + 2 * border_pixels + total_gutters)
               border_pixels;
    SDL.mkRect (horiz - border_pixels) vert
               border_pixels (3 * SDL.h cardShape + total_gutters) ].

(** The pixel [(px, py)] is one of those a rectangle covers. *)
Definition in_rect (r : SDL.Rect) (px py : Z) : Prop :=
  SDL.x r <= px < SDL.x r + SDL.w r /\ SDL.y r <= py < SDL.y r + SDL.h r.

(** The content area: the three by three slots with their four gutter
    lines each way. *)
Definition content_area (ppi : PPI) (paperSize : PaperSize) : SDL.Rect :=
  let cardShape := GetCardShape ppi in
  SDL.mkRect (MarginHoriz ppi paperSize cardShape)
             (MarginVert ppi paperSize cardShape)
             (3 * SDL.w cardShape + 4 * GUTTER_THICKNESS_PIXELS)
             (3 * SDL.h cardShape + 4 * GUTTER_THICKNESS_PIXELS).

(** *** The corner arcs

    [float] is IEEE-754 binary32 (24 bits of precision, [emax] 128).  The
    argument of [roundf] is a [double], converted to [float] at the call;
    [roundf] rounds to the nearest integer, halves away from zero, and
    its result is a [float]. *)
Definition flt : Type := spec_float.

Definition flt_of_dbl (x : dbl) : flt :=
  match x with
  | S754_finite s m e =>
      binary_normalize 24 128 (if s then Zneg m else Zpos m) e s
  | _ => x
  end.

Definition roundf (x : flt) : flt :=
  match x with
  | S754_finite s m e =>
      let r := (Z.shiftl (Zpos m) (e + 1) + 1) / 2 in
      binary_normalize 24 128 (if s then - r else r) 0 s
  | _ => x
  end.

(** [(int)roundf(CORNER_RADIUS_INCH * ppi)] *)
Definition corner_radius (ppi : PPI) : Z :=
  dbl_trunc (roundf (flt_of_dbl (dbl_mul dbl_0_11811
                                         (dbl_of_int (ppi_val ppi))))).

(** The assignments of the [switch] of [QuarterArcParams] in the order
    they stand in, and the one each label enters at.  No case ends in
    [break], so control runs from the label through every assignment
    after it. *)
Definition arc_assignments : list Z :=
  [NUM_POINTS_600; NUM_POINTS_1200; NUM_POINTS_300].

Definition arc_label (ppi : PPI) : nat :=
  match ppi with
  | ppi600 => 0
  | ppi1200 => 1
  | _ => 2
  end.

(** [QuarterArcParams(ppi, &num_points, &radius_pixels)] with the value
    [num_points] held before: the two values afterwards. *)
Definition QuarterArcParams (ppi : PPI) (num_points : Z) : Z * Z :=
  let num_points :=
    fold_left (fun _ v => v) (skipn (arc_label ppi) arc_assignments)
              num_points in
  (num_points, corner_radius ppi).

(** A rectangle grown by [b] pixels on each side (shrunk for a negative
    [b]). *)
Definition grow (r : SDL.Rect) (b : Z) : SDL.Rect :=
  SDL.mkRect (SDL.x r - b) (SDL.y r - b) (SDL.w r + 2 * b) (SDL.h r + 2 * b).

Definition on_page (ppi : PPI) (paperSize : PaperSize) (px py : Z) : Prop :=
  0 <= px < PageWidth ppi paperSize /\ 0 <= py < PageHeight ppi paperSize.

(** ** The pages of a run ([main]) *)

Definition CARDS_PER_PAGE : Z := 9.
Definition MAX_NUM_PAGES : Z := 80.

Definition MAX_CARDS : Z := CARDS_PER_PAGE * MAX_NUM_PAGES.

Definition pageCount (cardCount : Z) : Z :=
  Z.quot cardCount CARDS_PER_PAGE
  + (if Z.rem cardCount CARDS_PER_PAGE =? 0 then 0 else 1).

(** The indices the [for] loops over the cards of a page visit,
    [for (int i = currPage*CARDS_PER_PAGE;
          i < cardCount && i < (currPage+1)*CARDS_PER_PAGE; i++)],
    from [i] on and for [n] turns at most. *)
Fixpoint page_cards_from (n : nat) (i cardCount currPage : Z) : list Z :=
  match n with
  | O => []
  | S n =>
      if (i <? cardCount) && (i <? (currPage + 1) * CARDS_PER_PAGE)
      then i :: page_cards_from n (i + 1) cardCount currPage
      else []
  end.

(** The loop stays below [(currPage+1)*CARDS_PER_PAGE], so nine turns
    are all it can make (see [page_cards_turns]). *)
Definition page_cards (cardCount currPage : Z) : list Z :=
  page_cards_from 9 (currPage * CARDS_PER_PAGE) cardCount currPage.

(** The loop that loads the images and adds them to the page: [loads i]
    says that [LoadCardImage] returns an image for card [i]; the state is
    [cardsOnPageCount] and the positions handed to [AddCardToPage] so
    far. *)
Definition add_cards (loads : Z -> bool) (cards : list Z) : Z * list Z :=
  fold_left (fun st i =>
               let '(cardsOnPageCount, added) := st in
               if loads i
               then (cardsOnPageCount + 1,
                     added ++ [Z.rem i CARDS_PER_PAGE])
               else (cardsOnPageCount, added))
            cards (0, []).

(** [for (int j = cardsOnPageCount; j < 9; ++j)]: the positions handed to
    [DrawBlankCardBorder], for [n] turns at most. *)
Fixpoint blank_from (n : nat) (j : Z) : list Z :=
  match n with
  | O => []
  | S n => if j <? 9 then j :: blank_from n (j + 1) else []
  end.

(** What one turn of the [while] loop of [main] does with the cards: the
    number in the file name, the cards listed for the page, and the
    positions of the images added, of the blank borders drawn after them,
    and of the rounded corners drawn last. *)
Record page_ops : Type := mkPage {
  page_number : Z;
  listed : list Z;
  added : list Z;
  blanks : list Z;
  corners : list Z
}.

Definition build_page (loads : Z -> bool) (roundedCorners : bool)
    (cardCount currPage : Z) : page_ops :=
  let cards := page_cards cardCount currPage in
  let '(cardsOnPageCount, added) := add_cards loads cards in
  let blanks := blank_from (Z.to_nat (9 - cardsOnPageCount)) cardsOnPageCount in
  let corners := if roundedCorners
                 then map (fun i => Z.rem i CARDS_PER_PAGE) cards
                 else [] in
  mkPage (currPage + 1) cards added blanks corners.

(** [while (currPage < pageCount)], for [n] turns at most. *)
Fixpoint pages_from (n : nat) (loads : Z -> bool) (roundedCorners : bool)
    (cardCount pageCount currPage : Z) : list page_ops :=
  match n with
  | O => []
  | S n =>
      if currPage <? pageCount
      then build_page loads roundedCorners cardCount currPage
           :: pages_from n loads roundedCorners cardCount pageCount
                (currPage + 1)
      else []
  end.

Definition pages (loads : Z -> bool) (roundedCorners : bool) (cardCount : Z)
  : list page_ops :=
  let pageCount := pageCount cardCount in
  pages_from (Z.to_nat pageCount) loads roundedCorners cardCount pageCount 0.

(** The integers from [a] on, [n] of them. *)
Definition zrange (a : Z) (n : nat) : list Z :=
  map (fun k => a + Z.of_nat k) (seq 0 n).

(** ** Strings ([main.c])

    A [char] array is the list of its bytes, and the string it holds ends
    before its first NUL.  A [char*] into an array is the list of the
    bytes from that place on.  [isspace] and [isdigit] are those of the
    "C" locale (the program never calls [setlocale]). *)

Definition is_nul (c : byte) : bool := Byte.eqb c x00.

Definition isspace (c : byte) : bool :=
  match c with
  | x20 | x09 | x0a | x0b | x0c | x0d => true
  | _ => false
  end.

Definition isdigit (c : byte) : bool :=
  (48 <=? byte.unsigned c) && (byte.unsigned c <=? 57).

(** [s[i]] and [s[i] = c] inside the array. *)
Definition char_at (s : list byte) (i : Z) : byte := nth (Z.to_nat i) s x00.

Definition store (s : list byte) (i : Z) (c : byte) : list byte :=
  firstn (Z.to_nat i) s ++ c :: skipn (S (Z.to_nat i)) s.

Fixpoint strlen (s : list byte) : Z :=
  match s with
  | [] => 0
  | c :: s' => if is_nul c then 0 else 1 + strlen s'
  end.

(** The string an array holds. *)
Fixpoint cstr (s : list byte) : list byte :=
  match s with
  | [] => []
  | c :: s' => if is_nul c then [] else c :: cstr s'
  end.

(** *** Trimming *)

(** The first loop of [TrimLeft],
    [while (s[i] != '\0' && i < n-1 && isspace(s[i])) i++], for [turns]
    turns at most.  [n] is a [size_t] and at least 1 where the [assert] of
    the function holds, so [n-1] does not wrap. *)
Fixpoint TrimLeft_skip (turns : nat) (s : list byte) (n i : Z) : Z :=
  match turns with
  | O => i
  | S turns =>
      if negb (is_nul (char_at s i)) && (i <? n - 1) && isspace (char_at s i)
      then TrimLeft_skip turns s n (i + 1)
      else i
  end.

(** The second loop,
    [while (s[i] != '\0' && i < n-1) { s[i-skipped] = s[i]; i++; }]. *)
Fixpoint TrimLeft_shift (turns : nat) (s : list byte) (n skipped i : Z)
  : list byte * Z :=
  match turns with
  | O => (s, i)
  | S turns =>
      if negb (is_nul (char_at s i)) && (i <? n - 1)
      then TrimLeft_shift turns (store s (i - skipped) (char_at s i))
                          n skipped (i + 1)
      else (s, i)
  end.

(** [TrimLeft(s, n)]: the array afterwards.  Both loops stop below
    [n - 1], so [n] turns are all they can make. *)
Definition TrimLeft (s : list byte) (n : Z) : list byte :=
  let i := TrimLeft_skip (Z.to_nat n) s n 0 in
  if i =? 0 then s
  else
    let skipped := i in
    let '(s, i) := TrimLeft_shift (Z.to_nat n) s n skipped i in
    store s (i - skipped) x00.

(** The loop of [TrimRight],
    [while (i >= 0 && (isspace(s[i]) || s[i] == '\0')) i--]. *)
Fixpoint TrimRight_back (turns : nat) (s : list byte) (i : Z) : Z :=
  match turns with
  | O => i
  | S turns =>
      if (0 <=? i) && (isspace (char_at s i) || is_nul (char_at s i))
      then TrimRight_back turns s (i - 1)
      else i
  end.

(** [TrimRight(s, n)].  [i] starts at [strlen(s) - 1] and only goes down,
    so [strlen(s)] turns are all the loop can make.  In [i == n-1] the
    [int] is converted to [size_t]. *)
Definition TrimRight (s : list byte) (n : Z) : list byte :=
  let i := strlen s - 1 in
  let i := TrimRight_back (Z.to_nat (strlen s)) s i in
  if i mod 2 ^ 64 =? (n - 1) mod 2 ^ 64 then s
  else store s (i + 1) x00.

Definition Trim (s : list byte) (n : Z) : list byte :=
  TrimRight (TrimLeft s n) n.

(** A string without the white space at its start, and at its end. *)
Fixpoint lstrip (str : list byte) : list byte :=
  match str with
  | c :: str' => if isspace c then lstrip str' else str
  | [] => []
  end.

Definition rstrip (str : list byte) : list byte := rev (lstrip (rev str)).

Definition no_nul (str : list byte) : Prop :=
  forallb (fun c => negb (is_nul c)) str = true.

(** *** Numbers in strings *)

(** [strtol(s, &end, 10)] on an LP64 target: the value and [end].  White
    space is skipped, then comes an optional sign, then the digits; with
    no digit nothing is converted (the value is 0 and [end] is [s]); a
    value out of the range of [long] is clamped to it. *)
Definition LONG_MAX : Z := 2 ^ 63 - 1.

Definition LONG_MIN : Z := - 2 ^ 63.

Fixpoint skip_spaces (s : list byte) : list byte :=
  match s with
  | c :: s' => if isspace c then skip_spaces s' else s
  | [] => []
  end.

Fixpoint read_digits (acc : Z) (s : list byte) : Z * list byte :=
  match s with
  | c :: s' =>
      if isdigit c then read_digits (10 * acc + (byte.unsigned c - 48)) s'
      else (acc, s)
  | [] => (acc, [])
  end.

Definition strtol (s : list byte) : Z * list byte :=
  let t := skip_spaces s in
  let '(neg, t) :=
    match t with
    | c :: t' =>
        if Byte.eqb c x2d then (true, t')
        else if Byte.eqb c x2b then (false, t')
        else (false, t)
    | [] => (false, [])
    end in
  if isdigit (hd x00 t) then
    let '(v, rest) := read_digits 0 t in
    let v := if neg then - v else v in
    (Z.max LONG_MIN (Z.min LONG_MAX v), rest)
  else (0, s).

(** The conversion of a [long] to [int] (the low 32 bits, as gcc and
    clang do it). *)
Definition int_of_long (v : Z) : Z := (v + 2 ^ 31) mod 2 ^ 32 - 2 ^ 31.

(** [ParsePPI(s, &ppi, n)]: [Some] is [true] with the value stored in
    [*ppi], [None] is [false]. *)
Definition ParsePPI (s : list byte) : option PPI :=
  let i := int_of_long (fst (strtol s)) in
  if i =? 300 then Some ppi300
  else if i =? 600 then Some ppi600
  else if i =? 1200 then Some ppi1200
  else None.

(** The first loop of [ParseSDLColor],
    [while (s[i] != '\0' && i < n-1)]: the count of the spaces, or [None]
    where the loop returns [false]. *)
Fixpoint color_scan (turns : nat) (s : list byte) (n i spaceCount : Z)
  : option Z :=
  match turns with
  | O => Some spaceCount
  | S turns =>
      if negb (is_nul (char_at s i)) && (i <? n - 1) then
        if isdigit (char_at s i) then color_scan turns s n (i + 1) spaceCount
        else if Byte.eqb (char_at s i) x20
             then color_scan turns s n (i + 1) (spaceCount + 1)
             else None
      else Some spaceCount
  end.

(** The second loop, [k] turns of
    [nums[i] = strtol(ptr, &ptr, 10);
     if (nums[i] < 0 || nums[i] > 255) return false;]. *)
Fixpoint color_nums (k : nat) (ptr : list byte) : option (list Z) :=
  match k with
  | O => Some []
  | S k =>
      let '(v, ptr) := strtol ptr in
      let v := int_of_long v in
      if (v <? 0) || (v >? 255) then None
      else option_map (cons v) (color_nums k ptr)
  end.

(** [ParseSDLColor(s, &color, n)].  The first loop stops below [n - 1],
    so [n] turns are all it can make. *)
Definition ParseSDLColor (s : list byte) (n : Z) : option SDL_Color :=
  match color_scan (Z.to_nat n) s n 0 0 with
  | None => None
  | Some spaceCount =>
      if negb (spaceCount =? 3) then None
      else
        match color_nums 4 s with
        | Some [r; g; b; a] => Some (SDL.mkColor r g b a)
        | _ => None
        end
  end.

(** [strncmp(a, b, n) == 0]: at most [n] bytes are compared, and none
    after a NUL.  A list that has run out stands for an array that ends
    in NUL. *)
Fixpoint strncmp_eq (n : nat) (a b : list byte) : bool :=
  match n with
  | O => true
  | S n =>
      let ca := hd x00 a in
      let cb := hd x00 b in
      if Byte.eqb ca cb
      then if is_nul ca then true else strncmp_eq n (tl a) (tl b)
      else false
  end.

(** The literals ["US"] and ["A4"]. *)
Definition str_US : list byte := [x55; x53; x00].

Definition str_A4 : list byte := [x41; x34; x00].

Definition ParsePaperSize (s : list byte) (n : Z) : option PaperSize :=
  if strncmp_eq (Z.to_nat n) str_US s then Some paperUS
  else if strncmp_eq (Z.to_nat n) str_A4 s then Some paperA4
  else None.

(** The value of a run of decimal digits. *)
Definition dec_value (ds : list byte) : Z :=
  fold_left (fun v c => 10 * v + (byte.unsigned c - 48)) ds 0.

Definition digits (ds : list byte) : Prop :=
  ds <> [] /\ forallb isdigit ds = true.

(** The next byte is no digit. *)
Definition stops (rest : list byte) : Prop := isdigit (hd x00 rest) = false.

(** *** Colours *)

(** What the first loop of [ParseSDLColor] does on a string. *)
Fixpoint scan_chars (str : list byte) (spaceCount : Z) : option Z :=
  match str with
  | [] => Some spaceCount
  | c :: str' =>
      if isdigit c then scan_chars str' spaceCount
      else if Byte.eqb c x20 then scan_chars str' (spaceCount + 1)
      else None
  end.

Definition spaces (k : nat) : list byte := repeat x20 k.

(** ** The configuration file ([LoadConfig])

    The stream [f] is the list of the bytes not yet read (the file is
    read as it is: no translation of line ends). *)

Definition MAX_PATHLEN : Z := 128.

(** The bytes [fgets] takes from the stream: [k] at most, up to and with
    the first newline. *)
Fixpoint fgets_read (k : nat) (f : list byte) : list byte * list byte :=
  match k, f with
  | S k, c :: f' =>
      if Byte.eqb c x0a then ([c], f')
      else let '(l, rest) := fgets_read k f' in (c :: l, rest)
  | _, _ => ([], f)
  end.

(** [fgets(line, n, f)]: at the end of the stream the array is left as it
    is and the result is [NULL] ([None]); otherwise the bytes read and a
    NUL go to the start of the array. *)
Definition fgets (line : list byte) (n : Z) (f : list byte)
  : option (list byte * list byte) :=
  match f with
  | [] => None
  | _ =>
      let '(l, rest) := fgets_read (Z.to_nat (n - 1)) f in
      Some (l ++ x00 :: skipn (length l + 1) line, rest)
  end.

(** [strncpy(dst, src, n)] into an array of [n] bytes: the string, and
    NULs up to [n]. *)
Definition strncpy (src : list byte) (n : Z) : list byte :=
  firstn (Z.to_nat n) (cstr src ++ repeat x00 (Z.to_nat n)).

(** How a run of [LoadConfig] ends. *)
Inductive ran (A : Type) : Type :=
| Returned (a : A)
| Asserted           (* an [assert] failed *)
| TurnsOut.          (* the turns of the model ran out *)
Arguments Returned {A} a.
Arguments Asserted {A}.
Arguments TurnsOut {A}.

(** What [LoadConfig] returns: [-1], or the number of the cards with the
    values it stored. *)
Record config : Type := mkConfig {
  cfg_paperSize : PaperSize;
  cfg_ppi : PPI;
  cfg_cardBGColor : SDL_Color;
  cfg_cardLineColor : SDL_Color;
  cfg_roundedcorners : Z;
  cfg_cards : list (list byte)
}.

Inductive loaded : Type :=
| ConfigError                      (* [return -1] *)
| Config (currCard : Z) (c : config).

(** [strlen(line) == 0 || line[0] == '#'] *)
Definition is_comment (line : list byte) : bool :=
  (strlen line =? 0) || Byte.eqb (char_at line 0) x23.

(** [fgets(line, MAX_PATHLEN, f); Trim(line, MAX_PATHLEN);] with the
    result of [fgets] not looked at. *)
Definition read_line (line f : list byte) : list byte * list byte :=
  match fgets line MAX_PATHLEN f with
  | Some (line, f) => (Trim line MAX_PATHLEN, f)
  | None => (Trim line MAX_PATHLEN, f)
  end.

(** [while (strlen(line) == 0 || line[0] == '#') { fgets; Trim }] *)
Fixpoint skip_comments (turns : nat) (line f : list byte)
  : option (list byte * list byte) :=
  match turns with
  | O => None
  | S turns =>
      if is_comment line
      then let '(line, f) := read_line line f in skip_comments turns line f
      else Some (line, f)
  end.

(** The reading of one field: a line, and the lines after it while they
    are empty or comments. *)
Definition next_field (turns : nat) (line f : list byte)
  : option (list byte * list byte) :=
  let '(line, f) := read_line line f in skip_comments turns line f.

(** The last loop,
    [while (currCard < MAX_CARDS && fgets(line, MAX_PATHLEN, f))]. *)
Fixpoint read_cards (turns : nat) (line f : list byte)
    (cards : list (list byte)) (currCard : Z)
  : option (list (list byte) * Z) :=
  match turns with
  | O => None
  | S turns =>
      if currCard <? MAX_CARDS then
        match fgets line MAX_PATHLEN f with
        | None => Some (cards, currCard)
        | Some (line, f) =>
            let line := Trim line MAX_PATHLEN in
            if (0 <? strlen line) && negb (Byte.eqb (char_at line 0) x23)
            then read_cards turns line f
                   (cards ++ [strncpy line MAX_PATHLEN]) (currCard + 1)
            else read_cards turns line f cards currCard
        end
      else Some (cards, currCard)
  end.

(** [LoadConfig] on a file that can be opened: [line] is what the array
    [line] holds at the start (it is not initialised), [f] the bytes of
    the file.  [ParseSDLColor] has an [assert] a line of the file can
    fail. *)
Definition LoadConfig (turns : nat) (line f : list byte) : ran loaded :=
  match next_field turns line f with
  | None => TurnsOut
  | Some (line, f) =>
  match ParsePaperSize line MAX_PATHLEN with
  | None => Returned ConfigError
  | Some paperSize =>
  match next_field turns line f with
  | None => TurnsOut
  | Some (line, f) =>
  match ParsePPI line with
  | None => Returned ConfigError
  | Some ppi =>
  match next_field turns line f with
  | None => TurnsOut
  | Some (line, f) =>
  if negb (strlen line <? MAX_PATHLEN - 1) then Asserted else
  match ParseSDLColor line MAX_PATHLEN with
  | None => Returned ConfigError
  | Some cardBGColor =>
  match next_field turns line f with
  | None => TurnsOut
  | Some (line, f) =>
  if negb (strlen line <? MAX_PATHLEN - 1) then Asserted else
  match ParseSDLColor line MAX_PATHLEN with
  | None => Returned ConfigError
  | Some cardLineColor =>
  match next_field turns line f with
  | None => TurnsOut
  | Some (line, f) =>
  if negb (strlen line =? 1) then Returned ConfigError else
  match (if Byte.eqb (char_at line 0) x30 then Some 0
         else if Byte.eqb (char_at line 0) x31 then Some 1
         else None) with
  | None => Returned ConfigError
  | Some roundedcorners =>
  match read_cards turns line f [] 0 with
  | None => TurnsOut
  | Some (cards, currCard) =>
      Returned (Config currCard
                  (mkConfig paperSize ppi cardBGColor cardLineColor
                            roundedcorners cards))
  end end end end end end end end end end end.

(** A string that is empty or starts with '#'. *)
Definition comment_str (str : list byte) : bool :=
  match str with
  | [] => true
  | c :: _ => Byte.eqb c x23
  end.

Definition strip (str : list byte) : list byte := rstrip (lstrip str).

(** Every line of the stream is empty or a comment once trimmed. *)
Inductive only_comments : list byte -> Prop :=
| oc_end : only_comments []
| oc_line (f l rest : list byte) :
    f <> [] ->
    fgets_read (Z.to_nat (MAX_PATHLEN - 1)) f = (l, rest) ->
    comment_str (strip (cstr l)) = true ->
    only_comments rest ->
    only_comments f.

(** The array [line]: [MAX_PATHLEN] bytes that hold a string. *)
Definition line_array (line : list byte) : Prop :=
  Z.of_nat (length line) = MAX_PATHLEN /\ strlen line < MAX_PATHLEN.

(** ** The entries of [cards] *)

(** An entry [LoadConfig] stores: an array of [MAX_PATHLEN] bytes with a
    trimmed string that is not empty and no comment, and NULs after it. *)
Definition card_entry (e : list byte) : Prop :=
  Z.of_nat (length e) = MAX_PATHLEN
  /\ cstr e <> []
  /\ comment_str (cstr e) = false
  /\ strip (cstr e) = cstr e
  /\ e = cstr e ++ repeat x00 (length e - length (cstr e)).

(** The fields of a colour fit the [Uint8] they are stored in. *)
Definition color_in_range (c : SDL_Color) : Prop :=
  0 <= SDL.r c <= 255 /\ 0 <= SDL.g c <= 255 /\ 0 <= SDL.b c <= 255
  /\ 0 <= SDL.a c <= 255.

(** ** A well-formed file *)

(** A line of text as [LoadConfig] reads it whole: no NUL and no newline
    in it, no white space at its ends, short enough for the array. *)
Definition text_line (str : list byte) : Prop :=
  no_nul str /\ ~ In x0a str
  /\ lstrip str = str /\ rstrip str = str
  /\ (length str <= 126)%nat.

Definition paper_text (p : PaperSize) : list byte :=
  match p with
  | paperUS => [x55; x53]
  | paperA4 => [x41; x34]
  end.

Definition ppi_text (q : PPI) : list byte :=
  match q with
  | ppi300 => [x33; x30; x30]
  | ppi600 => [x36; x30; x30]
  | ppi1200 => [x31; x32; x30; x30]
  end.

(** Four numbers with one space between them. *)
Definition color_text (dr dg db da : list byte) : list byte :=
  dr ++ spaces 1 ++ dg ++ spaces 1 ++ db ++ spaces 1 ++ da.

Definition toggle_text (rc : bool) : list byte :=
  if rc then [x31] else [x30].

Definition text_lines (ls : list (list byte)) : list byte :=
  concat (map (fun l => l ++ [x0a]) ls).

(** The entry of [cards] for a name. *)
Definition card_array (name : list byte) : list byte :=
  name ++ repeat x00 (Z.to_nat MAX_PATHLEN - length name).

(** The four numbers of a colour line. *)
Definition color_digits (dr dg db da : list byte) : Prop :=
  digits dr /\ digits dg /\ digits db /\ digits da
  /\ dec_value dr <= 255 /\ dec_value dg <= 255 /\ dec_value db <= 255
  /\ dec_value da <= 255
  /\ (length (color_text dr dg db da) <= 126)%nat.

(** A name of a card in the file. *)
Definition card_name (c : list byte) : Prop :=
  text_line c /\ comment_str c = false.

(** The text of a configuration: the five fields and the names of the
    cards, a line each. *)
Definition config_text (p : PaperSize) (q : PPI)
    (bg ln : list byte * list byte * list byte * list byte)
    (rc : bool) (cards : list (list byte)) : list byte :=
  let '(br, bgn, bb, ba) := bg in
  let '(lr, lg, lb, la) := ln in
  text_lines ([paper_text p; ppi_text q; color_text br bgn bb ba;
               color_text lr lg lb la; toggle_text rc] ++ cards).

(** ** The names of the output files ([main]) *)

Definition OUTPUT_SUFFIX_LEN : Z := 6.
Definition OUTPUT_PATHLEN : Z := MAX_PATHLEN - OUTPUT_SUFFIX_LEN.

(** [char outputPrefix[OUTPUT_PATHLEN-1] = "page"]. *)
Definition outputPrefix_default : list byte :=
  [x70; x61; x67; x65] ++ repeat x00 (Z.to_nat (OUTPUT_PATHLEN - 1) - 4).

(** The array [outputPrefix] after the arguments are read; [None] is
    [exit(1)].  [arg] is [argv[2]], a string with its NUL, where there is
    one. *)
Definition outputPrefix (arg : option (list byte)) : option (list byte) :=
  match arg with
  | None => Some outputPrefix_default
  | Some arg =>
      if strlen arg >=? OUTPUT_PATHLEN then None
      else Some (strncpy arg (OUTPUT_PATHLEN - 1))
  end.

(** The decimal digits of [v >= 0], the last one first in the
    recursion; an [int] has ten digits at most. *)
Fixpoint dec_digits (fuel : nat) (v : Z) (acc : list byte) : list byte :=
  match fuel with
  | O => acc
  | S fuel =>
      let acc := byte.of_Z (48 + v mod 10) :: acc in
      if v / 10 =? 0 then acc else dec_digits fuel (v / 10) acc
  end.

Definition zero_pad (width : nat) (ds : list byte) : list byte :=
  repeat x30 (width - length ds) ++ ds.

(** [%02d] of an [int]. *)
Definition fmt_02d (v : Z) : list byte :=
  if v <? 0 then x2d :: zero_pad 1 (dec_digits 10 (- v) [])
  else zero_pad 2 (dec_digits 10 v []).

Definition suffix_png : list byte := [x2e; x70; x6e; x67].

(** What [sprintf(outputFilename, "%s%02d.png", outputPrefix, currPage+1)]
    writes before the NUL, for a prefix that is a string. *)
Definition outputFilename (prefix : list byte) (currPage : Z) : list byte :=
  cstr prefix ++ fmt_02d (currPage + 1) ++ suffix_png.

(** ** Sample inputs of the program *)

(** A stream with no IDAT: IHDR, a stale pHYs and IEND, as bytes and
    chunk by chunk. *)
Definition no_idat_png : list byte :=
  let s := PNG_SIG in
  let s := _png_write_chunk s tag_IHDR [x00; x00; x00; x01; x00; x00; x00; x01;
                                        x08; x00; x00; x00; x00] in
  let s := _png_write_chunk s tag_pHYs [x00; x00; x0b; x13; x00; x00; x0b; x13;
                                        x01] in
  _png_write_chunk s tag_IEND [].

Definition no_idat_chunks : list chunk :=
  [_png_write_chunk [] tag_IHDR [x00; x00; x00; x01; x00; x00; x00; x01;
                                 x08; x00; x00; x00; x00];
   _png_write_chunk [] tag_pHYs [x00; x00; x0b; x13; x00; x00; x0b; x13;
                                 x01];
   _png_write_chunk [] tag_IEND []].

(** A configuration of one card, with its colours "255 255 255 255" and
    "0 0 0 255", and the array [line] before the first [fgets]. *)
Definition sample_card_name : list byte := [x61; x2e; x70; x6e; x67].

Definition digits_255 : list byte := [x32; x35; x35].

Definition sample_config : list byte :=
  config_text paperA4 ppi600
    (digits_255, digits_255, digits_255, digits_255)
    ([x30], [x30], [x30], digits_255) true [sample_card_name].

Definition line_at_start : list byte := repeat x00 (Z.to_nat MAX_PATHLEN).

(** A file of a comment and an empty line. *)
Definition comments_only : list byte := [x23; x20; x63; x0a; x0a].

(** * Properties *)

(** ** Bytes, spans and 32-bit fields *)

Lemma bytes_eqb_eq (a b : list byte) : bytes_eqb a b = true <-> a = b.
Proof.
  revert b; induction a as [|x a IH]; intros [|y b]; simpl;
    try (split; [discriminate | discriminate]); try tauto.
  rewrite andb_true_iff, IH. split.
  - intros [Hxy ->]. apply Byte.byte_dec_bl in Hxy. now subst.
  - intros [= -> ->]. split; [now apply Byte.byte_dec_lb | reflexivity].
Qed.

Lemma bytes_eqb_refl (a : list byte) : bytes_eqb a a = true.
Proof. now apply bytes_eqb_eq. Qed.

Lemma bytes_eqb_neq (a b : list byte) : bytes_eqb a b = false <-> a <> b.
Proof.
  rewrite <- bytes_eqb_eq. destruct (bytes_eqb a b); split; congruence.
Qed.

Lemma sub_length (buf : list byte) (off n : Z) :
  0 <= off -> 0 <= n -> off + n <= Z.of_nat (length buf) ->
  Z.of_nat (length (sub buf off n)) = n.
Proof.
  intros Hoff Hn Hle. unfold sub.
  rewrite length_firstn, length_skipn. lia.
Qed.

Lemma sub_length_le (buf : list byte) (off n : Z) :
  0 <= n -> Z.of_nat (length (sub buf off n)) <= n.
Proof. intros Hn. unfold sub. rewrite length_firstn. lia. Qed.

Lemma sub_length_le_buf (buf : list byte) (off n : Z) :
  (length (sub buf off n) <= length buf)%nat.
Proof. unfold sub. rewrite length_firstn, length_skipn. lia. Qed.

Lemma sub_sub (buf : list byte) (off m i n : Z) :
  0 <= off -> 0 <= i -> 0 <= n -> i + n <= m ->
  sub (sub buf off m) i n = sub buf (off + i) n.
Proof.
  intros Hoff Hi Hn Hle. unfold sub.
  rewrite skipn_firstn_comm, firstn_firstn, skipn_skipn.
  f_equal; [lia | f_equal; lia].
Qed.

Lemma sub_app_at (pre c rest : list byte) (i n : Z) :
  0 <= i -> 0 <= n -> i + n <= Z.of_nat (length c) ->
  sub (pre ++ c ++ rest) (Z.of_nat (length pre) + i) n = sub c i n.
Proof.
  intros Hi Hn Hle. unfold sub.
  replace (Z.to_nat (Z.of_nat (length pre) + i))
    with (Z.to_nat i + length pre)%nat by lia.
  rewrite <- skipn_skipn, (skipn_app (length pre)), skipn_all, Nat.sub_diag.
  simpl. rewrite skipn_app, firstn_app.
  replace (Z.to_nat n - length (skipn (Z.to_nat i) c))%nat with 0%nat
    by (rewrite length_skipn; lia).
  rewrite firstn_O, app_nil_r. reflexivity.
Qed.

Lemma sub_app_at0 (pre c rest : list byte) (n : Z) :
  0 <= n -> n <= Z.of_nat (length c) ->
  sub (pre ++ c ++ rest) (Z.of_nat (length pre)) n = sub c 0 n.
Proof.
  intros Hn Hle. rewrite <- (Z.add_0_r (Z.of_nat (length pre))).
  apply sub_app_at; lia.
Qed.

Lemma sub_whole (c : list byte) : sub c 0 (Z.of_nat (length c)) = c.
Proof. unfold sub. simpl. rewrite Nat2Z.id. apply firstn_all. Qed.

Lemma sub_prefix (a b : list byte) :
  sub (a ++ b) 0 (Z.of_nat (length a)) = a.
Proof.
  unfold sub. simpl. rewrite Nat2Z.id, firstn_app, Nat.sub_diag, firstn_all.
  simpl. apply app_nil_r.
Qed.

Lemma lor_range (n a b : Z) :
  0 <= n -> 0 <= a < 2 ^ n -> 0 <= b < 2 ^ n -> 0 <= Z.lor a b < 2 ^ n.
Proof.
  intros Hn Ha Hb.
  rewrite <- (Z.mod_small a (2 ^ n)), <- (Z.mod_small b (2 ^ n)) by lia.
  rewrite <- !Z.land_ones, <- Z.land_lor_distr_l, Z.land_ones by lia.
  apply Z.mod_pos_bound. lia.
Qed.

Lemma lxor_range (n a b : Z) :
  0 <= n -> 0 <= a < 2 ^ n -> 0 <= b < 2 ^ n -> 0 <= Z.lxor a b < 2 ^ n.
Proof.
  intros Hn Ha Hb.
  replace (Z.lxor a b) with (Z.lxor a b mod 2 ^ n);
    [apply Z.mod_pos_bound; lia|].
  rewrite <- (Z.mod_small a (2 ^ n)) at 2 by lia.
  rewrite <- (Z.mod_small b (2 ^ n)) at 2 by lia.
  Z.bitblast.
Qed.

Lemma shiftl_byte_range (b : byte) (k : Z) :
  0 <= k <= 24 -> 0 <= Z.shiftl (byte.unsigned b) k < 2 ^ 32.
Proof.
  intros Hk. pose proof (byte.unsigned_range b) as Hb.
  rewrite Z.shiftl_mul_pow2 by lia.
  assert (0 < 2 ^ k) by (apply Z.pow_pos_nonneg; lia).
  assert (2 ^ 8 * 2 ^ k <= 2 ^ 32).
  { rewrite <- Z.pow_add_r by lia. apply Z.pow_le_mono_r; lia. }
  nia.
Qed.

Lemma _png_read_u32_be_range (b : list byte) :
  0 <= _png_read_u32_be b < 2 ^ 32.
Proof.
  unfold _png_read_u32_be.
  repeat apply lor_range; try lia;
    try (apply shiftl_byte_range; lia).
  pose proof (byte.unsigned_range (nth 3 b x00)). lia.
Qed.

Lemma _png_write_u32_be_length (v : Z) : length (_png_write_u32_be v) = 4%nat.
Proof. reflexivity. Qed.

Lemma _png_read_write_u32_be (v : Z) :
  0 <= v < 2 ^ 32 -> _png_read_u32_be (_png_write_u32_be v) = v.
Proof.
  intros Hv. unfold _png_read_u32_be, _png_write_u32_be. simpl nth.
  rewrite !byte.unsigned_of_Z. unfold byte.wrap.
  rewrite <- (Z.mod_small v (2 ^ 32)) at 5 by lia.
  Z.bitblast.
Qed.

(** ** The checksum *)

Lemma crc_shift_is_crc32_bit (c : Z) : crc_shift c = crc32_bit c.
Proof.
  unfold crc_shift, crc32_bit.
  change (Z.land c 1) with (Z.land c (Z.ones 1)).
  rewrite Z.land_ones by lia. change (2 ^ 1) with 2.
  rewrite <- Z.bit0_mod.
  destruct (Z.testbit c 0); cbn [Z.b2z Z.eqb]; cbv iota;
    [apply Z.lxor_comm | reflexivity].
Qed.

Lemma iter_crc_shift (n : nat) (c : Z) :
  Nat.iter n crc_shift c = Nat.iter n crc32_bit c.
Proof.
  induction n as [|n IH]; simpl; [reflexivity|].
  now rewrite IH, crc_shift_is_crc32_bit.
Qed.

(** The bit step is linear over XOR. *)
Lemma crc32_bit_lxor (a b : Z) :
  crc32_bit (Z.lxor a b) = Z.lxor (crc32_bit a) (crc32_bit b).
Proof.
  unfold crc32_bit. rewrite Z.lxor_spec, Z.shiftr_lxor.
  set (sa := Z.shiftr a 1). set (sb := Z.shiftr b 1).
  set (P := 0xEDB88320).
  destruct (Z.testbit a 0), (Z.testbit b 0); simpl.
  - rewrite (Z.lxor_comm sb P), Z.lxor_assoc, <- (Z.lxor_assoc P P sb).
    now rewrite Z.lxor_nilpotent, Z.lxor_0_l.
  - rewrite !Z.lxor_assoc. f_equal. apply Z.lxor_comm.
  - now rewrite Z.lxor_assoc.
  - reflexivity.
Qed.

Lemma iter_crc32_bit_lxor (n : nat) (a b : Z) :
  Nat.iter n crc32_bit (Z.lxor a b)
  = Z.lxor (Nat.iter n crc32_bit a) (Nat.iter n crc32_bit b).
Proof.
  induction n as [|n IH]; simpl; [reflexivity|].
  now rewrite IH, crc32_bit_lxor.
Qed.

(** Bits above the ones the steps consume only move down. *)
Lemma iter_crc32_bit_high (n : nat) (h j : Z) :
  0 <= j ->
  Nat.iter n crc32_bit (Z.shiftl h (Z.of_nat n + j)) = Z.shiftl h j.
Proof.
  revert j; induction n as [|n IH]; intros j Hj.
  - reflexivity.
  - replace (Z.of_nat (S n) + j) with (Z.of_nat n + (j + 1)) by lia.
    rewrite Nat.iter_succ, IH by lia. unfold crc32_bit.
    rewrite Z.shiftl_spec_low by lia.
    rewrite Z.shiftr_shiftl_l by lia. f_equal. lia.
Qed.

Lemma iter8_split (x : Z) :
  Nat.iter 8 crc32_bit x
  = Z.lxor (Nat.iter 8 crc32_bit (Z.land x 0xFF)) (Z.shiftr x 8).
Proof.
  pose proof (iter_crc32_bit_high 8 (Z.shiftr x 8) 0 (Z.le_refl 0)) as Hhigh.
  rewrite Z.shiftl_0_r in Hhigh. rewrite <- Hhigh.
  rewrite <- iter_crc32_bit_lxor. f_equal.
  change 0xFF with (Z.ones 8). change (Z.of_nat 8 + 0) with 8.
  Z.bitblast.
Qed.

Lemma _png_crc_table_entry (i : Z) :
  0 <= i < 256 -> _png_crc_table i = Nat.iter 8 crc_shift i.
Proof.
  intros Hi. unfold _png_crc_table, _png_crc_make_table.
  set (f := fun n : nat => Nat.iter 8 crc_shift (Z.of_nat n)).
  rewrite (nth_indep _ 0 (f 0%nat))
    by (rewrite length_map, length_seq; lia).
  rewrite map_nth, seq_nth by lia. unfold f. simpl Nat.add.
  now rewrite Z2Nat.id by lia.
Qed.

Lemma low_byte_range (x : Z) : 0 <= Z.land x 0xFF < 256.
Proof.
  change 0xFF with (Z.ones 8). rewrite Z.land_ones by lia.
  apply Z.mod_pos_bound. lia.
Qed.

Lemma shiftr_lxor_byte (c : Z) (b : byte) :
  Z.shiftr (Z.lxor c (byte.unsigned b)) 8 = Z.shiftr c 8.
Proof.
  rewrite Z.shiftr_lxor.
  rewrite (Z.shiftr_div_pow2 (byte.unsigned b)) by lia.
  rewrite Z.div_small by apply byte.unsigned_range.
  apply Z.lxor_0_r.
Qed.

(** One table lookup does the eight bit steps of the reference. *)
Lemma crc_update_is_crc32_byte (c : Z) (b : byte) :
  crc_update c b = crc32_byte c b.
Proof.
  unfold crc_update, crc32_byte.
  rewrite _png_crc_table_entry by apply low_byte_range.
  rewrite iter_crc_shift, (iter8_split (Z.lxor c _)).
  now rewrite shiftr_lxor_byte.
Qed.

Lemma fold_crc_update (buf : list byte) (c : Z) :
  fold_left crc_update buf c = fold_left crc32_byte buf c.
Proof.
  revert c; induction buf as [|b buf IH]; intros c; simpl; [reflexivity|].
  now rewrite crc_update_is_crc32_byte, IH.
Qed.

Lemma lxor_twice (a m : Z) : Z.lxor (Z.lxor a m) m = a.
Proof. now rewrite Z.lxor_assoc, Z.lxor_nilpotent, Z.lxor_0_r. Qed.

(** Feeding the result back in continues the checksum. *)
Lemma _png_crc32_app (a b : list byte) (crc : Z) :
  _png_crc32 b (_png_crc32 a crc) = _png_crc32 (a ++ b) crc.
Proof.
  unfold _png_crc32. now rewrite lxor_twice, fold_left_app.
Qed.

Lemma crc32_bit_range (c : Z) :
  0 <= c < 2 ^ 32 -> 0 <= crc32_bit c < 2 ^ 32.
Proof.
  intros Hc. unfold crc32_bit.
  assert (0 <= Z.shiftr c 1 < 2 ^ 32).
  { rewrite Z.shiftr_div_pow2 by lia. change (2 ^ 1) with 2.
    split; [apply Z.div_pos; lia|].
    apply Z.div_lt_upper_bound; lia. }
  destruct (Z.testbit c 0); [apply lxor_range; lia | assumption].
Qed.

Lemma crc32_byte_range (c : Z) (b : byte) :
  0 <= c < 2 ^ 32 -> 0 <= crc32_byte c b < 2 ^ 32.
Proof.
  intros Hc. unfold crc32_byte.
  assert (Hx : 0 <= Z.lxor c (byte.unsigned b) < 2 ^ 32).
  { apply lxor_range; [lia | lia |].
    pose proof (byte.unsigned_range b). lia. }
  revert Hx. generalize (Z.lxor c (byte.unsigned b)). intros x Hx.
  do 8 (rewrite Nat.iter_succ; apply crc32_bit_range). exact Hx.
Qed.

Lemma _png_crc32_range (buf : list byte) (crc : Z) :
  0 <= crc < 2 ^ 32 -> 0 <= _png_crc32 buf crc < 2 ^ 32.
Proof.
  intros Hc. unfold _png_crc32. rewrite fold_crc_update.
  apply lxor_range; [lia | | lia].
  assert (H0 : 0 <= Z.lxor crc 0xFFFFFFFF < 2 ^ 32)
    by (apply lxor_range; lia).
  revert H0. generalize (Z.lxor crc 0xFFFFFFFF).
  induction buf as [|b buf IH]; intros c Hr; simpl; [exact Hr|].
  apply IH. now apply crc32_byte_range.
Qed.

Lemma _png_crc32_reference (buf : list byte) :
  _png_crc32 buf 0 = crc32_reference buf.
Proof.
  unfold _png_crc32, crc32_reference.
  change (Z.lxor 0 0xFFFFFFFF) with 0xFFFFFFFF.
  now rewrite fold_crc_update.
Qed.

(** The reference is the CRC-32 of the standard: its check value. *)
Example crc32_reference_check :
  crc32_reference [x31; x32; x33; x34; x35; x36; x37; x38; x39] = 0xCBF43926.
Proof. vm_compute. reflexivity. Qed.

(** C9.  The table-driven [_png_crc32], started with a running value of 0
    as the program starts it, computes on every byte sequence the standard
    reflected CRC-32 of the specification: polynomial 0xEDB88320, initial
    value 0xFFFFFFFF, final XOR 0xFFFFFFFF, taken one bit at a time. *)
Theorem png_crc32_is_reference :
  forall buf : list byte, _png_crc32 buf 0 = crc32_reference buf.
Proof. exact _png_crc32_reference. Qed.

(** ** The head of the loop *)

Lemma read_head_inv (buf : list byte) (p len next : Z) (type : list byte) :
  0 <= p ->
  read_head buf p = Head len type next ->
  p + 12 <= Z.of_nat (length buf)
  /\ len = _png_read_u32_be (sub buf p 4)
  /\ type = sub buf (p + 4) 4
  /\ next = p + 12 + len
  /\ 0 <= len < 2 ^ 32
  /\ u32 (len + 4) <= Z.of_nat (length buf) - (p + 8).
Proof.
  intros Hp. unfold read_head.
  destruct (p + 12 <=? Z.of_nat (length buf)) eqn:Hroom; [|discriminate].
  destruct (Z.of_nat (length buf) - (p + 8) <? _) eqn:Hchk; [discriminate|].
  intros [= <- <- <-].
  apply Z.leb_le in Hroom. apply Z.ltb_ge in Hchk.
  pose proof (_png_read_u32_be_range (sub buf p 4)).
  repeat split; try reflexivity; lia.
Qed.

(** The tag of the span the loop copies is the tag the head read, also
    when the declared length runs past the buffer. *)
Lemma copied_chunk_type (buf : list byte) (p len : Z) :
  0 <= p -> 0 <= len ->
  chunk_type (sub buf p (4 + 4 + len + 4)) = sub buf (p + 4) 4.
Proof. intros Hp Hl. unfold chunk_type. apply sub_sub; lia. Qed.

Lemma copied_chunk_len (buf : list byte) (p len : Z) :
  0 <= p -> 0 <= len ->
  chunk_len (sub buf p (4 + 4 + len + 4)) = _png_read_u32_be (sub buf p 4).
Proof.
  intros Hp Hl. unfold chunk_len. rewrite sub_sub by lia.
  now rewrite Z.add_0_r.
Qed.

(** A whole chunk in the middle of a buffer is read back as it is. *)
Lemma read_head_whole (pre c rest : list byte) :
  whole c ->
  read_head (pre ++ c ++ rest) (Z.of_nat (length pre))
  = Head (chunk_len c) (chunk_type c) (Z.of_nat (length (pre ++ c)))
  /\ sub (pre ++ c ++ rest) (Z.of_nat (length pre)) (4 + 4 + chunk_len c + 4)
     = c.
Proof.
  intros [Hlen Hwrap].
  pose proof (_png_read_u32_be_range (sub c 0 4)) as Hr.
  fold (chunk_len c) in Hr.
  assert (Hsz : Z.of_nat (length (pre ++ c ++ rest))
                = Z.of_nat (length pre) + Z.of_nat (length c)
                  + Z.of_nat (length rest))
    by (rewrite !length_app; lia).
  split.
  - unfold read_head. rewrite Hsz.
    destruct (_ <=? _) eqn:Hroom; [|apply Z.leb_gt in Hroom; lia].
    rewrite sub_app_at0, sub_app_at by lia.
    fold (chunk_len c). fold (chunk_type c).
    unfold u32. rewrite Z.mod_small by lia.
    destruct (_ <? _) eqn:Hchk; [apply Z.ltb_lt in Hchk; lia|].
    f_equal. rewrite length_app. lia.
  - rewrite sub_app_at0 by lia. rewrite <- Hlen. apply sub_whole.
Qed.

Lemma head_tags (buf : list byte) (p len next : Z) (type : list byte) :
  0 <= p ->
  read_head buf p = Head len type next ->
  let c := sub buf p (4 + 4 + len + 4) in
  is_pHYs c = bytes_eqb type tag_pHYs
  /\ is_IDAT c = bytes_eqb type tag_IDAT
  /\ is_IEND c = bytes_eqb type tag_IEND.
Proof.
  intros Hp Hh. destruct (read_head_inv _ _ _ _ _ Hp Hh)
    as (_ & _ & -> & _ & Hlen & _).
  cbv zeta. unfold is_pHYs, is_IDAT, is_IEND.
  now rewrite copied_chunk_type by lia.
Qed.

(** A chunk that passed the bound check and fits the output buffer is
    whole: its declared length did not wrap the check. *)
Lemma copied_chunk_whole (buf : list byte) (p len next used : Z)
    (type : list byte) :
  0 <= p -> 0 <= used ->
  read_head buf p = Head len type next ->
  used + 4 + 4 + len + 4 <= PNG_OUT_CAP ->
  Z.of_nat (length (sub buf p (4 + 4 + len + 4))) = 4 + 4 + len + 4
  /\ whole (sub buf p (4 + 4 + len + 4)).
Proof.
  intros Hp Hu Hh Hcap.
  destruct (read_head_inv _ _ _ _ _ Hp Hh)
    as (Hroom & Hlen & _ & Hnext & Hrange & Hchk).
  assert (Hnowrap : len + 4 < 2 ^ 32)
    by (unfold PNG_OUT_CAP, MAX_PNG_SIZE in Hcap; lia).
  unfold u32 in Hchk. rewrite Z.mod_small in Hchk by lia.
  assert (Hl : Z.of_nat (length (sub buf p (4 + 4 + len + 4)))
               = 4 + 4 + len + 4) by (apply sub_length; lia).
  split; [exact Hl|]. unfold whole.
  rewrite copied_chunk_len, <- Hlen by lia. split; assumption.
Qed.

Lemma pHYs_is_no_other_tag (type : list byte) :
  bytes_eqb type tag_pHYs = true ->
  bytes_eqb type tag_IDAT = false /\ bytes_eqb type tag_IEND = false.
Proof. intros H. apply bytes_eqb_eq in H. subst. split; reflexivity. Qed.

Lemma IEND_is_not_IDAT (type : list byte) :
  bytes_eqb type tag_IEND = true -> bytes_eqb type tag_IDAT = false.
Proof. intros H. apply bytes_eqb_eq in H. subst. reflexivity. Qed.

(** ** The loops end *)

Lemma rebuild_loop_total (fuel : nat) :
  forall buf ppm p wrote out,
    0 <= p ->
    Z.max 0 (Z.of_nat (length buf) - p) < Z.of_nat fuel ->
    rebuild_loop fuel buf ppm p wrote out <> OutOfFuel.
Proof.
  induction fuel as [|fuel IH]; intros buf ppm p wrote out Hp Hfuel; [lia|].
  cbn [rebuild_loop].
  destruct (read_head buf p) as [| |len type next] eqn:Hh; try discriminate.
  destruct (read_head_inv _ _ _ _ _ Hp Hh) as (Hroom & _ & _ & -> & Hlen & _).
  assert (Hnext : rebuild_loop fuel buf ppm (p + 12 + len) wrote out
                  <> OutOfFuel) by (apply IH; lia).
  destruct (bytes_eqb type tag_pHYs); [exact Hnext|].
  destruct (if negb wrote && bytes_eqb type tag_IDAT
            then _png_emit_pHYs_to_mem out PNG_OUT_CAP ppm else Some out);
    [|discriminate].
  destruct (_ >? PNG_OUT_CAP); [discriminate|].
  destruct (bytes_eqb type tag_IEND); [discriminate|].
  apply IH; lia.
Qed.

Lemma scan_loop_total (fuel : nat) :
  forall buf p,
    0 <= p ->
    Z.max 0 (Z.of_nat (length buf) - p) < Z.of_nat fuel ->
    scan_loop fuel buf p <> OutOfFuel.
Proof.
  induction fuel as [|fuel IH]; intros buf p Hp Hfuel; [lia|].
  cbn [scan_loop].
  destruct (read_head buf p) as [| |len type next] eqn:Hh; try discriminate.
  destruct (read_head_inv _ _ _ _ _ Hp Hh) as (Hroom & _ & _ & -> & Hlen & _).
  destruct (bytes_eqb type tag_IEND); [discriminate|].
  specialize (IH buf (p + 12 + len)).
  destruct (scan_loop fuel buf (p + 12 + len)); try discriminate.
  apply IH; lia.
Qed.

Lemma png_rebuild_total (buf : list byte) (dpi : Z) :
  png_rebuild buf dpi <> OutOfFuel.
Proof.
  unfold png_rebuild. destruct (_ || _); [discriminate|].
  apply rebuild_loop_total; unfold PNG_SIG_BYTES; lia.
Qed.

Lemma png_chunks_total (buf : list byte) : png_chunks buf <> OutOfFuel.
Proof.
  unfold png_chunks. apply scan_loop_total; unfold PNG_SIG_BYTES; lia.
Qed.

(** The only early returns of the loop are 21, 22 and 23. *)
Lemma rebuild_loop_fail (fuel : nat) :
  forall buf ppm p wrote out rc,
    rebuild_loop fuel buf ppm p wrote out = Fail rc ->
    rc = 21 \/ rc = 22 \/ rc = 23.
Proof.
  induction fuel as [|fuel IH]; intros buf ppm p wrote out rc; [discriminate|].
  cbn [rebuild_loop].
  destruct (read_head buf p) as [| |len type next]; try discriminate.
  - intros [= <-]. auto.
  - destruct (bytes_eqb type tag_pHYs); [apply IH|].
    destruct (if negb wrote && bytes_eqb type tag_IDAT
              then _png_emit_pHYs_to_mem out PNG_OUT_CAP ppm else Some out);
      [|intros [= <-]; auto].
    destruct (_ >? PNG_OUT_CAP); [intros [= <-]; auto|].
    destruct (bytes_eqb type tag_IEND); [discriminate|apply IH].
Qed.

(** ** What the loop writes *)

Lemma place_nil (w : bool) (phys : chunk) : place w phys [] = [].
Proof. now destruct w. Qed.

Lemma filter_drop (c : chunk) (cs : list chunk) :
  is_pHYs c = true -> filter not_pHYs (c :: cs) = filter not_pHYs cs.
Proof. intros H. cbn [filter]. unfold not_pHYs at 1. now rewrite H. Qed.

Lemma filter_keep (c : chunk) (cs : list chunk) :
  is_pHYs c = false -> filter not_pHYs (c :: cs) = c :: filter not_pHYs cs.
Proof. intros H. cbn [filter]. unfold not_pHYs at 1. now rewrite H. Qed.

(** A run of the loop that reaches the end of the function has written,
    after the output it started with, the chunks of the walk under the
    copy policy; every chunk it copied is whole. *)
Lemma rebuild_loop_done (fuel : nat) :
  forall buf ppm p wrote out out',
    0 <= p ->
    rebuild_loop fuel buf ppm p wrote out = Done out' ->
    exists cs,
      scan_loop fuel buf p = Done cs
      /\ out' = out ++ concat (place wrote (pHYs_bytes ppm)
                                 (filter not_pHYs cs))
      /\ Forall whole (filter not_pHYs cs)
      /\ (Z.of_nat (length out) <= PNG_OUT_CAP ->
          Z.of_nat (length out') <= PNG_OUT_CAP).
Proof.
  induction fuel as [|fuel IH]; intros buf ppm p wrote out out' Hp;
    [discriminate|].
  cbn [rebuild_loop scan_loop].
  destruct (read_head buf p) as [| |len type next] eqn:Hh; try discriminate.
  - intros [= <-]. exists []. cbn [filter]. rewrite place_nil. cbn [concat].
    rewrite app_nil_r. auto.
  - destruct (head_tags _ _ _ _ _ Hp Hh) as (HtP & HtD & HtE).
    destruct (read_head_inv _ _ _ _ _ Hp Hh)
      as (Hroom & Hlen & _ & Hnext & Hrange & Hchk).
    set (c := sub buf p (4 + 4 + len + 4)) in *.
    assert (Hn : 0 <= next) by lia.
    destruct (bytes_eqb type tag_pHYs) eqn:EP.
    + destruct (pHYs_is_no_other_tag _ EP) as (_ & ->).
      intros Hrun. destruct (IH _ _ _ _ _ _ Hn Hrun) as (cs & -> & Hout & Hw).
      exists (c :: cs). rewrite filter_drop by exact HtP. auto.
    + destruct (negb wrote && bytes_eqb type tag_IDAT) eqn:Einj.
      * apply andb_true_iff in Einj. destruct Einj as (Hw0 & ED).
        apply negb_true_iff in Hw0. subst wrote.
        unfold _png_emit_pHYs_to_mem.
        destruct (_ + 9 + 4 >? PNG_OUT_CAP) eqn:Ecap1; [discriminate|].
        cbv iota.
        destruct (_ + len + 4 >? PNG_OUT_CAP) eqn:Ecap2; [discriminate|].
        rewrite Z.gtb_ltb in Ecap2. apply Z.ltb_ge in Ecap2.
        destruct (copied_chunk_whole _ _ _ _ _ _ Hp (Nat2Z.is_nonneg _) Hh Ecap2)
          as (Hl & Hwhole). fold c in Hl, Hwhole.
        assert (ENE : bytes_eqb type tag_IEND = false).
        { apply bytes_eqb_eq in ED. subst type. reflexivity. }
        rewrite ENE. cbn [orb].
        intros Hrun. destruct (IH _ _ _ _ _ _ Hn Hrun) as (cs & -> & Hout & Hw & Hc).
        exists (c :: cs). rewrite filter_keep by exact HtP.
        cbn [place insert_before_IDAT].
        rewrite HtD, ED. cbn [concat]. cbn [place] in Hout.
        split; [reflexivity|]. split; [rewrite Hout, <- !app_assoc; reflexivity|].
        split; [constructor; assumption|].
        intros _. apply Hc. rewrite length_app. lia.
      * destruct (_ + len + 4 >? PNG_OUT_CAP) eqn:Ecap2; [discriminate|].
        rewrite Z.gtb_ltb in Ecap2. apply Z.ltb_ge in Ecap2.
        destruct (copied_chunk_whole _ _ _ _ _ _ Hp (Nat2Z.is_nonneg _) Hh Ecap2)
          as (Hl & Hwhole). fold c in Hl, Hwhole.
        assert (Hlc : Z.of_nat (length (out ++ c)) <= PNG_OUT_CAP).
        { rewrite length_app. lia. }
        assert (Hp2 : forall cs, place wrote (pHYs_bytes ppm) (c :: cs)
                                 = c :: place wrote (pHYs_bytes ppm) cs).
        { intros cs. unfold place. destruct wrote; [reflexivity|].
          cbn [negb andb] in Einj. cbn [insert_before_IDAT].
          now rewrite HtD, Einj. }
        rewrite orb_false_r.
        destruct (bytes_eqb type tag_IEND) eqn:EE.
        -- intros [= <-]. exists [c]. rewrite filter_keep by exact HtP.
           cbn [filter]. rewrite Hp2, place_nil. cbn [concat].
           rewrite app_nil_r. repeat split; auto.
        -- intros Hrun.
           destruct (IH _ _ _ _ _ _ Hn Hrun) as (cs & -> & Hout & Hw & Hc).
           exists (c :: cs). rewrite filter_keep by exact HtP.
           rewrite Hp2. cbn [concat].
           split; [reflexivity|].
           split; [rewrite Hout, <- !app_assoc; reflexivity|].
           split; [constructor; assumption|]. intros _. apply Hc, Hlc.
Qed.

(** ** The synthesized chunk *)

Lemma pHYs_bytes_length (ppm : Z) : Z.of_nat (length (pHYs_bytes ppm)) = 21.
Proof. reflexivity. Qed.

Lemma pHYs_bytes_type (ppm : Z) : chunk_type (pHYs_bytes ppm) = tag_pHYs.
Proof. reflexivity. Qed.

Lemma pHYs_bytes_len (ppm : Z) : chunk_len (pHYs_bytes ppm) = 9.
Proof.
  unfold chunk_len.
  change (sub (pHYs_bytes ppm) 0 4) with (_png_write_u32_be 9).
  apply _png_read_write_u32_be. lia.
Qed.

Lemma pHYs_bytes_whole (ppm : Z) : whole (pHYs_bytes ppm).
Proof.
  unfold whole. rewrite pHYs_bytes_len, pHYs_bytes_length. lia.
Qed.

Lemma pHYs_bytes_is_pHYs (ppm : Z) : is_pHYs (pHYs_bytes ppm) = true.
Proof. reflexivity. Qed.

Lemma pHYs_bytes_not_IEND (ppm : Z) : is_IEND (pHYs_bytes ppm) = false.
Proof. reflexivity. Qed.

Lemma pHYs_bytes_not_IDAT (ppm : Z) : is_IDAT (pHYs_bytes ppm) = false.
Proof. reflexivity. Qed.

(** ** A buffer made of whole chunks *)

Lemma whole_length (c : chunk) : whole c -> 12 <= Z.of_nat (length c).
Proof.
  intros [Hl _]. pose proof (_png_read_u32_be_range (sub c 0 4)) as Hr.
  fold (chunk_len c) in Hr. lia.
Qed.

Lemma read_head_end (pre : list byte) :
  read_head (pre ++ []) (Z.of_nat (length pre)) = NoRoom.
Proof.
  unfold read_head. rewrite app_nil_r.
  destruct (_ <=? _) eqn:E; [apply Z.leb_le in E; lia | reflexivity].
Qed.

(** Walking a buffer that is whole chunks laid end to end, with nothing
    after an IEND, gives these chunks back. *)
Lemma scan_loop_concat (ds : list chunk) :
  forall fuel pre,
    Forall whole ds -> iend_last ds -> (length ds < fuel)%nat ->
    scan_loop fuel (pre ++ concat ds) (Z.of_nat (length pre)) = Done ds.
Proof.
  induction ds as [|c ds IH]; intros fuel pre Hwh Hie Hfuel;
    (destruct fuel as [|fuel]; [simpl in Hfuel; lia|]); cbn [scan_loop concat].
  - now rewrite read_head_end.
  - inversion Hwh as [|? ? Hc Hds]; subst. destruct Hie as [Hlast Hie].
    destruct (read_head_whole pre c (concat ds) Hc) as [-> ->].
    fold (is_IEND c). destruct (is_IEND c) eqn:EE.
    + now rewrite (Hlast eq_refl).
    + rewrite app_assoc, IH; [reflexivity|assumption|assumption|].
      simpl in Hfuel. lia.
Qed.

(** The loop on such a buffer writes the chunks under the copy policy,
    as long as the result fits. *)
Lemma rebuild_loop_concat (ppm : Z) (ds : list chunk) :
  forall fuel pre wrote out,
    Forall whole ds -> iend_last ds -> (length ds < fuel)%nat ->
    Z.of_nat (length (out ++ concat (place wrote (pHYs_bytes ppm)
                                       (filter not_pHYs ds))))
    <= PNG_OUT_CAP ->
    rebuild_loop fuel (pre ++ concat ds) ppm (Z.of_nat (length pre)) wrote out
    = Done (out ++ concat (place wrote (pHYs_bytes ppm) (filter not_pHYs ds))).
Proof.
  induction ds as [|c ds IH]; intros fuel pre wrote out Hwh Hie Hfuel Hcap;
    (destruct fuel as [|fuel]; [simpl in Hfuel; lia|]);
    cbn [rebuild_loop concat].
  - rewrite read_head_end. cbn [filter]. rewrite place_nil. cbn [concat].
    now rewrite app_nil_r.
  - inversion Hwh as [|? ? Hc Hds]; subst. destruct Hie as [Hlast Hie].
    assert (Hf : (length ds < fuel)%nat) by (simpl in Hfuel; lia).
    destruct (read_head_whole pre c (concat ds) Hc) as [-> ->].
    destruct Hc as [Hcl Hcw].
    fold (is_pHYs c) (is_IDAT c) (is_IEND c).
    destruct (is_pHYs c) eqn:EP.
    + rewrite filter_drop in * by exact EP.
      rewrite app_assoc. now apply IH.
    + rewrite filter_keep in * by exact EP.
      destruct wrote; cbn [negb andb orb].
      * cbn [place concat] in *. rewrite length_app, length_app in Hcap.
        destruct (_ + chunk_len c + 4 >? PNG_OUT_CAP) eqn:Ecap;
          [rewrite Z.gtb_ltb in Ecap; apply Z.ltb_lt in Ecap; lia|].
        destruct (is_IEND c) eqn:EE.
        -- rewrite (Hlast eq_refl). cbn [filter concat].
           now rewrite app_nil_r.
        -- rewrite app_assoc, (IH fuel (pre ++ c) true (out ++ c));
             try assumption.
           ++ cbn [place]. now rewrite <- app_assoc.
           ++ cbn [place]. rewrite <- app_assoc, !length_app. lia.
      * cbn [place insert_before_IDAT] in *.
        destruct (is_IDAT c) eqn:ED.
        -- cbn [concat] in *. rewrite !length_app in Hcap.
           pose proof (pHYs_bytes_length ppm) as Hpl.
           unfold _png_emit_pHYs_to_mem.
           destruct (_ + 9 + 4 >? PNG_OUT_CAP) eqn:Ecap1;
             [rewrite Z.gtb_ltb in Ecap1; apply Z.ltb_lt in Ecap1; lia|].
           destruct (_ + chunk_len c + 4 >? PNG_OUT_CAP) eqn:Ecap2;
             [rewrite Z.gtb_ltb in Ecap2; apply Z.ltb_lt in Ecap2;
              rewrite length_app in Ecap2; lia|].
           assert (EE : is_IEND c = false).
           { unfold is_IDAT in ED. apply bytes_eqb_eq in ED.
             unfold is_IEND. now rewrite ED. }
           rewrite EE, app_assoc.
           rewrite (IH fuel (pre ++ c) true ((out ++ pHYs_bytes ppm) ++ c));
             try assumption.
           ++ cbn [place]. now rewrite <- !app_assoc.
           ++ cbn [place]. rewrite <- !app_assoc, !length_app. lia.
        -- cbn [concat] in *. rewrite !length_app in Hcap.
           destruct (_ + chunk_len c + 4 >? PNG_OUT_CAP) eqn:Ecap;
             [rewrite Z.gtb_ltb in Ecap; apply Z.ltb_lt in Ecap; lia|].
           destruct (is_IEND c) eqn:EE.
           ++ rewrite (Hlast eq_refl). cbn [filter insert_before_IDAT concat].
              now rewrite app_nil_r.
           ++ rewrite app_assoc, (IH fuel (pre ++ c) false (out ++ c));
                try assumption.
              ** cbn [place]. now rewrite <- app_assoc.
              ** cbn [place]. rewrite <- app_assoc, !length_app. lia.
Qed.

(** ** The walk stops at IEND *)

Lemma scan_loop_iend_last (fuel : nat) :
  forall buf p cs,
    0 <= p -> scan_loop fuel buf p = Done cs -> iend_last cs.
Proof.
  induction fuel as [|fuel IH]; intros buf p cs Hp; [discriminate|].
  cbn [scan_loop].
  destruct (read_head buf p) as [| |len type next] eqn:Hh; try discriminate.
  - intros [= <-]. exact I.
  - destruct (head_tags _ _ _ _ _ Hp Hh) as (_ & _ & HtE).
    destruct (read_head_inv _ _ _ _ _ Hp Hh) as (_ & _ & _ & Hnext & Hr & _).
    set (c := sub buf p (4 + 4 + len + 4)) in *.
    destruct (bytes_eqb type tag_IEND) eqn:EE.
    + intros [= <-]. cbn [iend_last]. auto.
    + destruct (scan_loop fuel buf next) as [cs'| |] eqn:Hs; try discriminate.
      intros [= <-]. cbn [iend_last]. split.
      * intros HE. congruence.
      * apply (IH buf next); [lia | exact Hs].
Qed.

(** ** The copy policy on lists *)

Lemma iend_last_filter (cs : list chunk) :
  iend_last cs -> iend_last (filter not_pHYs cs).
Proof.
  induction cs as [|c cs IH]; [trivial|]. intros [Hlast Hie].
  cbn [filter]. destruct (not_pHYs c); [|now apply IH].
  cbn [iend_last]. split; [|now apply IH].
  intros HE. now rewrite (Hlast HE).
Qed.

Lemma iend_last_insert (phys : chunk) (cs : list chunk) :
  is_IEND phys = false ->
  iend_last cs -> iend_last (insert_before_IDAT phys cs).
Proof.
  intros Hphys. induction cs as [|c cs IH]; [trivial|]. intros [Hlast Hie].
  cbn [insert_before_IDAT]. destruct (is_IDAT c).
  - cbn [iend_last]. split; [rewrite Hphys; discriminate|]. now split.
  - cbn [iend_last]. split; [|now apply IH].
    intros HE. now rewrite (Hlast HE).
Qed.

Lemma whole_insert (phys : chunk) (cs : list chunk) :
  whole phys -> Forall whole cs -> Forall whole (insert_before_IDAT phys cs).
Proof.
  intros Hphys. induction 1 as [|c cs Hc Hcs IH]; [constructor|].
  cbn [insert_before_IDAT].
  destruct (is_IDAT c); repeat (apply Forall_cons; [assumption|]); assumption.
Qed.

Lemma filter_not_pHYs_idem (cs : list chunk) :
  filter not_pHYs (filter not_pHYs cs) = filter not_pHYs cs.
Proof.
  induction cs as [|c cs IH]; [reflexivity|]. cbn [filter].
  destruct (not_pHYs c) eqn:E; [|exact IH]. cbn [filter]. now rewrite E, IH.
Qed.

(** Filtering the density chunks out of the patched list gives the
    filtered input list back. *)
Lemma filter_insert (phys : chunk) (cs : list chunk) :
  is_pHYs phys = true ->
  filter not_pHYs (insert_before_IDAT phys (filter not_pHYs cs))
  = filter not_pHYs cs.
Proof.
  intros Hphys. induction cs as [|c cs IH]; [reflexivity|]. cbn [filter].
  destruct (not_pHYs c) eqn:E; [|exact IH].
  cbn [insert_before_IDAT]. destruct (is_IDAT c).
  - cbn [filter]. unfold not_pHYs at 1. rewrite Hphys. cbn [negb].
    now rewrite E, filter_not_pHYs_idem.
  - cbn [filter]. now rewrite E, IH.
Qed.

(** Where the density chunk lands when there is an IDAT. *)
Lemma insert_before_IDAT_split (phys : chunk) (cs : list chunk) :
  existsb is_IDAT cs = true ->
  exists pre idat post,
    cs = pre ++ idat :: post
    /\ insert_before_IDAT phys cs = pre ++ phys :: idat :: post
    /\ forallb (fun c => negb (is_IDAT c)) pre = true
    /\ is_IDAT idat = true.
Proof.
  induction cs as [|c cs IH]; [discriminate|]. cbn [existsb insert_before_IDAT].
  destruct (is_IDAT c) eqn:ED.
  - intros _. exists [], c, cs. auto.
  - cbn [orb]. intros Hex. destruct (IH Hex) as (pre & idat & post & -> & -> & Hpre & Hid).
    exists (c :: pre), idat, post. cbn [forallb app]. rewrite ED, Hpre. auto.
Qed.

Lemma insert_before_IDAT_none (phys : chunk) (cs : list chunk) :
  existsb is_IDAT cs = false -> insert_before_IDAT phys cs = cs.
Proof.
  induction cs as [|c cs IH]; [reflexivity|]. cbn [existsb insert_before_IDAT].
  destruct (is_IDAT c); [discriminate|]. cbn [orb]. intros H. now rewrite IH.
Qed.

Lemma existsb_IDAT_filter (cs : list chunk) :
  existsb is_IDAT (filter not_pHYs cs) = existsb is_IDAT cs.
Proof.
  induction cs as [|c cs IH]; [reflexivity|]. cbn [filter existsb].
  destruct (not_pHYs c) eqn:E; cbn [existsb]; [now rewrite IH|].
  rewrite IH. unfold not_pHYs in E. apply negb_false_iff in E.
  unfold is_pHYs in E. destruct (pHYs_is_no_other_tag _ E) as [ED _].
  change (is_IDAT c) with (bytes_eqb (chunk_type c) tag_IDAT). now rewrite ED.
Qed.

Lemma forallb_filter_not_pHYs (cs : list chunk) :
  forallb not_pHYs (filter not_pHYs cs) = true.
Proof.
  induction cs as [|c cs IH]; [reflexivity|]. cbn [filter].
  destruct (not_pHYs c) eqn:E; [|exact IH]. cbn [forallb]. now rewrite E, IH.
Qed.

Lemma length_concat_whole (ds : list chunk) :
  Forall whole ds -> (length ds <= length (concat ds))%nat.
Proof.
  induction 1 as [|c ds Hc Hds IH]; [reflexivity|].
  cbn [concat length]. rewrite length_app.
  pose proof (whole_length c Hc). lia.
Qed.

(** ** The whole rebuild *)

Lemma png_rebuild_fail (buf : list byte) (dpi rc : Z) :
  png_rebuild buf dpi = Fail rc -> rc = 3 \/ rc = 21 \/ rc = 22 \/ rc = 23.
Proof.
  unfold png_rebuild. destruct (_ || _).
  - intros [= <-]. auto.
  - intros H. apply rebuild_loop_fail in H. tauto.
Qed.

Lemma update_png_dpi_ok (file out : list byte) (dpi : Z) :
  update_png_dpi file dpi = (0, out) ->
  png_rebuild file dpi = Done out
  /\ Z.of_nat (length file) <= MAX_PNG_SIZE.
Proof.
  unfold update_png_dpi.
  destruct (_ >? MAX_PNG_SIZE) eqn:Esz; [discriminate|].
  rewrite Z.gtb_ltb in Esz. apply Z.ltb_ge in Esz.
  destruct (png_rebuild file dpi) as [o|rc|] eqn:Hr; try discriminate.
  - intros [= ->]. auto.
  - intros [= -> _]. apply png_rebuild_fail in Hr. lia.
Qed.

Lemma patch_chunks_whole (dpi : Z) (cs : list chunk) :
  Forall whole (filter not_pHYs cs) -> Forall whole (patch_chunks dpi cs).
Proof. apply whole_insert, pHYs_bytes_whole. Qed.

Lemma patch_chunks_iend_last (dpi : Z) (cs : list chunk) :
  iend_last cs -> iend_last (patch_chunks dpi cs).
Proof.
  intros H. apply iend_last_insert; [apply pHYs_bytes_not_IEND|].
  now apply iend_last_filter.
Qed.

(** What a successful rebuild read and what it wrote. *)
Lemma png_rebuild_done (buf out : list byte) (dpi : Z) :
  png_rebuild buf dpi = Done out ->
  exists cs,
    png_chunks buf = Done cs
    /\ sub buf 0 PNG_SIG_BYTES = PNG_SIG
    /\ out = PNG_SIG ++ concat (patch_chunks dpi cs)
    /\ Forall whole (patch_chunks dpi cs)
    /\ iend_last (patch_chunks dpi cs)
    /\ Z.of_nat (length out) <= PNG_OUT_CAP.
Proof.
  unfold png_rebuild, png_chunks.
  destruct (Z.of_nat (length buf) <? PNG_SIG_BYTES) eqn:Esz; [discriminate|].
  destruct (bytes_eqb (sub buf 0 PNG_SIG_BYTES) PNG_SIG) eqn:Esig;
    [|discriminate].
  cbn [orb negb]. apply bytes_eqb_eq in Esig. rewrite Esig. intros Hrun.
  apply rebuild_loop_done in Hrun; [|unfold PNG_SIG_BYTES; lia].
  destruct Hrun as (cs & Hscan & Hout & Hwh & Hcap).
  exists cs. split; [exact Hscan|]. split; [reflexivity|].
  split; [exact Hout|]. split; [now apply patch_chunks_whole|].
  split.
  - apply patch_chunks_iend_last.
    eapply scan_loop_iend_last; [|exact Hscan]. unfold PNG_SIG_BYTES. lia.
  - apply Hcap. vm_compute. discriminate.
Qed.

Lemma png_chunks_concat (ds : list chunk) :
  Forall whole ds -> iend_last ds ->
  png_chunks (PNG_SIG ++ concat ds) = Done ds.
Proof.
  intros Hwh Hie. unfold png_chunks.
  change PNG_SIG_BYTES with (Z.of_nat (length PNG_SIG)).
  apply scan_loop_concat; [assumption|assumption|].
  pose proof (length_concat_whole ds Hwh). rewrite length_app. lia.
Qed.

Lemma png_rebuild_concat (dpi : Z) (ds : list chunk) :
  Forall whole ds -> iend_last ds ->
  Z.of_nat (length (PNG_SIG ++ concat (patch_chunks dpi ds))) <= PNG_OUT_CAP ->
  png_rebuild (PNG_SIG ++ concat ds) dpi
  = Done (PNG_SIG ++ concat (patch_chunks dpi ds)).
Proof.
  intros Hwh Hie Hcap. unfold png_rebuild.
  change PNG_SIG_BYTES with (Z.of_nat (length PNG_SIG)).
  rewrite sub_prefix, bytes_eqb_refl.
  destruct (_ <? _) eqn:Esz;
    [apply Z.ltb_lt in Esz; rewrite length_app in Esz; lia|].
  cbn [orb negb].
  apply (rebuild_loop_concat _ ds _ PNG_SIG false PNG_SIG); try assumption.
  pose proof (length_concat_whole ds Hwh). rewrite length_app. lia.
Qed.

Lemma filter_is_pHYs_none (cs : list chunk) :
  forallb not_pHYs cs = true -> filter is_pHYs cs = [].
Proof.
  induction cs as [|c cs IH]; [reflexivity|]. cbn [forallb filter].
  intros H. apply andb_true_iff in H. destruct H as [Hc Hcs].
  unfold not_pHYs in Hc. apply negb_true_iff in Hc. rewrite Hc. now apply IH.
Qed.

(** ** The claims about the rebuilt stream *)

(** C1.  When the input begins with the PNG signature, its chunk stream,
    walked up to IEND, has a chunk tagged IDAT, and [update_png_dpi] has
    assembled its output (status 0), the chunk stream of the output holds
    exactly one chunk tagged pHYs: the synthesized one, and it stands right
    before the first chunk tagged IDAT. *)
Theorem update_png_dpi_one_pHYs_before_first_IDAT :
  forall (file out : list byte) (dpi : Z) (cs : list chunk),
    sub file 0 PNG_SIG_BYTES = PNG_SIG ->
    png_chunks file = Done cs ->
    existsb is_IDAT cs = true ->
    update_png_dpi file dpi = (0, out) ->
    exists pre idat post,
      png_chunks out
      = Done (pre ++ pHYs_bytes (_png_dpi_to_ppm dpi) :: idat :: post)
      /\ is_pHYs (pHYs_bytes (_png_dpi_to_ppm dpi)) = true
      /\ is_IDAT idat = true
      /\ forallb (fun c => negb (is_IDAT c)) pre = true
      /\ forallb not_pHYs (pre ++ idat :: post) = true
      /\ length (filter is_pHYs
                   (pre ++ pHYs_bytes (_png_dpi_to_ppm dpi) :: idat :: post))
         = 1%nat.
Proof.
  intros file out dpi cs _ Hcs Hidat Hupd.
  destruct (update_png_dpi_ok _ _ _ Hupd) as [Hrun _].
  destruct (png_rebuild_done _ _ _ Hrun)
    as (cs0 & Hcs0 & _ & Hout & Hwh & Hie & _).
  rewrite Hcs in Hcs0. injection Hcs0 as <-.
  rewrite <- existsb_IDAT_filter in Hidat.
  destruct (insert_before_IDAT_split (pHYs_bytes (_png_dpi_to_ppm dpi)) _ Hidat)
    as (pre & idat & post & Hsplit & Hins & Hpre & Hid).
  exists pre, idat, post.
  assert (Hno : forallb not_pHYs (pre ++ idat :: post) = true)
    by (rewrite <- Hsplit; apply forallb_filter_not_pHYs).
  split.
  - rewrite Hout. unfold patch_chunks in *. rewrite Hins in *.
    now apply png_chunks_concat.
  - split; [apply pHYs_bytes_is_pHYs|]. split; [exact Hid|].
    split; [exact Hpre|]. split; [exact Hno|].
    rewrite forallb_app in Hno. apply andb_true_iff in Hno.
    destruct Hno as [Hno1 Hno2].
    rewrite filter_app. cbn [filter]. rewrite pHYs_bytes_is_pHYs.
    change (if is_pHYs idat then idat :: filter is_pHYs post
            else filter is_pHYs post) with (filter is_pHYs (idat :: post)).
    now rewrite (filter_is_pHYs_none _ Hno1), (filter_is_pHYs_none _ Hno2).
Qed.

(** C6.  Patching is idempotent.  When [update_png_dpi] has assembled an
    output for a DPI, the rebuild of that output with the same DPI
    assembles the same bytes again; and in every case, also on an error,
    a second call leaves the file as the first call left it. *)
Theorem update_png_dpi_idempotent :
  forall (file : list byte) (dpi : Z),
    (forall out, png_rebuild file dpi = Done out ->
                 png_rebuild out dpi = Done out)
    /\ snd (update_png_dpi (snd (update_png_dpi file dpi)) dpi)
       = snd (update_png_dpi file dpi).
Proof.
  intros file dpi.
  assert (Hidem : forall out, png_rebuild file dpi = Done out ->
                              png_rebuild out dpi = Done out).
  { intros out Hrun.
    destruct (png_rebuild_done _ _ _ Hrun)
      as (cs & Hcs & _ & Hout & Hwh & Hie & Hcap).
    assert (Hfix : patch_chunks dpi (patch_chunks dpi cs) = patch_chunks dpi cs).
    { unfold patch_chunks.
      now rewrite filter_insert by apply pHYs_bytes_is_pHYs. }
    rewrite Hout at 1. rewrite png_rebuild_concat; try assumption.
    - now rewrite Hfix, Hout.
    - now rewrite Hfix, <- Hout. }
  split; [exact Hidem|].
  unfold update_png_dpi at 2 3.
  destruct (Z.of_nat (length file) >? MAX_PNG_SIZE) eqn:Esz.
  - cbn [snd]. unfold update_png_dpi. now rewrite Esz.
  - destruct (png_rebuild file dpi) as [out|rc|] eqn:Hrun; cbn [snd].
    + unfold update_png_dpi. rewrite (Hidem out eq_refl).
      destruct (Z.of_nat (length out) >? MAX_PNG_SIZE); reflexivity.
    + unfold update_png_dpi. now rewrite Esz, Hrun.
    + unfold update_png_dpi. now rewrite Esz, Hrun.
Qed.

(** ** Whole chunks followed by a tail *)

Lemma length_concat_filter (cs : list chunk) :
  (length (concat (filter not_pHYs cs)) <= length (concat cs))%nat.
Proof.
  induction cs as [|c cs IH]; [reflexivity|]. cbn [filter concat].
  destruct (not_pHYs c); cbn [concat]; rewrite !length_app; lia.
Qed.

Lemma length_concat_insert (phys : chunk) (cs : list chunk) :
  (length (concat (insert_before_IDAT phys cs))
   <= length phys + length (concat cs))%nat.
Proof.
  induction cs as [|c cs IH]; [cbn; lia|]. cbn [insert_before_IDAT].
  destruct (is_IDAT c); cbn [concat]; rewrite !length_app; lia.
Qed.

(** The output is at most 21 bytes longer than the chunks it comes from. *)
Lemma length_concat_place (w : bool) (ppm : Z) (cs : list chunk) :
  Z.of_nat (length (concat (place w (pHYs_bytes ppm) (filter not_pHYs cs))))
  <= Z.of_nat (length (concat cs)) + 21.
Proof.
  pose proof (length_concat_filter cs) as Hf.
  pose proof (length_concat_insert (pHYs_bytes ppm) (filter not_pHYs cs)) as Hi.
  pose proof (pHYs_bytes_length ppm) as Hp.
  unfold place. destruct w; lia.
Qed.

(** The loop over a run of whole chunks without IEND: it comes to stand
    right after them, with the chunks written under the copy policy. *)
Lemma rebuild_loop_prefix (ppm : Z) (ds : list chunk) :
  forall fuel pre tail wrote out buf,
    buf = pre ++ concat ds ++ tail ->
    Forall whole ds -> Forall (fun c => is_IEND c = false) ds ->
    Z.of_nat (length (out ++ concat (place wrote (pHYs_bytes ppm)
                                       (filter not_pHYs ds))))
    <= PNG_OUT_CAP ->
    rebuild_loop (length ds + fuel) buf ppm (Z.of_nat (length pre)) wrote out
    = rebuild_loop fuel buf ppm
        (Z.of_nat (length pre) + Z.of_nat (length (concat ds)))
        (wrote || existsb is_IDAT (filter not_pHYs ds))
        (out ++ concat (place wrote (pHYs_bytes ppm) (filter not_pHYs ds))).
Proof.
  induction ds as [|c ds IH]; intros fuel pre tail wrote out buf Hbuf Hwh Hne Hcap.
  - cbn [concat filter length Nat.add existsb]. rewrite place_nil.
    cbn [concat length]. now rewrite app_nil_r, orb_false_r, Z.add_0_r.
  - inversion Hwh as [|? ? Hc Hds]; subst.
    inversion Hne as [|? ? EE Hne']; subst.
    cbn [length Nat.add rebuild_loop concat].
    rewrite <- app_assoc.
    destruct (read_head_whole pre c (concat ds ++ tail) Hc) as [-> ->].
    destruct Hc as [Hcl Hcw].
    fold (is_pHYs c) (is_IDAT c) (is_IEND c). rewrite EE.
    assert (Hoff : Z.of_nat (length pre) + Z.of_nat (length (c ++ concat ds))
                   = Z.of_nat (length (pre ++ c))
                     + Z.of_nat (length (concat ds)))
      by (rewrite !length_app; lia).
    rewrite Hoff.
    assert (Hb : pre ++ c ++ concat ds ++ tail
                 = (pre ++ c) ++ concat ds ++ tail)
      by now rewrite <- app_assoc.
    destruct (is_pHYs c) eqn:EP.
    + rewrite filter_drop in * by exact EP.
      now apply (IH fuel (pre ++ c) tail).
    + rewrite filter_keep in * by exact EP. cbn [existsb].
      destruct wrote; cbn [negb andb orb].
      * cbn [place concat] in *. rewrite !length_app in Hcap.
        destruct (_ + chunk_len c + 4 >? PNG_OUT_CAP) eqn:Ecap;
          [rewrite Z.gtb_ltb in Ecap; apply Z.ltb_lt in Ecap; lia|].
        rewrite (IH fuel (pre ++ c) tail true (out ++ c) _ Hb); try assumption.
        -- cbn [place orb]. now rewrite <- app_assoc.
        -- cbn [place]. rewrite <- app_assoc, !length_app. lia.
      * cbn [place insert_before_IDAT] in *.
        destruct (is_IDAT c) eqn:ED.
        -- cbn [concat] in *. rewrite !length_app in Hcap.
           pose proof (pHYs_bytes_length ppm) as Hpl.
           unfold _png_emit_pHYs_to_mem.
           destruct (_ + 9 + 4 >? PNG_OUT_CAP) eqn:Ecap1;
             [rewrite Z.gtb_ltb in Ecap1; apply Z.ltb_lt in Ecap1; lia|].
           destruct (_ + chunk_len c + 4 >? PNG_OUT_CAP) eqn:Ecap2;
             [rewrite Z.gtb_ltb in Ecap2; apply Z.ltb_lt in Ecap2;
              rewrite length_app in Ecap2; lia|].
           rewrite (IH fuel (pre ++ c) tail true
                        ((out ++ pHYs_bytes ppm) ++ c) _ Hb); try assumption.
           ++ cbn [place orb]. now rewrite <- !app_assoc.
           ++ cbn [place]. rewrite <- !app_assoc, !length_app. lia.
        -- cbn [concat] in *. rewrite !length_app in Hcap.
           destruct (_ + chunk_len c + 4 >? PNG_OUT_CAP) eqn:Ecap;
             [rewrite Z.gtb_ltb in Ecap; apply Z.ltb_lt in Ecap; lia|].
           rewrite (IH fuel (pre ++ c) tail false (out ++ c) _ Hb); try assumption.
           ++ cbn [place orb]. now rewrite <- app_assoc.
           ++ cbn [place]. rewrite <- app_assoc, !length_app. lia.
Qed.

Lemma read_head_tail_short (pre tail : list byte) :
  Z.of_nat (length tail) < 12 ->
  read_head (pre ++ tail) (Z.of_nat (length pre)) = NoRoom.
Proof.
  intros Hs. unfold read_head. rewrite length_app.
  destruct (_ <=? _) eqn:E; [apply Z.leb_le in E; lia | reflexivity].
Qed.


(** ** When the rebuild succeeds *)

(** The loop follows the walk: when the walk ends well, every chunk not
    tagged pHYs is whole and the result fits, the loop reaches the end of
    the function with the chunks written under the copy policy. *)
Lemma rebuild_loop_complete (fuel : nat) :
  forall buf ppm p wrote out cs,
    0 <= p ->
    scan_loop fuel buf p = Done cs ->
    Forall whole (filter not_pHYs cs) ->
    Z.of_nat (length (out ++ concat (place wrote (pHYs_bytes ppm)
                                       (filter not_pHYs cs))))
    <= PNG_OUT_CAP ->
    rebuild_loop fuel buf ppm p wrote out
    = Done (out ++ concat (place wrote (pHYs_bytes ppm) (filter not_pHYs cs))).
Proof.
  induction fuel as [|fuel IH]; intros buf ppm p wrote out cs Hp;
    [discriminate|].
  cbn [rebuild_loop scan_loop].
  destruct (read_head buf p) as [| |len type next] eqn:Hh; try discriminate.
  - intros [= <-] _ _. cbn [filter]. rewrite place_nil. cbn [concat].
    now rewrite app_nil_r.
  - destruct (head_tags _ _ _ _ _ Hp Hh) as (HtP & HtD & HtE).
    destruct (read_head_inv _ _ _ _ _ Hp Hh)
      as (Hroom & Hlen & _ & Hnext & Hrange & Hchk).
    set (c := sub buf p (4 + 4 + len + 4)) in *.
    assert (Hn : 0 <= next) by lia.
    assert (Hcl : chunk_len c = len)
      by (unfold c; rewrite copied_chunk_len by lia; now symmetry).
    intros Hscan Hwh Hcap.
    assert (Hcs : exists cs', cs = c :: cs'
                   /\ (bytes_eqb type tag_IEND = true -> cs' = [])
                   /\ (bytes_eqb type tag_IEND = false ->
                       scan_loop fuel buf next = Done cs')).
    { destruct (bytes_eqb type tag_IEND).
      - injection Hscan as <-. exists []. repeat split; auto. discriminate.
      - destruct (scan_loop fuel buf next) as [cs'| |]; try discriminate.
        injection Hscan as <-. exists cs'. repeat split; auto. discriminate. }
    destruct Hcs as (cs' & -> & Hend & Hgo). clear Hscan.
    destruct (bytes_eqb type tag_pHYs) eqn:EP.
    + destruct (pHYs_is_no_other_tag _ EP) as (_ & EE).
      rewrite filter_drop in * by exact HtP. apply IH; auto.
    + rewrite filter_keep in * by exact HtP.
      apply Forall_cons_iff in Hwh. destruct Hwh as [[Hc1 Hc2] Hwh'].
      rewrite Hcl in Hc1.
      destruct wrote; cbn [negb andb orb].
      * cbn [place concat] in *. rewrite !length_app in Hcap.
        destruct (_ + len + 4 >? PNG_OUT_CAP) eqn:Ecap;
          [rewrite Z.gtb_ltb in Ecap; apply Z.ltb_lt in Ecap; lia|].
        destruct (bytes_eqb type tag_IEND) eqn:EE.
        -- rewrite (Hend eq_refl). cbn [filter concat].
           now rewrite app_nil_r.
        -- rewrite (IH _ _ _ true (out ++ c) cs' Hn (Hgo eq_refl) Hwh').
           ++ cbn [place]. now rewrite <- app_assoc.
           ++ cbn [place]. rewrite <- app_assoc, !length_app. lia.
      * cbn [place insert_before_IDAT] in *. rewrite HtD in *.
        destruct (bytes_eqb type tag_IDAT) eqn:ED.
        -- cbn [concat] in *. rewrite !length_app in Hcap.
           pose proof (pHYs_bytes_length ppm) as Hpl.
           unfold _png_emit_pHYs_to_mem.
           destruct (_ + 9 + 4 >? PNG_OUT_CAP) eqn:Ecap1;
             [rewrite Z.gtb_ltb in Ecap1; apply Z.ltb_lt in Ecap1; lia|].
           destruct (_ + len + 4 >? PNG_OUT_CAP) eqn:Ecap2;
             [rewrite Z.gtb_ltb in Ecap2; apply Z.ltb_lt in Ecap2;
              rewrite length_app in Ecap2; lia|].
           assert (EE : bytes_eqb type tag_IEND = false).
           { apply bytes_eqb_eq in ED. now subst type. }
           rewrite EE.
           rewrite (IH _ _ _ true ((out ++ pHYs_bytes ppm) ++ c) cs' Hn
                      (Hgo EE) Hwh').
           ++ cbn [place]. now rewrite <- !app_assoc.
           ++ cbn [place]. rewrite <- !app_assoc, !length_app. lia.
        -- cbn [concat] in *. rewrite !length_app in Hcap.
           destruct (_ + len + 4 >? PNG_OUT_CAP) eqn:Ecap;
             [rewrite Z.gtb_ltb in Ecap; apply Z.ltb_lt in Ecap; lia|].
           destruct (bytes_eqb type tag_IEND) eqn:EE.
           ++ rewrite (Hend eq_refl). cbn [filter insert_before_IDAT concat].
              now rewrite app_nil_r.
           ++ rewrite (IH _ _ _ false (out ++ c) cs' Hn (Hgo eq_refl) Hwh').
              ** cbn [place]. now rewrite <- app_assoc.
              ** cbn [place]. rewrite <- app_assoc, !length_app. lia.
Qed.

(** The whole chunks of a walk lie one after the other in the buffer. *)
Lemma scan_loop_sizes (fuel : nat) :
  forall buf p cs,
    0 <= p ->
    scan_loop fuel buf p = Done cs ->
    Forall whole (filter not_pHYs cs) ->
    Z.of_nat (length (concat (filter not_pHYs cs)))
    <= Z.max 0 (Z.of_nat (length buf) - p).
Proof.
  induction fuel as [|fuel IH]; intros buf p cs Hp; [discriminate|].
  cbn [scan_loop].
  destruct (read_head buf p) as [| |len type next] eqn:Hh; try discriminate.
  - intros [= <-] _. cbn. lia.
  - destruct (head_tags _ _ _ _ _ Hp Hh) as (HtP & _ & _).
    destruct (read_head_inv _ _ _ _ _ Hp Hh)
      as (Hroom & Hlen & _ & Hnext & Hrange & Hchk).
    set (c := sub buf p (4 + 4 + len + 4)) in *.
    assert (Hcl : chunk_len c = len)
      by (unfold c; rewrite copied_chunk_len by lia; now symmetry).
    assert (Hone : whole c ->
                   Z.of_nat (length c) = 12 + len
                   /\ next <= Z.of_nat (length buf)).
    { intros [Hc1 Hc2]. rewrite Hcl in Hc1, Hc2. unfold u32 in Hchk.
      rewrite Z.mod_small in Hchk by lia. lia. }
    assert (Hn : 0 <= next) by lia.
    destruct (bytes_eqb type tag_IEND).
    + intros [= <-] Hw. destruct (is_pHYs c) eqn:EP.
      * rewrite filter_drop in * by exact EP. cbn. lia.
      * rewrite filter_keep in * by exact EP.
        apply Forall_cons_iff in Hw. destruct Hw as [Hc _].
        destruct (Hone Hc) as [H1 H2].
        cbn [filter concat]. rewrite app_nil_r. lia.
    + destruct (scan_loop fuel buf next) as [cs'| |] eqn:Hs; try discriminate.
      intros [= <-] Hw.
      destruct (is_pHYs c) eqn:EP.
      * rewrite filter_drop in * by exact EP.
        specialize (IH _ _ _ Hn Hs Hw). lia.
      * rewrite filter_keep in * by exact EP.
        apply Forall_cons_iff in Hw. destruct Hw as [Hc Hw'].
        specialize (IH _ _ _ Hn Hs Hw').
        destruct (Hone Hc) as [H1 H2].
        cbn [concat]. rewrite length_app. lia.
Qed.

(** A file within [MAX_PNG_SIZE] with a good signature, a walk that ends
    well and no copied chunk with a wrapping length is rebuilt with
    status 0, and the output is at most 21 bytes longer than the file:
    the capacity checks (statuses 22 and 23) do not fire. *)
Lemma update_png_dpi_succeeds (file : list byte) (dpi : Z) (cs : list chunk) :
  sub file 0 PNG_SIG_BYTES = PNG_SIG ->
  Z.of_nat (length file) <= MAX_PNG_SIZE ->
  png_chunks file = Done cs ->
  Forall whole (filter not_pHYs cs) ->
  update_png_dpi file dpi = (0, PNG_SIG ++ concat (patch_chunks dpi cs))
  /\ Z.of_nat (length (PNG_SIG ++ concat (patch_chunks dpi cs)))
     <= Z.of_nat (length file) + 21.
Proof.
  intros Hsig Hsz Hcs Hwh.
  assert (H8 : 8 <= Z.of_nat (length file)).
  { pose proof (sub_length_le_buf file 0 PNG_SIG_BYTES) as Hl.
    rewrite Hsig in Hl. cbn [length PNG_SIG] in Hl. lia. }
  unfold png_chunks in Hcs.
  assert (Hp8 : 0 <= PNG_SIG_BYTES) by (unfold PNG_SIG_BYTES; lia).
  pose proof (scan_loop_sizes _ _ _ _ Hp8 Hcs Hwh) as Hsum.
  pose proof (length_concat_insert (pHYs_bytes (_png_dpi_to_ppm dpi))
                (filter not_pHYs cs)) as Hins.
  pose proof (pHYs_bytes_length (_png_dpi_to_ppm dpi)) as Hpl.
  assert (Hlen : Z.of_nat (length (PNG_SIG ++ concat (patch_chunks dpi cs)))
                 <= Z.of_nat (length file) + 21).
  { rewrite length_app. unfold patch_chunks. unfold PNG_SIG_BYTES in Hsum.
    change (length PNG_SIG) with 8%nat. lia. }
  split; [|exact Hlen].
  unfold update_png_dpi.
  destruct (_ >? MAX_PNG_SIZE) eqn:Ebig;
    [rewrite Z.gtb_ltb in Ebig; apply Z.ltb_lt in Ebig; lia|].
  unfold png_rebuild. rewrite Hsig, bytes_eqb_refl.
  destruct (_ <? PNG_SIG_BYTES) eqn:Esz;
    [apply Z.ltb_lt in Esz; unfold PNG_SIG_BYTES in Esz; lia|].
  cbn [orb negb].
  rewrite (rebuild_loop_complete _ _ _ _ false PNG_SIG cs Hp8 Hcs Hwh);
    [reflexivity|].
  unfold place. fold (patch_chunks dpi cs). unfold PNG_OUT_CAP. lia.
Qed.

(** ** The variant with a temporary file *)

Lemma short_iff (rest : list byte) (n : Z) :
  TempFile.short rest n = true <-> Z.of_nat (length rest) < n.
Proof. unfold TempFile.short. apply Z.ltb_lt. Qed.

Lemma not_short_iff (rest : list byte) (n : Z) :
  TempFile.short rest n = false <-> n <= Z.of_nat (length rest).
Proof. unfold TempFile.short. apply Z.ltb_ge. Qed.

(** The loop returns early exactly when its reads break inside a chunk,
    with the same status. *)
Lemma copy_loop_fail_iff (fuel : nat) :
  forall rest ppm wrote tmp rc,
    TempFile.copy_loop fuel rest ppm wrote tmp = Fail rc
    <-> TempFile.check_stream fuel rest = Fail rc.
Proof.
  induction fuel as [|fuel IH]; intros rest ppm wrote tmp rc;
    [split; discriminate|].
  cbn [TempFile.copy_loop TempFile.check_stream].
  destruct (TempFile.short rest 4); [split; discriminate|].
  destruct (TempFile.short (skipn 4 rest) 4); [split; discriminate|].
  destruct (negb (_ =? 0) && _); [split; intros [= <-]; reflexivity|].
  destruct (TempFile.short (skipn _ (skipn 4 (skipn 4 rest))) 4);
    [split; intros [= <-]; reflexivity|].
  destruct (bytes_eqb (sub (skipn 4 rest) 0 4) tag_pHYs) eqn:EP.
  - destruct (pHYs_is_no_other_tag _ EP) as [_ ->]. apply IH.
  - destruct (bytes_eqb (sub (skipn 4 rest) 0 4) tag_IEND);
      [split; discriminate | apply IH].
Qed.

Lemma check_stream_fail (fuel : nat) :
  forall rest rc,
    TempFile.check_stream fuel rest = Fail rc -> rc = 23 \/ rc = 24.
Proof.
  induction fuel as [|fuel IH]; intros rest rc; [discriminate|].
  cbn [TempFile.check_stream].
  destruct (TempFile.short rest 4); [discriminate|].
  destruct (TempFile.short (skipn 4 rest) 4); [discriminate|].
  destruct (negb (_ =? 0) && _); [intros [= <-]; auto|].
  destruct (TempFile.short (skipn _ (skipn 4 (skipn 4 rest))) 4);
    [intros [= <-]; auto|].
  destruct (bytes_eqb (sub (skipn 4 rest) 0 4) tag_IEND);
    [discriminate | apply IH].
Qed.

Lemma copy_loop_total (fuel : nat) :
  forall rest ppm wrote tmp,
    (length rest < fuel)%nat ->
    TempFile.copy_loop fuel rest ppm wrote tmp <> OutOfFuel.
Proof.
  induction fuel as [|fuel IH]; intros rest ppm wrote tmp Hfuel; [lia|].
  cbn [TempFile.copy_loop].
  destruct (TempFile.short rest 4) eqn:E1; [discriminate|].
  destruct (TempFile.short (skipn 4 rest) 4) eqn:E2; [discriminate|].
  destruct (negb (_ =? 0) && _); [discriminate|].
  destruct (TempFile.short (skipn _ (skipn 4 (skipn 4 rest))) 4) eqn:E4;
    [discriminate|].
  apply not_short_iff in E1.
  assert (Hnext : forall k, (length (skipn 4 (skipn k (skipn 4 (skipn 4 rest))))
                             < fuel)%nat)
    by (intros k; rewrite !length_skipn; lia).
  destruct (bytes_eqb (sub (skipn 4 rest) 0 4) tag_pHYs); [apply IH, Hnext|].
  destruct (bytes_eqb (sub (skipn 4 rest) 0 4) tag_IEND);
    [discriminate | apply IH, Hnext].
Qed.

(** ** Errors leave the file alone *)

(** Where a check of the code fires, the destination is left alone: an
    input that fails the signature check (shorter than 8 bytes counts) or
    whose chunk walk returns 21 makes [update_png_dpi] return a nonzero
    status with the bytes of the file as they were before the call, in
    the in-place function of [png_dpi_util.h] and in the variant that
    commits through a temporary file.  (The bound check of the in-place
    walk lets a wrapping length through; that case is treated with the
    pHYs header of wrapping length, further down.) *)
Lemma update_png_dpi_error_keeps_file :
  forall (file : list byte) (dst : option (list byte)) (dpi : Z),
    (Z.of_nat (length file) < PNG_SIG_BYTES
     \/ sub file 0 PNG_SIG_BYTES <> PNG_SIG
     \/ png_chunks file = Fail 21 ->
     fst (update_png_dpi file dpi) <> 0
     /\ snd (update_png_dpi file dpi) = file)
    /\ (Z.of_nat (length file) < PNG_SIG_BYTES
        \/ sub file 0 PNG_SIG_BYTES <> PNG_SIG
        \/ (exists rc, TempFile.check_stream (S (length file)) (skipn 8 file)
                       = Fail rc) ->
        fst (TempFile.update_png_dpi file dst dpi) <> 0
        /\ snd (TempFile.update_png_dpi file dst dpi) = dst).
Proof.
  intros file dst dpi. split.
  - intros Hbad. unfold update_png_dpi.
    destruct (_ >? MAX_PNG_SIZE); [cbn; split; [lia|reflexivity]|].
    destruct (png_rebuild file dpi) as [out|rc|] eqn:Hrun; cbn [fst snd].
    + exfalso.
      destruct (png_rebuild_done _ _ _ Hrun) as (cs & Hcs & Hsig & _).
      destruct Hbad as [Hshort | [Hsig' | Hmal]].
      * pose proof (sub_length_le_buf file 0 PNG_SIG_BYTES) as Hl.
        rewrite Hsig in Hl. unfold PNG_SIG_BYTES in *. cbn [length PNG_SIG] in Hl.
        lia.
      * contradiction.
      * congruence.
    + apply png_rebuild_fail in Hrun. split; [lia|reflexivity].
    + split; [lia|reflexivity].
  - intros Hbad. unfold TempFile.update_png_dpi.
    destruct (TempFile.short file PNG_SIG_BYTES) eqn:Eshort;
      [cbn; split; [lia|reflexivity]|].
    destruct (bytes_eqb (sub file 0 PNG_SIG_BYTES) PNG_SIG) eqn:Esig;
      [|cbn; split; [lia|reflexivity]].
    cbn [orb negb].
    destruct Hbad as [Hshort | [Hsig' | [rc Hmal]]].
    + apply not_short_iff in Eshort. lia.
    + apply bytes_eqb_eq in Esig. contradiction.
    + pose proof (check_stream_fail _ _ _ Hmal) as Hrc.
      apply (copy_loop_fail_iff _ _ (TempFile._png_dpi_to_ppm dpi) false
               (sub file 0 PNG_SIG_BYTES)) in Hmal.
      rewrite Hmal. cbn [fst snd]. split; [lia|reflexivity].
Qed.

(** ** A stream that breaks off *)

(** The rebuild of a file that starts with whole chunks, none tagged IEND:
    the loop comes to stand after them. *)
Lemma png_rebuild_prefix (ds : list chunk) (tail : list byte) (dpi : Z) :
  Forall whole ds -> Forall (fun c => is_IEND c = false) ds ->
  Z.of_nat (length (PNG_SIG ++ concat ds ++ tail)) <= MAX_PNG_SIZE ->
  exists fuel,
    png_rebuild (PNG_SIG ++ concat ds ++ tail) dpi
    = rebuild_loop (S fuel) ((PNG_SIG ++ concat ds) ++ tail)
        (_png_dpi_to_ppm dpi)
        (Z.of_nat (length (PNG_SIG ++ concat ds)))
        (existsb is_IDAT (filter not_pHYs ds))
        (PNG_SIG ++ concat (patch_chunks dpi ds)).
Proof.
  intros Hwh Hne Hsz.
  set (file := PNG_SIG ++ concat ds ++ tail) in *.
  pose proof (length_concat_whole ds Hwh) as Hlen.
  assert (Hfl : length file = (8 + length (concat ds) + length tail)%nat)
    by (unfold file; rewrite !length_app; reflexivity).
  exists (length file - length ds)%nat.
  unfold png_rebuild.
  assert (Hsig : sub file 0 PNG_SIG_BYTES = PNG_SIG)
    by (unfold file; change PNG_SIG_BYTES with (Z.of_nat (length PNG_SIG));
        apply sub_prefix).
  rewrite Hsig, bytes_eqb_refl.
  destruct (_ <? PNG_SIG_BYTES) eqn:Esz;
    [apply Z.ltb_lt in Esz; unfold PNG_SIG_BYTES in Esz; lia|].
  cbn [orb negb].
  replace (S (length file)) with (length ds + S (length file - length ds))%nat
    by lia.
  change PNG_SIG_BYTES with (Z.of_nat (length PNG_SIG)).
  rewrite (rebuild_loop_prefix _ ds _ PNG_SIG tail false PNG_SIG file eq_refl);
    try assumption.
  - cbn [orb]. unfold patch_chunks, place. rewrite length_app.
    replace ((PNG_SIG ++ concat ds) ++ tail) with file
      by (unfold file; now rewrite app_assoc).
    f_equal; lia.
  - pose proof (length_concat_place false (_png_dpi_to_ppm dpi) ds) as Hp.
    rewrite length_app. unfold PNG_OUT_CAP.
    change (length PNG_SIG) with 8%nat. lia.
Qed.



(** ** A declared length near 2^32 *)

(** C4 on the code.  The chunk after the signature declares the length
    0xFFFFFFFF and has 4 bytes after its type field, so its length plus the
    4 trailer bytes is far more than what is left; [len + 4] wraps to 3,
    the bound check passes, the chunk is tagged pHYs and is dropped, and
    the function returns 0 and writes the signature alone. *)
Lemma wrapped_length_passes_the_check :
  _png_read_u32_be (sub wrap_pHYs_png 8 4) = 0xFFFFFFFF
  /\ Z.of_nat (length wrap_pHYs_png) - 16 = 4
  /\ update_png_dpi wrap_pHYs_png 300 = (0, PNG_SIG).
Proof. vm_compute. repeat split; reflexivity. Qed.

(** C10 on the code.  The same chunk tagged IDAT, in a file of 20 bytes
    with a good signature: the bound check passes as above, the density
    chunk is emitted, and the capacity check of the copy returns 23. *)
Lemma wrapped_length_reaches_status_23 :
  Z.of_nat (length wrap_IDAT_png) <= MAX_PNG_SIZE
  /\ sub wrap_IDAT_png 0 PNG_SIG_BYTES = PNG_SIG
  /\ update_png_dpi wrap_IDAT_png 300 = (23, wrap_IDAT_png).
Proof. vm_compute. repeat split; try reflexivity. discriminate. Qed.

(** ** The density value and the density chunk *)

Lemma _png_dpi_to_ppm_range (dpi : Z) : 0 <= _png_dpi_to_ppm dpi < 2 ^ 32.
Proof.
  unfold _png_dpi_to_ppm, _png_round_u32.
  destruct (dbl_leb _ _); [lia|].
  destruct (dbl_leb _ _); [lia|].
  apply Z.mod_pos_bound. lia.
Qed.

(** C7.  For every DPI, and wherever there is room for 21 bytes, the
    encoder appends exactly 21 bytes: the length field, big-endian, equal
    to 9; the type "pHYs"; the pixels-per-meter value twice as a big-endian
    32-bit field (X and Y equal); the unit byte 1; and as a big-endian
    32-bit field the CRC-32 of the 13 bytes of type and payload.  The
    encoder is a function of the DPI alone: the bytes do not depend on the
    output written before. *)
Theorem emit_pHYs_layout :
  forall (dpi : Z) (dst : list byte) (cap : Z),
    Z.of_nat (length dst) + 21 <= cap ->
    exists c,
      _png_emit_pHYs_to_mem dst cap (_png_dpi_to_ppm dpi) = Some (dst ++ c)
      /\ c = pHYs_bytes (_png_dpi_to_ppm dpi)
      /\ length c = 21%nat
      /\ _png_read_u32_be (sub c 0 4) = 9
      /\ sub c 4 4 = tag_pHYs
      /\ _png_read_u32_be (sub c 8 4) = _png_dpi_to_ppm dpi
      /\ _png_read_u32_be (sub c 12 4) = _png_dpi_to_ppm dpi
      /\ sub c 16 1 = [x01]
      /\ _png_read_u32_be (sub c 17 4) = crc32_reference (sub c 4 13).
Proof.
  intros dpi dst cap Hroom.
  pose proof (_png_dpi_to_ppm_range dpi) as Hr.
  set (ppm := _png_dpi_to_ppm dpi) in *.
  exists (pHYs_bytes ppm). unfold _png_emit_pHYs_to_mem.
  destruct (_ >? cap) eqn:Ecap;
    [rewrite Z.gtb_ltb in Ecap; apply Z.ltb_lt in Ecap; lia|].
  split; [reflexivity|]. split; [reflexivity|]. split; [reflexivity|].
  split; [apply (pHYs_bytes_len ppm)|]. split; [reflexivity|].
  split; [change (sub (pHYs_bytes ppm) 8 4) with (_png_write_u32_be ppm);
          now apply _png_read_write_u32_be|].
  split; [change (sub (pHYs_bytes ppm) 12 4) with (_png_write_u32_be ppm);
          now apply _png_read_write_u32_be|].
  split; [reflexivity|].
  set (data := _png_write_u32_be ppm ++ _png_write_u32_be ppm ++ [x01]).
  change (sub (pHYs_bytes ppm) 17 4)
    with (_png_write_u32_be (_png_crc32 data (_png_crc32 tag_pHYs 0))).
  change (sub (pHYs_bytes ppm) 4 13) with (tag_pHYs ++ data).
  rewrite _png_read_write_u32_be
    by (apply _png_crc32_range, _png_crc32_range; lia).
  rewrite _png_crc32_app. apply _png_crc32_reference.
Qed.

Lemma dbl_factor_nearest :
  SFdiv 53 1024 (dbl_of_int 3937007874) (dbl_of_int 100000000) = dbl_factor.
Proof. vm_compute. reflexivity. Qed.

Lemma nearest_to_productb_spec (D r : Z) :
  nearest_to_productb D r = true <-> nearest_to_product D r.
Proof. unfold nearest_to_productb, nearest_to_product. apply Z.leb_le. Qed.

Lemma _png_dpi_to_ppm_nonpositive (D : Z) : D <= 0 -> _png_dpi_to_ppm D = 39.
Proof.
  intros HD. unfold _png_dpi_to_ppm.
  destruct (D <=? 0) eqn:E; [|apply Z.leb_gt in E; lia].
  vm_compute. reflexivity.
Qed.

(** ** Binary64 rounding, on integers *)

Lemma digits2_pos_bounds (p : positive) :
  2 ^ (Zpos (digits2_pos p) - 1) <= Zpos p < 2 ^ Zpos (digits2_pos p).
Proof.
  induction p as [p IH|p IH|]; cbn [digits2_pos].
  - rewrite Pos2Z.inj_succ. change (Zpos p~1) with (2 * Zpos p + 1).
    replace (Z.succ (Zpos (digits2_pos p)) - 1) with (Z.succ (Zpos (digits2_pos p) - 1)) by lia.
    rewrite !Z.pow_succ_r by lia.
    set (a := 2 ^ (Zpos (digits2_pos p) - 1)) in *.
    set (b := 2 ^ Zpos (digits2_pos p)) in *. lia.
  - rewrite Pos2Z.inj_succ. change (Zpos p~0) with (2 * Zpos p).
    replace (Z.succ (Zpos (digits2_pos p)) - 1) with (Z.succ (Zpos (digits2_pos p) - 1)) by lia.
    rewrite !Z.pow_succ_r by lia.
    set (a := 2 ^ (Zpos (digits2_pos p) - 1)) in *.
    set (b := 2 ^ Zpos (digits2_pos p)) in *. lia.
  - cbn. lia.
Qed.

Lemma digits2_pos_unique (p : positive) (k : Z) :
  2 ^ (k - 1) <= Zpos p < 2 ^ k -> Zpos (digits2_pos p) = k.
Proof.
  intros [Hlo Hhi]. pose proof (digits2_pos_bounds p) as [Dlo Dhi].
  set (d := Zpos (digits2_pos p)) in *.
  assert (0 < d) by (unfold d; lia).
  destruct (Z.lt_trichotomy d k) as [Hlt|[Heq|Hgt]]; [|exact Heq|].
  - assert (2 ^ d <= 2 ^ (k - 1)) by (apply Z.pow_le_mono_r; lia). lia.
  - assert (k <= 0 \/ 0 < k) as [Hk|Hk] by lia.
    + assert (2 ^ k <= 1).
      { destruct (Z.eq_dec k 0) as [->|]; [cbn; lia|].
        rewrite Z.pow_neg_r by lia. lia. }
      lia.
    + assert (2 ^ k <= 2 ^ (d - 1)) by (apply Z.pow_le_mono_r; lia). lia.
Qed.

Lemma iter_pos_nat (A : Type) (f : A -> A) (p : positive) (x : A) :
  iter_pos f p x = Nat.iter (Pos.to_nat p) f x.
Proof.
  revert x; induction p as [p IH|p IH|]; intros x; cbn [iter_pos].
  - rewrite !IH, Pos2Nat.inj_xI.
    replace (S (2 * Pos.to_nat p)) with (Pos.to_nat p + S (Pos.to_nat p))%nat by lia.
    rewrite Nat.iter_add. f_equal. now rewrite Nat.iter_succ_r.
  - rewrite !IH, Pos2Nat.inj_xO.
    replace (2 * Pos.to_nat p)%nat with (Pos.to_nat p + Pos.to_nat p)%nat by lia.
    now rewrite Nat.iter_add.
  - reflexivity.
Qed.

Lemma shr_1_spec (m : Z) (r s : bool) :
  0 <= m ->
  shr_1 (Build_shr_record m r s) = Build_shr_record (m / 2) (Z.odd m) (r || s).
Proof.
  intros Hm. rewrite <- Z.div2_div.
  destruct m as [|[p|p|]|]; try reflexivity. lia.
Qed.

Lemma shr_iter (P : Z) (k : nat) :
  0 <= P ->
  exists r s,
    Nat.iter k shr_1 (Build_shr_record P false false)
    = Build_shr_record (P / 2 ^ Z.of_nat k) r s
    /\ flags_ok (Z.of_nat k) (P mod 2 ^ Z.of_nat k) r s.
Proof.
  intros HP. induction k as [|k IH].
  - exists false, false. cbn [Nat.iter Z.of_nat]. rewrite Z.pow_0_r, Z.div_1_r, Z.mod_1_r.
    split; [reflexivity|]. unfold flags_ok. cbn. split; split; intros; try discriminate; lia.
  - destruct IH as (r & s & Hit & Hr & Hs).
    rewrite Nat.iter_succ, Hit.
    assert (Hpow : 0 < 2 ^ Z.of_nat k) by (apply Z.pow_pos_nonneg; lia).
    rewrite shr_1_spec by (apply Z.div_pos; lia).
    exists (Z.odd (P / 2 ^ Z.of_nat k)), (r || s).
    rewrite Nat2Z.inj_succ, Z.pow_succ_r by lia.
    rewrite Z.div_div by lia. rewrite (Z.mul_comm (2 ^ Z.of_nat k) 2).
    split; [reflexivity|].
    set (T := 2 ^ Z.of_nat k) in *.
    set (q := P / T) in *. set (rho := P mod T) in *.
    assert (HPq : P = T * q + rho) by (apply Z.div_mod; lia).
    assert (Hrho : 0 <= rho < T) by (apply Z.mod_pos_bound; lia).
    assert (Hq : q = 2 * (q / 2) + q mod 2) by (apply Z.div_mod; lia).
    assert (Hb : 0 <= q mod 2 < 2) by (apply Z.mod_pos_bound; lia).
    assert (Hmod : P mod (2 * T) = T * (q mod 2) + rho).
    { symmetry. apply (Z.mod_unique_pos _ _ (q / 2)); nia. }
    rewrite Hmod. destruct Hr as [Hr1 Hr2]. destruct Hs as [Hs1 Hs2].
    assert (Hsmall : 2 * rho < T -> (2 * rho) mod T = 2 * rho)
      by (intros; apply Z.mod_small; lia).
    assert (Hrs : (r || s) = true <-> rho <> 0).
    { split.
      - intros Hor Hz. apply orb_true_iff in Hor. destruct Hor as [Hor|Hor].
        + apply Hr1 in Hor. lia.
        + apply Hs1 in Hor. apply Hor. rewrite Hz. apply Z.mod_0_l. lia.
      - intros Hnz. apply orb_true_iff.
        destruct (Z_le_gt_dec T (2 * rho)) as [Hle|Hgt]; [left; auto|].
        right. apply Hs2. rewrite Hsmall by lia. lia. }
    unfold flags_ok. rewrite Z.pow_succ_r by lia. fold T.
    assert (Hm2 : (2 * (T * (q mod 2) + rho)) mod (2 * T) = 2 * rho).
    { symmetry. apply (Z.mod_unique_pos _ _ (q mod 2)); lia. }
    rewrite Hm2. split.
    + pose proof (Zmod_odd q) as Hodd.
      destruct (Z.odd q); split; intros; try discriminate; try reflexivity; lia.
    + rewrite Hrs. lia.
Qed.

Lemma shr_pos (P : Z) (n : positive) :
  0 <= P ->
  exists r s,
    iter_pos shr_1 n (Build_shr_record P false false)
    = Build_shr_record (P / 2 ^ Zpos n) r s
    /\ flags_ok (Zpos n) (P mod 2 ^ Zpos n) r s.
Proof.
  intros HP. rewrite iter_pos_nat.
  destruct (shr_iter P (Pos.to_nat n) HP) as (r & s & H1 & H2).
  rewrite positive_nat_Z in *. eauto.
Qed.

(** Rounding to nearest even after the shift: the result is the quotient
    or the next integer, and is at most half a unit away. *)
Lemma round_nearest_even_spec (P n m rho : Z) (r s : bool) :
  0 <= n -> P = 2 ^ n * m + rho -> 0 <= rho < 2 ^ n ->
  flags_ok n rho r s ->
  let m' := round_nearest_even m (loc_of_shr_record (Build_shr_record m r s)) in
  m <= m' <= m + 1 /\ 2 * Z.abs (2 ^ n * m' - P) <= 2 ^ n.
Proof.
  intros Hn HP Hrho [[Hr1 Hr2] [Hs1 Hs2]]. cbv zeta.
  assert (HT : 0 < 2 ^ n) by (apply Z.pow_pos_nonneg; lia).
  set (T := 2 ^ n) in *.
  destruct r, s; cbn [loc_of_shr_record round_nearest_even].
  - specialize (Hr1 eq_refl). lia.
  - specialize (Hr1 eq_refl).
    assert (Hhalf : 2 * rho = T).
    { destruct (Z.eq_dec (2 * rho) T) as [|Hne]; [assumption|].
      exfalso. assert (Hs : false = true); [|discriminate].
      apply Hs2.
      assert (Hm : (2 * rho) mod T = 2 * rho - T)
        by (symmetry; apply (Z.mod_unique_pos _ _ 1); lia).
      lia. }
    destruct (Z.even m); lia.
  - assert (2 * rho < T).
    { destruct (Z_le_gt_dec T (2 * rho)) as [Hle|]; [|lia].
      apply Hr2 in Hle. discriminate. }
    lia.
  - assert (2 * rho < T).
    { destruct (Z_le_gt_dec T (2 * rho)) as [Hle|]; [|lia].
      apply Hr2 in Hle. discriminate. }
    lia.
Qed.

Lemma flags_ok_exact : flags_ok 0 0 false false.
Proof. unfold flags_ok. cbn. split; split; intros; try discriminate; lia. Qed.

(** The first step of rounding: shift the mantissa down to 53 digits. *)
Lemma shr_fexp_spec (m : positive) (e : Z) :
  53 <= Zpos (digits2_pos m) ->
  -1074 <= Zpos (digits2_pos m) + e - 53 ->
  exists r s,
    shr_fexp 53 1024 (Zpos m) e loc_Exact
    = (Build_shr_record (Zpos m / 2 ^ (Zpos (digits2_pos m) - 53)) r s,
       e + (Zpos (digits2_pos m) - 53))
    /\ flags_ok (Zpos (digits2_pos m) - 53)
                (Zpos m mod 2 ^ (Zpos (digits2_pos m) - 53)) r s.
Proof.
  intros Hd He. unfold shr_fexp. cbn [Zdigits2 shr_record_of_loc].
  set (d := Zpos (digits2_pos m)) in *.
  assert (Hf : fexp 53 1024 (d + e) - e = d - 53).
  { unfold fexp, emin. rewrite Z.max_l by lia. lia. }
  rewrite Hf. unfold shr.
  destruct (d - 53) as [|n|n] eqn:Hn; try lia.
  - exists false, false. rewrite Z.pow_0_r, Z.div_1_r, Z.mod_1_r, Z.add_0_r.
    split; [reflexivity | apply flags_ok_exact].
  - destruct (shr_pos (Zpos m) n) as (r & s & H1 & H2); [lia|].
    exists r, s. rewrite H1. split; [reflexivity | exact H2].
Qed.

(** Rounding a positive integer [P * 2^e] with at least 53 digits to
    binary64: the result is a normal number, at most half a unit of its
    last place away. *)
Lemma binary_round_aux_spec (P : positive) (e : Z) :
  53 <= Zpos (digits2_pos P) ->
  -1074 <= Zpos (digits2_pos P) + e - 53 < 971 ->
  exists m' e',
    binary_round_aux 53 1024 false (Zpos P) e loc_Exact
    = S754_finite false m' e'
    /\ Zpos (digits2_pos m') = 53
    /\ e + (Zpos (digits2_pos P) - 53) <= e' <= e + (Zpos (digits2_pos P) - 53) + 1
    /\ 2 * Z.abs (Zpos m' * 2 ^ (e' - e) - Zpos P)
       <= 2 ^ (Zpos (digits2_pos P) - 53)
    /\ (Zpos (digits2_pos P) = 53 -> m' = P /\ e' = e).
Proof.
  intros Hd He. unfold binary_round_aux.
  destruct (shr_fexp_spec P e Hd) as (r & s & -> & Hfl); [lia|].
  pose proof (digits2_pos_bounds P) as [Plo Phi].
  set (d := Zpos (digits2_pos P)) in *. set (n := d - 53) in *.
  assert (Hn : 0 <= n) by (unfold n; lia).
  assert (HT : 0 < 2 ^ n) by (apply Z.pow_pos_nonneg; lia).
  cbn [shr_m].
  set (m := Zpos P / 2 ^ n) in *. set (rho := Zpos P mod 2 ^ n) in *.
  assert (HP : Zpos P = 2 ^ n * m + rho) by (apply Z.div_mod; lia).
  assert (Hrho : 0 <= rho < 2 ^ n) by (apply Z.mod_pos_bound; lia).
  destruct (round_nearest_even_spec (Zpos P) n m rho r s Hn HP Hrho Hfl)
    as [Hm' Herr].
  set (m' := round_nearest_even m (loc_of_shr_record (Build_shr_record m r s))) in *.
  assert (Hsplit : 2 ^ (d - 1) = 2 ^ n * 2 ^ 52 /\ 2 ^ d = 2 ^ n * 2 ^ 53).
  { split; rewrite <- Z.pow_add_r by lia; f_equal; unfold n; lia. }
  destruct Hsplit as [Hs1 Hs2]. rewrite Hs1 in Plo. rewrite Hs2 in Phi.
  assert (Hmlo : 2 ^ 52 <= m) by (apply Z.div_le_lower_bound; lia).
  assert (Hmhi : m < 2 ^ 53) by (apply Z.div_lt_upper_bound; lia).
  destruct m' as [|q|q] eqn:Hq; try lia.
  destruct (Z.eq_dec (Zpos q) (2 ^ 53)) as [Htop|Hnot].
  - (* the increment carried into a 54th digit *)
    injection Htop as ->.
    assert (Hn1 : n <> 0).
    { intros Hn0. rewrite Hn0, Z.pow_0_r in *. lia. }
    destruct (shr_fexp_spec 9007199254740992 (e + n)) as (r2 & s2 & -> & _);
      [change (Zpos (digits2_pos 9007199254740992)) with 54; lia
      |change (Zpos (digits2_pos 9007199254740992)) with 54; lia|].
    change (Zpos (digits2_pos 9007199254740992)) with 54.
    change (9007199254740992 / 2 ^ (54 - 53)) with 4503599627370496.
    change (54 - 53) with 1. cbn [shr_m].
    destruct (e + n + 1 <=? 1024 - 53) eqn:Ele;
      [|apply Z.leb_gt in Ele; unfold n in Ele; lia].
    exists 4503599627370496%positive, (e + n + 1).
    split; [reflexivity|]. split; [reflexivity|]. split; [lia|].
    split.
    + replace (e + n + 1 - e) with (Z.succ n) by lia.
      rewrite Z.pow_succ_r by lia.
      change (2 ^ 53) with 9007199254740992 in *. lia.
    + intros H53. unfold n in Hn1. lia.
  - assert (Hq53 : Zpos (digits2_pos q) = 53).
    { apply digits2_pos_unique. change (53 - 1) with 52. lia. }
    destruct (shr_fexp_spec q (e + n)) as (r2 & s2 & -> & _); [lia|lia|].
    rewrite Hq53. change (53 - 53) with 0.
    rewrite Z.pow_0_r, Z.div_1_r, Z.add_0_r. cbn [shr_m].
    destruct (e + n <=? 1024 - 53) eqn:Ele;
      [|apply Z.leb_gt in Ele; unfold n in Ele; lia].
    exists q, (e + n). split; [reflexivity|]. split; [exact Hq53|].
    split; [lia|]. split.
    + replace (e + n - e) with n by lia. rewrite (Z.mul_comm (Zpos q)). exact Herr.
    + intros H53. assert (Hn0 : n = 0) by (unfold n; lia).
      rewrite Hn0, Z.pow_0_r in *.
      split; [|lia]. assert (Zpos q = Zpos P) by lia. congruence.
Qed.

(** ** Values of [double]s as integers *)

Lemma pow2_pos (k : Z) : 0 <= k -> 0 < 2 ^ k.
Proof. intros. apply Z.pow_pos_nonneg; lia. Qed.

Lemma pow2_split (a b : Z) : 0 <= a -> 0 <= b -> 2 ^ (a + b) = 2 ^ a * 2 ^ b.
Proof. intros. apply Z.pow_add_r; lia. Qed.

(** Rounding in scaled values: the result is normal and within a
    relative error of [2^-53], and exact for 53 digits. *)
Lemma round_scaled (P : positive) (e : Z) :
  53 <= Zpos (digits2_pos P) ->
  -100 <= e ->
  Zpos (digits2_pos P) + e - 53 < 0 ->
  exists x,
    binary_round_aux 53 1024 false (Zpos P) e loc_Exact = x
    /\ normal x
    /\ 2 ^ 53 * Z.abs (scaled x - Zpos P * 2 ^ (e + 100))
       <= Zpos P * 2 ^ (e + 100)
    /\ (Zpos (digits2_pos P) = 53 -> scaled x = Zpos P * 2 ^ (e + 100)).
Proof.
  intros Hd He Hneg.
  destruct (binary_round_aux_spec P e Hd) as (m' & e' & Hx & Hd' & He' & Herr & Hex);
    [lia|].
  exists (S754_finite false m' e'). split; [exact Hx|].
  split; [exists m', e'; repeat split; lia|].
  pose proof (digits2_pos_bounds P) as [Plo Phi].
  set (d := Zpos (digits2_pos P)) in *.
  cbn [scaled].
  assert (Hs : 2 ^ (e' + 100) = 2 ^ (e' - e) * 2 ^ (e + 100)).
  { rewrite <- pow2_split by lia. f_equal. lia. }
  assert (Hsc : 0 < 2 ^ (e + 100)) by (apply pow2_pos; lia).
  set (s := 2 ^ (e + 100)) in *.
  set (a := Zpos m' * 2 ^ (e' - e)) in *.
  assert (Ha : Zpos m' * 2 ^ (e' + 100) - Zpos P * s = (a - Zpos P) * s).
  { rewrite Hs. unfold a. ring. }
  rewrite Ha, Z.abs_mul, (Z.abs_eq s) by lia.
  split.
  - assert (Hpw : 2 ^ 53 * 2 ^ (d - 53) = 2 * 2 ^ (d - 1)).
    { rewrite <- pow2_split by lia. replace (53 + (d - 53)) with (Z.succ (d - 1)) by lia.
      rewrite Z.pow_succ_r by lia. reflexivity. }
    assert (H0 : 0 < 2 ^ 53) by (apply pow2_pos; lia).
    set (E := Z.abs (a - Zpos P)) in *.
    assert (2 ^ 53 * (2 * E) <= 2 ^ 53 * 2 ^ (d - 53))
      by (apply Z.mul_le_mono_nonneg_l; lia).
    assert (2 ^ 53 * E <= Zpos P) by lia.
    replace (2 ^ 53 * (E * s)) with ((2 ^ 53 * E) * s) by ring.
    apply Z.mul_le_mono_nonneg_r; lia.
  - intros H53. destruct (Hex H53) as [-> ->]. reflexivity.
Qed.

Lemma iter_xO (n p : positive) :
  Zpos (Pos.iter xO p n) = Zpos p * 2 ^ Zpos n.
Proof.
  induction n as [|n IH] using Pos.peano_ind.
  - change (Zpos (Pos.iter xO p 1)) with (2 * Zpos p). change (2 ^ 1) with 2. lia.
  - rewrite Pos.iter_succ, Pos2Z.inj_succ, Z.pow_succ_r by lia.
    change (Zpos (Pos.iter xO p n)~0) with (2 * Zpos (Pos.iter xO p n)).
    rewrite IH. ring.
Qed.

(** [(double)D] is exact. *)
Lemma dbl_of_int_spec (D : Z) :
  1 <= D < 2 ^ 52 ->
  normal (dbl_of_int D) /\ scaled (dbl_of_int D) = D * 2 ^ 100.
Proof.
  intros HD. destruct D as [|p|p]; try lia.
  unfold dbl_of_int, binary_normalize, binary_round.
  pose proof (digits2_pos_bounds p) as [Plo Phi].
  set (k := Zpos (digits2_pos p)) in *.
  assert (Hk : 1 <= k <= 52).
  { split; [unfold k; lia|].
    destruct (Z_le_gt_dec k 52) as [|Hgt]; [assumption|].
    assert (2 ^ 52 <= 2 ^ (k - 1)) by (apply Z.pow_le_mono_r; lia). lia. }
  assert (Hf : fexp 53 1024 (k + 0) = k - 53).
  { unfold fexp, emin. rewrite Z.max_l by lia. lia. }
  rewrite Hf. unfold shl_align.
  assert (Hmz : exists mz, (match k - 53 - 0 with
                            | Zneg d => (Pos.iter xO p d, k - 53)
                            | _ => (p, 0)
                            end) = (mz, k - 53)
                           /\ Zpos mz = Zpos p * 2 ^ (53 - k)).
  { destruct (k - 53 - 0) as [|q|q] eqn:Hq; try lia.
    exists (Pos.iter xO p q). split; [reflexivity|].
    rewrite iter_xO. f_equal. f_equal. lia. }
  destruct Hmz as (mz & -> & Hmz).
  assert (Hdz : Zpos (digits2_pos mz) = 53).
  { apply digits2_pos_unique. rewrite Hmz.
    assert (H1 : 2 ^ (53 - 1) = 2 ^ (k - 1) * 2 ^ (53 - k))
      by (rewrite <- pow2_split by lia; f_equal; lia).
    assert (H2 : 2 ^ 53 = 2 ^ k * 2 ^ (53 - k))
      by (rewrite <- pow2_split by lia; f_equal; lia).
    rewrite H1, H2. pose proof (pow2_pos (53 - k)). nia. }
  destruct (round_scaled mz (k - 53)) as (x & -> & Hn & _ & Hex); try lia.
  split; [exact Hn|]. rewrite (Hex Hdz), Hmz.
  rewrite <- Z.mul_assoc, <- pow2_split by lia. f_equal. f_equal. lia.
Qed.

(** [<=] on positive normal numbers is [<=] on their values. *)
Lemma dbl_leb_normal (x y : dbl) :
  normal x -> normal y -> dbl_leb x y = (scaled x <=? scaled y).
Proof.
  intros (m1 & e1 & -> & Hd1 & He1) (m2 & e2 & -> & Hd2 & He2).
  pose proof (digits2_pos_bounds m1) as [L1 U1].
  pose proof (digits2_pos_bounds m2) as [L2 U2].
  rewrite Hd1 in L1, U1. rewrite Hd2 in L2, U2.
  unfold dbl_leb, SFleb, SFcompare. cbn [scaled].
  destruct (Z.compare_spec e1 e2) as [Heq|Hlt|Hgt].
  - subst e2. rewrite Pos.compare_cont_spec, Pos2Z.inj_compare. cbn [Pos.switch_Eq].
    pose proof (pow2_pos (e1 + 100)) as Hp.
    destruct (Z.compare_spec (Zpos m1) (Zpos m2)) as [H|H|H];
      symmetry; [apply Z.leb_le|apply Z.leb_le|apply Z.leb_gt]; nia.
  - symmetry. apply Z.leb_le.
    assert (H : 2 ^ (e2 + 100) = 2 ^ (e2 - e1 - 1) * (2 * 2 ^ (e1 + 100))).
    { rewrite <- Z.pow_succ_r, <- pow2_split by lia. f_equal. lia. }
    pose proof (pow2_pos (e1 + 100)). pose proof (pow2_pos (e2 - e1 - 1)).
    rewrite H. change (2 ^ (53 - 1)) with 4503599627370496 in *.
    change (2 ^ 53) with 9007199254740992 in *. nia.
  - symmetry. apply Z.leb_gt.
    assert (H : 2 ^ (e1 + 100) = 2 ^ (e1 - e2 - 1) * (2 * 2 ^ (e2 + 100))).
    { rewrite <- Z.pow_succ_r, <- pow2_split by lia. f_equal. lia. }
    pose proof (pow2_pos (e2 + 100)). pose proof (pow2_pos (e1 - e2 - 1)).
    rewrite H. change (2 ^ (53 - 1)) with 4503599627370496 in *.
    change (2 ^ 53) with 9007199254740992 in *. nia.
Qed.

(** Cutting a normal number towards zero. *)
Lemma dbl_trunc_normal (x : dbl) :
  normal x -> dbl_trunc x = scaled x / 2 ^ 100.
Proof.
  intros (m & e & -> & _ & He). cbn [dbl_trunc scaled].
  rewrite Z.shiftl_div_pow2 by lia.
  assert (H : 2 ^ 100 = 2 ^ (- e) * 2 ^ (e + 100))
    by (rewrite <- pow2_split by lia; f_equal; lia).
  rewrite H. pose proof (pow2_pos (e + 100)). pose proof (pow2_pos (- e)).
  rewrite Z.div_mul_cancel_r by lia. reflexivity.
Qed.

Lemma pow2_lt_inv (a b : Z) : 0 <= b -> 2 ^ a < 2 ^ b -> a < b.
Proof. intros Hb H. apply (Z.pow_lt_mono_r_iff 2); [lia | assumption | assumption]. Qed.

Lemma normal_exp_bounds (m : positive) (e lo hi : Z) :
  Zpos (digits2_pos m) = 53 -> -100 <= e ->
  0 <= lo -> 0 <= hi ->
  2 ^ lo <= Zpos m * 2 ^ (e + 100) < 2 ^ hi ->
  lo - 153 < e < hi - 152.
Proof.
  intros Hd He Hlo Hhi [L U].
  pose proof (digits2_pos_bounds m) as [Lm Um]. rewrite Hd in Lm, Um.
  split.
  - assert (H : 2 ^ lo < 2 ^ (e + 153)).
    { replace (e + 153) with (53 + (e + 100)) by lia. rewrite pow2_split by lia.
      pose proof (pow2_pos (e + 100)). nia. }
    apply pow2_lt_inv in H; lia.
  - assert (H : 2 ^ (e + 152) < 2 ^ hi).
    { replace (e + 152) with (53 - 1 + (e + 100)) by lia. rewrite pow2_split by lia.
      pose proof (pow2_pos (e + 100)). nia. }
    apply pow2_lt_inv in H; lia.
Qed.

Lemma digits2_pos_window (p : positive) (lo hi : Z) :
  0 <= lo -> 0 <= hi -> 2 ^ lo <= Zpos p < 2 ^ hi ->
  lo < Zpos (digits2_pos p) <= hi.
Proof.
  intros Hlo Hhi [L U]. pose proof (digits2_pos_bounds p) as [Lp Up].
  split.
  - apply pow2_lt_inv; lia.
  - assert (H : Zpos (digits2_pos p) - 1 < hi) by (apply pow2_lt_inv; lia). lia.
Qed.

(** The product [dpi * factor]: the exact product of the two significands,
    rounded once. *)
Lemma dbl_mul_factor_spec (D : Z) :
  1 <= D < 2 ^ 31 ->
  exists x, dbl_mul (dbl_of_int D) dbl_factor = x /\ normal x
    /\ 2 ^ 53 * Z.abs (scaled x - D * 5540845998219096 * 2 ^ 53)
       <= D * 5540845998219096 * 2 ^ 53.
Proof.
  intros HD.
  destruct (dbl_of_int_spec D) as [(m & e & Hx & Hd & He) Hs].
  { change (2 ^ 31) with 2147483648 in HD. change (2 ^ 52) with 4503599627370496. lia. }
  rewrite Hx in *. cbn [scaled] in Hs.
  pose proof (digits2_pos_bounds m) as [Lm Um]. rewrite Hd in Lm, Um.
  assert (Hb : 100 - 153 < e < 131 - 152).
  { apply (normal_exp_bounds m); lia. }
  change (dbl_mul (S754_finite false m e) dbl_factor)
    with (binary_round_aux 53 1024 false (Zpos (m * 5540845998219096)) (e + -47) loc_Exact).
  assert (HP : Zpos (m * 5540845998219096) = Zpos m * 5540845998219096) by reflexivity.
  assert (Hw : 104 < Zpos (digits2_pos (m * 5540845998219096)) <= 106).
  { apply digits2_pos_window; lia. }
  destruct (round_scaled (m * 5540845998219096) (e + -47)) as (x & Hr & Hn & Hb' & _);
    try lia.
  exists x. split; [exact Hr|]. split; [exact Hn|].
  assert (Heq : Zpos (m * 5540845998219096) * 2 ^ (e + -47 + 100)
                = D * 5540845998219096 * 2 ^ 53).
  { rewrite HP. replace (e + -47 + 100) with (e + 53) by lia.
    assert (H1 : Zpos m * 2 ^ (e + 53) = D * 2 ^ 53).
    { apply (Z.mul_reg_r _ _ (2 ^ 47)); [pose proof (pow2_pos 47); lia|].
      rewrite <- !Z.mul_assoc, <- !pow2_split by lia.
      replace (e + 53 + 47) with (e + 100) by lia. exact Hs. }
    rewrite <- Z.mul_assoc, (Z.mul_comm 5540845998219096), Z.mul_assoc, H1. ring. }
  rewrite Heq in Hb'. exact Hb'.
Qed.

(** The sum [x + 0.5] for [1 <= x < 2^32]: the exact sum, rounded once. *)
Lemma dbl_add_half_spec (x : dbl) :
  normal x -> 2 ^ 100 <= scaled x < 2 ^ 132 ->
  exists y, dbl_add x dbl_half = y /\ normal y
    /\ 2 ^ 53 * Z.abs (scaled y - (scaled x + 2 ^ 99)) <= scaled x + 2 ^ 99.
Proof.
  intros (m & e & -> & Hd & He) Hs. cbn [scaled] in *.
  pose proof (digits2_pos_bounds m) as [Lm Um]. rewrite Hd in Lm, Um.
  assert (Hb : 100 - 153 < e < 132 - 152) by (apply (normal_exp_bounds m); lia).
  unfold dbl_add, SFadd, dbl_half.
  rewrite Z.min_r by lia.
  change (shl_align 4503599627370496 (-53) (-53)) with (4503599627370496%positive, -53).
  unfold shl_align at 1.
  destruct (-53 - e) as [|q|q] eqn:Hq; try lia.
  cbn [fst cond_Zopp].
  set (S := (Pos.iter xO m q + 4503599627370496)%positive).
  change (Zpos (Pos.iter xO m q) + Zpos 4503599627370496) with (Zpos S).
  assert (HS : Zpos S = Zpos m * 2 ^ (e + 53) + 2 ^ 52).
  { unfold S. rewrite Pos2Z.inj_add, iter_xO. f_equal. f_equal. f_equal. lia. }
  cbn [binary_normalize]. unfold binary_round.
  assert (Hp : 2 ^ 1 <= 2 ^ (e + 53) <= 2 ^ 32)
    by (split; apply Z.pow_le_mono_r; lia).
  assert (Hw : 53 < Zpos (digits2_pos S) <= 86).
  { apply digits2_pos_window; try lia. rewrite HS.
    change (2 ^ 1) with 2 in Hp. change (2 ^ 32) with 4294967296 in Hp.
    change (2 ^ (53 - 1)) with 4503599627370496 in Lm.
    change (2 ^ 53) with 9007199254740992 in *.
    change (2 ^ 52) with 4503599627370496.
    change (2 ^ 86) with 77371252455336267181195264. nia. }
  assert (Hf : fexp 53 1024 (Zpos (digits2_pos S) + -53) = Zpos (digits2_pos S) - 106).
  { unfold fexp, emin. rewrite Z.max_l by lia. lia. }
  rewrite Hf. unfold shl_align.
  destruct (Zpos (digits2_pos S) - 106 - -53) as [|r|r] eqn:Hr; try lia.
  destruct (round_scaled S (-53)) as (y & Hy & Hn & Hb' & _); try lia.
  exists y. split; [exact Hy|]. split; [exact Hn|].
  assert (Heq : Zpos S * 2 ^ (-53 + 100) = Zpos m * 2 ^ (e + 100) + 2 ^ 99).
  { rewrite HS. change (-53 + 100) with 47.
    replace (e + 100) with (e + 53 + 47) by lia.
    rewrite (pow2_split (e + 53) 47) by lia.
    change (2 ^ 99) with (2 ^ 52 * 2 ^ 47). ring. }
  rewrite Heq in Hb'. exact Hb'.
Qed.

Lemma dbl_of_int_1 :
  normal (dbl_of_int 1) /\ scaled (dbl_of_int 1) = 2 ^ 100.
Proof. destruct (dbl_of_int_spec 1) as [Hn Hs]; [lia|]. split; [exact Hn | rewrite Hs; lia]. Qed.

Lemma dbl_of_int_max :
  normal (dbl_of_int 4294967295)
  /\ scaled (dbl_of_int 4294967295) = 4294967295 * 2 ^ 100.
Proof. apply dbl_of_int_spec. lia. Qed.

(** The value [_png_round_u32] returns between its two bounds. *)
Lemma _png_round_u32_between (x : dbl) :
  normal x -> 2 ^ 100 < scaled x < 4294967295 * 2 ^ 100 ->
  exists y, normal y
    /\ 2 ^ 53 * Z.abs (scaled y - (scaled x + 2 ^ 99)) <= scaled x + 2 ^ 99
    /\ _png_round_u32 x = scaled y / 2 ^ 100.
Proof.
  intros Hn Hs. unfold _png_round_u32.
  destruct dbl_of_int_1 as [Hn1 Hs1]. destruct dbl_of_int_max as [Hnm Hsm].
  rewrite (dbl_leb_normal _ _ Hn Hn1), (dbl_leb_normal _ _ Hnm Hn), Hs1, Hsm.
  destruct (Z.leb_spec (scaled x) (2 ^ 100)) as [H|_]; [lia|].
  destruct (Z.leb_spec (4294967295 * 2 ^ 100) (scaled x)) as [H|_]; [lia|].
  destruct (dbl_add_half_spec x Hn) as (y & -> & Hny & Hy); [lia|].
  exists y. split; [exact Hny|]. split; [exact Hy|].
  rewrite (dbl_trunc_normal _ Hny). unfold u32. apply Z.mod_small.
  split.
  - apply Z.div_pos; lia.
  - apply Z.div_lt_upper_bound; lia.
Qed.

(** Away from a tie the two roundings of the code cannot move the result
    across an integer. *)
Lemma _png_dpi_to_ppm_away_from_tie (D : Z) :
  1 <= D <= 109092169 -> near_tie D = false ->
  nearest_to_product D (_png_dpi_to_ppm D).
Proof.
  intros HD Ht. unfold _png_dpi_to_ppm.
  destruct (Z.leb_spec D 0) as [H|_]; [lia|].
  destruct (dbl_mul_factor_spec D) as (x & -> & Hn & Hx); [lia|].
  destruct (_png_round_u32_between x Hn) as (y & Hny & Hy & ->); [lia|].
  unfold near_tie in Ht. apply orb_false_iff in Ht. destruct Ht as [Hlo Hhi].
  apply Z.ltb_ge in Hlo, Hhi.
  unfold nearest_to_product.
  set (X := scaled x) in *. set (Y := scaled y) in *.
  pose proof (Z.div_mod (D * 3937007874 + 50000000) 100000000 ltac:(lia)) as Hg.
  pose proof (Z.mod_pos_bound (D * 3937007874 + 50000000) 100000000 ltac:(lia)) as Hgb.
  set (g := (D * 3937007874 + 50000000) mod 100000000) in *.
  set (n := (D * 3937007874 + 50000000) / 100000000) in *.
  assert (Hr : Y / 2 ^ 100 = n).
  { symmetry. apply (Z.div_unique _ _ _ (Y - n * 2 ^ 100)); lia. }
  rewrite Hr. lia.
Qed.

(** From [109092170] on the product is at least [4294967295.0]. *)
Lemma _png_dpi_to_ppm_clamped (D : Z) :
  109092170 <= D <= 2147483647 -> _png_dpi_to_ppm D = 4294967295.
Proof.
  intros HD. unfold _png_dpi_to_ppm.
  destruct (Z.leb_spec D 0) as [H|_]; [lia|].
  destruct (dbl_mul_factor_spec D) as (x & -> & Hn & Hx); [lia|].
  unfold _png_round_u32.
  destruct dbl_of_int_1 as [Hn1 Hs1]. destruct dbl_of_int_max as [Hnm Hsm].
  rewrite (dbl_leb_normal _ _ Hn Hn1), (dbl_leb_normal _ _ Hnm Hn), Hs1, Hsm.
  destruct (Z.leb_spec (scaled x) (2 ^ 100)) as [H|_]; [lia|].
  destruct (Z.leb_spec (4294967295 * 2 ^ 100) (scaled x)) as [_|H]; [reflexivity|lia].
Qed.

Lemma near_tie_candidate (D : Z) :
  1 <= D <= 109092169 -> near_tie D = true ->
  exists j t, -100 <= j < 101 /\ 0 <= t < 3 /\ D = tie_candidate j t.
Proof.
  intros HD Ht. unfold near_tie in Ht. apply orb_true_iff in Ht.
  pose proof (Z.div_mod (D * 3937007874 + 50000000) 100000000 ltac:(lia)) as Hg.
  pose proof (Z.mod_pos_bound (D * 3937007874 + 50000000) 100000000 ltac:(lia)) as Hgb.
  set (g := (D * 3937007874 + 50000000) mod 100000000) in *.
  set (n := (D * 3937007874 + 50000000) / 100000000) in *.
  assert (Hj : exists j n', -100 <= j < 101
                 /\ D * 1968503937 + 25000000 = 50000000 * n' + j).
  { assert (He : g = 2 * (D * 1968503937 + 25000000 - 50000000 * n)) by lia.
    destruct Ht as [H|H]; apply Z.ltb_lt in H.
    - exists (D * 1968503937 + 25000000 - 50000000 * n), n. lia.
    - exists (D * 1968503937 + 25000000 - 50000000 * n - 50000000), (n + 1). lia. }
  destruct Hj as (j & n' & Hj & Hn').
  clearbody g n.
  pose proof (Z.div_mod D 50000000 ltac:(lia)) as Hq.
  pose proof (Z.mod_pos_bound D 50000000 ltac:(lia)) as Hqb.
  exists j, (D / 50000000). split; [exact Hj|]. split; [lia|].
  unfold tie_candidate.
  assert (Hm : D mod 50000000 = (49999873 * (j - 25000000)) mod 50000000).
  { apply (Z.mod_unique_pos _ _ (1968498937 * D - 49999873 * n' + D / 50000000)).
    - apply Z.mod_pos_bound; lia.
    - lia. }
  rewrite <- Hm. lia.
Qed.

Lemma ties_ok_spec (n : nat) :
  forall s j t,
    ties_ok n s = true -> s <= j < s + Z.of_nat n -> 0 <= t < 3 ->
    tie_ok (tie_candidate j t) = true.
Proof.
  induction n as [|n IH]; intros s j t Hall Hj Ht; [lia|].
  cbn [ties_ok] in Hall. apply andb_true_iff in Hall. destruct Hall as [Hall Hrest].
  apply andb_true_iff in Hall. destruct Hall as [Hall H2].
  apply andb_true_iff in Hall. destruct Hall as [H0 H1].
  destruct (Z.eq_dec j s) as [->|Hne].
  - assert (Ht' : t = 0 \/ t = 1 \/ t = 2) by lia.
    destruct Ht' as [->|[->| ->]]; assumption.
  - apply (IH (s + 1)); [exact Hrest | lia | exact Ht].
Qed.

Lemma ties_checked : ties_ok 201 (-100) = true.
Proof. vm_compute. reflexivity. Qed.

Lemma _png_dpi_to_ppm_nearest (D : Z) :
  1 <= D <= 109092169 -> D <> 24999873 ->
  nearest_to_product D (_png_dpi_to_ppm D).
Proof.
  intros HD Hne. destruct (near_tie D) eqn:Ht.
  - destruct (near_tie_candidate D HD Ht) as (j & t & Hj & Htb & HDc).
    pose proof (ties_ok_spec _ _ j t ties_checked ltac:(lia) Htb) as Hok.
    rewrite <- HDc in Hok. unfold tie_ok in Hok.
    apply orb_true_iff in Hok. destruct Hok as [Hok|Hok].
    + apply orb_true_iff in Hok. destruct Hok as [Hok|Hok].
      * apply negb_true_iff, andb_false_iff in Hok.
        destruct Hok as [Hok|Hok]; [apply Z.leb_gt in Hok | apply Z.leb_gt in Hok]; lia.
      * apply Z.eqb_eq in Hok. contradiction.
    + now apply nearest_to_productb_spec.
  - now apply _png_dpi_to_ppm_away_from_tie.
Qed.

(** The product is half-way between two integers at two resolutions
    only. *)
Lemma product_tie (D r : Z) :
  1 <= D <= 109092169 ->
  D * 3937007874 = r * 100000000 + 50000000 ->
  D = 25000000 \/ D = 75000000.
Proof.
  intros HD H.
  assert (H1 : D * 1968503937 = r * 50000000 + 25000000) by lia.
  assert (H2 : D = 50000000 * (49999873 * r + 24999936 - 1968498937 * D)
                   + 25000000) by lia.
  lia.
Qed.

Lemma _png_dpi_to_ppm_round (D : Z) :
  1 <= D <= 109092169 ->
  D <> 24999873 -> D <> 25000000 -> D <> 75000000 ->
  _png_dpi_to_ppm D = round_product D.
Proof.
  intros HD H1 H2 H3.
  pose proof (_png_dpi_to_ppm_nearest D HD H1) as Hn.
  unfold nearest_to_product in Hn. unfold round_product.
  apply Z.div_unique with (r := D * 3937007874 + 50000000
                                - _png_dpi_to_ppm D * 100000000); [|lia].
  left. split; [lia|].
  destruct (Z.eq_dec (D * 3937007874)
                     (_png_dpi_to_ppm D * 100000000 + 50000000)) as [E|E];
    [|lia].
  destruct (product_tie D _ HD E); contradiction.
Qed.

(** What the claim of C2 says fails at these inputs: the stored value is
    one below [round(D * 39.37007874)].  At D = 24999873 the product is
    984246968.50000002 and the stored value 984246968; at D = 25000000
    and D = 75000000 the product is half-way between two integers
    (984251968.5 and 2952755905.5) and the stored value is the lower one,
    where [round] gives the upper one. *)
Lemma dpi_to_ppm_below_round :
  (24999873 * 3937007874 = 98424696850000002
   /\ _png_dpi_to_ppm 24999873 = 984246968
   /\ round_product 24999873 = 984246969)
  /\ (25000000 * 3937007874 = 98425196850000000
      /\ _png_dpi_to_ppm 25000000 = 984251968
      /\ round_product 25000000 = 984251969)
  /\ (75000000 * 3937007874 = 295275590550000000
      /\ _png_dpi_to_ppm 75000000 = 2952755905
      /\ round_product 75000000 = 2952755906).
Proof. repeat split; vm_compute; reflexivity. Qed.

(** C2, amended.  A non-positive D is taken as 1 and gives 39, which is
    [round(1 * 39.37007874)].  For every D from 1 to 109092169 other than
    24999873, 25000000 and 75000000 the stored value is
    [round(D * 39.37007874)]; at these three it is one less.  At every D
    of that range other than 24999873 the stored value is an integer
    nearest to the product (at the two ties, the lower of the two), and
    it is at least 1; D = 300 gives 11811, D = 600 gives 23622 and
    D = 1200 gives 47244.  For every D from 109092170 to 2147483647 the
    product and its rounding are above 4294967295 and the stored value is
    the clamp 4294967295.  For every D the stored value is within the
    unsigned 32-bit range. *)
Theorem _png_dpi_to_ppm_values :
  forall D : Z,
    (D <= 0 -> _png_dpi_to_ppm D = 39 /\ round_product 1 = 39)
    /\ (1 <= D <= 109092169 ->
        D <> 24999873 -> D <> 25000000 -> D <> 75000000 ->
        _png_dpi_to_ppm D = round_product D)
    /\ (D = 24999873 \/ D = 25000000 \/ D = 75000000 ->
        _png_dpi_to_ppm D = round_product D - 1)
    /\ (1 <= D <= 109092169 -> D <> 24999873 ->
        nearest_to_product D (_png_dpi_to_ppm D)
        /\ 1 <= _png_dpi_to_ppm D)
    /\ (109092170 <= D <= 2147483647 ->
        4294967295 * 100000000 < D * 3937007874
        /\ 4294967295 < round_product D
        /\ _png_dpi_to_ppm D = 4294967295)
    /\ 0 <= _png_dpi_to_ppm D <= 4294967295
    /\ _png_dpi_to_ppm 300 = 11811
    /\ _png_dpi_to_ppm 600 = 23622
    /\ _png_dpi_to_ppm 1200 = 47244.
Proof.
  intros D.
  pose proof (_png_dpi_to_ppm_range D) as Hr.
  change (2 ^ 32) with 4294967296 in Hr.
  split; [intros HD; split;
          [now apply _png_dpi_to_ppm_nonpositive|reflexivity]|].
  split; [apply _png_dpi_to_ppm_round|].
  split; [intros [->|[->| ->]]; vm_compute; reflexivity|].
  split; [|split; [|split; [lia | repeat split; vm_compute; reflexivity]]].
  - intros HD Hne.
    pose proof (_png_dpi_to_ppm_nearest D HD Hne) as Hn.
    split; [exact Hn|].
    unfold nearest_to_product in Hn. lia.
  - intros HD. split; [lia|]. split; [|now apply _png_dpi_to_ppm_clamped].
    unfold round_product. apply Z.lt_le_trans with (m := 4294967296); [lia|].
    apply Z.div_le_lower_bound; lia.
Qed.

(** * More about the patcher *)

(** ** The 32-bit fields *)

Lemma byte_of_Z_low (z : Z) (b : byte) :
  z mod 2 ^ 8 = byte.unsigned b -> byte.of_Z z = b.
Proof.
  intros H. apply byte.unsigned_inj. rewrite byte.unsigned_of_Z.
  unfold byte.wrap. exact H.
Qed.

Lemma _png_write_read_u32_be (b : list byte) :
  length b = 4%nat -> _png_write_u32_be (_png_read_u32_be b) = b.
Proof.
  intros Hb.
  destruct b as [|b0 [|b1 [|b2 [|b3 [|? ?]]]]]; try discriminate.
  unfold _png_read_u32_be, _png_write_u32_be. cbn [nth].
  pose proof (byte.unsigned_range b0) as H0.
  pose proof (byte.unsigned_range b1) as H1.
  pose proof (byte.unsigned_range b2) as H2.
  pose proof (byte.unsigned_range b3) as H3.
  f_equal; [|f_equal; [|f_equal; [|f_equal]]]; apply byte_of_Z_low;
    rewrite <- (Z.mod_small (byte.unsigned b0) (2 ^ 8)) by lia;
    rewrite <- (Z.mod_small (byte.unsigned b1) (2 ^ 8)) by lia;
    rewrite <- (Z.mod_small (byte.unsigned b2) (2 ^ 8)) by lia;
    rewrite <- (Z.mod_small (byte.unsigned b3) (2 ^ 8)) by lia;
    Z.bitblast;
    repeat match goal with
           | |- context [Z.testbit ?a ?n] =>
               rewrite (Z.testbit_neg_r a n) by lia
           end;
    cbn [andb orb]; rewrite ?orb_false_r; reflexivity.
Qed.

(** ** The checksum tells changed bytes apart *)

(** The top bit of a bit step is the bit that was shifted out. *)
Lemma crc32_bit_top (c : Z) :
  0 <= c < 2 ^ 32 -> Z.testbit (crc32_bit c) 31 = Z.testbit c 0.
Proof.
  intros Hc. unfold crc32_bit.
  assert (Hs : Z.testbit (Z.shiftr c 1) 31 = false).
  { rewrite Z.shiftr_spec by lia. change (31 + 1) with 32.
    rewrite <- (Z.mod_small c (2 ^ 32)) by lia.
    apply Z.mod_pow2_bits_high. lia. }
  destruct (Z.testbit c 0).
  - rewrite Z.lxor_spec, Hs. reflexivity.
  - exact Hs.
Qed.

Lemma lxor_cancel_r (a b m : Z) : Z.lxor a m = Z.lxor b m -> a = b.
Proof.
  intros H. rewrite <- (lxor_twice a m), <- (lxor_twice b m). now rewrite H.
Qed.

Lemma lxor_cancel_l (a b m : Z) : Z.lxor m a = Z.lxor m b -> a = b.
Proof. rewrite !(Z.lxor_comm m). apply lxor_cancel_r. Qed.

Lemma crc32_bit_inj (a b : Z) :
  0 <= a < 2 ^ 32 -> 0 <= b < 2 ^ 32 ->
  crc32_bit a = crc32_bit b -> a = b.
Proof.
  intros Ha Hb H.
  assert (H0 : Z.testbit a 0 = Z.testbit b 0)
    by (rewrite <- (crc32_bit_top a Ha), <- (crc32_bit_top b Hb); now rewrite H).
  assert (Hs : Z.shiftr a 1 = Z.shiftr b 1).
  { unfold crc32_bit in H. rewrite <- H0 in H.
    destruct (Z.testbit a 0); [now apply lxor_cancel_r in H | exact H]. }
  rewrite !Z.shiftr_div_pow2 in Hs by lia. change (2 ^ 1) with 2 in Hs.
  rewrite !Z.bit0_odd in H0.
  rewrite (Z.div_mod a 2), (Z.div_mod b 2) by lia.
  rewrite !Zmod_odd, H0, Hs. reflexivity.
Qed.

Lemma iter_crc32_bit_range (n : nat) (c : Z) :
  0 <= c < 2 ^ 32 -> 0 <= Nat.iter n crc32_bit c < 2 ^ 32.
Proof.
  intros Hc. induction n as [|n IH]; [exact Hc|].
  rewrite Nat.iter_succ. now apply crc32_bit_range.
Qed.

Lemma iter_crc32_bit_inj (n : nat) (a b : Z) :
  0 <= a < 2 ^ 32 -> 0 <= b < 2 ^ 32 ->
  Nat.iter n crc32_bit a = Nat.iter n crc32_bit b -> a = b.
Proof.
  intros Ha Hb. induction n as [|n IH]; [trivial|].
  rewrite !Nat.iter_succ. intros H. apply IH.
  apply crc32_bit_inj; [now apply iter_crc32_bit_range .. | exact H].
Qed.

Lemma lxor_byte_range (c : Z) (b : byte) :
  0 <= c < 2 ^ 32 -> 0 <= Z.lxor c (byte.unsigned b) < 2 ^ 32.
Proof.
  intros Hc. apply lxor_range; [lia | lia |].
  pose proof (byte.unsigned_range b). lia.
Qed.

(** For a fixed byte the step is one-to-one on the state, and for a fixed
    state it is one-to-one on the byte. *)
Lemma crc32_byte_inj_state (a b : Z) (x : byte) :
  0 <= a < 2 ^ 32 -> 0 <= b < 2 ^ 32 ->
  crc32_byte a x = crc32_byte b x -> a = b.
Proof.
  intros Ha Hb H. unfold crc32_byte in H.
  apply iter_crc32_bit_inj in H; [|now apply lxor_byte_range ..].
  now apply lxor_cancel_r in H.
Qed.

Lemma crc32_byte_inj_byte (c : Z) (x y : byte) :
  0 <= c < 2 ^ 32 ->
  crc32_byte c x = crc32_byte c y -> x = y.
Proof.
  intros Hc H. unfold crc32_byte in H.
  apply iter_crc32_bit_inj in H; [|now apply lxor_byte_range ..].
  apply lxor_cancel_l in H. now apply byte.unsigned_inj.
Qed.

Lemma fold_crc32_byte_range (buf : list byte) :
  forall c, 0 <= c < 2 ^ 32 -> 0 <= fold_left crc32_byte buf c < 2 ^ 32.
Proof.
  induction buf as [|x buf IH]; intros c Hc; [exact Hc|].
  cbn [fold_left]. apply IH. now apply crc32_byte_range.
Qed.

Lemma fold_crc32_byte_inj (buf : list byte) :
  forall a b,
    0 <= a < 2 ^ 32 -> 0 <= b < 2 ^ 32 ->
    fold_left crc32_byte buf a = fold_left crc32_byte buf b -> a = b.
Proof.
  induction buf as [|x buf IH]; intros a b Ha Hb H; [exact H|].
  cbn [fold_left] in H. apply IH in H; [|now apply crc32_byte_range ..].
  now apply crc32_byte_inj_state in H.
Qed.

Lemma _png_crc32_one_byte (a b : list byte) (x y : byte) (crc : Z) :
  0 <= crc < 2 ^ 32 ->
  _png_crc32 (a ++ x :: b) crc = _png_crc32 (a ++ y :: b) crc -> x = y.
Proof.
  intros Hc H. unfold _png_crc32 in H. apply lxor_cancel_r in H.
  rewrite !fold_crc_update, !fold_left_app in H. cbn [fold_left] in H.
  assert (Hs : 0 <= fold_left crc32_byte a (Z.lxor crc 0xFFFFFFFF) < 2 ^ 32).
  { apply fold_crc32_byte_range. apply lxor_range; lia. }
  apply fold_crc32_byte_inj in H; [|now apply crc32_byte_range ..].
  now apply crc32_byte_inj_byte in H.
Qed.

(** The same for two different starting values: the checksum of the same
    bytes differs. *)
Lemma _png_crc32_inj_start (buf : list byte) (c1 c2 : Z) :
  0 <= c1 < 2 ^ 32 -> 0 <= c2 < 2 ^ 32 ->
  _png_crc32 buf c1 = _png_crc32 buf c2 -> c1 = c2.
Proof.
  intros H1 H2 H. unfold _png_crc32 in H. apply lxor_cancel_r in H.
  rewrite !fold_crc_update in H.
  apply fold_crc32_byte_inj in H; [|apply lxor_range; lia ..].
  now apply lxor_cancel_r in H.
Qed.

(** ** The density of the two forms of the utility *)

Lemma dbl_ltb_normal (x y : dbl) :
  normal x -> normal y -> dbl_ltb x y = (scaled x <? scaled y).
Proof.
  intros (m1 & e1 & -> & Hd1 & He1) (m2 & e2 & -> & Hd2 & He2).
  pose proof (digits2_pos_bounds m1) as [L1 U1].
  pose proof (digits2_pos_bounds m2) as [L2 U2].
  rewrite Hd1 in L1, U1. rewrite Hd2 in L2, U2.
  unfold dbl_ltb, SFltb, SFcompare. cbn [scaled].
  destruct (Z.compare_spec e1 e2) as [Heq|Hlt|Hgt].
  - subst e2. rewrite Pos.compare_cont_spec, Pos2Z.inj_compare. cbn [Pos.switch_Eq].
    pose proof (pow2_pos (e1 + 100)) as Hp.
    destruct (Z.compare_spec (Zpos m1) (Zpos m2)) as [H|H|H];
      symmetry; [apply Z.ltb_ge|apply Z.ltb_lt|apply Z.ltb_ge]; nia.
  - symmetry. apply Z.ltb_lt.
    assert (H : 2 ^ (e2 + 100) = 2 ^ (e2 - e1 - 1) * (2 * 2 ^ (e1 + 100))).
    { rewrite <- Z.pow_succ_r, <- pow2_split by lia. f_equal. lia. }
    pose proof (pow2_pos (e1 + 100)). pose proof (pow2_pos (e2 - e1 - 1)).
    rewrite H. change (2 ^ (53 - 1)) with 4503599627370496 in *.
    change (2 ^ 53) with 9007199254740992 in *. nia.
  - symmetry. apply Z.ltb_ge.
    assert (H : 2 ^ (e1 + 100) = 2 ^ (e1 - e2 - 1) * (2 * 2 ^ (e2 + 100))).
    { rewrite <- Z.pow_succ_r, <- pow2_split by lia. f_equal. lia. }
    pose proof (pow2_pos (e2 + 100)). pose proof (pow2_pos (e1 - e2 - 1)).
    rewrite H. change (2 ^ (53 - 1)) with 4503599627370496 in *.
    change (2 ^ 53) with 9007199254740992 in *. nia.
Qed.

(** [llround] of a normal number: its value plus one half, cut. *)
Lemma llround_normal (x : dbl) :
  normal x -> TempFile.llround x = (scaled x + 2 ^ 99) / 2 ^ 100.
Proof.
  intros (m & e & -> & _ & He). cbn [TempFile.llround scaled].
  destruct (Z.eq_dec e 0) as [->|Hne].
  - rewrite Z.shiftl_mul_pow2 by lia. change (2 ^ (0 + 1)) with 2.
    change (0 + 100) with 100.
    transitivity (Zpos m).
    + symmetry. apply (Z.div_unique _ _ _ 1); lia.
    + apply (Z.div_unique _ _ _ (2 ^ 99)); lia.
  - rewrite Z.shiftl_div_pow2 by lia.
    replace (- (e + 1)) with (- e - 1) by lia.
    set (k := - e - 1). assert (Hk : 0 <= k <= 99) by lia.
    replace (e + 100) with (99 - k) by lia.
    assert (H99 : 2 ^ 99 = 2 ^ k * 2 ^ (99 - k))
      by (rewrite <- pow2_split by lia; f_equal; lia).
    assert (H100 : 2 ^ 100 = 2 * 2 ^ k * 2 ^ (99 - k))
      by (rewrite <- Z.mul_assoc, <- H99; reflexivity).
    pose proof (pow2_pos k ltac:(lia)) as Hpk.
    pose proof (pow2_pos (99 - k) ltac:(lia)) as Hpr.
    rewrite H100.
    replace (Zpos m * 2 ^ (99 - k) + 2 ^ 99)
      with ((Zpos m + 2 ^ k) * 2 ^ (99 - k)) by (rewrite H99; ring).
    rewrite Z.div_mul_cancel_r by lia.
    rewrite (Z.mul_comm 2), <- Z.div_div by lia.
    f_equal. rewrite <- (Z.mul_1_l (2 ^ k)) at 2.
    rewrite Z.div_add by lia. reflexivity.
Qed.

(** Away from a tie both conversions give the integer below
    [D * 39.37007874 + 0.5]. *)
Lemma _png_dpi_to_ppm_away_value (D : Z) :
  1 <= D <= 109092169 -> near_tie D = false ->
  _png_dpi_to_ppm D = (D * 3937007874 + 50000000) / 100000000.
Proof.
  intros HD Ht. unfold _png_dpi_to_ppm.
  destruct (Z.leb_spec D 0) as [H|_]; [lia|].
  destruct (dbl_mul_factor_spec D) as (x & -> & Hn & Hx); [lia|].
  destruct (_png_round_u32_between x Hn) as (y & Hny & Hy & ->); [lia|].
  unfold near_tie in Ht. apply orb_false_iff in Ht. destruct Ht as [Hlo Hhi].
  apply Z.ltb_ge in Hlo, Hhi.
  set (X := scaled x) in *. set (Y := scaled y) in *.
  pose proof (Z.div_mod (D * 3937007874 + 50000000) 100000000 ltac:(lia)) as Hg.
  pose proof (Z.mod_pos_bound (D * 3937007874 + 50000000) 100000000 ltac:(lia)) as Hgb.
  set (g := (D * 3937007874 + 50000000) mod 100000000) in *.
  set (n := (D * 3937007874 + 50000000) / 100000000) in *.
  symmetry. apply (Z.div_unique _ _ _ (Y - n * 2 ^ 100)); lia.
Qed.

Lemma TempFile_dpi_to_ppm_away_value (D : Z) :
  1 <= D <= 109092169 -> near_tie D = false ->
  TempFile._png_dpi_to_ppm D = (D * 3937007874 + 50000000) / 100000000.
Proof.
  intros HD Ht. unfold TempFile._png_dpi_to_ppm.
  destruct (Z.leb_spec D 0) as [H|_]; [lia|].
  destruct (dbl_mul_factor_spec D) as (x & -> & Hn & Hx); [lia|].
  destruct dbl_of_int_max as [Hnm Hsm].
  rewrite (dbl_ltb_normal _ _ Hnm Hn), Hsm.
  destruct (Z.ltb_spec (4294967295 * 2 ^ 100) (scaled x)) as [H|_]; [lia|].
  rewrite (llround_normal _ Hn).
  unfold near_tie in Ht. apply orb_false_iff in Ht. destruct Ht as [Hlo Hhi].
  apply Z.ltb_ge in Hlo, Hhi.
  set (X := scaled x) in *.
  pose proof (Z.div_mod (D * 3937007874 + 50000000) 100000000 ltac:(lia)) as Hg.
  pose proof (Z.mod_pos_bound (D * 3937007874 + 50000000) 100000000 ltac:(lia)) as Hgb.
  set (g := (D * 3937007874 + 50000000) mod 100000000) in *.
  set (n := (D * 3937007874 + 50000000) / 100000000) in *.
  assert (Hr : (X + 2 ^ 99) / 2 ^ 100 = n).
  { symmetry. apply (Z.div_unique _ _ _ (X + 2 ^ 99 - n * 2 ^ 100)); lia. }
  rewrite Hr. unfold u32. apply Z.mod_small. lia.
Qed.

Lemma TempFile_dpi_to_ppm_clamped (D : Z) :
  109092170 <= D <= 2147483647 -> TempFile._png_dpi_to_ppm D = 4294967295.
Proof.
  intros HD. unfold TempFile._png_dpi_to_ppm.
  destruct (Z.leb_spec D 0) as [H|_]; [lia|].
  destruct (dbl_mul_factor_spec D) as (x & -> & Hn & Hx); [lia|].
  destruct dbl_of_int_max as [Hnm Hsm].
  rewrite (dbl_ltb_normal _ _ Hnm Hn), Hsm.
  destruct (Z.ltb_spec (4294967295 * 2 ^ 100) (scaled x)) as [H|H].
  - vm_compute. reflexivity.
  - rewrite (llround_normal _ Hn).
    assert (Hx' : scaled x = 4294967295 * 2 ^ 100) by lia.
    rewrite Hx'. vm_compute. reflexivity.
Qed.

Lemma ties_agree_spec (n : nat) :
  forall s j t,
    ties_agree n s = true -> s <= j < s + Z.of_nat n -> 0 <= t < 3 ->
    tie_agree (tie_candidate j t) = true.
Proof.
  induction n as [|n IH]; intros s j t Hall Hj Ht; [lia|].
  cbn [ties_agree] in Hall. apply andb_true_iff in Hall. destruct Hall as [Hall Hrest].
  apply andb_true_iff in Hall. destruct Hall as [Hall H2].
  apply andb_true_iff in Hall. destruct Hall as [H0 H1].
  destruct (Z.eq_dec j s) as [->|Hne].
  - assert (Ht' : t = 0 \/ t = 1 \/ t = 2) by lia.
    destruct Ht' as [->|[->| ->]]; assumption.
  - apply (IH (s + 1)); [exact Hrest | lia | exact Ht].
Qed.

Lemma ties_agree_checked : ties_agree 201 (-100) = true.
Proof. vm_compute. reflexivity. Qed.

Lemma dpi_to_ppm_agree (D : Z) :
  D <= 2147483647 -> TempFile._png_dpi_to_ppm D = _png_dpi_to_ppm D.
Proof.
  intros HD.
  destruct (Z_le_gt_dec D 0) as [Hn|Hp].
  - unfold TempFile._png_dpi_to_ppm, _png_dpi_to_ppm.
    destruct (Z.leb_spec D 0) as [_|H]; [|lia]. vm_compute. reflexivity.
  - destruct (Z_le_gt_dec D 109092169) as [Hs|Hl].
    + destruct (near_tie D) eqn:Ht.
      * destruct (near_tie_candidate D ltac:(lia) Ht) as (j & t & Hj & Htb & HDc).
        pose proof (ties_agree_spec _ _ j t ties_agree_checked ltac:(lia) Htb) as Hok.
        rewrite <- HDc in Hok. now apply Z.eqb_eq in Hok.
      * rewrite _png_dpi_to_ppm_away_value, TempFile_dpi_to_ppm_away_value
          by (assumption || lia). reflexivity.
    + rewrite _png_dpi_to_ppm_clamped, TempFile_dpi_to_ppm_clamped by lia.
      reflexivity.
Qed.

(** The stored density grows with the input. *)
Lemma _png_dpi_to_ppm_close (D : Z) :
  1 <= D <= 109092169 ->
  Z.abs (_png_dpi_to_ppm D * 100000000 - D * 3937007874) <= 50000002.
Proof.
  intros HD. destruct (Z.eq_dec D 24999873) as [->|Hne].
  - assert (H : _png_dpi_to_ppm 24999873 = 984246968) by (vm_compute; reflexivity).
    rewrite H. lia.
  - pose proof (_png_dpi_to_ppm_nearest D HD Hne) as H.
    unfold nearest_to_product in H. lia.
Qed.

(** X3: below the clamp the stored density grows with the resolution:
    for 1 <= D1 < D2 <= 109092169 the density of [D2] is at least 38
    above that of [D1], so no two resolutions share a density. *)
Lemma _png_dpi_to_ppm_increasing (D1 D2 : Z) :
  1 <= D1 -> D1 < D2 -> D2 <= 109092169 ->
  _png_dpi_to_ppm D1 + 38 <= _png_dpi_to_ppm D2.
Proof.
  intros H1 H12 H2.
  pose proof (_png_dpi_to_ppm_close D1 ltac:(lia)).
  pose proof (_png_dpi_to_ppm_close D2 ltac:(lia)).
  lia.
Qed.

(** ** Writing a chunk *)

Lemma _png_write_pHYs_bytes (out : list byte) (ppm : Z) :
  TempFile._png_write_pHYs out ppm ppm = out ++ pHYs_bytes ppm.
Proof. reflexivity. Qed.

(** ** The two forms of the utility on the same input *)

Lemma firstn_add (A : Type) (a b : nat) (l : list A) :
  firstn (a + b) l = firstn a l ++ firstn b (skipn a l).
Proof.
  revert l. induction a as [|a IH]; intros l; [reflexivity|].
  destruct l as [|x l]; cbn [Nat.add firstn skipn app];
    [now rewrite firstn_nil | now rewrite IH].
Qed.

Lemma sub_add (buf : list byte) (p a b : Z) :
  0 <= p -> 0 <= a -> 0 <= b ->
  sub buf p (a + b) = sub buf p a ++ sub buf (p + a) b.
Proof.
  intros Hp Ha Hb. unfold sub.
  rewrite (Z2Nat.inj_add a b), firstn_add, skipn_skipn by lia.
  do 3 f_equal. lia.
Qed.

Lemma sub_skipn (buf : list byte) (p n : Z) :
  sub (skipn (Z.to_nat p) buf) 0 n = sub buf p n.
Proof. reflexivity. Qed.

Lemma skipn_skipn_Z (buf : list byte) (p k : Z) :
  0 <= p -> 0 <= k ->
  skipn (Z.to_nat k) (skipn (Z.to_nat p) buf) = skipn (Z.to_nat (p + k)) buf.
Proof. intros Hp Hk. rewrite skipn_skipn. f_equal. lia. Qed.

Lemma length_skipn_Z (buf : list byte) (p : Z) :
  0 <= p <= Z.of_nat (length buf) ->
  Z.of_nat (length (skipn (Z.to_nat p) buf)) = Z.of_nat (length buf) - p.
Proof. intros Hp. rewrite length_skipn. lia. Qed.

Lemma copy_loop_rebuild (fuel : nat) :
  forall buf ppm p (wrote : bool) tmp out,
    0 <= p <= Z.of_nat (length buf) ->
    Z.of_nat (length buf) <= MAX_PNG_SIZE ->
    Z.of_nat (length tmp) <= p + (if wrote then 21 else 0) ->
    TempFile.copy_loop fuel (skipn (Z.to_nat p) buf) ppm wrote tmp = Done out ->
    rebuild_loop fuel buf ppm p wrote tmp = Done out.
Proof.
  induction fuel as [|fuel IH]; intros buf ppm p wrote tmp out Hp Hmax Htmp;
    [discriminate|].
  cbn [TempFile.copy_loop rebuild_loop].
  change 4%nat with (Z.to_nat 4).
  pose proof (length_skipn_Z buf p Hp) as Hr.
  destruct (TempFile.short (skipn (Z.to_nat p) buf) 4) eqn:S1.
  { apply short_iff in S1. intros [= <-]. unfold read_head.
    destruct (Z.leb_spec (p + 12) (Z.of_nat (length buf))); [lia | reflexivity]. }
  apply not_short_iff in S1.
  rewrite (sub_skipn buf p 4).
  set (len := _png_read_u32_be (sub buf p 4)).
  assert (Hlen : 0 <= len < 2 ^ 32) by apply _png_read_u32_be_range.
  rewrite (skipn_skipn_Z buf p 4) by lia.
  pose proof (length_skipn_Z buf (p + 4) ltac:(lia)) as Hr4.
  destruct (TempFile.short (skipn (Z.to_nat (p + 4)) buf) 4) eqn:S2.
  { apply short_iff in S2. intros [= <-]. unfold read_head.
    destruct (Z.leb_spec (p + 12) (Z.of_nat (length buf))); [lia | reflexivity]. }
  apply not_short_iff in S2.
  rewrite (sub_skipn buf (p + 4) 4).
  rewrite (skipn_skipn_Z buf (p + 4) 4) by lia.
  pose proof (length_skipn_Z buf (p + 4 + 4) ltac:(lia)) as Hr8.
  destruct (negb (len =? 0) && TempFile.short (skipn (Z.to_nat (p + 4 + 4)) buf) len)
    eqn:S3; [discriminate|].
  assert (Hdata : len <= Z.of_nat (length buf) - (p + 8)).
  { apply andb_false_iff in S3. destruct S3 as [S3|S3].
    - apply negb_false_iff, Z.eqb_eq in S3. lia.
    - apply not_short_iff in S3. lia. }
  rewrite (sub_skipn buf (p + 4 + 4) len).
  rewrite (skipn_skipn_Z buf (p + 4 + 4) len) by lia.
  pose proof (length_skipn_Z buf (p + 4 + 4 + len) ltac:(lia)) as Hr8l.
  destruct (TempFile.short (skipn (Z.to_nat (p + 4 + 4 + len)) buf) 4) eqn:S4;
    [discriminate|].
  apply not_short_iff in S4.
  rewrite (sub_skipn buf (p + 4 + 4 + len) 4).
  rewrite (skipn_skipn_Z buf (p + 4 + 4 + len) 4) by lia.
  assert (Hhead : read_head buf p = Head len (sub buf (p + 4) 4) (p + 8 + len + 4)).
  { unfold read_head.
    destruct (Z.leb_spec (p + 12) (Z.of_nat (length buf))); [|lia].
    fold len. unfold u32. rewrite Z.mod_small by (unfold MAX_PNG_SIZE in Hmax; lia).
    destruct (Z.ltb_spec (Z.of_nat (length buf) - (p + 8)) (len + 4)); [lia|].
    reflexivity. }
  rewrite Hhead.
  assert (Hchunk : sub buf p 4 ++ sub buf (p + 4) 4 ++ sub buf (p + 4 + 4) len
                   ++ sub buf (p + 4 + 4 + len) 4
                   = sub buf p (4 + 4 + len + 4)).
  { rewrite (sub_add buf p (4 + 4 + len) 4), (sub_add buf p (4 + 4) len),
            (sub_add buf p 4 4) by lia.
    rewrite <- !app_assoc.
    replace (p + (4 + 4)) with (p + 4 + 4) by lia.
    replace (p + (4 + 4 + len)) with (p + 4 + 4 + len) by lia.
    reflexivity. }
  rewrite Hchunk. rewrite _png_write_pHYs_bytes.
  replace (p + 4 + 4 + len + 4) with (p + 8 + len + 4) by lia.
  destruct (bytes_eqb (sub buf (p + 4) 4) tag_pHYs) eqn:EP.
  { apply IH; [lia | exact Hmax | destruct wrote; lia]. }
  assert (Hl : Z.of_nat (length (sub buf p (4 + 4 + len + 4))) = 4 + 4 + len + 4)
    by (apply sub_length; lia).
  destruct (negb wrote && bytes_eqb (sub buf (p + 4) 4) tag_IDAT) eqn:Einj.
  - apply andb_true_iff in Einj. destruct Einj as [Hw _].
    apply negb_true_iff in Hw. subst wrote.
    unfold _png_emit_pHYs_to_mem.
    destruct (Z.gtb_spec (Z.of_nat (length tmp) + 4 + 4 + 9 + 4) PNG_OUT_CAP) as [H|_];
      [unfold PNG_OUT_CAP in H; lia|].
    pose proof (pHYs_bytes_length ppm) as Hpl.
    destruct (Z.gtb_spec (Z.of_nat (length (tmp ++ pHYs_bytes ppm)) + 4 + 4 + len + 4)
                PNG_OUT_CAP) as [H|_];
      [rewrite length_app in H; unfold PNG_OUT_CAP in H; lia|].
    destruct (bytes_eqb (sub buf (p + 4) 4) tag_IEND); [trivial|].
    cbn [orb]. apply IH; [lia | exact Hmax |].
    rewrite !length_app. lia.
  - destruct (Z.gtb_spec (Z.of_nat (length tmp) + 4 + 4 + len + 4) PNG_OUT_CAP)
      as [H|_]; [unfold PNG_OUT_CAP in H; destruct wrote; lia|].
    destruct (bytes_eqb (sub buf (p + 4) 4) tag_IEND); [trivial|].
    rewrite orb_false_r. apply IH; [lia | exact Hmax |].
    rewrite length_app. destruct wrote; lia.
Qed.

(** X5: the two forms of the utility agree: when the form that writes a
    temporary file succeeds on a file of at most [MAX_PNG_SIZE] bytes,
    the in-place form succeeds on the same bytes, and what it writes back
    is byte for byte the file the other form renames over its
    destination. *)
Lemma temp_file_success_in_place (src : list byte) (dst : option (list byte))
    (dpi : Z) (out : list byte) :
  Z.of_nat (length src) <= MAX_PNG_SIZE -> dpi <= 2147483647 ->
  TempFile.update_png_dpi src dst dpi = (0, Some out) ->
  update_png_dpi src dpi = (0, out).
Proof.
  intros Hmax Hdpi. unfold TempFile.update_png_dpi, update_png_dpi, png_rebuild.
  destruct (Z.gtb_spec (Z.of_nat (length src)) MAX_PNG_SIZE) as [H|_]; [lia|].
  unfold TempFile.short.
  destruct ((Z.of_nat (length src) <? PNG_SIG_BYTES)
            || negb (bytes_eqb (sub src 0 PNG_SIG_BYTES) PNG_SIG)) eqn:Esig;
    [discriminate|].
  apply orb_false_iff in Esig. destruct Esig as [Hlen _].
  apply Z.ltb_ge in Hlen. unfold PNG_SIG_BYTES in *.
  rewrite dpi_to_ppm_agree by exact Hdpi.
  destruct (TempFile.copy_loop (S (length src)) (skipn 8 src)
              (_png_dpi_to_ppm dpi) false (sub src 0 8)) as [tmp|rc|] eqn:Hrun.
  - intros [= <-].
    rewrite (copy_loop_rebuild _ src _ 8 false _ tmp); [reflexivity|lia|exact Hmax| |exact Hrun].
    pose proof (sub_length_le src 0 8 ltac:(lia)). lia.
  - apply copy_loop_fail_iff, check_stream_fail in Hrun.
    intros [= -> _]. lia.
  - discriminate.
Qed.

(** ** Input after the end chunk *)

Lemma scan_loop_to_IEND (ds : list chunk) :
  forall fuel pre iend junk,
    Forall whole ds -> Forall (fun c => is_IEND c = false) ds ->
    whole iend -> is_IEND iend = true ->
    (length ds < fuel)%nat ->
    scan_loop fuel (pre ++ concat ds ++ iend ++ junk) (Z.of_nat (length pre))
    = Done (ds ++ [iend]).
Proof.
  induction ds as [|c ds IH]; intros fuel pre iend junk Hwh Hne Hwi Hie Hfuel;
    (destruct fuel as [|fuel]; [simpl in Hfuel; lia|]);
    cbn [scan_loop concat app].
  - destruct (read_head_whole pre iend junk Hwi) as [-> ->].
    fold (is_IEND iend). now rewrite Hie.
  - apply Forall_cons_iff in Hwh. destruct Hwh as [Hc Hds].
    apply Forall_cons_iff in Hne. destruct Hne as [Hcn Hdn].
    rewrite <- app_assoc.
    destruct (read_head_whole pre c (concat ds ++ iend ++ junk) Hc) as [-> ->].
    fold (is_IEND c). rewrite Hcn.
    rewrite app_assoc, IH; [reflexivity|assumption..|].
    simpl in Hfuel. lia.
Qed.

Lemma filter_not_pHYs_app (a b : list chunk) :
  filter not_pHYs (a ++ b) = filter not_pHYs a ++ filter not_pHYs b.
Proof. apply filter_app. Qed.

(** X7: what follows IEND is dropped: a file of whole chunks up to its
    first IEND, with any bytes after that chunk, is patched with status 0
    to the signature and the patched chunks up to IEND; the bytes after
    IEND are not in the output. *)
Lemma update_png_dpi_to_IEND (ds : list chunk) (iend : chunk)
    (junk : list byte) (dpi : Z) :
  Forall whole ds -> Forall (fun c => is_IEND c = false) ds ->
  whole iend -> is_IEND iend = true ->
  Z.of_nat (length (PNG_SIG ++ concat ds ++ iend ++ junk)) <= MAX_PNG_SIZE ->
  update_png_dpi (PNG_SIG ++ concat ds ++ iend ++ junk) dpi
  = (0, PNG_SIG ++ concat (patch_chunks dpi (ds ++ [iend]))).
Proof.
  intros Hwh Hne Hwi Hie Hmax.
  apply (update_png_dpi_succeeds _ dpi (ds ++ [iend])).
  - apply (sub_prefix PNG_SIG).
  - exact Hmax.
  - unfold png_chunks.
    apply (scan_loop_to_IEND ds _ PNG_SIG iend junk); try assumption.
    rewrite !length_app.
    pose proof (length_concat_whole ds Hwh). lia.
  - apply Forall_forall. intros c Hc. apply filter_In in Hc. destruct Hc as [Hc _].
    apply in_app_or in Hc. destruct Hc as [Hc|[<-|[]]]; [|exact Hwi].
    rewrite Forall_forall in Hwh. now apply Hwh.
Qed.

(** ** The patch on a stream given by its bytes *)

Lemma concat_snoc (ds : list chunk) (c : chunk) (tail : list byte) :
  concat (ds ++ [c]) ++ tail = concat ds ++ c ++ tail.
Proof.
  rewrite concat_app. cbn [concat]. now rewrite app_nil_r, <- app_assoc.
Qed.

(** A stream within [MAX_PNG_SIZE] is patched with status 0, and the
    output is the signature and the chunks under the copy policy. *)
Lemma update_png_dpi_stream (cs : list chunk) (tail : list byte) (dpi : Z) :
  stream_of cs tail ->
  Z.of_nat (length (PNG_SIG ++ concat cs ++ tail)) <= MAX_PNG_SIZE ->
  update_png_dpi (PNG_SIG ++ concat cs ++ tail) dpi
  = (0, PNG_SIG ++ concat (patch_chunks dpi cs)).
Proof.
  intros [Hwh [(ds & iend & -> & Hne & Hie)|[Hne Hshort]]] Hmax.
  - rewrite concat_snoc in *.
    apply Forall_app in Hwh. destruct Hwh as [Hds Hwi].
    apply Forall_cons_iff in Hwi. destruct Hwi as [Hwi _].
    apply (update_png_dpi_succeeds _ dpi (ds ++ [iend])).
    + apply (sub_prefix PNG_SIG).
    + exact Hmax.
    + unfold png_chunks.
      apply (scan_loop_to_IEND ds _ PNG_SIG iend tail); try assumption.
      rewrite !length_app. pose proof (length_concat_whole ds Hds). lia.
    + apply Forall_forall. intros c Hc. apply filter_In in Hc.
      destruct Hc as [Hc _]. apply in_app_or in Hc.
      destruct Hc as [Hc|[<-|[]]]; [|exact Hwi].
      rewrite Forall_forall in Hds. now apply Hds.
  - destruct (png_rebuild_prefix cs tail dpi Hwh Hne Hmax) as [fuel Hrun].
    unfold update_png_dpi.
    assert (Hbig : (Z.of_nat (length (PNG_SIG ++ concat cs ++ tail))
                    >? MAX_PNG_SIZE) = false)
      by (rewrite Z.gtb_ltb; apply Z.ltb_ge; exact Hmax).
    rewrite Hbig, Hrun. cbn [rebuild_loop].
    now rewrite read_head_tail_short.
Qed.

Lemma skipn_split (buf : list byte) (p n : Z) :
  0 <= p -> 0 <= n ->
  skipn (Z.to_nat p) buf = sub buf p n ++ skipn (Z.to_nat (p + n)) buf.
Proof.
  intros Hp Hn. unfold sub.
  rewrite <- (firstn_skipn (Z.to_nat n) (skipn (Z.to_nat p) buf)) at 1.
  rewrite skipn_skipn. do 2 f_equal. lia.
Qed.

Lemma sub_rest (buf : list byte) (p n : Z) :
  0 <= p -> Z.of_nat (length buf) - p <= n ->
  sub buf p n = skipn (Z.to_nat p) buf.
Proof.
  intros Hp Hn. unfold sub. apply firstn_all2. rewrite length_skipn. lia.
Qed.

Lemma sub_of_skipn (buf : list byte) (p i n : Z) :
  0 <= p -> 0 <= i ->
  sub (skipn (Z.to_nat p) buf) i n = sub buf (p + i) n.
Proof.
  intros Hp Hi. unfold sub. rewrite skipn_skipn. do 2 f_equal. lia.
Qed.

Lemma ends_at_IEND_cons (c : chunk) (cs : list chunk) :
  is_IEND c = false -> ends_at_IEND cs -> ends_at_IEND (c :: cs).
Proof.
  intros Hc (ds & iend & -> & Hne & Hie).
  exists (c :: ds), iend. split; [reflexivity|].
  split; [now constructor|exact Hie].
Qed.

(** Where a walk that ends well has been: over whole chunks up to the
    first IEND or to a tail of fewer than 12 bytes, or up to a header
    whose declared length plus 4 does not fit 32 bits; the walk takes
    what is left at such a header for one more chunk. *)
Lemma scan_loop_shape (fuel : nat) :
  forall buf p cs0,
    0 <= p <= Z.of_nat (length buf) ->
    Z.of_nat (length buf) <= MAX_PNG_SIZE ->
    scan_loop fuel buf p = Done cs0 ->
    exists cs tail,
      skipn (Z.to_nat p) buf = concat cs ++ tail
      /\ Forall whole cs
      /\ ((cs0 = cs
           /\ (ends_at_IEND cs
               \/ (no_IEND cs /\ Z.of_nat (length tail) < 12)))
          \/ (cs0 = cs ++ [tail] /\ no_IEND cs
              /\ 12 <= Z.of_nat (length tail)
              /\ 2 ^ 32 - 4 <= _png_read_u32_be (sub tail 0 4))).
Proof.
  induction fuel as [|fuel IH]; intros buf p cs0 Hp Hmax H;
    cbn [scan_loop] in H; [discriminate|].
  destruct (read_head buf p) as [| |len type next] eqn:Hh.
  - (* no room for a header *)
    injection H as <-. exists [], (skipn (Z.to_nat p) buf).
    split; [reflexivity|]. split; [constructor|]. left.
    split; [reflexivity|]. right. split; [constructor|].
    rewrite length_skipn. unfold read_head in Hh.
    destruct (Z.leb_spec (p + 12) (Z.of_nat (length buf))) as [Hle|Hgt];
      [|lia].
    destruct (_ <? _); discriminate.
  - discriminate.
  - destruct (read_head_inv _ _ _ _ _ (proj1 Hp) Hh)
      as (Hroom & Hlen & Htype & Hnext & Hrange & Hfit).
    destruct (head_tags _ _ _ _ _ (proj1 Hp) Hh) as (_ & _ & Hiend).
    destruct (Z.lt_ge_cases (len + 4) (2 ^ 32)) as [Hsmall|Hwrap].
    + (* a whole chunk *)
      unfold u32 in Hfit. rewrite Z.mod_small in Hfit by lia.
      assert (Hclen : Z.of_nat (length (sub buf p (4 + 4 + len + 4)))
                      = 4 + 4 + len + 4) by (apply sub_length; lia).
      assert (Hwc : whole (sub buf p (4 + 4 + len + 4))).
      { split.
        - rewrite copied_chunk_len by lia. rewrite <- Hlen. exact Hclen.
        - rewrite copied_chunk_len by lia. rewrite <- Hlen. exact Hsmall. }
      pose proof (skipn_split buf p (4 + 4 + len + 4) (proj1 Hp) ltac:(lia))
        as Hsplit.
      replace (p + (4 + 4 + len + 4)) with next in Hsplit by lia.
      destruct (bytes_eqb type tag_IEND) eqn:Hie.
      * injection H as <-.
        exists [sub buf p (4 + 4 + len + 4)], (skipn (Z.to_nat next) buf).
        split; [cbn [concat]; now rewrite app_nil_r|].
        split; [now constructor|]. left. split; [reflexivity|]. left.
        exists [], (sub buf p (4 + 4 + len + 4)).
        split; [reflexivity|]. split; [constructor|]. now rewrite Hiend.
      * destruct (scan_loop fuel buf next) as [cs1| |] eqn:Hrec;
          try discriminate.
        injection H as <-.
        destruct (IH buf next cs1 ltac:(lia) Hmax Hrec)
          as (cs & tail & Hsk & Hwh & Hcase).
        exists (sub buf p (4 + 4 + len + 4) :: cs), tail.
        split; [cbn [concat]; now rewrite <- app_assoc, <- Hsk|].
        split; [now constructor|].
        assert (Hnot : is_IEND (sub buf p (4 + 4 + len + 4)) = false)
          by now rewrite Hiend.
        destruct Hcase as [[-> [He|[Hne Hs]]]|(-> & Hne & Hl & Hw)].
        -- left. split; [reflexivity|]. left. now apply ends_at_IEND_cons.
        -- left. split; [reflexivity|]. right.
           split; [now constructor|exact Hs].
        -- right. split; [reflexivity|]. split; [now constructor|].
           now split.
    + (* a declared length that wraps *)
      unfold MAX_PNG_SIZE in Hmax.
      assert (Hc0 : sub buf p (4 + 4 + len + 4) = skipn (Z.to_nat p) buf)
        by (apply sub_rest; lia).
      assert (Hcs0 : cs0 = [skipn (Z.to_nat p) buf]).
      { rewrite Hc0 in H. destruct (bytes_eqb type tag_IEND).
        - now injection H as <-.
        - destruct fuel as [|fuel]; [discriminate|]. cbn [scan_loop] in H.
          assert (Hn : read_head buf next = NoRoom).
          { unfold read_head.
            destruct (Z.leb_spec (next + 12) (Z.of_nat (length buf)));
              [lia|reflexivity]. }
          rewrite Hn in H. now injection H as <-. }
      exists [], (skipn (Z.to_nat p) buf).
      split; [reflexivity|]. split; [constructor|]. right.
      split; [exact Hcs0|]. split; [constructor|].
      rewrite length_skipn. split; [lia|].
      rewrite (sub_of_skipn buf p 0 4) by lia. rewrite Z.add_0_r.
      rewrite <- Hlen. lia.
Qed.

Lemma whole_not_wrapped (c : chunk) :
  whole c -> ~ 2 ^ 32 - 4 <= _png_read_u32_be (sub c 0 4).
Proof. intros [_ H]. unfold chunk_len in H. lia. Qed.

(** Every file the function patches with status 0 is a stream, or a run
    of whole chunks up to a header tagged pHYs with a wrapping length;
    the output is the signature and the chunks under the copy policy. *)
Lemma update_png_dpi_shape (file out : list byte) (dpi : Z) :
  update_png_dpi file dpi = (0, out) ->
  exists cs tail,
    file = PNG_SIG ++ concat cs ++ tail
    /\ Forall whole cs
    /\ (ends_at_IEND cs
        \/ (no_IEND cs
            /\ (Z.of_nat (length tail) < 12 \/ wrapped_pHYs tail)))
    /\ out = PNG_SIG ++ concat (patch_chunks dpi cs).
Proof.
  intros Hupd.
  destruct (update_png_dpi_ok _ _ _ Hupd) as [Hrun Hmax].
  assert (Hsig : Z.of_nat (length file) >= PNG_SIG_BYTES).
  { unfold png_rebuild in Hrun.
    destruct (Z.ltb_spec (Z.of_nat (length file)) PNG_SIG_BYTES);
      [discriminate|lia]. }
  unfold PNG_SIG_BYTES in Hsig.
  assert (Hwhole : exists cs0,
             png_chunks file = Done cs0
             /\ sub file 0 PNG_SIG_BYTES = PNG_SIG
             /\ out = PNG_SIG ++ concat (patch_chunks dpi cs0)
             /\ Forall whole (filter not_pHYs cs0)).
  { unfold png_rebuild in Hrun.
    destruct (_ || _) eqn:Hs; [discriminate|].
    apply orb_false_iff in Hs. destruct Hs as [_ Hs].
    apply negb_false_iff, bytes_eqb_eq in Hs.
    assert (H8 : 0 <= PNG_SIG_BYTES) by (unfold PNG_SIG_BYTES; lia).
    destruct (rebuild_loop_done _ _ _ _ _ _ _ H8 Hrun)
      as (cs0 & Hscan & Hout & Hwh & _).
    exists cs0. split; [exact Hscan|]. split; [exact Hs|].
    split; [|exact Hwh]. rewrite Hout, Hs. reflexivity. }
  destruct Hwhole as (cs0 & Hscan & Hs & Hout & Hwh).
  unfold png_chunks in Hscan.
  assert (H8 : 0 <= PNG_SIG_BYTES <= Z.of_nat (length file))
    by (unfold PNG_SIG_BYTES; lia).
  destruct (scan_loop_shape _ _ _ _ H8 Hmax Hscan)
    as (cs & tail & Hsk & Hwcs & Hcase).
  assert (Hfile : file = PNG_SIG ++ concat cs ++ tail).
  { rewrite <- Hsk, <- Hs. unfold sub, PNG_SIG_BYTES. cbn [Z.to_nat skipn].
    change (Pos.to_nat 8) with 8%nat. symmetry. apply firstn_skipn. }
  exists cs, tail. split; [exact Hfile|]. split; [exact Hwcs|].
  destruct Hcase as [[-> Hend]|(-> & Hne & Hl & Hw)].
  - split; [|exact Hout]. destruct Hend as [He|[Hne Hshort]];
      [now left|right; split; [exact Hne|now left]].
  - assert (Hp : is_pHYs tail = true).
    { destruct (is_pHYs tail) eqn:E; [reflexivity|]. exfalso.
      rewrite filter_app in Hwh. apply Forall_app in Hwh.
      destruct Hwh as [_ Hwh]. cbn [filter] in Hwh.
      unfold not_pHYs in Hwh at 1. rewrite E in Hwh. cbn [negb] in Hwh.
      apply Forall_cons_iff in Hwh. destruct Hwh as [Hwt _].
      now apply (whole_not_wrapped tail Hwt). }
    split.
    + right. split; [exact Hne|]. right. split; [exact Hl|].
      split; [exact Hw|]. now apply bytes_eqb_eq.
    + rewrite Hout. unfold patch_chunks. rewrite filter_app.
      cbn [filter]. unfold not_pHYs at 2. rewrite Hp. cbn [negb].
      now rewrite app_nil_r.
Qed.

(** The chunks of a stream are fixed by its bytes. *)
Lemma firstn_app_whole (c rest : list byte) :
  whole c -> sub (c ++ rest) 0 4 = sub c 0 4.
Proof.
  intros Hc. pose proof (whole_length c Hc). unfold sub. cbn [Z.to_nat skipn].
  rewrite firstn_app. replace (Pos.to_nat 4 - length c)%nat with 0%nat by lia.
  cbn [firstn]. now rewrite app_nil_r.
Qed.

Lemma whole_prefix_unique (c c' rest rest' : list byte) :
  whole c -> whole c' -> c ++ rest = c' ++ rest' -> c = c' /\ rest = rest'.
Proof.
  intros Hc Hc' H.
  assert (Hlen : length c = length c').
  { pose proof (firstn_app_whole c rest Hc) as H1.
    pose proof (firstn_app_whole c' rest' Hc') as H2.
    rewrite H in H1. rewrite H1 in H2.
    destruct Hc as [L _]. destruct Hc' as [L' _].
    unfold chunk_len in *. rewrite H2 in L. lia. }
  assert (Hf : forall a b : list byte, firstn (length a) (a ++ b) = a).
  { intros a b. rewrite firstn_app, Nat.sub_diag, firstn_all. cbn [firstn].
    apply app_nil_r. }
  assert (Hs : forall a b : list byte, skipn (length a) (a ++ b) = b).
  { intros a b. rewrite skipn_app, Nat.sub_diag, skipn_all. reflexivity. }
  split.
  - rewrite <- (Hf c rest), <- (Hf c' rest'), H, Hlen. reflexivity.
  - rewrite <- (Hs c rest), <- (Hs c' rest'), H, Hlen. reflexivity.
Qed.

Lemma stream_of_cons (c : chunk) (cs : list chunk) (tail : list byte) :
  stream_of (c :: cs) tail ->
  whole c
  /\ ((is_IEND c = true /\ cs = [])
      \/ (is_IEND c = false /\ stream_of cs tail)).
Proof.
  intros [Hwh Hend]. apply Forall_cons_iff in Hwh. destruct Hwh as [Hc Hcs].
  split; [exact Hc|].
  destruct Hend as [(ds & iend & Heq & Hne & Hie)|[Hne Hshort]].
  - destruct ds as [|d ds]; cbn [app] in Heq.
    + injection Heq as -> ->. now left.
    + injection Heq as -> ->. apply Forall_cons_iff in Hne.
      destruct Hne as [Hd Hds]. right. split; [exact Hd|].
      split; [exact Hcs|]. left. now exists ds, iend.
  - apply Forall_cons_iff in Hne. destruct Hne as [Hd Hds].
    right. split; [exact Hd|]. split; [exact Hcs|]. now right.
Qed.

Lemma stream_of_nil (tail : list byte) :
  stream_of [] tail -> Z.of_nat (length tail) < 12.
Proof.
  intros [_ [(ds & iend & Heq & _)|[_ H]]]; [|exact H].
  destruct ds; discriminate.
Qed.

Lemma stream_of_unique (cs : list chunk) :
  forall cs2 tail tail2,
    stream_of cs tail -> stream_of cs2 tail2 ->
    concat cs ++ tail = concat cs2 ++ tail2 ->
    cs = cs2 /\ tail = tail2.
Proof.
  induction cs as [|c cs IH]; intros cs2 tail tail2 H1 H2 Heq.
  - apply stream_of_nil in H1. destruct cs2 as [|c2 cs2].
    + now split.
    + exfalso. destruct (stream_of_cons _ _ _ H2) as [Hc2 _].
      pose proof (whole_length c2 Hc2). cbn [concat app] in Heq.
      rewrite Heq, <- app_assoc, length_app in H1. lia.
  - destruct (stream_of_cons _ _ _ H1) as [Hc Hrest].
    destruct cs2 as [|c2 cs2].
    + exfalso. apply stream_of_nil in H2.
      pose proof (whole_length c Hc). cbn [concat app] in Heq.
      rewrite <- Heq, <- app_assoc, length_app in H2. lia.
    + destruct (stream_of_cons _ _ _ H2) as [Hc2 Hrest2].
      cbn [concat] in Heq. rewrite <- !app_assoc in Heq.
      destruct (whole_prefix_unique _ _ _ _ Hc Hc2 Heq) as [<- Heq'].
      destruct Hrest as [[Hie ->]|[Hie Hs]];
        destruct Hrest2 as [[Hie2 ->]|[Hie2 Hs2]]; try congruence.
      * cbn [concat app] in Heq'. now split.
      * destruct (IH _ _ _ Hs Hs2 Heq') as [-> ->]. now split.
Qed.

Lemma IEND_is_not_pHYs (c : chunk) : is_IEND c = true -> is_pHYs c = false.
Proof.
  intros H. destruct (is_pHYs c) eqn:E; [|reflexivity].
  unfold is_pHYs in E. destruct (pHYs_is_no_other_tag _ E) as [_ H'].
  unfold is_IEND in H. congruence.
Qed.

Lemma no_IEND_filter (cs : list chunk) :
  no_IEND cs -> no_IEND (filter not_pHYs cs).
Proof.
  unfold no_IEND. rewrite !Forall_forall. intros H c Hc.
  apply filter_In in Hc. now apply H.
Qed.

Lemma no_IEND_insert (phys : chunk) (cs : list chunk) :
  is_IEND phys = false -> no_IEND cs -> no_IEND (insert_before_IDAT phys cs).
Proof.
  intros Hp. induction cs as [|c cs IH]; intros H; [constructor|].
  apply Forall_cons_iff in H. destruct H as [Hc Hcs].
  cbn [insert_before_IDAT]. destruct (is_IDAT c).
  - constructor; [exact Hp|]. now constructor.
  - constructor; [exact Hc|]. now apply IH.
Qed.

Lemma insert_before_IDAT_snoc (phys iend : chunk) (cs : list chunk) :
  is_IDAT iend = false ->
  insert_before_IDAT phys (cs ++ [iend])
  = insert_before_IDAT phys cs ++ [iend].
Proof.
  intros Hi. induction cs as [|c cs IH]; cbn [app insert_before_IDAT].
  - now rewrite Hi.
  - destruct (is_IDAT c); [reflexivity|]. now rewrite IH.
Qed.

(** The chunks under the copy policy are a stream again, with nothing
    after them. *)
Lemma patch_chunks_stream (dpi : Z) (cs : list chunk) (tail : list byte) :
  stream_of cs tail -> stream_of (patch_chunks dpi cs) [].
Proof.
  intros [Hwh Hend]. split.
  - apply patch_chunks_whole. rewrite Forall_forall in *. intros c Hc.
    apply filter_In in Hc. now apply Hwh.
  - unfold patch_chunks.
    destruct Hend as [(ds & iend & -> & Hne & Hie)|[Hne _]].
    + left. rewrite filter_app. cbn [filter]. unfold not_pHYs at 2.
      rewrite (IEND_is_not_pHYs _ Hie). cbn [negb].
      rewrite insert_before_IDAT_snoc
        by (apply IEND_is_not_IDAT; exact Hie).
      eexists _, iend. split; [reflexivity|]. split; [|exact Hie].
      apply no_IEND_insert; [apply pHYs_bytes_not_IEND|].
      now apply no_IEND_filter.
    + right. split; [|cbn; lia].
      apply no_IEND_insert; [apply pHYs_bytes_not_IEND|].
      now apply no_IEND_filter.
Qed.

(** C3.  The chunks of a file are said on its bytes: the signature, the
    whole chunks [cs] laid end to end up to the first IEND (or, with no
    IEND, up to fewer than 12 bytes), and what follows.
    - Such a file within [MAX_PNG_SIZE] is patched with status 0; the
      output is the signature followed by the chunks [cs'], which are the
      chunks of [cs] not tagged pHYs, in their order and byte for byte
      (trailers included: a chunk is all its bytes), with the synthesized
      chunk put right before the first IDAT; [cs'] is a stream with
      nothing after it, and its chunks not tagged pHYs are those of [cs].
    - Every file the function patches with status 0 is such a file, or a
      run of whole chunks up to a header tagged pHYs whose declared
      length plus 4 does not fit 32 bits (the defect of C4: what follows
      that header is not read); the output is as above for the chunks
      before it.
    - The chunks of a file are fixed by its bytes. *)
Theorem update_png_dpi_keeps_other_chunks :
  forall dpi : Z,
    let phys := pHYs_bytes (_png_dpi_to_ppm dpi) in
    (forall cs tail,
        stream_of cs tail ->
        Z.of_nat (length (PNG_SIG ++ concat cs ++ tail)) <= MAX_PNG_SIZE ->
        let cs' := insert_before_IDAT phys (filter not_pHYs cs) in
        update_png_dpi (PNG_SIG ++ concat cs ++ tail) dpi
        = (0, PNG_SIG ++ concat cs')
        /\ stream_of cs' []
        /\ filter not_pHYs cs' = filter not_pHYs cs)
    /\ (forall file out,
          update_png_dpi file dpi = (0, out) ->
          exists cs tail,
            file = PNG_SIG ++ concat cs ++ tail
            /\ Forall whole cs
            /\ (ends_at_IEND cs
                \/ (no_IEND cs
                    /\ (Z.of_nat (length tail) < 12 \/ wrapped_pHYs tail)))
            /\ out = PNG_SIG
                     ++ concat (insert_before_IDAT phys (filter not_pHYs cs)))
    /\ (forall cs tail cs2 tail2,
          stream_of cs tail -> stream_of cs2 tail2 ->
          concat cs ++ tail = concat cs2 ++ tail2 ->
          cs = cs2 /\ tail = tail2).
Proof.
  intros dpi phys. split; [|split].
  - intros cs tail Hs Hmax cs'. split; [|split].
    + exact (update_png_dpi_stream cs tail dpi Hs Hmax).
    + exact (patch_chunks_stream dpi cs tail Hs).
    + apply filter_insert, pHYs_bytes_is_pHYs.
  - intros file out Hupd. exact (update_png_dpi_shape file out dpi Hupd).
  - intros cs tail cs2 tail2. apply stream_of_unique.
Qed.

(** X6: a stream with no IDAT gets no density chunk: a file of whole
    chunks up to its end, none tagged IDAT, is patched with status 0 to
    the signature and its chunks that are not pHYs, in their order; a
    pHYs the input had is dropped and none is written. *)
Lemma update_png_dpi_no_IDAT (cs : list chunk) (tail : list byte) (dpi : Z) :
  stream_of cs tail ->
  existsb is_IDAT cs = false ->
  Z.of_nat (length (PNG_SIG ++ concat cs ++ tail)) <= MAX_PNG_SIZE ->
  update_png_dpi (PNG_SIG ++ concat cs ++ tail) dpi
  = (0, PNG_SIG ++ concat (filter not_pHYs cs))
  /\ stream_of (filter not_pHYs cs) [].
Proof.
  intros Hs Hno Hmax.
  assert (Hp : patch_chunks dpi cs = filter not_pHYs cs).
  { unfold patch_chunks. apply insert_before_IDAT_none.
    now rewrite existsb_IDAT_filter. }
  rewrite <- Hp. split.
  - exact (update_png_dpi_stream cs tail dpi Hs Hmax).
  - exact (patch_chunks_stream dpi cs tail Hs).
Qed.

(** ** A pHYs header with a wrapping length *)

Lemma read_head_wrapped (pre tail : list byte) :
  12 <= Z.of_nat (length tail) ->
  2 ^ 32 - 4 <= _png_read_u32_be (sub tail 0 4) ->
  read_head (pre ++ tail) (Z.of_nat (length pre))
  = Head (_png_read_u32_be (sub tail 0 4)) (sub tail 4 4)
         (Z.of_nat (length pre) + 8 + _png_read_u32_be (sub tail 0 4) + 4).
Proof.
  intros Hl Hw. unfold read_head. rewrite length_app.
  destruct (Z.leb_spec (Z.of_nat (length pre) + 12)
                       (Z.of_nat (length pre + length tail))) as [_|H];
    [|lia].
  assert (H0 : sub (pre ++ tail) (Z.of_nat (length pre)) 4 = sub tail 0 4).
  { pose proof (sub_app_at0 pre tail [] 4) as H. rewrite app_nil_r in H.
    apply H; lia. }
  assert (H4 : sub (pre ++ tail) (Z.of_nat (length pre) + 4) 4 = sub tail 4 4).
  { pose proof (sub_app_at pre tail [] 4 4) as H. rewrite app_nil_r in H.
    apply H; lia. }
  rewrite H0, H4.
  pose proof (_png_read_u32_be_range (sub tail 0 4)) as Hr.
  assert (Hu : u32 (_png_read_u32_be (sub tail 0 4) + 4)
               = _png_read_u32_be (sub tail 0 4) + 4 - 2 ^ 32).
  { unfold u32. symmetry. apply Z.mod_unique with (q := 1); lia. }
  rewrite Hu.
  destruct (Z.ltb_spec (Z.of_nat (length pre + length tail)
                        - (Z.of_nat (length pre) + 8))
                       (_png_read_u32_be (sub tail 0 4) + 4 - 2 ^ 32));
    [lia|reflexivity].
Qed.

(** After a run of whole chunks, a header tagged pHYs whose declared
    length plus 4 does not fit 32 bits passes the bound check: the
    function returns 0, writes the chunks before the header under the
    copy policy, and drops the header with all that follows it. *)
Lemma update_png_dpi_wrapped_pHYs (ds : list chunk) (tail : list byte)
    (dpi : Z) :
  Forall whole ds -> no_IEND ds -> wrapped_pHYs tail ->
  Z.of_nat (length (PNG_SIG ++ concat ds ++ tail)) <= MAX_PNG_SIZE ->
  update_png_dpi (PNG_SIG ++ concat ds ++ tail) dpi
  = (0, PNG_SIG ++ concat (patch_chunks dpi ds)).
Proof.
  intros Hwh Hne (Hl & Hw & Ht) Hmax.
  destruct (png_rebuild_prefix ds tail dpi Hwh Hne Hmax) as [fuel Hrun].
  pose proof (png_rebuild_total (PNG_SIG ++ concat ds ++ tail) dpi) as Htot.
  unfold update_png_dpi.
  assert (Hbig : (Z.of_nat (length (PNG_SIG ++ concat ds ++ tail))
                  >? MAX_PNG_SIZE) = false)
    by (rewrite Z.gtb_ltb; apply Z.ltb_ge; exact Hmax).
  rewrite Hbig. rewrite Hrun in *. cbn [rebuild_loop] in *.
  rewrite (read_head_wrapped _ tail Hl Hw) in *. rewrite Ht in *.
  change (bytes_eqb tag_pHYs tag_pHYs) with true in *. cbv iota in *.
  destruct fuel as [|fuel]; [now contradiction Htot|].
  cbn [rebuild_loop].
  assert (Hn : read_head ((PNG_SIG ++ concat ds) ++ tail)
                 (Z.of_nat (length (PNG_SIG ++ concat ds)) + 8
                  + _png_read_u32_be (sub tail 0 4) + 4) = NoRoom).
  { unfold read_head. rewrite <- app_assoc.
    unfold MAX_PNG_SIZE in Hmax. rewrite !length_app in *.
    destruct (Z.leb_spec
                (Z.of_nat (length PNG_SIG + length (concat ds)) + 8
                 + _png_read_u32_be (sub tail 0 4) + 4 + 12)
                (Z.of_nat (length PNG_SIG
                           + (length (concat ds) + length tail))));
      [lia|reflexivity]. }
  now rewrite Hn.
Qed.

(** C5 on the code.  The file [wrap_pHYs_png] has a good signature and
    one chunk header, which declares 0xFFFFFFFF bytes of data with 4
    bytes left after its type field: its chunk structure is not valid.
    For every resolution the in-place function returns 0 on it and
    writes the bare signature over the file, so the destination is not
    as it was before the call; the variant with a temporary file returns
    23 on the same bytes and leaves its destination alone.  The same
    happens after any run of whole chunks, for any such header tagged
    pHYs: the chunks before it are written under the copy policy and
    what follows is dropped. *)
Theorem wrapped_length_rewrites_the_file :
  forall dpi : Z,
    (sub wrap_pHYs_png 0 PNG_SIG_BYTES = PNG_SIG
     /\ Z.of_nat (length wrap_pHYs_png) - 16
        < _png_read_u32_be (sub wrap_pHYs_png 8 4) + 4
     /\ update_png_dpi wrap_pHYs_png dpi = (0, PNG_SIG)
     /\ PNG_SIG <> wrap_pHYs_png
     /\ forall dst, TempFile.update_png_dpi wrap_pHYs_png dst dpi = (23, dst))
    /\ (forall ds tail,
          Forall whole ds -> no_IEND ds -> wrapped_pHYs tail ->
          Z.of_nat (length (PNG_SIG ++ concat ds ++ tail)) <= MAX_PNG_SIZE ->
          update_png_dpi (PNG_SIG ++ concat ds ++ tail) dpi
          = (0, PNG_SIG ++ concat (patch_chunks dpi ds))).
Proof.
  intros dpi. split.
  - split; [reflexivity|]. split; [vm_compute; reflexivity|].
    split; [|split; [discriminate|]].
    + pose proof (update_png_dpi_wrapped_pHYs []
                    ([xff; xff; xff; xff] ++ tag_pHYs ++ [x00; x00; x00; x00])
                    dpi) as H.
      apply H.
      * constructor.
      * constructor.
      * repeat split; vm_compute; congruence.
      * vm_compute. discriminate.
    + intros dst. unfold TempFile.update_png_dpi.
      generalize (_png_dpi_to_ppm dpi). intros ppm. reflexivity.
  - intros ds tail. apply update_png_dpi_wrapped_pHYs.
Qed.



(** ** A written chunk *)

Lemma _png_crc32_nil (crc : Z) : _png_crc32 [] crc = crc.
Proof. unfold _png_crc32. cbn [fold_left]. apply lxor_twice. Qed.

Lemma sub_app_head (a b : list byte) (n : Z) :
  0 <= n <= Z.of_nat (length a) -> sub (a ++ b) 0 n = sub a 0 n.
Proof.
  intros Hn. apply (sub_app_at0 [] a b n); lia.
Qed.

(** X9: [_png_write_chunk] appends one whole chunk: the length of the
    data in four bytes, the type, the data, and the CRC-32 of the type
    followed by the data, as the reference definition gives it. *)
Lemma _png_write_chunk_layout (out type data : list byte) :
  length type = 4%nat ->
  Z.of_nat (length data) + 4 < 2 ^ 32 ->
  exists c,
    _png_write_chunk out type data = out ++ c
    /\ whole c
    /\ chunk_len c = Z.of_nat (length data)
    /\ chunk_type c = type
    /\ sub c 8 (Z.of_nat (length data)) = data
    /\ _png_read_u32_be (sub c (8 + Z.of_nat (length data)) 4)
       = crc32_reference (type ++ data).
Proof.
  intros Ht Hd. unfold _png_write_chunk.
  set (len := Z.of_nat (length data)) in *.
  assert (Hcrc : (if len =? 0 then _png_crc32 type 0
                  else _png_crc32 data (_png_crc32 type 0))
                 = _png_crc32 (type ++ data) 0).
  { rewrite <- _png_crc32_app.
    destruct (Z.eqb_spec len 0) as [H0|_]; [|reflexivity].
    destruct data; [now rewrite _png_crc32_nil | discriminate]. }
  rewrite Hcrc. set (crc := _png_crc32 (type ++ data) 0).
  assert (Hc : 0 <= crc < 2 ^ 32) by (apply _png_crc32_range; lia).
  set (lenb := _png_write_u32_be len). set (crcb := _png_write_u32_be crc).
  assert (Hlb : length lenb = 4%nat) by apply _png_write_u32_be_length.
  assert (Hcb : length crcb = 4%nat) by apply _png_write_u32_be_length.
  exists (lenb ++ type ++ data ++ crcb).
  split; [reflexivity|].
  assert (Hcl : chunk_len (lenb ++ type ++ data ++ crcb) = len).
  { unfold chunk_len.
    rewrite (sub_app_head lenb (type ++ data ++ crcb) 4) by lia.
    replace 4 with (Z.of_nat (length lenb)) by lia. rewrite sub_whole.
    apply _png_read_write_u32_be. lia. }
  split; [split; [rewrite Hcl, !length_app; lia | rewrite Hcl; lia]|].
  split; [exact Hcl|].
  split; [|split].
  - unfold chunk_type.
    replace 4 with (Z.of_nat (length lenb) + 0) at 1 by lia.
    rewrite (sub_app_at lenb type (data ++ crcb) 0 4) by lia.
    replace 4 with (Z.of_nat (length type)) by lia. apply sub_whole.
  - rewrite (app_assoc lenb type).
    replace 8 with (Z.of_nat (length (lenb ++ type)) + 0)
      by (rewrite length_app; lia).
    rewrite (sub_app_at (lenb ++ type) data crcb 0 len) by lia.
    apply sub_whole.
  - rewrite (app_assoc lenb type), (app_assoc (lenb ++ type) data).
    replace (8 + len) with (Z.of_nat (length ((lenb ++ type) ++ data)) + 0)
      by (rewrite !length_app; lia).
    rewrite <- (app_nil_r crcb) at 1.
    rewrite (sub_app_at ((lenb ++ type) ++ data) crcb [] 0 4) by lia.
    replace 4 with (Z.of_nat (length crcb)) by lia. rewrite sub_whole.
    unfold crcb. rewrite _png_read_write_u32_be by exact Hc.
    apply _png_crc32_reference.
Qed.

(** * The page layout *)

Lemma layout_constants_nearest :
  SFdiv 53 1024 (dbl_of_int 248031) (dbl_of_int 100000) = dbl_2_48031
  /\ SFdiv 53 1024 (dbl_of_int 346457) (dbl_of_int 100000) = dbl_3_46457
  /\ SFdiv 53 1024 (dbl_of_int 827) (dbl_of_int 100) = dbl_8_27
  /\ SFdiv 53 1024 (dbl_of_int 1169) (dbl_of_int 100) = dbl_11_69
  /\ SFdiv 53 1024 (dbl_of_int 11811) (dbl_of_int 100000) = dbl_0_11811.
Proof. repeat split; vm_compute; reflexivity. Qed.

(** The sizes the layout works with, for each resolution and paper. *)
Lemma layout_sizes (ppi : PPI) (paperSize : PaperSize) :
  let card := GetCardShape ppi in
  let horiz := MarginHoriz ppi paperSize card in
  let vert := MarginVert ppi paperSize card in
  let b := border_pixels ppi in
  0 < b /\ 2 * b < SDL.w card /\ 2 * b < SDL.h card
  /\ b <= horiz /\ b <= vert
  /\ horiz + 3 * SDL.w card + 4 * GUTTER_THICKNESS_PIXELS + b
     <= PageWidth ppi paperSize
  /\ vert + 3 * SDL.h card + 4 * GUTTER_THICKNESS_PIXELS + b
     <= PageHeight ppi paperSize.
Proof. destruct ppi, paperSize; vm_compute; repeat split; discriminate. Qed.

Lemma CardPlacement_grid (pos : Z) (ppi : PPI) (paperSize : PaperSize) :
  0 <= pos <= 8 ->
  let card := GetCardShape ppi in
  CardPlacement pos ppi paperSize
  = SDL.mkRect
      ((pos mod 3) * (SDL.w card + GUTTER_THICKNESS_PIXELS)
       + GUTTER_THICKNESS_PIXELS + MarginHoriz ppi paperSize card)
      ((pos / 3) * (SDL.h card + GUTTER_THICKNESS_PIXELS)
       + GUTTER_THICKNESS_PIXELS + MarginVert ppi paperSize card)
      (SDL.w card) (SDL.h card).
Proof.
  intros Hpos. cbv zeta.
  assert (H : pos = 0 \/ pos = 1 \/ pos = 2 \/ pos = 3 \/ pos = 4 \/ pos = 5
              \/ pos = 6 \/ pos = 7 \/ pos = 8) by lia.
  unfold CardPlacement, GUTTER_THICKNESS_PIXELS.
  generalize (MarginHoriz ppi paperSize (GetCardShape ppi))
             (MarginVert ppi paperSize (GetCardShape ppi))
             (SDL.w (GetCardShape ppi)) (SDL.h (GetCardShape ppi)).
  intros mh mv cw ch.
  destruct H as [->|[->|[->|[->|[->|[->|[->|[->| ->]]]]]]]];
    cbn [Z.eqb Pos.eqb orb];
    repeat match goal with
           | |- context [?a mod 3] =>
               let v := eval vm_compute in (a mod 3) in change (a mod 3) with v
           | |- context [?a / 3] =>
               let v := eval vm_compute in (a / 3) in change (a / 3) with v
           end;
    f_equal; lia.
Qed.

Ltac grid_place pos :=
  rewrite (CardPlacement_grid pos) by lia;
  repeat match goal with
         | |- context [?a mod 3] =>
             let v := eval vm_compute in (a mod 3) in change (a mod 3) with v
         | |- context [?a / 3] =>
             let v := eval vm_compute in (a / 3) in change (a / 3) with v
         end.

Ltac nine_cases pos H :=
  let K := fresh "K" in
  assert (K : pos = 0 \/ pos = 1 \/ pos = 2 \/ pos = 3 \/ pos = 4 \/ pos = 5
              \/ pos = 6 \/ pos = 7 \/ pos = 8) by lia;
  clear H;
  destruct K as [->|[->|[->|[->|[->|[->|[->|[->| ->]]]]]]]].

(** X10: the nine slots of [CardPlacement] lie inside the page, for each
    resolution and paper size, and two different slots are at least
    [GUTTER_THICKNESS_PIXELS] apart, side by side or one above the
    other: no two cards overlap. *)
Lemma card_slots_layout (ppi : PPI) (paperSize : PaperSize) (pos pos' : Z) :
  0 <= pos <= 8 -> 0 <= pos' <= 8 ->
  let c := CardPlacement pos ppi paperSize in
  let c' := CardPlacement pos' ppi paperSize in
  (0 <= SDL.x c /\ SDL.x c + SDL.w c <= PageWidth ppi paperSize
   /\ 0 <= SDL.y c /\ SDL.y c + SDL.h c <= PageHeight ppi paperSize)
  /\ (pos <> pos' ->
      SDL.x c + SDL.w c + GUTTER_THICKNESS_PIXELS <= SDL.x c'
      \/ SDL.x c' + SDL.w c' + GUTTER_THICKNESS_PIXELS <= SDL.x c
      \/ SDL.y c + SDL.h c + GUTTER_THICKNESS_PIXELS <= SDL.y c'
      \/ SDL.y c' + SDL.h c' + GUTTER_THICKNESS_PIXELS <= SDL.y c).
Proof.
  intros Hpos Hpos'. cbv zeta.
  pose proof (layout_sizes ppi paperSize) as Hs. cbv zeta in Hs.
  revert Hs. unfold GUTTER_THICKNESS_PIXELS.
  nine_cases pos Hpos; nine_cases pos' Hpos';
    match goal with
    | |- context [CardPlacement ?p ppi paperSize] => grid_place p
    end;
    try match goal with
    | |- context [CardPlacement ?p ppi paperSize] => grid_place p
    end;
    unfold GUTTER_THICKNESS_PIXELS; cbn [SDL.x SDL.y SDL.w SDL.h];
    generalize (MarginHoriz ppi paperSize (GetCardShape ppi))
               (MarginVert ppi paperSize (GetCardShape ppi))
               (SDL.w (GetCardShape ppi)) (SDL.h (GetCardShape ppi))
               (border_pixels ppi) (PageWidth ppi paperSize)
               (PageHeight ppi paperSize);
    intros; lia.
Qed.

Ltac abstract_sizes ppi paperSize :=
  generalize (MarginHoriz ppi paperSize (GetCardShape ppi))
             (MarginVert ppi paperSize (GetCardShape ppi))
             (SDL.w (GetCardShape ppi)) (SDL.h (GetCardShape ppi))
             (border_pixels ppi) (PageWidth ppi paperSize)
             (PageHeight ppi paperSize);
  intros.

(** No gutter line touches a slot, and the gutter lines lie in the
    content area. *)
Lemma gutter_lines_miss_slots (ppi : PPI) (paperSize : PaperSize)
    (g : SDL.Rect) (pos px py : Z) :
  In g (DrawGutterLines ppi paperSize) -> in_rect g px py ->
  in_rect (content_area ppi paperSize) px py
  /\ (0 <= pos <= 8 -> ~ in_rect (CardPlacement pos ppi paperSize) px py).
Proof.
  intros Hg Hin.
  pose proof (layout_sizes ppi paperSize) as Hs. cbv zeta in Hs.
  split.
  - revert Hs Hg Hin.
    unfold DrawGutterLines, content_area, in_rect, GUTTER_THICKNESS_PIXELS.
    cbn [map app In SDL.x SDL.y SDL.w SDL.h].
    abstract_sizes ppi paperSize.
    repeat match goal with
           | H : _ \/ _ |- _ => destruct H as [H|H]
           | H : _ = g |- _ => subst g; cbn [SDL.x SDL.y SDL.w SDL.h] in *
           | H : False |- _ => destruct H
           end; lia.
  - intros Hpos. revert Hs Hg Hin.
    nine_cases pos Hpos;
      match goal with
      | |- context [CardPlacement ?p ppi paperSize] => grid_place p
      end;
      unfold DrawGutterLines, in_rect, GUTTER_THICKNESS_PIXELS;
      cbn [map app In SDL.x SDL.y SDL.w SDL.h];
      abstract_sizes ppi paperSize;
      repeat match goal with
             | H : _ \/ _ |- _ => destruct H as [H|H]
             | H : _ = g |- _ => subst g; cbn [SDL.x SDL.y SDL.w SDL.h] in *
             | H : False |- _ => destruct H
             end; lia.
Qed.

Ltac try_slot Hslot p :=
  apply (Hslot p);
  [ lia
  | repeat match goal with
           | |- context [?a mod 3] =>
               let v := eval vm_compute in (a mod 3) in change (a mod 3) with v
           | |- context [?a / 3] =>
               let v := eval vm_compute in (a / 3) in change (a / 3) with v
           end;
    cbn [SDL.x SDL.y SDL.w SDL.h]; lia ].

Ltac try_gutter pick :=
  right; eexists; split;
  [ pick; reflexivity | cbn [SDL.x SDL.y SDL.w SDL.h]; lia ].

(** Every pixel of the content area is in a slot or on a gutter line. *)
Lemma content_area_covered (ppi : PPI) (paperSize : PaperSize) (px py : Z) :
  in_rect (content_area ppi paperSize) px py ->
  (exists pos, 0 <= pos <= 8 /\ in_rect (CardPlacement pos ppi paperSize) px py)
  \/ (exists g, In g (DrawGutterLines ppi paperSize) /\ in_rect g px py).
Proof.
  intros Hin.
  pose proof (layout_sizes ppi paperSize) as Hs. cbv zeta in Hs.
  pose proof (fun pos H => CardPlacement_grid pos ppi paperSize H) as Hgrid.
  cbv zeta in Hgrid.
  assert (Hslot : forall pos, 0 <= pos <= 8 ->
            in_rect (SDL.mkRect
              ((pos mod 3) * (SDL.w (GetCardShape ppi) + GUTTER_THICKNESS_PIXELS)
               + GUTTER_THICKNESS_PIXELS
               + MarginHoriz ppi paperSize (GetCardShape ppi))
              ((pos / 3) * (SDL.h (GetCardShape ppi) + GUTTER_THICKNESS_PIXELS)
               + GUTTER_THICKNESS_PIXELS
               + MarginVert ppi paperSize (GetCardShape ppi))
              (SDL.w (GetCardShape ppi)) (SDL.h (GetCardShape ppi))) px py ->
            exists pos, 0 <= pos <= 8
                        /\ in_rect (CardPlacement pos ppi paperSize) px py).
  { intros pos Hpos H. exists pos. split; [exact Hpos|]. now rewrite Hgrid. }
  clear Hgrid.
  revert Hs Hin Hslot.
  unfold DrawGutterLines, content_area, in_rect, GUTTER_THICKNESS_PIXELS.
  cbn [map app In SDL.x SDL.y SDL.w SDL.h].
  generalize (CardPlacement) as place.
  abstract_sizes ppi paperSize.
  rename z into mh, z0 into mv, z1 into cw, z2 into ch.
  assert (Hx : px < mh + 3 \/ mh + 3 <= px < mh + 3 + cw
               \/ mh + 3 + cw <= px < mh + 6 + cw
               \/ mh + 6 + cw <= px < mh + 6 + 2 * cw
               \/ mh + 6 + 2 * cw <= px < mh + 9 + 2 * cw
               \/ mh + 9 + 2 * cw <= px < mh + 9 + 3 * cw
               \/ mh + 9 + 3 * cw <= px) by lia.
  assert (Hy : py < mv + 3 \/ mv + 3 <= py < mv + 3 + ch
               \/ mv + 3 + ch <= py < mv + 6 + ch
               \/ mv + 6 + ch <= py < mv + 6 + 2 * ch
               \/ mv + 6 + 2 * ch <= py < mv + 9 + 2 * ch
               \/ mv + 9 + 2 * ch <= py < mv + 9 + 3 * ch
               \/ mv + 9 + 3 * ch <= py) by lia.
  destruct Hx as [Hx|[Hx|[Hx|[Hx|[Hx|[Hx|Hx]]]]]];
    destruct Hy as [Hy|[Hy|[Hy|[Hy|[Hy|[Hy|Hy]]]]]];
    first [ try_gutter ltac:(left)
          | try_gutter ltac:(right; left)
          | try_gutter ltac:(do 2 right; left)
          | try_gutter ltac:(do 3 right; left)
          | try_gutter ltac:(do 4 right; left)
          | try_gutter ltac:(do 5 right; left)
          | try_gutter ltac:(do 6 right; left)
          | try_gutter ltac:(do 7 right; left)
          | left;
            first [ try_slot Hslot 0 | try_slot Hslot 1 | try_slot Hslot 2
                  | try_slot Hslot 3 | try_slot Hslot 4 | try_slot Hslot 5
                  | try_slot Hslot 6 | try_slot Hslot 7 | try_slot Hslot 8 ] ].
Qed.

Ltac split_rects g :=
  repeat match goal with
         | H : _ \/ _ |- _ => destruct H as [H|H]
         | H : _ = g |- _ => subst g; cbn [SDL.x SDL.y SDL.w SDL.h] in *
         | H : False |- _ => destruct H
         end.

(** X13: [DrawMarginBorder] fills the ring of [border_pixels] around
    the content area and nothing else: a pixel is in one of its four
    rectangles exactly when it is in the content area grown by the
    border and not in the content area; the ring is on the page. *)
Lemma margin_border_ring (ppi : PPI) (paperSize : PaperSize) (px py : Z) :
  ((exists r, In r (DrawMarginBorder ppi paperSize) /\ in_rect r px py)
   <-> in_rect (grow (content_area ppi paperSize) (border_pixels ppi)) px py
       /\ ~ in_rect (content_area ppi paperSize) px py)
  /\ (in_rect (grow (content_area ppi paperSize) (border_pixels ppi)) px py ->
      on_page ppi paperSize px py).
Proof.
  pose proof (layout_sizes ppi paperSize) as Hs. cbv zeta in Hs. revert Hs.
  unfold DrawMarginBorder, content_area, grow, in_rect, on_page,
    GUTTER_THICKNESS_PIXELS.
  cbn [In SDL.x SDL.y SDL.w SDL.h].
  abstract_sizes ppi paperSize.
  rename z into mh, z0 into mv, z1 into cw, z2 into ch, z3 into b.
  split; [split|lia].
  - intros (r & Hr & Hin). split_rects r; lia.
  - intros [Hin Hout].
    assert (Hc : py < mv \/ mv + (3 * ch + 4 * 3) <= py
                 \/ (mv <= py < mv + (3 * ch + 4 * 3)
                     /\ (px < mh \/ mh + (3 * cw + 4 * 3) <= px))) by lia.
    destruct Hc as [Hc|[Hc|[Hc [Hc'|Hc']]]].
    + eexists; split; [left; reflexivity|cbn [SDL.x SDL.y SDL.w SDL.h]; lia].
    + eexists; split; [do 2 right; left; reflexivity
                      |cbn [SDL.x SDL.y SDL.w SDL.h]; lia].
    + eexists; split; [do 3 right; left; reflexivity
                      |cbn [SDL.x SDL.y SDL.w SDL.h]; lia].
    + eexists; split; [right; left; reflexivity
                      |cbn [SDL.x SDL.y SDL.w SDL.h]; lia].
Qed.

(** X14: [DrawBlankCardBorder] fills the frame of [border_pixels] just
    inside a slot: a pixel is in one of its four rectangles exactly when
    it is in the slot and not in the slot shrunk by the border. *)
Lemma blank_border_ring (pos : Z) (ppi : PPI) (paperSize : PaperSize)
    (px py : Z) :
  0 <= pos <= 8 ->
  ((exists r, In r (DrawBlankCardBorder pos ppi paperSize) /\ in_rect r px py)
   <-> in_rect (CardPlacement pos ppi paperSize) px py
       /\ ~ in_rect (grow (CardPlacement pos ppi paperSize)
                          (- border_pixels ppi)) px py).
Proof.
  intros Hpos.
  pose proof (layout_sizes ppi paperSize) as Hs. cbv zeta in Hs. revert Hs.
  unfold DrawBlankCardBorder.
  rewrite (CardPlacement_grid pos) by exact Hpos.
  generalize (pos mod 3 * (SDL.w (GetCardShape ppi) + GUTTER_THICKNESS_PIXELS)
              + GUTTER_THICKNESS_PIXELS
              + MarginHoriz ppi paperSize (GetCardShape ppi)) as sx.
  generalize (pos / 3 * (SDL.h (GetCardShape ppi) + GUTTER_THICKNESS_PIXELS)
              + GUTTER_THICKNESS_PIXELS
              + MarginVert ppi paperSize (GetCardShape ppi)) as sy.
  unfold grow, in_rect, GUTTER_THICKNESS_PIXELS.
  cbn [In SDL.x SDL.y SDL.w SDL.h].
  abstract_sizes ppi paperSize.
  rename z1 into cw, z2 into ch, z3 into b.
  split.
  - intros (r & Hr & Hin). split_rects r; lia.
  - intros [Hin Hout].
    assert (Hc : py < sy + b \/ sy + ch - b <= py
                 \/ (sy + b <= py < sy + ch - b
                     /\ (px < sx + b \/ sx + cw - b <= px))) by lia.
    destruct Hc as [Hc|[Hc|[Hc [Hc'|Hc']]]].
    + eexists; split; [left; reflexivity|cbn [SDL.x SDL.y SDL.w SDL.h]; lia].
    + eexists; split; [do 2 right; left; reflexivity
                      |cbn [SDL.x SDL.y SDL.w SDL.h]; lia].
    + eexists; split; [do 3 right; left; reflexivity
                      |cbn [SDL.x SDL.y SDL.w SDL.h]; lia].
    + eexists; split; [right; left; reflexivity
                      |cbn [SDL.x SDL.y SDL.w SDL.h]; lia].
Qed.

(** X12: the gutter lines lie on the background lines: the k-th
    rectangle of [DrawGutterLines] is inside the k-th rectangle of
    [DrawBackgroundLines], which runs from one edge of the page to the
    other and stays on the page. *)
Lemma gutter_on_background_line (ppi : PPI) (paperSize : PaperSize) :
  Forall2 (fun g l => forall px py,
             (in_rect g px py -> in_rect l px py)
             /\ (in_rect l px py -> on_page ppi paperSize px py))
          (DrawGutterLines ppi paperSize) (DrawBackgroundLines ppi paperSize).
Proof.
  pose proof (layout_sizes ppi paperSize) as Hs. cbv zeta in Hs. revert Hs.
  unfold DrawGutterLines, DrawBackgroundLines, in_rect, on_page,
    GUTTER_THICKNESS_PIXELS.
  cbn [map app].
  abstract_sizes ppi paperSize.
  repeat (apply Forall2_cons;
          [intros px py; cbn [SDL.x SDL.y SDL.w SDL.h]; lia|]).
  apply Forall2_nil.
Qed.

(** ** The corner arcs *)

(** X15: [QuarterArcParams]: no case of its [switch] ends in [break], so
    whatever the resolution the number of points is [NUM_POINTS_300]
    (65), the assignment the fall-through ends in; the radius is 35, 71
    or 142 pixels, the integer nearest to [ppi * 0.11811]. *)
Lemma QuarterArcParams_values (ppi : PPI) (num_points : Z) :
  fst (QuarterArcParams ppi num_points) = NUM_POINTS_300
  /\ snd (QuarterArcParams ppi num_points)
     = match ppi with ppi300 => 35 | ppi600 => 71 | ppi1200 => 142 end
  /\ 2 * Z.abs (snd (QuarterArcParams ppi num_points) * 100000
                - ppi_val ppi * 11811) <= 100000.
Proof. destruct ppi; vm_compute; repeat split; discriminate. Qed.

(** * The pages of a run *)

Lemma zrange_cons (a : Z) (n : nat) : zrange a (S n) = a :: zrange (a + 1) n.
Proof.
  unfold zrange. cbn [seq map]. f_equal; [apply Z.add_0_r|].
  rewrite <- seq_shift, map_map. apply map_ext. intros k. lia.
Qed.

Lemma length_zrange (a : Z) (n : nat) : length (zrange a n) = n.
Proof. unfold zrange. now rewrite length_map, length_seq. Qed.

Lemma zrange_app (a : Z) (n m : nat) :
  zrange a (n + m) = zrange a n ++ zrange (a + Z.of_nat n) m.
Proof.
  revert a. induction n as [|n IH]; intros a.
  - cbn [Nat.add]. change (zrange a 0) with (@nil Z). cbn [app].
    now rewrite Z.add_0_r.
  - cbn [Nat.add]. rewrite !zrange_cons, IH. cbn [app]. do 3 f_equal. lia.
Qed.

Lemma page_cards_from_range (n : nat) :
  forall i cardCount currPage,
    page_cards_from n i cardCount currPage
    = zrange i (Nat.min n (Z.to_nat (Z.min cardCount
                                           ((currPage + 1) * CARDS_PER_PAGE)
                                     - i))).
Proof.
  induction n as [|n IH]; intros i cardCount currPage; [reflexivity|].
  cbn [page_cards_from].
  destruct (Z.ltb_spec i cardCount) as [H1|H1];
    destruct (Z.ltb_spec i ((currPage + 1) * CARDS_PER_PAGE)) as [H2|H2];
    cbn [andb].
  - rewrite IH.
    replace (Z.to_nat (Z.min cardCount ((currPage + 1) * CARDS_PER_PAGE) - i))
      with (S (Z.to_nat (Z.min cardCount ((currPage + 1) * CARDS_PER_PAGE)
                         - (i + 1)))) by lia.
    rewrite <- Nat.succ_min_distr, zrange_cons. reflexivity.
  - replace (Z.to_nat (Z.min cardCount ((currPage + 1) * CARDS_PER_PAGE) - i))
      with 0%nat by lia.
    now rewrite Nat.min_0_r.
  - replace (Z.to_nat (Z.min cardCount ((currPage + 1) * CARDS_PER_PAGE) - i))
      with 0%nat by lia.
    now rewrite Nat.min_0_r.
  - replace (Z.to_nat (Z.min cardCount ((currPage + 1) * CARDS_PER_PAGE) - i))
      with 0%nat by lia.
    now rewrite Nat.min_0_r.
Qed.

(** More turns than nine change nothing. *)
Lemma page_cards_turns (k : nat) (cardCount currPage : Z) :
  page_cards_from (9 + k) (currPage * CARDS_PER_PAGE) cardCount currPage
  = page_cards cardCount currPage.
Proof.
  unfold page_cards. rewrite !page_cards_from_range. f_equal.
  unfold CARDS_PER_PAGE. lia.
Qed.

Lemma page_cards_range (cardCount currPage : Z) :
  page_cards cardCount currPage
  = zrange (currPage * 9)
      (Z.to_nat (Z.min 9 (cardCount - currPage * 9))).
Proof.
  unfold page_cards. rewrite page_cards_from_range. unfold CARDS_PER_PAGE.
  f_equal. lia.
Qed.

Lemma blank_from_range (n : nat) :
  forall j, 0 <= j -> blank_from n j = zrange j (Nat.min n (Z.to_nat (9 - j))).
Proof.
  induction n as [|n IH]; intros j Hj; [reflexivity|].
  cbn [blank_from]. destruct (Z.ltb_spec j 9) as [H|H].
  - rewrite IH by lia.
    replace (Z.to_nat (9 - j)) with (S (Z.to_nat (9 - (j + 1)))) by lia.
    rewrite <- Nat.succ_min_distr, zrange_cons. reflexivity.
  - replace (Z.to_nat (9 - j)) with 0%nat by lia. now rewrite Nat.min_0_r.
Qed.

Lemma In_zrange (a x : Z) (n : nat) :
  In x (zrange a n) <-> a <= x < a + Z.of_nat n.
Proof.
  unfold zrange. rewrite in_map_iff. split.
  - intros (k & <- & Hk). apply in_seq in Hk. lia.
  - intros Hx. exists (Z.to_nat (x - a)). split; [lia|]. apply in_seq. lia.
Qed.

Lemma add_cards_snoc (loads : Z -> bool) (l : list Z) (e : Z) :
  add_cards loads (l ++ [e])
  = (if loads e
     then (fst (add_cards loads l) + 1,
           snd (add_cards loads l) ++ [Z.rem e CARDS_PER_PAGE])
     else add_cards loads l).
Proof.
  unfold add_cards. rewrite fold_left_app. cbn [fold_left].
  destruct (fold_left _ l (0, [])) as [c a]. reflexivity.
Qed.

Lemma zrange_snoc (a : Z) (n : nat) :
  zrange a (S n) = zrange a n ++ [a + Z.of_nat n].
Proof.
  replace (S n) with (n + 1)%nat by lia. rewrite zrange_app.
  f_equal. unfold zrange. cbn [seq map]. f_equal. lia.
Qed.

Lemma exists_failed (f : Z -> bool) (s : Z) (m : nat) :
  ~ (forall k, 0 <= k < Z.of_nat m -> f (s + k) = true) ->
  exists k, 0 <= k < Z.of_nat m /\ f (s + k) = false.
Proof.
  induction m as [|m IHm]; intros Hn.
  - exfalso. apply Hn. intros; lia.
  - destruct (f (s + Z.of_nat m)) eqn:E.
    + destruct IHm as (k & Hk & Hf).
      * intros H. apply Hn. intros k Hk.
        destruct (Z.eq_dec k (Z.of_nat m)) as [->|Hne];
          [exact E | apply H; lia].
      * exists k. split; [lia|exact Hf].
    + exists (Z.of_nat m). split; [lia|exact E].
Qed.

(** The state of the loading loop after the first [m] cards of a page
    that starts at card [s]. *)
Lemma add_cards_state (loads : Z -> bool) (p : Z) (m : nat) :
  0 <= p -> (m <= 9)%nat ->
  let s := p * 9 in
  let c := fst (add_cards loads (zrange s m)) in
  let a := snd (add_cards loads (zrange s m)) in
  0 <= c <= Z.of_nat m
  /\ c = Z.of_nat (length a)
  /\ (forall x, In x a <-> 0 <= x < Z.of_nat m /\ loads (s + x) = true)
  /\ (c = Z.of_nat m <-> forall k, 0 <= k < Z.of_nat m -> loads (s + k) = true)
  /\ ((exists x, In x a /\ c <= x)
      <-> exists k1 k2, 0 <= k1 /\ k1 < k2 /\ k2 < Z.of_nat m
                        /\ loads (s + k1) = false /\ loads (s + k2) = true).
Proof.
  intros Hp. cbv zeta. induction m as [|m IH]; intros Hm.
  - cbn [zrange seq map add_cards fold_left fst snd length In].
    repeat split; try lia; try (intros; lia); try tauto.
    + intros (x & [] & _).
    + intros (k1 & k2 & H). lia.
  - specialize (IH ltac:(lia)).
    destruct IH as (Hc & Hlen & Hin & Hall & Hov).
    rewrite zrange_snoc, add_cards_snoc.
    assert (Hrem : Z.rem (p * 9 + Z.of_nat m) CARDS_PER_PAGE = Z.of_nat m).
    { unfold CARDS_PER_PAGE. rewrite Z.rem_mod_nonneg by lia.
      rewrite Z.add_comm, Z.mod_add by lia. apply Z.mod_small. lia. }
    rewrite Hrem.
    set (c := fst (add_cards loads (zrange (p * 9) m))) in *.
    set (a := snd (add_cards loads (zrange (p * 9) m))) in *.
    destruct (loads (p * 9 + Z.of_nat m)) eqn:El; cbn [fst snd].
    + (* the card loads *)
      split; [lia|]. split; [rewrite length_app; cbn [length]; lia|].
      split; [|split].
      * intros x. rewrite in_app_iff, Hin. cbn [In]. split.
        -- intros [[H1 H2]|[<-|[]]]; [split; [lia|exact H2] | split; [lia|exact El]].
        -- intros [H1 H2].
           destruct (Z.eq_dec x (Z.of_nat m)) as [->|Hne]; [right; now left|].
           left. split; [lia|exact H2].
      * split.
        -- intros Hcm k Hk.
           destruct (Z.eq_dec k (Z.of_nat m)) as [->|Hne]; [exact El|].
           apply Hall; lia.
        -- intros H.
           assert (c = Z.of_nat m) by (apply (proj2 Hall); intros; apply H; lia).
           lia.
      * split.
        -- intros (x & Hx & Hcx). apply in_app_iff in Hx.
           assert (Hlt : c < Z.of_nat m).
           { destruct Hx as [Hx|[<-|[]]]; [|lia].
             apply Hin in Hx. lia. }
           destruct (Z.eq_dec c (Z.of_nat m)) as [Heq|_]; [lia|].
           assert (Hex : exists k, 0 <= k < Z.of_nat m
                                   /\ loads (p * 9 + k) = false).
           { apply exists_failed. intros H. apply (proj2 Hall) in H. lia. }
           destruct Hex as (k & Hk & Hf).
           exists k, (Z.of_nat m). repeat split; try lia; assumption.
        -- intros (k1 & k2 & H0 & H12 & H2 & Hf & Ht).
           exists (Z.of_nat m). split; [apply in_app_iff; right; now left|].
           assert (Hne : c <> Z.of_nat m).
           { intros Heq. pose proof (proj1 Hall Heq) as Hk1.
             destruct (Z.eq_dec k1 (Z.of_nat m)) as [->|Hk]; [lia|].
             rewrite Hk1 in Hf by lia. discriminate. }
           lia.
    + (* the card does not load *)
      fold c a. split; [lia|]. split; [exact Hlen|].
      split; [|split].
      * intros x. rewrite Hin. split.
        -- intros [H1 H2]. split; [lia|exact H2].
        -- intros [H1 H2].
           destruct (Z.eq_dec x (Z.of_nat m)) as [->|Hne];
             [rewrite El in H2; discriminate|].
           split; [lia|exact H2].
      * split; [lia|].
        intros H. rewrite H in El by lia. discriminate.
      * rewrite Hov. split.
        -- intros (k1 & k2 & H). exists k1, k2.
           repeat split; try tauto; lia.
        -- intros (k1 & k2 & H0 & H12 & H2 & Hf & Ht).
           destruct (Z.eq_dec k2 (Z.of_nat m)) as [->|Hne];
             [rewrite El in Ht; discriminate|].
           exists k1, k2. repeat split; try assumption; lia.
Qed.

Lemma pageCount_bounds (cardCount : Z) :
  0 <= cardCount ->
  0 <= pageCount cardCount
  /\ cardCount <= 9 * pageCount cardCount < cardCount + 9.
Proof.
  intros Hc. unfold pageCount, CARDS_PER_PAGE.
  rewrite Z.quot_div_nonneg, Z.rem_mod_nonneg by lia.
  pose proof (Z.div_mod cardCount 9 ltac:(lia)) as Hd.
  pose proof (Z.mod_pos_bound cardCount 9 ltac:(lia)) as Hm.
  destruct (Z.eqb_spec (cardCount mod 9) 0) as [H|H]; lia.
Qed.

Lemma build_page_fields (loads : Z -> bool) (roundedCorners : bool)
    (cardCount currPage : Z) :
  let pg := build_page loads roundedCorners cardCount currPage in
  page_number pg = currPage + 1
  /\ listed pg = page_cards cardCount currPage
  /\ added pg = snd (add_cards loads (page_cards cardCount currPage))
  /\ blanks pg
     = blank_from
         (Z.to_nat (9 - fst (add_cards loads (page_cards cardCount currPage))))
         (fst (add_cards loads (page_cards cardCount currPage)))
  /\ corners pg
     = (if roundedCorners
        then map (fun i => Z.rem i CARDS_PER_PAGE)
                 (page_cards cardCount currPage)
        else []).
Proof.
  cbv zeta. unfold build_page.
  destruct (add_cards loads (page_cards cardCount currPage)) as [c a].
  repeat split.
Qed.

Lemma pages_from_listed (loads : Z -> bool) (roundedCorners : bool)
    (cardCount P : Z) (n : nat) :
  forall p,
    0 <= p <= P -> n = Z.to_nat (P - p) ->
    cardCount <= 9 * P ->
    let ps := pages_from n loads roundedCorners cardCount P p in
    concat (map listed ps) = zrange (p * 9) (Z.to_nat (cardCount - p * 9))
    /\ map page_number ps = zrange (p + 1) n.
Proof.
  induction n as [|n IH]; intros p Hp Hn HP; cbv zeta.
  - cbn [pages_from map concat].
    replace (Z.to_nat (cardCount - p * 9)) with 0%nat by lia.
    split; reflexivity.
  - cbn [pages_from]. destruct (Z.ltb_spec p P) as [Hlt|Hge]; [|lia].
    cbn [map concat].
    destruct (build_page_fields loads roundedCorners cardCount p)
      as (Hnum & Hl & _).
    rewrite Hnum, Hl.
    destruct (IH (p + 1) ltac:(lia) ltac:(lia) HP) as [IH1 IH2].
    rewrite IH1, IH2, page_cards_range, zrange_cons.
    split; [|reflexivity].
    destruct (Z_le_gt_dec 9 (cardCount - p * 9)) as [H|H].
    + rewrite Z.min_l by lia.
      replace ((p + 1) * 9) with (p * 9 + Z.of_nat (Z.to_nat 9)) by lia.
      rewrite <- zrange_app. f_equal. lia.
    + replace (Z.to_nat (cardCount - (p + 1) * 9)) with 0%nat by lia.
      change (zrange ((p + 1) * 9) 0) with (@nil Z). rewrite app_nil_r.
      f_equal. lia.
Qed.

(** X16: the loop of [main] over the pages, for a card count within
    [MAX_CARDS]: it makes [pageCount] turns, at most 80; the pages are
    numbered 1, 2, ...; every card is listed on one page, in the order of
    the file; a page has between one and nine cards, and its cards go to
    the positions 0, 1, 2, ... *)
Lemma pages_list_every_card (loads : Z -> bool) (roundedCorners : bool)
    (cardCount : Z) :
  0 <= cardCount <= MAX_CARDS ->
  let ps := pages loads roundedCorners cardCount in
  Z.of_nat (length ps) = pageCount cardCount
  /\ pageCount cardCount <= MAX_NUM_PAGES
  /\ concat (map listed ps) = zrange 0 (Z.to_nat cardCount)
  /\ map page_number ps = zrange 1 (length ps)
  /\ Forall (fun pg =>
               let m := length (listed pg) in
               (1 <= m <= 9)%nat
               /\ listed pg = zrange ((page_number pg - 1) * 9) m
               /\ map (fun i => Z.rem i CARDS_PER_PAGE) (listed pg)
                  = zrange 0 m) ps.
Proof.
  intros Hc. cbv zeta. unfold pages.
  destruct (pageCount_bounds cardCount ltac:(lia)) as (HP0 & HP1 & HP2).
  set (P := pageCount cardCount) in *.
  destruct (pages_from_listed loads roundedCorners cardCount P (Z.to_nat P) 0
              ltac:(lia) ltac:(lia) ltac:(lia)) as [Hl Hn].
  cbv zeta in Hl, Hn.
  set (ps := pages_from (Z.to_nat P) loads roundedCorners cardCount P 0) in *.
  assert (Hlen : length ps = Z.to_nat P).
  { rewrite <- (length_map page_number), Hn. apply length_zrange. }
  split; [lia|].
  split; [unfold MAX_CARDS, MAX_NUM_PAGES, CARDS_PER_PAGE in *; lia|].
  split; [rewrite Hl; f_equal; lia|].
  split; [rewrite Hn, Hlen; reflexivity|].
  (* each page *)
  assert (Hgen : forall n p, 0 <= p -> Z.of_nat n + p <= P ->
            Forall (fun pg =>
               let m := length (listed pg) in
               (1 <= m <= 9)%nat
               /\ listed pg = zrange ((page_number pg - 1) * 9) m
               /\ map (fun i => Z.rem i CARDS_PER_PAGE) (listed pg)
                  = zrange 0 m)
              (pages_from n loads roundedCorners cardCount P p)).
  { induction n as [|n IH]; intros p Hp HnP; cbn [pages_from];
      [constructor|].
    destruct (Z.ltb_spec p P) as [Hlt|Hge]; [|constructor].
    constructor; [|apply IH; lia].
    destruct (build_page_fields loads roundedCorners cardCount p)
      as (Hnum & Hli & _).
    cbv zeta. rewrite Hnum, Hli, page_cards_range, !length_zrange.
    split; [lia|].
    split; [f_equal; lia|].
    unfold zrange. rewrite map_map. apply map_ext_in.
    intros k Hk. apply in_seq in Hk. unfold CARDS_PER_PAGE.
    rewrite Z.rem_mod_nonneg by lia.
    rewrite Z.add_comm, Z.mod_add by lia. rewrite Z.mod_small by lia. lia. }
  apply Hgen; lia.
Qed.

(** X17: the blank borders of a page start at the count of the images
    that loaded, not at the first free position: a position gets both an
    image and a blank border exactly when a card of the page failed to
    load and a later card of the page loaded.  When every card loads the
    images take the first positions and the borders the rest. *)
Lemma blank_border_on_image (loads : Z -> bool) (roundedCorners : bool)
    (cardCount currPage : Z) :
  0 <= currPage ->
  let pg := build_page loads roundedCorners cardCount currPage in
  ((exists pos, In pos (added pg) /\ In pos (blanks pg))
   <-> exists i j, In i (listed pg) /\ In j (listed pg) /\ i < j
                   /\ loads i = false /\ loads j = true)
  /\ ((forall i, In i (listed pg) -> loads i = true) ->
      added pg = zrange 0 (length (listed pg))
      /\ blanks pg = zrange (Z.of_nat (length (listed pg)))
                            (9 - length (listed pg))).
Proof.
  intros Hp. cbv zeta.
  destruct (build_page_fields loads roundedCorners cardCount currPage)
    as (_ & Hli & Hadd & Hbl & _).
  rewrite Hli, Hadd, Hbl, page_cards_range.
  set (m := Z.to_nat (Z.min 9 (cardCount - currPage * 9))).
  assert (Hm : (m <= 9)%nat) by lia.
  destruct (add_cards_state loads currPage m Hp Hm)
    as (Hc & Hlen & Hin & Hall & Hov).
  set (c := fst (add_cards loads (zrange (currPage * 9) m))) in *.
  set (a := snd (add_cards loads (zrange (currPage * 9) m))) in *.
  rewrite blank_from_range by lia. rewrite Nat.min_id.
  split.
  - split.
    + intros (pos & Ha & Hb). apply In_zrange in Hb.
      destruct (proj1 Hov) as (k1 & k2 & H0 & H12 & H2 & Hf & Ht);
        [exists pos; split; [exact Ha|lia]|].
      exists (currPage * 9 + k1), (currPage * 9 + k2).
      rewrite !In_zrange. repeat split; try lia; assumption.
    + intros (i & j & Hi & Hj & Hij & Hf & Ht).
      apply In_zrange in Hi, Hj.
      destruct (proj2 Hov) as (x & Hx & Hcx).
      { exists (i - currPage * 9), (j - currPage * 9).
        replace (currPage * 9 + (i - currPage * 9)) with i by lia.
        replace (currPage * 9 + (j - currPage * 9)) with j by lia.
        repeat split; try lia; assumption. }
      exists x. split; [exact Hx|]. apply In_zrange.
      apply Hin in Hx. lia.
  - intros Hload.
    assert (Hcm : c = Z.of_nat m).
    { apply (proj2 Hall). intros k Hk. apply Hload. apply In_zrange. lia. }
    rewrite !length_zrange.
    split.
    + (* the images added are at the positions 0, 1, ... in order *)
      clear - Hp Hm Hload. subst a.
      assert (Hgen : forall n, (n <= m)%nat ->
                add_cards loads (zrange (currPage * 9) n)
                = (Z.of_nat n, zrange 0 n)).
      { induction n as [|n IH]; intros Hn; [reflexivity|].
        rewrite zrange_snoc, add_cards_snoc, IH by lia.
        rewrite Hload by (apply In_zrange; lia).
        cbn [fst snd]. f_equal; [lia|].
        rewrite (zrange_snoc 0). do 2 f_equal.
        unfold CARDS_PER_PAGE. rewrite Z.rem_mod_nonneg by lia.
        rewrite Z.add_comm, Z.mod_add by lia. rewrite Z.mod_small by lia. lia. }
      rewrite Hgen by lia. reflexivity.
    + rewrite Hcm. f_equal. lia.
Qed.

(** * Strings and trimming *)

Lemma strlen_cstr (s : list byte) : strlen s = Z.of_nat (length (cstr s)).
Proof.
  induction s as [|c s IH]; [reflexivity|].
  cbn [strlen cstr]. destruct (is_nul c); cbn [length]; lia.
Qed.

Lemma cstr_no_nul (s : list byte) : forallb (fun c => negb (is_nul c)) (cstr s) = true.
Proof.
  induction s as [|c s IH]; [reflexivity|].
  cbn [cstr]. destruct (is_nul c) eqn:E; [reflexivity|].
  cbn [forallb]. now rewrite E, IH.
Qed.

(** An array whose string ends inside it: the string, the NUL and the
    bytes after it. *)
Lemma cstr_split (s : list byte) :
  strlen s < Z.of_nat (length s) ->
  exists tail, s = cstr s ++ x00 :: tail.
Proof.
  induction s as [|c s IH]; cbn [strlen cstr length]; [lia|].
  destruct (is_nul c) eqn:E.
  - intros _. exists s. unfold is_nul in E.
    apply Byte.byte_dec_bl in E. now subst c.
  - intros H. destruct IH as [tail Ht]; [lia|].
    exists tail. cbn [app]. now rewrite <- Ht.
Qed.

Lemma cstr_app_nul (str tail : list byte) :
  forallb (fun c => negb (is_nul c)) str = true ->
  cstr (str ++ x00 :: tail) = str.
Proof.
  induction str as [|c str IH]; intros H; [reflexivity|].
  cbn [forallb] in H. apply andb_true_iff in H. destruct H as [Hc Hs].
  cbn [app cstr]. apply negb_true_iff in Hc. rewrite Hc. now rewrite IH.
Qed.

Lemma char_at_app_l (a b : list byte) (i : Z) :
  0 <= i < Z.of_nat (length a) -> char_at (a ++ b) i = char_at a i.
Proof. intros Hi. unfold char_at. apply app_nth1. lia. Qed.

Lemma char_at_app_r (a b : list byte) (i : Z) :
  Z.of_nat (length a) <= i ->
  char_at (a ++ b) i = char_at b (i - Z.of_nat (length a)).
Proof.
  intros Hi. unfold char_at. rewrite app_nth2 by lia. f_equal. lia.
Qed.

Lemma store_app (a b : list byte) (c d : byte) :
  store (a ++ d :: b) (Z.of_nat (length a)) c = a ++ c :: b.
Proof.
  unfold store. rewrite Nat2Z.id.
  rewrite firstn_app, firstn_all, Nat.sub_diag. cbn [firstn].
  rewrite app_nil_r. f_equal. f_equal.
  change (S (length a)) with (1 + length a)%nat.
  rewrite <- skipn_skipn, skipn_app, skipn_all, Nat.sub_diag. reflexivity.
Qed.

Lemma no_nul_cons (c : byte) (str : list byte) :
  no_nul (c :: str) <-> is_nul c = false /\ no_nul str.
Proof.
  unfold no_nul. cbn [forallb]. rewrite andb_true_iff, negb_true_iff. tauto.
Qed.

Lemma no_nul_app (a b : list byte) : no_nul (a ++ b) <-> no_nul a /\ no_nul b.
Proof. unfold no_nul. rewrite forallb_app, andb_true_iff. tauto. Qed.

Lemma isspace_not_nul (c : byte) : isspace c = true -> is_nul c = false.
Proof. destruct c; cbn; congruence. Qed.

Lemma lstrip_split (str : list byte) :
  exists ws, str = ws ++ lstrip str /\ forallb isspace ws = true.
Proof.
  induction str as [|c str IH]; [exists []; split; reflexivity|].
  cbn [lstrip]. destruct (isspace c) eqn:E.
  - destruct IH as (ws & Hs & Hw). exists (c :: ws). cbn [app forallb].
    rewrite E, Hw. split; [now rewrite <- Hs | reflexivity].
  - exists []. split; reflexivity.
Qed.

Lemma lstrip_head (str : list byte) :
  match lstrip str with
  | c :: _ => isspace c = false
  | [] => True
  end.
Proof.
  induction str as [|c str IH]; [exact I|].
  cbn [lstrip]. destruct (isspace c) eqn:E; [exact IH | exact E].
Qed.

Lemma TrimLeft_skip_spec (rest : list byte) :
  forall turns pre tail n,
    no_nul rest ->
    Z.of_nat (length pre) + Z.of_nat (length rest) < n ->
    (length rest < turns)%nat ->
    TrimLeft_skip turns (pre ++ rest ++ x00 :: tail) n (Z.of_nat (length pre))
    = Z.of_nat (length pre)
      + (Z.of_nat (length rest) - Z.of_nat (length (lstrip rest))).
Proof.
  induction rest as [|c rest IH]; intros turns pre tail n Hnn Hn Hturns;
    (destruct turns as [|turns]; [cbn [length] in Hturns; lia|]);
    cbn [TrimLeft_skip]; rewrite char_at_app_r by lia;
    rewrite Z.sub_diag; cbn [app]; unfold char_at at 1 2; cbn [Z.to_nat nth].
  - change (is_nul x00) with true. cbn [negb andb lstrip length]. lia.
  - apply no_nul_cons in Hnn. destruct Hnn as [Hc Hr]. rewrite Hc.
    cbn [negb andb length lstrip] in *.
    destruct (Z.ltb_spec (Z.of_nat (length pre)) (n - 1)) as [_|H]; [|lia].
    cbn [andb]. destruct (isspace c) eqn:E.
    + specialize (IH turns (pre ++ [c]) tail n Hr).
      rewrite <- app_assoc in IH. cbn [app] in IH.
      rewrite length_app in IH. cbn [length] in IH.
      replace (Z.of_nat (length pre) + 1)
        with (Z.of_nat (length pre + 1)) by lia.
      rewrite IH by lia. lia.
    + cbn [length]. lia.
Qed.

Lemma TrimLeft_shift_spec (todo : list byte) :
  forall turns done X tail n,
    no_nul todo -> X <> [] ->
    Z.of_nat (length done) + Z.of_nat (length X) + Z.of_nat (length todo) < n ->
    (length todo < turns)%nat ->
    exists X',
      length X' = length X
      /\ TrimLeft_shift turns (done ++ X ++ todo ++ x00 :: tail) n
           (Z.of_nat (length X))
           (Z.of_nat (length done) + Z.of_nat (length X))
         = ((done ++ todo) ++ X' ++ x00 :: tail,
            Z.of_nat (length done) + Z.of_nat (length X)
            + Z.of_nat (length todo)).
Proof.
  induction todo as [|c todo IH]; intros turns done X tail n Hnn HX Hn Hturns;
    (destruct turns as [|turns]; [cbn [length] in Hturns; lia|]);
    cbn [TrimLeft_shift].
  - rewrite app_assoc, char_at_app_r by (rewrite length_app; lia).
    rewrite length_app.
    replace (Z.of_nat (length done) + Z.of_nat (length X)
             - Z.of_nat (length done + length X)) with 0 by lia.
    cbn [app]. unfold char_at. cbn [Z.to_nat nth].
    change (is_nul x00) with true. cbn [negb andb].
    exists X. split; [reflexivity|].
    rewrite app_nil_r, <- app_assoc. cbn [length]. f_equal. lia.
  - apply no_nul_cons in Hnn. destruct Hnn as [Hc Hr].
    assert (Hch : char_at (done ++ X ++ (c :: todo) ++ x00 :: tail)
                    (Z.of_nat (length done) + Z.of_nat (length X)) = c).
    { rewrite app_assoc, char_at_app_r by (rewrite length_app; lia).
      rewrite length_app.
      replace (Z.of_nat (length done) + Z.of_nat (length X)
               - Z.of_nat (length done + length X)) with 0 by lia.
      reflexivity. }
    rewrite Hch, Hc. cbn [negb andb length] in *.
    destruct (Z.ltb_spec (Z.of_nat (length done) + Z.of_nat (length X)) (n - 1))
      as [_|H]; [|lia].
    destruct X as [|x X]; [contradiction|].
    replace (Z.of_nat (length done) + Z.of_nat (length (x :: X))
             - Z.of_nat (length (x :: X))) with (Z.of_nat (length done)) by lia.
    cbn [app]. rewrite store_app.
    specialize (IH turns (done ++ [c]) (X ++ [c]) tail n Hr).
    destruct IH as (X' & HlX & Hrun).
    { destruct X; discriminate. }
    { rewrite !length_app. cbn [length] in *. lia. }
    { lia. }
    exists X'. split; [rewrite HlX, length_app; cbn [length]; lia|].
    rewrite !length_app in Hrun. cbn [length] in Hrun.
    rewrite <- !app_assoc in Hrun. cbn [app] in Hrun.
    replace (Z.of_nat (length X + 1)) with (Z.of_nat (length (x :: X))) in Hrun
      by (cbn [length]; lia).
    replace (Z.of_nat (length done + 1) + Z.of_nat (length (x :: X)))
      with (Z.of_nat (length done) + Z.of_nat (length (x :: X)) + 1) in Hrun
      by lia.
    rewrite <- !app_assoc. cbn [app].
    rewrite Hrun. f_equal. cbn [length]. lia.
Qed.

Lemma no_nul_lstrip (str : list byte) : no_nul str -> no_nul (lstrip str).
Proof.
  intros H. destruct (lstrip_split str) as (ws & Hs & _).
  rewrite Hs in H. now apply no_nul_app in H.
Qed.

Lemma TrimLeft_array (str tail : list byte) (n : Z) :
  no_nul str -> Z.of_nat (length str) < n ->
  exists tail',
    TrimLeft (str ++ x00 :: tail) n = lstrip str ++ x00 :: tail'
    /\ length (TrimLeft (str ++ x00 :: tail) n) = length (str ++ x00 :: tail).
Proof.
  intros Hnn Hn. unfold TrimLeft.
  pose proof (TrimLeft_skip_spec str (Z.to_nat n) [] tail n Hnn) as Hskip.
  cbn [app length] in Hskip. change (Z.of_nat 0) with 0 in Hskip.
  rewrite Hskip by lia. clear Hskip.
  destruct (lstrip_split str) as (ws & Hs & Hws).
  assert (Hl : length str = (length ws + length (lstrip str))%nat)
    by (rewrite Hs at 1; apply length_app).
  replace (0 + (Z.of_nat (length str) - Z.of_nat (length (lstrip str))))
    with (Z.of_nat (length ws)) by lia.
  destruct (Z.eqb_spec (Z.of_nat (length ws)) 0) as [H0|H0].
  - destruct ws; [|discriminate]. cbn [app] in Hs. rewrite <- Hs.
    exists tail. split; reflexivity.
  - destruct (TrimLeft_shift_spec (lstrip str) (Z.to_nat n) [] ws tail n)
      as (X' & HlX & Hrun).
    + now apply no_nul_lstrip.
    + destruct ws; [contradiction|discriminate].
    + cbn [length]. lia.
    + lia.
    + cbn [app length] in Hrun. change (Z.of_nat 0) with 0 in Hrun.
      assert (Hbuf : str ++ x00 :: tail = ws ++ lstrip str ++ x00 :: tail)
        by (rewrite Hs at 1; rewrite <- app_assoc; reflexivity).
      rewrite Hbuf.
      replace (0 + Z.of_nat (length ws)) with (Z.of_nat (length ws)) in Hrun by lia.
      rewrite Hrun.
      replace (Z.of_nat (length ws) + Z.of_nat (length (lstrip str))
               - Z.of_nat (length ws))
        with (Z.of_nat (length (lstrip str))) by lia.
      destruct X' as [|x X']; [destruct ws; [contradiction|discriminate]|].
      cbn [app]. rewrite store_app.
      exists (X' ++ x00 :: tail). split; [reflexivity|].
      rewrite !length_app. cbn [length] in *.
      rewrite !length_app. cbn [length]. lia.
Qed.

(** The loop of [TrimRight] on a string: it ends on the last byte that is
    no white space. *)
Lemma TrimRight_back_spec (str : list byte) :
  forall turns tail,
    no_nul str -> (length str <= turns)%nat ->
    TrimRight_back turns (str ++ tail) (Z.of_nat (length str) - 1)
    = Z.of_nat (length (rstrip str)) - 1.
Proof.
  induction str as [|c str IH] using rev_ind; intros turns tail Hnn Hturns.
  - cbn [length]. destruct turns; reflexivity.
  - apply no_nul_app in Hnn. destruct Hnn as [Hs Hc].
    apply no_nul_cons in Hc. destruct Hc as [Hc _].
    rewrite length_app in *. cbn [length] in *.
    destruct turns as [|turns]; [lia|]. cbn [TrimRight_back].
    replace (Z.of_nat (length str + 1) - 1) with (Z.of_nat (length str)) by lia.
    rewrite <- app_assoc, char_at_app_r by lia. rewrite Z.sub_diag.
    cbn [app]. unfold char_at. cbn [Z.to_nat nth]. rewrite Hc, orb_false_r.
    destruct (Z.leb_spec 0 (Z.of_nat (length str))) as [_|H]; [|lia].
    cbn [andb]. unfold rstrip. rewrite rev_app_distr. cbn [rev app lstrip].
    destruct (isspace c) eqn:E.
    + change (str ++ c :: tail) with (str ++ [c] ++ tail).
      rewrite (IH turns ([c] ++ tail) Hs) by lia. reflexivity.
    + cbn [rev]. rewrite rev_involutive, length_app. cbn [length]. lia.
Qed.

Lemma rstrip_split (str : list byte) :
  exists ws, str = rstrip str ++ ws /\ forallb isspace ws = true.
Proof.
  unfold rstrip. destruct (lstrip_split (rev str)) as (ws & Hs & Hw).
  exists (rev ws). split.
  - rewrite <- rev_app_distr, <- Hs. symmetry. apply rev_involutive.
  - rewrite forallb_forall in *. intros c Hc. apply Hw. now apply in_rev.
Qed.

Lemma TrimRight_array (str tail : list byte) (n : Z) :
  no_nul str -> Z.of_nat (length str) < n < 2 ^ 64 ->
  exists tail',
    TrimRight (str ++ x00 :: tail) n = rstrip str ++ x00 :: tail'
    /\ length (TrimRight (str ++ x00 :: tail) n) = length (str ++ x00 :: tail).
Proof.
  intros Hnn Hn. unfold TrimRight.
  assert (Hlen : strlen (str ++ x00 :: tail) = Z.of_nat (length str))
    by (rewrite strlen_cstr, cstr_app_nul by exact Hnn; reflexivity).
  rewrite Hlen, TrimRight_back_spec by (exact Hnn || lia).
  destruct (rstrip_split str) as (ws & Hs & Hws).
  assert (Hl : length str = (length (rstrip str) + length ws)%nat)
    by (rewrite Hs at 1; apply length_app).
  destruct (Z.eqb_spec ((Z.of_nat (length (rstrip str)) - 1) mod 2 ^ 64)
                       ((n - 1) mod 2 ^ 64)) as [Heq|_].
  - exfalso. change (2 ^ 64) with 18446744073709551616 in *.
    rewrite (Z.mod_small (n - 1)) in Heq by lia.
    destruct (rstrip str) as [|c r].
    + change ((Z.of_nat (length (@nil byte)) - 1) mod 18446744073709551616)
        with 18446744073709551615 in Heq. lia.
    + rewrite Z.mod_small in Heq by (cbn [length] in *; lia).
      cbn [length] in *. lia.
  - replace (Z.of_nat (length (rstrip str)) - 1 + 1)
      with (Z.of_nat (length (rstrip str))) by lia.
    assert (Hbuf : str ++ x00 :: tail = rstrip str ++ ws ++ x00 :: tail)
      by (rewrite Hs at 1; rewrite <- app_assoc; reflexivity).
    rewrite Hbuf.
    destruct ws as [|w ws]; cbn [app]; rewrite store_app.
    + exists tail. split; [reflexivity|].
      repeat (rewrite !length_app || cbn [length]). lia.
    + exists (ws ++ x00 :: tail). split; [reflexivity|].
      repeat (rewrite !length_app || cbn [length]). lia.
Qed.

Lemma no_nul_rstrip (str : list byte) : no_nul str -> no_nul (rstrip str).
Proof.
  intros H. destruct (rstrip_split str) as (ws & Hs & _).
  rewrite Hs in H. now apply no_nul_app in H.
Qed.

(** [Trim] on an array whose string ends inside it. *)
Lemma Trim_string (s : list byte) (n : Z) :
  strlen s < Z.of_nat (length s) -> strlen s < n < 2 ^ 64 ->
  cstr (Trim s n) = rstrip (lstrip (cstr s))
  /\ length (Trim s n) = length s
  /\ strlen (Trim s n) < Z.of_nat (length (Trim s n))
  /\ strlen (Trim s n) <= strlen s.
Proof.
  intros Hin Hn. destruct (cstr_split s Hin) as (tail & Hs).
  pose proof (cstr_no_nul s) as Hnn. fold (no_nul (cstr s)) in Hnn.
  rewrite strlen_cstr in Hn.
  set (str := cstr s) in *. rewrite Hs. unfold Trim.
  destruct (TrimLeft_array str tail n Hnn ltac:(lia)) as (t1 & H1 & L1).
  rewrite H1.
  destruct (lstrip_split str) as (ws & Hsp & _).
  assert (Hll : (length (lstrip str) <= length str)%nat)
    by (rewrite Hsp at 2; rewrite length_app; lia).
  destruct (TrimRight_array (lstrip str) t1 n (no_nul_lstrip _ Hnn) ltac:(lia))
    as (t2 & H2 & L2).
  rewrite H2.
  pose proof (no_nul_rstrip _ (no_nul_lstrip _ Hnn)) as Hnr.
  rewrite cstr_app_nul by exact Hnr.
  destruct (rstrip_split (lstrip str)) as (ws' & Hsp' & _).
  assert (Hlr : (length (rstrip (lstrip str)) <= length (lstrip str))%nat)
    by (rewrite Hsp' at 2; rewrite length_app; lia).
  split; [reflexivity|].
  split; [rewrite <- H2, L2, <- H1, L1; reflexivity|].
  rewrite !strlen_cstr, !cstr_app_nul by assumption.
  split; [rewrite length_app; cbn [length]; lia | lia].
Qed.

(** * The parsers *)

Lemma skip_spaces_app (ws rest : list byte) :
  forallb isspace ws = true -> skip_spaces (ws ++ rest) = skip_spaces rest.
Proof.
  induction ws as [|c ws IH]; intros H; [reflexivity|].
  cbn [forallb] in H. apply andb_true_iff in H. destruct H as [Hc Hw].
  cbn [app skip_spaces]. rewrite Hc. now apply IH.
Qed.

Lemma read_digits_app (ds rest : list byte) :
  forall acc,
    forallb isdigit ds = true -> stops rest ->
    read_digits acc (ds ++ rest)
    = (fold_left (fun v c => 10 * v + (byte.unsigned c - 48)) ds acc, rest).
Proof.
  induction ds as [|c ds IH]; intros acc Hd Hr.
  - cbn [app fold_left]. destruct rest as [|c rest]; [reflexivity|].
    unfold stops in Hr. cbn [hd] in Hr. cbn [read_digits]. now rewrite Hr.
  - cbn [forallb] in Hd. apply andb_true_iff in Hd. destruct Hd as [Hc Hd].
    cbn [app read_digits fold_left]. rewrite Hc. now apply IH.
Qed.

Lemma isdigit_range (c : byte) :
  isdigit c = true -> 0 <= byte.unsigned c - 48 <= 9.
Proof. unfold isdigit. intros H. apply andb_true_iff in H. lia. Qed.

Lemma fold_digits_nonneg (ds : list byte) :
  forall acc,
    0 <= acc -> forallb isdigit ds = true ->
    acc <= fold_left (fun v c => 10 * v + (byte.unsigned c - 48)) ds acc.
Proof.
  induction ds as [|c ds IH]; intros acc Hacc Hd; [cbn [fold_left]; lia|].
  cbn [forallb] in Hd. apply andb_true_iff in Hd. destruct Hd as [Hc Hd].
  cbn [fold_left]. apply isdigit_range in Hc.
  specialize (IH (10 * acc + (byte.unsigned c - 48)) ltac:(lia) Hd). lia.
Qed.

Lemma dec_value_nonneg (ds : list byte) :
  forallb isdigit ds = true -> 0 <= dec_value ds.
Proof. intros Hd. apply (fold_digits_nonneg ds 0); [lia|exact Hd]. Qed.

Lemma isdigit_not_space (c : byte) : isdigit c = true -> isspace c = false.
Proof. destruct c; cbn; congruence. Qed.

Lemma isdigit_not_sign (c : byte) :
  isdigit c = true -> Byte.eqb c x2d = false /\ Byte.eqb c x2b = false.
Proof. destruct c; cbn; try congruence; split; reflexivity. Qed.

(** [strtol] on white space, digits and what follows them. *)
Lemma strtol_digits (ws ds rest : list byte) :
  forallb isspace ws = true -> digits ds -> stops rest ->
  strtol (ws ++ ds ++ rest)
  = (Z.min LONG_MAX (dec_value ds), rest).
Proof.
  intros Hw [Hne Hd] Hr. unfold strtol.
  rewrite skip_spaces_app by exact Hw.
  destruct ds as [|c ds]; [contradiction|].
  assert (Hc : isdigit c = true)
    by (cbn [forallb] in Hd; now apply andb_true_iff in Hd).
  cbn [app skip_spaces]. rewrite (isdigit_not_space c Hc).
  destruct (isdigit_not_sign c Hc) as [-> ->]. cbn [hd]. rewrite Hc.
  change (c :: ds ++ rest) with ((c :: ds) ++ rest).
  rewrite read_digits_app by assumption. fold (dec_value (c :: ds)).
  pose proof (dec_value_nonneg (c :: ds) Hd). f_equal.
  unfold LONG_MIN, LONG_MAX. lia.
Qed.

(** With no digit after the white space nothing is converted. *)
Lemma strtol_none (ws rest : list byte) :
  forallb isspace ws = true -> is_nul (hd x00 rest) = true ->
  strtol (ws ++ rest) = (0, ws ++ rest).
Proof.
  intros Hw Hr. unfold strtol. rewrite skip_spaces_app by exact Hw.
  destruct rest as [|c rest]; [reflexivity|].
  cbn [hd] in Hr. unfold is_nul in Hr. apply Byte.byte_dec_bl in Hr. subst c.
  reflexivity.
Qed.

Lemma int_of_long_small (v : Z) :
  - 2 ^ 31 <= v < 2 ^ 31 -> int_of_long v = v.
Proof. intros H. unfold int_of_long. rewrite Z.mod_small; lia. Qed.

Lemma ParsePPI_number (ws ds rest : list byte) :
  forallb isspace ws = true -> digits ds -> stops rest ->
  dec_value ds < 2 ^ 31 ->
  ParsePPI (ws ++ ds ++ rest)
  = (if dec_value ds =? 300 then Some ppi300
     else if dec_value ds =? 600 then Some ppi600
     else if dec_value ds =? 1200 then Some ppi1200
     else None).
Proof.
  intros Hw Hd Hr Hv. unfold ParsePPI.
  rewrite strtol_digits by assumption. cbn [fst].
  pose proof (dec_value_nonneg ds (proj2 Hd)).
  rewrite Z.min_r by (unfold LONG_MAX; lia).
  rewrite int_of_long_small by lia. reflexivity.
Qed.

(** *** The paper size *)

Lemma byte_eqb_true (x y : byte) : Byte.eqb x y = true <-> x = y.
Proof.
  split; [apply Byte.byte_dec_bl | apply Byte.byte_dec_lb].
Qed.

Lemma byte_eqb_false (x y : byte) : Byte.eqb x y = false <-> x <> y.
Proof.
  split.
  - intros H Heq. apply byte_eqb_true in Heq. congruence.
  - intros H. destruct (Byte.eqb x y) eqn:E; [|reflexivity].
    apply byte_eqb_true in E. contradiction.
Qed.

(** Against a literal that fits in the [n] bytes compared, [strncmp] is
    equality of strings. *)
Lemma strncmp_eq_string (str : list byte) :
  forall n s,
    no_nul str -> (length str < n)%nat ->
    strncmp_eq n (str ++ [x00]) s = true <-> cstr s = str.
Proof.
  induction str as [|c str IH]; intros n s Hnn Hn;
    (destruct n as [|n]; [cbn [length] in Hn; lia|]); cbn [app strncmp_eq hd tl].
  - change (is_nul x00) with true.
    destruct s as [|d s]; cbn [hd cstr].
    + split; reflexivity.
    + destruct (Byte.eqb x00 d) eqn:E1.
      * apply byte_eqb_true in E1. subst d. split; reflexivity.
      * apply byte_eqb_false in E1. unfold is_nul.
        destruct (Byte.eqb d x00) eqn:E2;
          [apply byte_eqb_true in E2; congruence|].
        split; discriminate.
  - apply no_nul_cons in Hnn. destruct Hnn as [Hc Hs]. rewrite Hc.
    cbn [length] in Hn.
    destruct s as [|d s]; cbn [hd tl cstr].
    + destruct (Byte.eqb c x00) eqn:E.
      * unfold is_nul in Hc. congruence.
      * split; discriminate.
    + destruct (Byte.eqb c d) eqn:E.
      * apply byte_eqb_true in E. subst d. rewrite Hc.
        rewrite (IH n s Hs) by lia. split; [intros ->; reflexivity|congruence].
      * apply byte_eqb_false in E.
        destruct (is_nul d); split; try discriminate; congruence.
Qed.

Lemma ParsePaperSize_strings (s : list byte) (n : Z) :
  3 <= n ->
  (ParsePaperSize s n = Some paperUS <-> cstr s = [x55; x53])
  /\ (ParsePaperSize s n = Some paperA4 <-> cstr s = [x41; x34])
  /\ (ParsePaperSize s n = None
      <-> cstr s <> [x55; x53] /\ cstr s <> [x41; x34]).
Proof.
  intros Hn. unfold ParsePaperSize.
  pose proof (strncmp_eq_string [x55; x53] (Z.to_nat n) s eq_refl) as HUS.
  pose proof (strncmp_eq_string [x41; x34] (Z.to_nat n) s eq_refl) as HA4.
  cbn [length] in HUS, HA4. specialize (HUS ltac:(lia)). specialize (HA4 ltac:(lia)).
  change ([x55; x53] ++ [x00]) with str_US in HUS.
  change ([x41; x34] ++ [x00]) with str_A4 in HA4.
  destruct (strncmp_eq (Z.to_nat n) str_US s).
  - assert (H : cstr s = [x55; x53]) by now apply HUS.
    rewrite H. repeat split; try discriminate; try tauto.
    all: try (intros [? ?]; congruence).
  - assert (H : cstr s <> [x55; x53]) by (intros E; apply HUS in E; discriminate).
    destruct (strncmp_eq (Z.to_nat n) str_A4 s).
    + assert (H' : cstr s = [x41; x34]) by now apply HA4.
      repeat split; try discriminate; try tauto.
      all: try (intros [? ?]; congruence).
    + assert (H' : cstr s <> [x41; x34])
        by (intros E; apply HA4 in E; discriminate).
      repeat split; try discriminate; try tauto.
Qed.

Lemma color_scan_string (str : list byte) :
  forall turns pre tail n sc,
    no_nul str ->
    Z.of_nat (length pre) + Z.of_nat (length str) <= n - 1 ->
    (length str < turns)%nat ->
    color_scan turns (pre ++ str ++ x00 :: tail) n (Z.of_nat (length pre)) sc
    = scan_chars str sc.
Proof.
  induction str as [|c str IH]; intros turns pre tail n sc Hnn Hn Hturns;
    (destruct turns as [|turns]; [cbn [length] in Hturns; lia|]);
    cbn [color_scan scan_chars]; rewrite char_at_app_r by lia;
    rewrite Z.sub_diag; cbn [app]; unfold char_at; cbn [Z.to_nat nth].
  - change (is_nul x00) with true. reflexivity.
  - apply no_nul_cons in Hnn. destruct Hnn as [Hc Hs]. rewrite Hc.
    cbn [negb andb length] in *.
    destruct (Z.ltb_spec (Z.of_nat (length pre)) (n - 1)) as [_|H]; [|lia].
    assert (Hstep : forall sc',
              color_scan turns (pre ++ c :: str ++ x00 :: tail) n
                (Z.of_nat (length pre) + 1) sc' = scan_chars str sc').
    { intros sc'. specialize (IH turns (pre ++ [c]) tail n sc' Hs).
      rewrite <- app_assoc, length_app in IH. cbn [app length] in IH.
      replace (Z.of_nat (length pre) + 1)
        with (Z.of_nat (length pre + 1)) by lia.
      apply IH; lia. }
    destruct (isdigit c); [apply Hstep|].
    destruct (Byte.eqb c x20); [apply Hstep|reflexivity].
Qed.

Lemma scan_chars_digits (ds rest : list byte) (sc : Z) :
  forallb isdigit ds = true ->
  scan_chars (ds ++ rest) sc = scan_chars rest sc.
Proof.
  induction ds as [|c ds IH]; intros Hd; [reflexivity|].
  cbn [forallb] in Hd. apply andb_true_iff in Hd. destruct Hd as [Hc Hd].
  cbn [app scan_chars]. rewrite Hc. now apply IH.
Qed.

Lemma scan_chars_spaces (k : nat) (rest : list byte) :
  forall sc, scan_chars (spaces k ++ rest) sc = scan_chars rest (sc + Z.of_nat k).
Proof.
  induction k as [|k IH]; intros sc.
  - cbn [spaces repeat app]. f_equal. lia.
  - cbn [spaces repeat app scan_chars].
    change (isdigit x20) with false. change (Byte.eqb x20 x20) with true.
    cbv iota. fold (spaces k). rewrite IH. f_equal. lia.
Qed.

Lemma forallb_isspace_spaces (k : nat) : forallb isspace (spaces k) = true.
Proof. induction k as [|k IH]; [reflexivity|]. cbn [spaces repeat forallb]. exact IH. Qed.

Lemma no_nul_digits (ds : list byte) : forallb isdigit ds = true -> no_nul ds.
Proof.
  unfold no_nul. rewrite !forallb_forall. intros H c Hc.
  specialize (H c Hc). destruct c; cbn in *; congruence.
Qed.

Lemma no_nul_spaces (k : nat) : no_nul (spaces k).
Proof.
  unfold no_nul. induction k as [|k IH]; [reflexivity|].
  cbn [spaces repeat forallb]. exact IH.
Qed.

Lemma stops_spaces (k : nat) (rest : list byte) :
  (0 < k)%nat -> stops (spaces k ++ rest).
Proof. destruct k as [|k]; [lia|]. intros _. reflexivity. Qed.

Lemma stops_nul (tail : list byte) : stops (x00 :: tail).
Proof. reflexivity. Qed.

(** One turn of the second loop on a number in range. *)
Lemma color_nums_step (k : nat) (ws ds rest : list byte) :
  forallb isspace ws = true -> digits ds -> stops rest ->
  dec_value ds <= 255 ->
  color_nums (S k) (ws ++ ds ++ rest)
  = option_map (cons (dec_value ds)) (color_nums k rest).
Proof.
  intros Hw Hd Hr Hv. cbn [color_nums].
  rewrite strtol_digits by assumption.
  pose proof (dec_value_nonneg ds (proj2 Hd)).
  rewrite Z.min_r by (unfold LONG_MAX; lia).
  rewrite int_of_long_small by lia.
  destruct (Z.ltb_spec (dec_value ds) 0); [lia|].
  destruct (Z.gtb_spec (dec_value ds) 255); [lia|]. reflexivity.
Qed.

(** The string of a colour: three or four numbers with spaces between
    them, three spaces in all. *)
Lemma ParseSDLColor_three_spaces (dr dg db da tail : list byte)
    (k1 k2 k3 : nat) (n : Z) :
  digits dr -> digits dg -> digits db ->
  (da = [] \/ (digits da /\ (0 < k3)%nat)) ->
  dec_value dr <= 255 -> dec_value dg <= 255 -> dec_value db <= 255 ->
  dec_value da <= 255 ->
  (0 < k1)%nat -> (0 < k2)%nat -> (k1 + k2 + k3 = 3)%nat ->
  let str := dr ++ spaces k1 ++ dg ++ spaces k2 ++ db ++ spaces k3 ++ da in
  Z.of_nat (length str) < n - 1 ->
  ParseSDLColor (str ++ x00 :: tail) n
  = Some (SDL.mkColor (dec_value dr) (dec_value dg) (dec_value db) (dec_value da)).
Proof.
  intros Hr Hg Hb Ha Vr Vg Vb Va K1 K2 K3 str Hn.
  assert (Hda : forallb isdigit da = true)
    by (destruct Ha as [->|[[_ H] _]]; [reflexivity|exact H]).
  assert (Hnn : no_nul str).
  { unfold str. repeat (apply no_nul_app; split);
      first [apply no_nul_digits; (apply Hr || apply Hg || apply Hb || exact Hda)
            | apply no_nul_spaces]. }
  unfold ParseSDLColor.
  pose proof (color_scan_string str (Z.to_nat n) [] tail n 0 Hnn) as Hscan.
  cbn [app length] in Hscan. change (Z.of_nat 0) with 0 in Hscan.
  rewrite Hscan by lia. clear Hscan.
  assert (Hcount : scan_chars str 0 = Some 3).
  { unfold str.
    rewrite scan_chars_digits by apply Hr. rewrite scan_chars_spaces.
    rewrite scan_chars_digits by apply Hg. rewrite scan_chars_spaces.
    rewrite scan_chars_digits by apply Hb. rewrite scan_chars_spaces.
    rewrite <- (app_nil_r da), scan_chars_digits by exact Hda.
    cbn [scan_chars]. f_equal. lia. }
  rewrite Hcount. cbn [Z.eqb Pos.eqb negb].
  unfold str. rewrite <- !app_assoc.
  pose proof (color_nums_step 3 [] dr
                (spaces k1 ++ dg ++ spaces k2 ++ db ++ spaces k3 ++ da
                 ++ x00 :: tail)
                eq_refl Hr (stops_spaces k1 _ K1) Vr) as H1.
  change ([] ++ dr ++ ?x) with (dr ++ x) in H1. rewrite H1. clear H1.
  rewrite (color_nums_step 2 (spaces k1) dg) by
    (first [apply forallb_isspace_spaces | assumption | now apply stops_spaces]).
  assert (Hlast : color_nums 1 (spaces k3 ++ da ++ x00 :: tail)
                  = Some [dec_value da]).
  { destruct Ha as [->|[Ha K3']].
    - cbn [app color_nums].
      rewrite strtol_none by (apply forallb_isspace_spaces || reflexivity).
      reflexivity.
    - rewrite (color_nums_step 0 (spaces k3) da) by
        (first [apply forallb_isspace_spaces | assumption | apply stops_nul]).
      reflexivity. }
  assert (Hb3 : stops (spaces k3 ++ da ++ x00 :: tail)).
  { destruct k3 as [|k3]; [|reflexivity].
    cbn [spaces repeat app].
    destruct Ha as [->|[_ K3']]; [reflexivity|lia]. }
  rewrite (color_nums_step 1 (spaces k2) db) by
    (first [apply forallb_isspace_spaces | assumption]).
  rewrite Hlast. reflexivity.
Qed.

(** * The configuration file *)

Lemma fgets_read_spec (k : nat) :
  forall f l rest,
    fgets_read k f = (l, rest) ->
    f = l ++ rest /\ (length l <= k)%nat
    /\ (f <> [] -> (0 < k)%nat -> l <> []).
Proof.
  induction k as [|k IH]; intros f l rest H; cbn [fgets_read] in H.
  - destruct f; injection H as <- <-; repeat split; try lia; cbn [length]; lia.
  - destruct f as [|c f].
    + injection H as <- <-. repeat split; try lia; try contradiction.
      cbn [length]. lia.
    + destruct (Byte.eqb c x0a).
      * injection H as <- <-. repeat split; try discriminate; cbn [length]; lia.
      * destruct (fgets_read k f) as [l' rest'] eqn:E.
        injection H as <- <-. destruct (IH _ _ _ E) as (Hf & Hl & _).
        subst f. repeat split; try discriminate; cbn [length]; lia.
Qed.

Lemma cstr_app_nul_any (l tail : list byte) :
  cstr (l ++ x00 :: tail) = cstr l.
Proof.
  induction l as [|c l IH]; [reflexivity|].
  cbn [app cstr]. destruct (is_nul c); [reflexivity|now rewrite IH].
Qed.

Lemma cstr_length_le (l : list byte) : (length (cstr l) <= length l)%nat.
Proof.
  induction l as [|c l IH]; [cbn; lia|].
  cbn [cstr]. destruct (is_nul c); cbn [length]; lia.
Qed.

Lemma fgets_spec (line f line' rest : list byte) :
  Z.of_nat (length line) = MAX_PATHLEN ->
  fgets line MAX_PATHLEN f = Some (line', rest) ->
  exists l,
    fgets_read (Z.to_nat (MAX_PATHLEN - 1)) f = (l, rest)
    /\ f = l ++ rest /\ l <> []
    /\ cstr line' = cstr l
    /\ line_array line'.
Proof.
  intros Hlen H. unfold fgets in H.
  destruct f as [|c f]; [discriminate|].
  destruct (fgets_read (Z.to_nat (MAX_PATHLEN - 1)) (c :: f)) as [l r] eqn:E.
  injection H as <- <-.
  destruct (fgets_read_spec _ _ _ _ E) as (Hf & Hl & Hne).
  exists l. split; [reflexivity|]. split; [exact Hf|].
  split; [apply Hne; [discriminate|unfold MAX_PATHLEN; lia]|].
  split; [apply cstr_app_nul_any|].
  unfold line_array, MAX_PATHLEN in *.
  rewrite length_app. cbn [length]. rewrite length_skipn.
  split; [lia|].
  rewrite strlen_cstr, cstr_app_nul_any.
  pose proof (cstr_length_le l). lia.
Qed.

Lemma Trim_line (line : list byte) :
  line_array line ->
  line_array (Trim line MAX_PATHLEN)
  /\ cstr (Trim line MAX_PATHLEN) = strip (cstr line).
Proof.
  intros [Hlen Hstr].
  destruct (Trim_string line MAX_PATHLEN) as (Hc & Hl & Ht & Hle).
  - lia.
  - unfold MAX_PATHLEN in *. lia.
  - split; [|exact Hc]. unfold line_array. rewrite Hl. split; [exact Hlen|lia].
Qed.

Lemma is_comment_cstr (line : list byte) :
  is_comment line = comment_str (cstr line).
Proof.
  unfold is_comment, char_at. rewrite strlen_cstr.
  destruct line as [|c line]; [reflexivity|].
  cbn [cstr Z.to_nat nth]. destruct (is_nul c) eqn:E.
  - reflexivity.
  - cbn [length comment_str].
    destruct (Z.eqb_spec (Z.of_nat (S (length (cstr line)))) 0); [lia|].
    reflexivity.
Qed.

Lemma rstrip_head (c : byte) (str : list byte) :
  isspace c = false -> exists str', rstrip (c :: str) = c :: str'.
Proof.
  intros Hc. destruct (rstrip_split (c :: str)) as (ws & Hs & Hw).
  destruct (rstrip (c :: str)) as [|d str'].
  - cbn [app] in Hs. subst ws. cbn [forallb] in Hw.
    apply andb_true_iff in Hw. destruct Hw as [Hw _]. congruence.
  - cbn [app] in Hs. injection Hs as <- _. now exists str'.
Qed.

Lemma comment_str_strip (str : list byte) :
  comment_str str = true -> comment_str (strip str) = true.
Proof.
  destruct str as [|c str]; [reflexivity|]. cbn [comment_str]. intros Hc.
  apply byte_eqb_true in Hc. subst c. unfold strip. cbn [lstrip isspace].
  destruct (rstrip_head x23 str eq_refl) as (str' & ->). reflexivity.
Qed.

(** On lines that are all comments the loop never finds a field. *)
Lemma skip_comments_spins (turns : nat) :
  forall line f,
    line_array line -> is_comment line = true -> only_comments f ->
    skip_comments turns line f = None.
Proof.
  induction turns as [|turns IH]; intros line f Hline Hcom Hf; [reflexivity|].
  cbn [skip_comments]. rewrite Hcom. unfold read_line.
  destruct (fgets line MAX_PATHLEN f) as [[line' rest]|] eqn:E.
  - destruct (fgets_spec _ _ _ _ (proj1 Hline) E)
      as (l & Hread & _ & _ & Hc & Hl').
    destruct (Trim_line line' Hl') as (Ht & Hs).
    inversion Hf as [Hnil|f0 l0 rest0 Hne Hread0 Hcom0 Hrest0 Heq].
    + subst f. discriminate.
    + subst f0. rewrite Hread in Hread0. injection Hread0 as <- <-.
      apply IH; [exact Ht| |exact Hrest0].
      rewrite is_comment_cstr, Hs, Hc. exact Hcom0.
  - destruct (Trim_line line Hline) as (Ht & Hs).
    apply IH; [exact Ht| |exact Hf].
    rewrite is_comment_cstr, Hs. apply comment_str_strip.
    now rewrite <- is_comment_cstr.
Qed.

(** X27: [LoadConfig] never leaves its first loop on a file of empty
    lines and comments: the result of [fgets] is not looked at, so at the
    end of the file the loop goes on with the line it has; no number of
    turns is enough. *)
Lemma LoadConfig_only_comments (turns : nat) (line f : list byte) :
  Z.of_nat (length line) = MAX_PATHLEN ->
  f <> [] -> only_comments f ->
  LoadConfig turns line f = TurnsOut.
Proof.
  intros Hlen Hne Hf. unfold LoadConfig, next_field, read_line.
  destruct (fgets line MAX_PATHLEN f) as [[line' rest]|] eqn:E.
  - destruct (fgets_spec _ _ _ _ Hlen E) as (l & Hread & _ & _ & Hc & Hl').
    destruct (Trim_line line' Hl') as (Ht & Hs).
    inversion Hf as [Hnil|f0 l0 rest0 Hne0 Hread0 Hcom0 Hrest0 Heq].
    + subst f. contradiction.
    + subst f0. rewrite Hread in Hread0. injection Hread0 as <- <-.
      rewrite skip_comments_spins; [reflexivity|exact Ht| |exact Hrest0].
      rewrite is_comment_cstr, Hs, Hc. exact Hcom0.
  - unfold fgets in E. destruct f; [contradiction|].
    destruct (fgets_read _ _); discriminate.
Qed.

(** ** Trimmed strings *)

Lemma lstrip_fixed (str : list byte) :
  isspace (hd x00 str) = false -> lstrip str = str.
Proof.
  destruct str as [|c str]; [reflexivity|]. cbn [hd lstrip]. now intros ->.
Qed.

Lemma lstrip_idem (str : list byte) : lstrip (lstrip str) = lstrip str.
Proof.
  apply lstrip_fixed. pose proof (lstrip_head str) as H.
  destruct (lstrip str); [reflexivity|exact H].
Qed.

Lemma rstrip_idem (str : list byte) : rstrip (rstrip str) = rstrip str.
Proof. unfold rstrip. now rewrite rev_involutive, lstrip_idem. Qed.

Lemma rstrip_keeps_head (str : list byte) :
  isspace (hd x00 str) = false ->
  isspace (hd x00 (rstrip str)) = false.
Proof.
  destruct str as [|c str]; [intros _; reflexivity|]. cbn [hd]. intros Hc.
  destruct (rstrip_head c str Hc) as (str' & ->). exact Hc.
Qed.

Lemma strip_parts (str : list byte) :
  lstrip (strip str) = strip str /\ rstrip (strip str) = strip str.
Proof.
  unfold strip. split; [|apply rstrip_idem].
  apply lstrip_fixed, rstrip_keeps_head.
  pose proof (lstrip_head str) as H.
  destruct (lstrip str); [reflexivity|exact H].
Qed.

Lemma strip_idem (str : list byte) : strip (strip str) = strip str.
Proof.
  destruct (strip_parts str) as [Hl Hr]. unfold strip at 1. now rewrite Hl, Hr.
Qed.

Lemma cstr_app_zeros (str : list byte) (k : nat) :
  no_nul str -> cstr (str ++ repeat x00 k) = str.
Proof.
  intros Hnn. destruct k as [|k].
  - cbn [repeat]. rewrite app_nil_r.
    induction str as [|c str IH]; [reflexivity|].
    apply no_nul_cons in Hnn. destruct Hnn as [Hc Hs].
    cbn [cstr]. rewrite Hc. now rewrite IH.
  - cbn [repeat]. now apply cstr_app_nul.
Qed.

Lemma firstn_repeat_le (c : byte) (k n : nat) :
  (k <= n)%nat -> firstn k (repeat c n) = repeat c k.
Proof.
  revert n. induction k as [|k IH]; intros n Hk; [reflexivity|].
  destruct n as [|n]; [lia|]. cbn [repeat firstn]. rewrite IH by lia.
  reflexivity.
Qed.

Lemma strncpy_line (line : list byte) :
  line_array line ->
  strncpy line MAX_PATHLEN
  = cstr line ++ repeat x00 (Z.to_nat MAX_PATHLEN - length (cstr line))
  /\ Z.of_nat (length (strncpy line MAX_PATHLEN)) = MAX_PATHLEN
  /\ cstr (strncpy line MAX_PATHLEN) = cstr line.
Proof.
  intros [Hlen Hstr]. rewrite strlen_cstr in Hstr.
  assert (Heq : strncpy line MAX_PATHLEN
                = cstr line
                  ++ repeat x00 (Z.to_nat MAX_PATHLEN - length (cstr line))).
  { unfold strncpy. rewrite firstn_app.
    rewrite firstn_all2 by (unfold MAX_PATHLEN in *; lia).
    f_equal. apply firstn_repeat_le. lia. }
  split; [exact Heq|]. rewrite Heq. split.
  - rewrite length_app, repeat_length. unfold MAX_PATHLEN in *. lia.
  - apply cstr_app_zeros, cstr_no_nul.
Qed.

(** ** What [LoadConfig] stores *)

Lemma read_line_array (line f line' rest : list byte) :
  line_array line -> read_line line f = (line', rest) -> line_array line'.
Proof.
  intros Hl H. unfold read_line in H.
  destruct (fgets line MAX_PATHLEN f) as [[l1 r1]|] eqn:E.
  - injection H as <- <-.
    destruct (fgets_spec _ _ _ _ (proj1 Hl) E) as (l & _ & _ & _ & _ & Hl').
    now apply Trim_line.
  - injection H as <- <-. now apply Trim_line.
Qed.

Lemma skip_comments_array (turns : nat) :
  forall line f line' rest,
    line_array line -> skip_comments turns line f = Some (line', rest) ->
    line_array line' /\ is_comment line' = false.
Proof.
  induction turns as [|turns IH]; intros line f line' rest Hl H;
    cbn [skip_comments] in H; [discriminate|].
  destruct (is_comment line) eqn:Hc.
  - destruct (read_line line f) as [l1 r1] eqn:E.
    apply (IH _ _ _ _ (read_line_array _ _ _ _ Hl E) H).
  - injection H as <- <-. now split.
Qed.

Lemma next_field_array (turns : nat) (line f line' rest : list byte) :
  line_array line -> next_field turns line f = Some (line', rest) ->
  line_array line' /\ is_comment line' = false.
Proof.
  intros Hl H. unfold next_field in H.
  destruct (read_line line f) as [l1 r1] eqn:E.
  apply (skip_comments_array _ _ _ _ _ (read_line_array _ _ _ _ Hl E) H).
Qed.

(** The first line read: the array need not hold a string before it. *)
Lemma first_field_array (turns : nat) (line f line' rest : list byte) :
  Z.of_nat (length line) = MAX_PATHLEN -> f <> [] ->
  next_field turns line f = Some (line', rest) ->
  line_array line' /\ is_comment line' = false.
Proof.
  intros Hlen Hne H. unfold next_field, read_line in H.
  destruct (fgets line MAX_PATHLEN f) as [[l1 r1]|] eqn:E.
  - destruct (fgets_spec _ _ _ _ Hlen E) as (l & _ & _ & _ & _ & Hl').
    apply (skip_comments_array _ _ _ _ _ (proj1 (Trim_line _ Hl')) H).
  - unfold fgets in E. destruct f; [contradiction|].
    destruct (fgets_read _ _); discriminate.
Qed.

Lemma card_entry_strncpy (line : list byte) :
  line_array line ->
  (0 <? strlen (Trim line MAX_PATHLEN))
  && negb (Byte.eqb (char_at (Trim line MAX_PATHLEN) 0) x23) = true ->
  card_entry (strncpy (Trim line MAX_PATHLEN) MAX_PATHLEN).
Proof.
  intros Hl Hc. destruct (Trim_line line Hl) as (Ht & Hs).
  destruct (strncpy_line _ Ht) as (Heq & Hlen & Hcs).
  assert (Hcom : comment_str (cstr (Trim line MAX_PATHLEN)) = false).
  { rewrite <- is_comment_cstr. unfold is_comment.
    apply andb_true_iff in Hc. destruct Hc as [H0 H1].
    apply Z.ltb_lt in H0. apply negb_true_iff in H1. rewrite H1.
    destruct (Z.eqb_spec (strlen (Trim line MAX_PATHLEN)) 0); [lia|reflexivity]. }
  unfold card_entry. rewrite Hcs. repeat split.
  - exact Hlen.
  - intros E. rewrite E in Hcom. discriminate.
  - exact Hcom.
  - rewrite Hs. apply strip_idem.
  - rewrite Heq at 1. f_equal. f_equal.
    assert (Z.of_nat (length (strncpy (Trim line MAX_PATHLEN) MAX_PATHLEN))
            = MAX_PATHLEN) by exact Hlen.
    unfold MAX_PATHLEN in *. lia.
Qed.

Lemma read_cards_inv (turns : nat) :
  forall line f cards n cards' n',
    line_array line ->
    Forall card_entry cards -> n = Z.of_nat (length cards) ->
    n <= MAX_CARDS ->
    read_cards turns line f cards n = Some (cards', n') ->
    n' = Z.of_nat (length cards') /\ n' <= MAX_CARDS
    /\ Forall card_entry cards'
    /\ exists more, cards' = cards ++ more.
Proof.
  induction turns as [|turns IH]; intros line f cards n cards' n' Hl Hc Hn Hm H;
    cbn [read_cards] in H; [discriminate|].
  destruct (Z.ltb_spec n MAX_CARDS) as [Hlt|Hge].
  - destruct (fgets line MAX_PATHLEN f) as [[l1 r1]|] eqn:E.
    + destruct (fgets_spec _ _ _ _ (proj1 Hl) E) as (l & _ & _ & _ & _ & Hl1).
      destruct (Trim_line l1 Hl1) as (Ht & _).
      destruct ((0 <? strlen (Trim l1 MAX_PATHLEN))
                && negb (Byte.eqb (char_at (Trim l1 MAX_PATHLEN) 0) x23)) eqn:Hk.
      * assert (Hc' : Forall card_entry
                        (cards ++ [strncpy (Trim l1 MAX_PATHLEN) MAX_PATHLEN])).
        { apply Forall_app. split; [exact Hc|].
          constructor; [now apply card_entry_strncpy|constructor]. }
        assert (Hn' : n + 1
                      = Z.of_nat (length (cards
                          ++ [strncpy (Trim l1 MAX_PATHLEN) MAX_PATHLEN]))).
        { rewrite length_app. cbn [length]. lia. }
        destruct (IH _ _ _ _ _ _ Ht Hc' Hn' ltac:(lia) H)
          as (H1 & H2 & H3 & more & H4).
        repeat split; try assumption.
        exists (strncpy (Trim l1 MAX_PATHLEN) MAX_PATHLEN :: more).
        rewrite H4, <- app_assoc. reflexivity.
      * apply (IH _ _ _ _ _ _ Ht Hc Hn Hm H).
    + injection H as <- <-. repeat split; try assumption.
      exists []. now rewrite app_nil_r.
  - injection H as <- <-. repeat split; try assumption.
    exists []. now rewrite app_nil_r.
Qed.

(** The loop of the cards ends: a turn for each byte of the stream is
    enough. *)
Lemma read_cards_total (turns : nat) :
  forall line f cards n,
    Z.of_nat (length line) = MAX_PATHLEN ->
    (length f < turns)%nat ->
    read_cards turns line f cards n <> None.
Proof.
  induction turns as [|turns IH]; intros line f cards n Hl Ht; [lia|].
  cbn [read_cards]. destruct (n <? MAX_CARDS); [|discriminate].
  destruct (fgets line MAX_PATHLEN f) as [[l1 r1]|] eqn:E; [|discriminate].
  destruct (fgets_spec _ _ _ _ Hl E) as (l & _ & Hf & Hne & _ & Hl1).
  destruct (Trim_line l1 Hl1) as (Hta & _).
  assert (length r1 < turns)%nat.
  { subst f. rewrite length_app in Ht. destruct l; [contradiction|].
    cbn [length] in Ht. lia. }
  destruct (_ && _); apply IH; try apply (proj1 Hta); assumption.
Qed.

Lemma color_nums_range (k : nat) :
  forall ptr l,
    color_nums k ptr = Some l -> Forall (fun v => 0 <= v <= 255) l.
Proof.
  induction k as [|k IH]; intros ptr l H; cbn [color_nums] in H.
  - injection H as <-. constructor.
  - destruct (strtol ptr) as [v ptr'].
    destruct (Z.ltb_spec (int_of_long v) 0); [discriminate|].
    destruct (Z.gtb_spec (int_of_long v) 255); [discriminate|].
    cbn [orb] in H. destruct (color_nums k ptr') as [l'|] eqn:E; [|discriminate].
    injection H as <-. constructor; [lia|]. apply (IH _ _ E).
Qed.

Lemma ParseSDLColor_range (s : list byte) (n : Z) (c : SDL_Color) :
  ParseSDLColor s n = Some c -> color_in_range c.
Proof.
  unfold color_in_range.
  unfold ParseSDLColor. destruct (color_scan _ _ _ _ _); [|discriminate].
  destruct (negb _); [discriminate|].
  destruct (color_nums 4 s) as [l|] eqn:E; [|discriminate].
  apply color_nums_range in E.
  destruct l as [|v0 [|v1 [|v2 [|v3 [|? ?]]]]]; try discriminate.
  intros H. injection H as <-. cbn [SDL.r SDL.g SDL.b SDL.a].
  inversion_clear E as [|? ? H0 E0]. inversion_clear E0 as [|? ? H1 E1].
  inversion_clear E1 as [|? ? H2 E2]. inversion_clear E2 as [|? ? H3 _].
  tauto.
Qed.

(** With more turns a loop that has ended ends the same way. *)
Lemma skip_comments_more_turns (turns : nat) :
  forall turns' line f r,
    skip_comments turns line f = Some r -> (turns <= turns')%nat ->
    skip_comments turns' line f = Some r.
Proof.
  induction turns as [|turns IH]; intros turns' line f r H Hle;
    cbn [skip_comments] in H; [discriminate|].
  destruct turns' as [|turns']; [lia|]. cbn [skip_comments].
  destruct (is_comment line); [|exact H].
  destruct (read_line line f) as [l1 f1]. apply (IH _ _ _ _ H). lia.
Qed.

Lemma next_field_more_turns (turns turns' : nat) (line f : list byte)
    (r : list byte * list byte) :
  next_field turns line f = Some r -> (turns <= turns')%nat ->
  next_field turns' line f = Some r.
Proof.
  unfold next_field. destruct (read_line line f) as [l1 f1].
  apply skip_comments_more_turns.
Qed.

Lemma read_cards_more_turns (turns : nat) :
  forall turns' line f cards n r,
    read_cards turns line f cards n = Some r -> (turns <= turns')%nat ->
    read_cards turns' line f cards n = Some r.
Proof.
  induction turns as [|turns IH]; intros turns' line f cards n r H Hle;
    cbn [read_cards] in H; [discriminate|].
  destruct turns' as [|turns']; [lia|]. cbn [read_cards].
  destruct (n <? MAX_CARDS); [|exact H].
  destruct (fgets line MAX_PATHLEN f) as [[l1 f1]|]; [|exact H].
  destruct (_ && _); apply (IH _ _ _ _ _ _ H); lia.
Qed.

Lemma LoadConfig_more_turns (turns turns' : nat) (line f : list byte)
    (r : loaded) :
  LoadConfig turns line f = Returned r -> (turns <= turns')%nat ->
  LoadConfig turns' line f = Returned r.
Proof.
  intros H Hle. unfold LoadConfig in *.
  repeat match type of H with
         | match next_field turns ?l ?g with _ => _ end = _ =>
             let E := fresh "E" in
             destruct (next_field turns l g) as [[? ?]|] eqn:E;
             [rewrite (next_field_more_turns _ _ _ _ _ E Hle)|discriminate]
         | match read_cards turns ?l ?g ?c ?k with _ => _ end = _ =>
             let E := fresh "E" in
             destruct (read_cards turns l g c k) as [[? ?]|] eqn:E;
             [rewrite (read_cards_more_turns _ _ _ _ _ _ _ E Hle)|discriminate]
         | match ?x with _ => _ end = _ => destruct x; try discriminate
         | (if ?x then _ else _) = _ => destruct x; try discriminate
         end; exact H.
Qed.

(** X26: what [LoadConfig] hands to [main] when it returns a count: the
    count is between 0 and [MAX_CARDS] and is the number of the entries
    written to [cards], so no entry lies outside the array of [main];
    every entry holds a trimmed string, not empty and not starting with
    '#'; the toggle is 0 or 1 and the fields of both colours are between
    0 and 255.  More turns of the loops give the same result. *)
Lemma LoadConfig_stores (turns : nat) (line f : list byte) (n : Z) (c : config) :
  Z.of_nat (length line) = MAX_PATHLEN -> f <> [] ->
  LoadConfig turns line f = Returned (Config n c) ->
  0 <= n <= MAX_CARDS
  /\ n = Z.of_nat (length (cfg_cards c))
  /\ Forall card_entry (cfg_cards c)
  /\ (cfg_roundedcorners c = 0 \/ cfg_roundedcorners c = 1)
  /\ color_in_range (cfg_cardBGColor c)
  /\ color_in_range (cfg_cardLineColor c)
  /\ (forall turns', (turns <= turns')%nat ->
        LoadConfig turns' line f = Returned (Config n c)).
Proof.
  intros Hlen Hne H.
  assert (Hmore : forall turns', (turns <= turns')%nat ->
            LoadConfig turns' line f = Returned (Config n c))
    by (intros turns'; now apply LoadConfig_more_turns).
  revert Hmore. unfold LoadConfig in H.
  destruct (next_field turns line f) as [[l1 f1]|] eqn:E1; [|discriminate].
  destruct (first_field_array _ _ _ _ _ Hlen Hne E1) as [A1 _].
  destruct (ParsePaperSize l1 MAX_PATHLEN) as [p|]; [|discriminate].
  destruct (next_field turns l1 f1) as [[l2 f2]|] eqn:E2; [|discriminate].
  destruct (next_field_array _ _ _ _ _ A1 E2) as [A2 _].
  destruct (ParsePPI l2) as [q|]; [|discriminate].
  destruct (next_field turns l2 f2) as [[l3 f3]|] eqn:E3; [|discriminate].
  destruct (next_field_array _ _ _ _ _ A2 E3) as [A3 _].
  destruct (negb (strlen l3 <? MAX_PATHLEN - 1)); [discriminate|].
  destruct (ParseSDLColor l3 MAX_PATHLEN) as [bg|] eqn:P3; [|discriminate].
  destruct (next_field turns l3 f3) as [[l4 f4]|] eqn:E4; [|discriminate].
  destruct (next_field_array _ _ _ _ _ A3 E4) as [A4 _].
  destruct (negb (strlen l4 <? MAX_PATHLEN - 1)); [discriminate|].
  destruct (ParseSDLColor l4 MAX_PATHLEN) as [ln|] eqn:P4; [|discriminate].
  destruct (next_field turns l4 f4) as [[l5 f5]|] eqn:E5; [|discriminate].
  destruct (next_field_array _ _ _ _ _ A4 E5) as [A5 _].
  destruct (negb (strlen l5 =? 1)); [discriminate|].
  destruct (if Byte.eqb (char_at l5 0) x30 then Some 0
            else if Byte.eqb (char_at l5 0) x31 then Some 1 else None)
    as [rc|] eqn:R5; [|discriminate].
  destruct (read_cards turns l5 f5 [] 0) as [[cards k]|] eqn:E6; [|discriminate].
  injection H as <- <-. intros Hmore.
  cbn [cfg_cards cfg_roundedcorners cfg_cardBGColor cfg_cardLineColor].
  assert (M : 0 <= MAX_CARDS) by (vm_compute; discriminate).
  destruct (read_cards_inv _ _ _ _ _ _ _ A5 (Forall_nil _) eq_refl M E6)
    as (K1 & K2 & K3 & _).
  split; [lia|]. split; [exact K1|]. split; [exact K3|].
  split.
  { destruct (Byte.eqb (char_at l5 0) x30); [injection R5 as <-; now left|].
    destruct (Byte.eqb (char_at l5 0) x31); [injection R5 as <-; now right|].
    discriminate. }
  split; [apply (ParseSDLColor_range _ _ _ P3)|].
  split; [apply (ParseSDLColor_range _ _ _ P4)|exact Hmore].
Qed.

Lemma fgets_read_line (str rest : list byte) :
  forall k,
    ~ In x0a str -> (length str < k)%nat ->
    fgets_read k (str ++ x0a :: rest) = (str ++ [x0a], rest).
Proof.
  induction str as [|c str IH]; intros k Hn Hk.
  - destruct k; [cbn in Hk; lia|]. reflexivity.
  - destruct k; [cbn in Hk; lia|]. cbn [app fgets_read].
    destruct (Byte.eqb c x0a) eqn:E.
    + apply byte_eqb_true in E. subst c. exfalso. apply Hn. now left.
    + rewrite IH; [reflexivity| |cbn [length] in Hk; lia].
      intros H. apply Hn. now right.
Qed.

Lemma strip_newline (str : list byte) :
  lstrip str = str -> rstrip str = str -> strip (str ++ [x0a]) = str.
Proof.
  intros Hl Hr. unfold strip. destruct str as [|c str]; [reflexivity|].
  assert (Hc : isspace c = false).
  { pose proof (lstrip_head (c :: str)) as H. now rewrite Hl in H. }
  rewrite (lstrip_fixed ((c :: str) ++ [x0a])) by exact Hc.
  unfold rstrip in *. rewrite rev_app_distr. cbn [rev app lstrip isspace].
  exact Hr.
Qed.

Lemma read_line_text (line str rest : list byte) :
  Z.of_nat (length line) = MAX_PATHLEN -> text_line str ->
  exists line',
    read_line line (str ++ x0a :: rest) = (line', rest)
    /\ line_array line' /\ cstr line' = str.
Proof.
  intros Hlen (Hnn & Hnl & Hl & Hr & Hk). unfold read_line.
  destruct (fgets line MAX_PATHLEN (str ++ x0a :: rest)) as [[l1 r1]|] eqn:E.
  - destruct (fgets_spec _ _ _ _ Hlen E) as (l & Hread & _ & _ & Hc & Hl1).
    rewrite fgets_read_line in Hread
      by (try assumption; unfold MAX_PATHLEN; lia).
    injection Hread as <- <-.
    destruct (Trim_line l1 Hl1) as (Ht & Hs).
    exists (Trim l1 MAX_PATHLEN). split; [reflexivity|]. split; [exact Ht|].
    rewrite Hs, Hc.
    assert (Hcs : cstr (str ++ [x0a]) = str ++ [x0a]).
    { rewrite <- (app_nil_r (str ++ [x0a])) at 1.
      change [] with (repeat x00 0). apply cstr_app_zeros.
      apply no_nul_app. split; [exact Hnn|reflexivity]. }
    rewrite Hcs. now apply strip_newline.
  - unfold fgets in E. destruct str; cbn [app] in E;
      destruct (fgets_read _ _); discriminate.
Qed.

Lemma next_field_text (turns : nat) (line str rest : list byte) :
  Z.of_nat (length line) = MAX_PATHLEN -> text_line str ->
  comment_str str = false -> (0 < turns)%nat ->
  exists line',
    next_field turns line (str ++ x0a :: rest) = Some (line', rest)
    /\ line_array line' /\ cstr line' = str.
Proof.
  intros Hlen Ht Hc Hturns.
  destruct (read_line_text line str rest Hlen Ht) as (line' & Hr & Ha & Hs).
  exists line'. unfold next_field. rewrite Hr.
  destruct turns as [|turns]; [lia|]. cbn [skip_comments].
  rewrite is_comment_cstr, Hs, Hc. split; [reflexivity|split; [assumption|reflexivity]].
Qed.

Lemma rstrip_fixed (str : list byte) :
  isspace (last str x00) = false -> rstrip str = str.
Proof.
  destruct str as [|c0 str0]; [reflexivity|].
  destruct (exists_last (l := c0 :: str0)) as (s' & c & ->); [discriminate|].
  rewrite last_last. intros Hc. unfold rstrip. rewrite rev_app_distr.
  cbn [rev app lstrip]. rewrite Hc. cbn [rev]. now rewrite rev_involutive.
Qed.

Lemma text_line_ends (str : list byte) :
  no_nul str -> ~ In x0a str ->
  isspace (hd x00 str) = false -> isspace (last str x00) = false ->
  (length str <= 126)%nat ->
  text_line str.
Proof.
  intros H1 H2 H3 H4 H5. unfold text_line.
  repeat split; try assumption; [now apply lstrip_fixed|now apply rstrip_fixed].
Qed.

Lemma text_line_paper (p : PaperSize) : text_line (paper_text p).
Proof.
  destruct p; apply text_line_ends; try reflexivity;
    cbn [paper_text In length]; try lia; intuition discriminate.
Qed.

Lemma text_line_ppi (q : PPI) : text_line (ppi_text q).
Proof.
  destruct q; apply text_line_ends; try reflexivity;
    cbn [ppi_text In length]; try lia; intuition discriminate.
Qed.

Lemma text_line_toggle (rc : bool) : text_line (toggle_text rc).
Proof.
  destruct rc; apply text_line_ends; try reflexivity;
    cbn [toggle_text In length]; try lia; intuition discriminate.
Qed.

Lemma isdigit_not_newline (ds : list byte) :
  forallb isdigit ds = true -> ~ In x0a ds.
Proof.
  rewrite forallb_forall. intros H Hin. specialize (H _ Hin). discriminate.
Qed.

Lemma last_app_ne (x y : list byte) (d : byte) :
  y <> [] -> last (x ++ y) d = last y d.
Proof.
  intros Hy. destruct (exists_last Hy) as (y' & c & ->).
  rewrite app_assoc, !last_last. reflexivity.
Qed.

Lemma isdigit_last (ds : list byte) :
  digits ds -> isdigit (last ds x00) = true.
Proof.
  intros [Hne Hd]. destruct (exists_last Hne) as (y' & c & ->).
  rewrite last_last. rewrite forallb_app in Hd.
  apply andb_true_iff in Hd. destruct Hd as [_ Hd]. cbn [forallb] in Hd.
  now rewrite andb_true_r in Hd.
Qed.

Lemma text_line_color (dr dg db da : list byte) :
  color_digits dr dg db da -> text_line (color_text dr dg db da).
Proof.
  intros (Hr & Hg & Hb & Ha & _ & _ & _ & _ & Hlen).
  apply text_line_ends; [| | | |exact Hlen]; unfold color_text.
  - repeat (apply no_nul_app; split);
      first [apply no_nul_spaces | apply no_nul_digits; apply Hr
            | apply no_nul_digits; apply Hg | apply no_nul_digits; apply Hb
            | apply no_nul_digits; apply Ha].
  - rewrite !in_app_iff. cbn [spaces repeat In].
    pose proof (isdigit_not_newline _ (proj2 Hr)).
    pose proof (isdigit_not_newline _ (proj2 Hg)).
    pose proof (isdigit_not_newline _ (proj2 Hb)).
    pose proof (isdigit_not_newline _ (proj2 Ha)).
    intuition discriminate.
  - destruct Hr as [Hne Hd]. destruct dr as [|c dr]; [contradiction|].
    cbn [app hd]. cbn [forallb] in Hd. apply andb_true_iff in Hd.
    now apply isdigit_not_space.
  - rewrite !app_assoc. rewrite last_app_ne by apply Ha.
    apply isdigit_not_space. now apply isdigit_last.
Qed.

Lemma line_array_split (line str : list byte) :
  line_array line -> cstr line = str -> exists tail, line = str ++ x00 :: tail.
Proof.
  intros [Hlen Hs] <-. apply cstr_split. unfold MAX_PATHLEN in *. lia.
Qed.

Lemma ParsePaperSize_text (line : list byte) (p : PaperSize) :
  cstr line = paper_text p -> ParsePaperSize line MAX_PATHLEN = Some p.
Proof.
  intros Hc.
  destruct (ParsePaperSize_strings line MAX_PATHLEN) as (HUS & HA4 & _);
    [unfold MAX_PATHLEN; lia|].
  destruct p; [now apply HUS|now apply HA4].
Qed.

Lemma ParsePPI_text (line : list byte) (q : PPI) :
  line_array line -> cstr line = ppi_text q -> ParsePPI line = Some q.
Proof.
  intros Ha Hc. destruct (line_array_split _ _ Ha Hc) as (tail & ->).
  pose proof (ParsePPI_number [] (ppi_text q) (x00 :: tail)) as H.
  cbn [app] in H. rewrite H.
  - destruct q; reflexivity.
  - reflexivity.
  - destruct q; split; (discriminate || reflexivity).
  - reflexivity.
  - destruct q; vm_compute; reflexivity.
Qed.

Lemma ParseSDLColor_text (line dr dg db da : list byte) :
  line_array line -> color_digits dr dg db da ->
  cstr line = color_text dr dg db da ->
  (strlen line <? MAX_PATHLEN - 1) = true
  /\ ParseSDLColor line MAX_PATHLEN
     = Some (SDL.mkColor (dec_value dr) (dec_value dg) (dec_value db) (dec_value da)).
Proof.
  intros Hl (Hr & Hg & Hb & Ha & Vr & Vg & Vb & Va & Hlen) Hc.
  split.
  - rewrite strlen_cstr, Hc. apply Z.ltb_lt. unfold MAX_PATHLEN. lia.
  - destruct (line_array_split _ _ Hl Hc) as (tail & ->).
    apply (ParseSDLColor_three_spaces dr dg db da tail 1 1 1 MAX_PATHLEN);
      try assumption; try lia.
    + right. split; [exact Ha|lia].
    + fold (color_text dr dg db da). unfold MAX_PATHLEN. lia.
Qed.

Lemma toggle_text_line (line : list byte) (rc : bool) :
  line_array line -> cstr line = toggle_text rc ->
  (strlen line =? 1) = true
  /\ (if Byte.eqb (char_at line 0) x30 then Some 0
      else if Byte.eqb (char_at line 0) x31 then Some 1 else None)
     = Some (if rc then 1 else 0).
Proof.
  intros Hl Hc. split.
  - rewrite strlen_cstr, Hc. now destruct rc.
  - destruct (line_array_split _ _ Hl Hc) as (tail & ->). now destruct rc.
Qed.

Lemma fgets_text (line str rest : list byte) :
  Z.of_nat (length line) = MAX_PATHLEN -> text_line str ->
  exists l1,
    fgets line MAX_PATHLEN (str ++ x0a :: rest) = Some (l1, rest)
    /\ line_array (Trim l1 MAX_PATHLEN) /\ cstr (Trim l1 MAX_PATHLEN) = str.
Proof.
  intros Hlen Ht. destruct (read_line_text line str rest Hlen Ht)
    as (line' & Hr & Ha & Hs).
  unfold read_line in Hr.
  destruct (fgets line MAX_PATHLEN (str ++ x0a :: rest)) as [[l1 r1]|] eqn:E.
  - injection Hr as <- <-. exists l1. split; [reflexivity|split; assumption].
  - unfold fgets in E. destruct str; cbn [app] in E;
      destruct (fgets_read _ _); discriminate.
Qed.

Lemma text_lines_cons (l : list byte) (ls : list (list byte)) :
  text_lines (l :: ls) = l ++ x0a :: text_lines ls.
Proof. unfold text_lines. cbn [map concat]. now rewrite <- app_assoc. Qed.

Lemma read_cards_text (cards : list (list byte)) :
  forall turns line acc n,
    line_array line -> Forall card_name cards ->
    (length cards < turns)%nat ->
    read_cards turns line (text_lines cards) acc n
    = Some (acc ++ map card_array (firstn (Z.to_nat (MAX_CARDS - n)) cards),
            n + Z.of_nat (length (firstn (Z.to_nat (MAX_CARDS - n)) cards))).
Proof.
  induction cards as [|c cards IH]; intros turns line acc n Hl Hc Ht;
    (destruct turns as [|turns]; [cbn [length] in Ht; lia|]);
    cbn [read_cards].
  - rewrite firstn_nil. cbn [map length]. rewrite app_nil_r, Z.add_0_r.
    destruct (n <? MAX_CARDS); reflexivity.
  - inversion_clear Hc as [|? ? [Hc1 Hc2] Hcs].
    destruct (Z.ltb_spec n MAX_CARDS) as [Hlt|Hge].
    + rewrite text_lines_cons.
      destruct (fgets_text line c (text_lines cards) (proj1 Hl) Hc1)
        as (l1 & -> & Ha & Hs).
      assert (Hk : (0 <? strlen (Trim l1 MAX_PATHLEN))
                   && negb (Byte.eqb (char_at (Trim l1 MAX_PATHLEN) 0) x23)
                   = true).
      { pose proof (is_comment_cstr (Trim l1 MAX_PATHLEN)) as Hi.
        rewrite Hs, Hc2 in Hi. unfold is_comment in Hi.
        apply orb_false_iff in Hi. destruct Hi as [Hi1 Hi2]. rewrite Hi2.
        apply Z.eqb_neq in Hi1.
        pose proof (strlen_cstr (Trim l1 MAX_PATHLEN)).
        apply andb_true_iff. split; [apply Z.ltb_lt; lia|reflexivity]. }
      rewrite Hk. rewrite IH; [|exact Ha|exact Hcs|cbn [length] in Ht; lia].
      destruct (strncpy_line _ Ha) as (Heq & _ & _). rewrite Heq, Hs.
      fold (card_array c).
      replace (Z.to_nat (MAX_CARDS - n))
        with (S (Z.to_nat (MAX_CARDS - (n + 1)))) by lia.
      cbn [firstn map length]. rewrite <- app_assoc. cbn [app].
      f_equal. f_equal. lia.
    + replace (Z.to_nat (MAX_CARDS - n)) with 0%nat by lia.
      cbn [firstn map length]. now rewrite app_nil_r, Z.add_0_r.
Qed.

(** One field read from the line at the head of the stream. *)
Ltac read_field Hline Htext Hcom T l A C :=
  match goal with
  | |- context [next_field ?t ?l0 (?str ++ x0a :: ?rest)] =>
      let Hnf := fresh "Hnf" in
      destruct (next_field_text t l0 str rest Hline Htext Hcom T)
        as (l & Hnf & A & C);
      rewrite Hnf; clear Hnf
  end.

(** X25: [LoadConfig] reads back a file written field by field: the
    paper size, the resolution, two colours of four numbers each, the
    toggle and the names of the cards, a line each, give the values
    written and the names in their order, each in an array of
    [MAX_PATHLEN] bytes; of more than [MAX_CARDS] names the first
    [MAX_CARDS] are kept. *)
Lemma LoadConfig_reads_text (turns : nat) (line : list byte)
    (p : PaperSize) (q : PPI) (br bgn bb ba lr lg lb la : list byte)
    (rc : bool) (cards : list (list byte)) :
  Z.of_nat (length line) = MAX_PATHLEN ->
  color_digits br bgn bb ba -> color_digits lr lg lb la ->
  Forall card_name cards -> (length cards < turns)%nat ->
  let kept := firstn (Z.to_nat MAX_CARDS) cards in
  LoadConfig turns line (config_text p q (br, bgn, bb, ba) (lr, lg, lb, la) rc cards)
  = Returned
      (Config (Z.of_nat (length kept))
         (mkConfig p q
            (SDL.mkColor (dec_value br) (dec_value bgn) (dec_value bb) (dec_value ba))
            (SDL.mkColor (dec_value lr) (dec_value lg) (dec_value lb) (dec_value la))
            (if rc then 1 else 0)
            (map card_array kept))).
Proof.
  intros Hlen Hbg Hln Hcards Hturns kept. unfold config_text.
  assert (T : (0 < turns)%nat) by lia.
  assert (Hcom : forall dr dg db da, color_digits dr dg db da ->
                   comment_str (color_text dr dg db da) = false).
  { intros dr dg db da ([Hne Hd] & _). unfold color_text.
    destruct dr as [|c dr]; [contradiction|]. cbn [app comment_str].
    cbn [forallb] in Hd. apply andb_true_iff in Hd. destruct Hd as [Hd _].
    apply byte_eqb_false. intros ->. discriminate. }
  assert (Hp : comment_str (paper_text p) = false) by now destruct p.
  assert (Hq : comment_str (ppi_text q) = false) by now destruct q.
  assert (Hrc : comment_str (toggle_text rc) = false) by now destruct rc.
  cbn [app]. rewrite !text_lines_cons. unfold LoadConfig.
  read_field Hlen (text_line_paper p) Hp T l1 A1 C1.
  rewrite (ParsePaperSize_text _ _ C1).
  read_field (proj1 A1) (text_line_ppi q) Hq T l2 A2 C2.
  rewrite (ParsePPI_text _ _ A2 C2).
  read_field (proj1 A2) (text_line_color _ _ _ _ Hbg) (Hcom _ _ _ _ Hbg) T
             l3 A3 C3.
  destruct (ParseSDLColor_text _ _ _ _ _ A3 Hbg C3) as [-> ->]. cbn [negb].
  read_field (proj1 A3) (text_line_color _ _ _ _ Hln) (Hcom _ _ _ _ Hln) T
             l4 A4 C4.
  destruct (ParseSDLColor_text _ _ _ _ _ A4 Hln C4) as [-> ->]. cbn [negb].
  read_field (proj1 A4) (text_line_toggle rc) Hrc T l5 A5 C5.
  destruct (toggle_text_line _ _ A5 C5) as [-> ->]. cbn [negb].
  rewrite (read_cards_text cards turns l5 [] 0 A5 Hcards Hturns).
  rewrite Z.sub_0_r, Z.add_0_l. reflexivity.
Qed.

(** * The names of the output files *)

Lemma fmt_02d_two_digits (v : Z) :
  0 <= v <= 99 ->
  fmt_02d v = [byte.of_Z (48 + v / 10); byte.of_Z (48 + v mod 10)].
Proof.
  intros Hv. unfold fmt_02d.
  destruct (Z.ltb_spec v 0); [lia|].
  assert (Hq : 0 <= v / 10 < 10)
    by (split; [apply Z.div_pos|apply Z.div_lt_upper_bound]; lia).
  cbn [dec_digits]. destruct (Z.eqb_spec (v / 10) 0) as [E|E].
  - rewrite E. reflexivity.
  - assert (H10 : v / 10 / 10 = 0) by (apply Z.div_small; lia).
    rewrite H10. cbn [Z.eqb]. rewrite (Z.mod_small (v / 10) 10) by lia.
    reflexivity.
Qed.

Lemma fmt_02d_three_digits (v : Z) :
  100 <= v <= 999 -> length (fmt_02d v) = 3%nat.
Proof.
  intros Hv. unfold fmt_02d.
  destruct (Z.ltb_spec v 0); [lia|].
  assert (Hq : 10 <= v / 10 < 100)
    by (split; [apply Z.div_le_lower_bound|apply Z.div_lt_upper_bound]; lia).
  assert (Hq2 : 1 <= v / 10 / 10 < 10)
    by (split; [apply Z.div_le_lower_bound|apply Z.div_lt_upper_bound]; lia).
  cbn [dec_digits]. destruct (Z.eqb_spec (v / 10) 0) as [E|E]; [lia|].
  destruct (Z.eqb_spec (v / 10 / 10) 0) as [E2|E2]; [lia|].
  assert (H10 : v / 10 / 10 / 10 = 0) by (apply Z.div_small; lia).
  rewrite H10. reflexivity.
Qed.

Lemma digit_byte_inj (a b : Z) :
  0 <= a <= 9 -> 0 <= b <= 9 ->
  byte.of_Z (48 + a) = byte.of_Z (48 + b) -> a = b.
Proof.
  intros Ha Hb H. apply (f_equal byte.unsigned) in H.
  rewrite !byte.unsigned_of_Z in H. unfold byte.wrap in H.
  rewrite !Z.mod_small in H by lia. lia.
Qed.

(** X18: the names of the output files: for a prefix of at most 120
    characters and a card count within [MAX_CARDS], the name of every
    page is the prefix, two digits and ".png"; with its NUL it fits the
    array of [MAX_PATHLEN] bytes, and two pages never get the same
    name. *)
Lemma outputFilename_pages (prefix : list byte) (cardCount p1 p2 : Z) :
  0 <= cardCount <= MAX_CARDS ->
  strlen prefix < OUTPUT_PATHLEN - 1 ->
  0 <= p1 < pageCount cardCount -> 0 <= p2 < pageCount cardCount ->
  Z.of_nat (length (outputFilename prefix p1)) = strlen prefix + OUTPUT_SUFFIX_LEN
  /\ Z.of_nat (length (outputFilename prefix p1)) < MAX_PATHLEN
  /\ (outputFilename prefix p1 = outputFilename prefix p2 -> p1 = p2).
Proof.
  intros Hc Hs H1 H2.
  destruct (pageCount_bounds cardCount ltac:(lia)) as (_ & _ & Hp).
  unfold MAX_CARDS, CARDS_PER_PAGE, MAX_NUM_PAGES in Hc.
  unfold outputFilename.
  rewrite !fmt_02d_two_digits by lia.
  split; [|split].
  - rewrite length_app, strlen_cstr. cbn [length app suffix_png].
    unfold OUTPUT_SUFFIX_LEN. lia.
  - rewrite length_app. rewrite strlen_cstr in Hs.
    cbn [length app suffix_png].
    unfold OUTPUT_PATHLEN, OUTPUT_SUFFIX_LEN, MAX_PATHLEN in *. lia.
  - intros H. apply app_inv_head in H. injection H as Ha Hb.
    apply digit_byte_inj in Ha;
      [|split; [apply Z.div_pos; lia|apply Z.div_le_upper_bound; lia]
       |split; [apply Z.div_pos; lia|apply Z.div_le_upper_bound; lia]].
    apply digit_byte_inj in Hb;
      [|pose proof (Z.mod_pos_bound (p1 + 1) 10); lia
       |pose proof (Z.mod_pos_bound (p2 + 1) 10); lia].
    pose proof (Z.div_mod (p1 + 1) 10 ltac:(lia)).
    pose proof (Z.div_mod (p2 + 1) 10 ltac:(lia)). lia.
Qed.

(** X19: the prefix given on the command line: up to 120 characters it
    is stored as a string in [outputPrefix]; 122 characters or more end
    the run; a prefix of exactly 121 characters passes the test and fills
    the array of 121 bytes with no NUL left after it. *)
Lemma outputPrefix_lengths (str : list byte) :
  no_nul str ->
  let k := Z.of_nat (length str) in
  (k < OUTPUT_PATHLEN - 1 ->
   exists arr, outputPrefix (Some (str ++ [x00])) = Some arr
               /\ Z.of_nat (length arr) = OUTPUT_PATHLEN - 1
               /\ cstr arr = str /\ strlen arr < Z.of_nat (length arr))
  /\ (k = OUTPUT_PATHLEN - 1 ->
      outputPrefix (Some (str ++ [x00])) = Some str
      /\ strlen str = Z.of_nat (length str))
  /\ (OUTPUT_PATHLEN <= k -> outputPrefix (Some (str ++ [x00])) = None).
Proof.
  intros Hnn k. unfold outputPrefix.
  assert (Hc : cstr (str ++ [x00]) = str) by now apply cstr_app_nul.
  assert (Hl : strlen (str ++ [x00]) = k) by now rewrite strlen_cstr, Hc.
  rewrite Hl. unfold strncpy. rewrite Hc.
  unfold OUTPUT_PATHLEN, OUTPUT_SUFFIX_LEN, MAX_PATHLEN in *.
  change (128 - 6 - 1) with 121. change (128 - 6) with 122.
  split; [|split]; intros Hk.
  - destruct (Z.geb_spec k 122); [lia|].
    eexists. split; [reflexivity|].
    rewrite firstn_app, firstn_all2 by (subst k; lia).
    rewrite firstn_repeat_le by lia.
    split; [rewrite length_app, repeat_length; subst k; lia|].
    assert (Hcs : cstr (str ++ repeat x00 (Z.to_nat 121 - length str)) = str)
      by now apply cstr_app_zeros.
    split; [exact Hcs|].
    rewrite strlen_cstr, Hcs, length_app, repeat_length. subst k. lia.
  - destruct (Z.geb_spec k 122); [lia|].
    rewrite firstn_app, firstn_all2 by (subst k; lia).
    replace (Z.to_nat 121 - length str)%nat with 0%nat by (subst k; lia).
    cbn [firstn]. rewrite app_nil_r. split; [reflexivity|].
    rewrite strlen_cstr.
    rewrite <- (app_nil_r str) at 1. change [] with (repeat x00 0).
    now rewrite cstr_app_zeros.
  - destruct (Z.geb_spec k 122); [reflexivity|lia].
Qed.

(** * The program as its user sees it *)

(** X1: the two big-endian helpers are inverse to each other: a value
    below 2^32 written and read back is the same value, four bytes read
    and written back are the same bytes; four bytes are written and the
    value read is below 2^32. *)
Theorem _png_u32_be_round_trip (v : Z) (b : list byte) :
  0 <= v < 2 ^ 32 -> length b = 4%nat ->
  _png_read_u32_be (_png_write_u32_be v) = v
  /\ _png_write_u32_be (_png_read_u32_be b) = b
  /\ length (_png_write_u32_be v) = 4%nat
  /\ 0 <= _png_read_u32_be b < 2 ^ 32.
Proof.
  intros Hv Hb. split; [now apply _png_read_write_u32_be|].
  split; [now apply _png_write_read_u32_be|].
  split; [reflexivity|apply _png_read_u32_be_range].
Qed.

(** X2: the CRC tells a changed byte: two buffers that differ in one byte
    and nowhere else have different CRCs, whatever the CRC so far. *)
Theorem _png_crc32_detects_changed_byte (a b : list byte) (x y : byte)
    (crc : Z) :
  0 <= crc < 2 ^ 32 -> x <> y ->
  _png_crc32 (a ++ x :: b) crc <> _png_crc32 (a ++ y :: b) crc.
Proof.
  intros Hc Hxy H. apply Hxy. exact (_png_crc32_one_byte a b x y crc Hc H).
Qed.

(** X4: the variant that writes a temporary file stores the same density
    as the one that patches in place, for every [int] resolution, and its
    [_png_write_pHYs] appends the same 21 bytes [_png_emit_pHYs_to_mem]
    writes. *)
Theorem temp_file_same_pHYs (out : list byte) (dpi : Z) :
  dpi <= 2147483647 ->
  TempFile._png_dpi_to_ppm dpi = _png_dpi_to_ppm dpi
  /\ TempFile._png_write_pHYs out (TempFile._png_dpi_to_ppm dpi)
                              (TempFile._png_dpi_to_ppm dpi)
     = out ++ pHYs_bytes (_png_dpi_to_ppm dpi)
  /\ length (pHYs_bytes (_png_dpi_to_ppm dpi)) = 21%nat.
Proof.
  intros Hd. rewrite (dpi_to_ppm_agree dpi Hd).
  split; [reflexivity|]. split; [apply _png_write_pHYs_bytes|].
  pose proof (pHYs_bytes_length (_png_dpi_to_ppm dpi)). lia.
Qed.

Lemma slot_in_content_area (ppi : PPI) (paperSize : PaperSize)
    (pos px py : Z) :
  0 <= pos <= 8 ->
  in_rect (CardPlacement pos ppi paperSize) px py ->
  in_rect (content_area ppi paperSize) px py.
Proof.
  intros Hpos.
  pose proof (layout_sizes ppi paperSize) as Hs. cbv zeta in Hs. revert Hs.
  nine_cases pos Hpos;
    match goal with
    | |- context [CardPlacement ?p ppi paperSize] => grid_place p
    end;
    unfold content_area, in_rect, GUTTER_THICKNESS_PIXELS;
    cbn [SDL.x SDL.y SDL.w SDL.h];
    abstract_sizes ppi paperSize; lia.
Qed.

(** X11: the nine slots and the eight gutter lines tile the content area:
    a pixel is in the content area exactly when it is in a slot or on a
    gutter line, and no pixel of a slot is on a gutter line (the lines
    [DrawGutterLines] draws last do not cut into a card). *)
Theorem slots_and_gutters_tile (ppi : PPI) (paperSize : PaperSize)
    (px py : Z) :
  let in_slot := exists pos, 0 <= pos <= 8
                   /\ in_rect (CardPlacement pos ppi paperSize) px py in
  let on_gutter := exists g, In g (DrawGutterLines ppi paperSize)
                     /\ in_rect g px py in
  (in_rect (content_area ppi paperSize) px py <-> in_slot \/ on_gutter)
  /\ ~ (in_slot /\ on_gutter).
Proof.
  cbv zeta. split; [split|].
  - apply content_area_covered.
  - intros [(pos & Hpos & Hin)|(g & Hg & Hin)].
    + exact (slot_in_content_area ppi paperSize pos px py Hpos Hin).
    + exact (proj1 (gutter_lines_miss_slots ppi paperSize g 0 px py Hg Hin)).
  - intros [(pos & Hpos & Hin) (g & Hg & Hin')].
    exact (proj2 (gutter_lines_miss_slots ppi paperSize g pos px py Hg Hin')
             Hpos Hin).
Qed.

Lemma rstrip_last (str : list byte) :
  isspace (last (rstrip str) x00) = false.
Proof.
  unfold rstrip. pose proof (lstrip_head (rev str)) as H.
  destruct (lstrip (rev str)) as [|c l]; [reflexivity|].
  cbn [rev]. now rewrite last_last.
Qed.

(** X20: [Trim] takes the white space off both ends of the string an
    array holds and nothing else: the string before is white space, the
    string after, white space; the string after has no white space at
    its ends; the array keeps its size; a second [Trim] changes nothing. *)
Theorem Trim_strips_both_ends (s : list byte) (n : Z) :
  strlen s < Z.of_nat (length s) -> strlen s < n < 2 ^ 64 ->
  let t := cstr (Trim s n) in
  (exists ws1 ws2,
      cstr s = ws1 ++ t ++ ws2
      /\ forallb isspace ws1 = true /\ forallb isspace ws2 = true)
  /\ isspace (hd x00 t) = false /\ isspace (last t x00) = false
  /\ length (Trim s n) = length s
  /\ cstr (Trim (Trim s n) n) = t.
Proof.
  intros Hin Hn. cbv zeta.
  destruct (Trim_string s n Hin Hn) as (Hc & Hl & Ht & Hle).
  rewrite Hc. fold (strip (cstr s)).
  split; [|split; [|split; [|split]]].
  - destruct (lstrip_split (cstr s)) as (ws1 & H1 & W1).
    destruct (rstrip_split (lstrip (cstr s))) as (ws2 & H2 & W2).
    exists ws1, ws2. unfold strip. rewrite <- H2. now repeat split.
  - unfold strip. apply rstrip_keeps_head.
    pose proof (lstrip_head (cstr s)) as H.
    destruct (lstrip (cstr s)); [reflexivity|exact H].
  - apply rstrip_last.
  - exact Hl.
  - destruct (Trim_string (Trim s n) n Ht ltac:(lia)) as (Hc' & _).
    rewrite Hc', Hc. apply strip_idem.
Qed.

(** X21: [ParsePaperSize] takes the two strings "US" and "A4" and no
    other: the comparison is exact, so a lower-case name or a name with
    anything after it is refused. *)
Theorem ParsePaperSize_exact (str tail : list byte) (n : Z) :
  3 <= n -> no_nul str ->
  ParsePaperSize (str ++ x00 :: tail) n
  = if bytes_eqb str [x55; x53] then Some paperUS
    else if bytes_eqb str [x41; x34] then Some paperA4
    else None.
Proof.
  intros Hn Hnn.
  destruct (ParsePaperSize_strings (str ++ x00 :: tail) n Hn)
    as (HUS & HA4 & Hno).
  rewrite (cstr_app_nul str tail Hnn) in HUS, HA4, Hno.
  destruct (bytes_eqb str [x55; x53]) eqn:E1.
  - apply HUS. now apply bytes_eqb_eq.
  - destruct (bytes_eqb str [x41; x34]) eqn:E2.
    + apply HA4. now apply bytes_eqb_eq.
    + apply Hno. split; now apply bytes_eqb_neq.
Qed.



(** X23: [ParseSDLColor] on numbers of at most 255 with three spaces
    between them in all: four numbers give the colour they spell; three
    numbers with a doubled space give the colour with alpha 0, the fourth
    [strtol] finding no digits. *)
Theorem ParseSDLColor_accepts (dr dg db da tail : list byte)
    (k1 k2 k3 : nat) (n : Z) :
  digits dr -> digits dg -> digits db ->
  (da = [] \/ (digits da /\ (0 < k3)%nat)) ->
  dec_value dr <= 255 -> dec_value dg <= 255 -> dec_value db <= 255 ->
  dec_value da <= 255 ->
  (0 < k1)%nat -> (0 < k2)%nat -> (k1 + k2 + k3 = 3)%nat ->
  let str := dr ++ spaces k1 ++ dg ++ spaces k2 ++ db ++ spaces k3 ++ da in
  Z.of_nat (length str) < n - 1 ->
  ParseSDLColor (str ++ x00 :: tail) n
  = Some (SDL.mkColor (dec_value dr) (dec_value dg) (dec_value db)
                      (dec_value da))
  /\ (da = [] -> dec_value da = 0).
Proof.
  intros Hr Hg Hb Ha Vr Vg Vb Va K1 K2 K3 str Hlen. split.
  - now apply ParseSDLColor_three_spaces.
  - intros ->. reflexivity.
Qed.

Lemma scan_chars_sound (str : list byte) :
  forall sc k,
    scan_chars str sc = Some k ->
    forallb (fun c => isdigit c || Byte.eqb c x20) str = true
    /\ k = sc + Z.of_nat (count_occ Byte.byte_eq_dec str x20).
Proof.
  induction str as [|c str IH]; intros sc k H; cbn [scan_chars] in H.
  - injection H as <-. split; [reflexivity|cbn; lia].
  - cbn [forallb count_occ]. destruct (isdigit c) eqn:Ed.
    + destruct (IH _ _ H) as [H1 H2]. split; [exact H1|].
      destruct (Byte.byte_eq_dec c x20) as [->|_]; [discriminate|exact H2].
    + destruct (Byte.eqb c x20) eqn:Es; [|discriminate].
      destruct (IH _ _ H) as [H1 H2]. split; [exact H1|].
      apply byte_eqb_true in Es. subst c.
      destruct (Byte.byte_eq_dec x20 x20) as [_|N]; [|contradiction].
      rewrite H2. cbn [length]. lia.
Qed.

(** X24: what [ParseSDLColor] takes: a string it returns [true] on holds
    digits and spaces only, three spaces exactly, and the four values
    stored are between 0 and 255, so none is cut when it goes into its
    [Uint8] field. *)
Theorem ParseSDLColor_sound (str tail : list byte) (n : Z) (c : SDL_Color) :
  no_nul str -> Z.of_nat (length str) < n - 1 ->
  ParseSDLColor (str ++ x00 :: tail) n = Some c ->
  forallb (fun ch => isdigit ch || Byte.eqb ch x20) str = true
  /\ count_occ Byte.byte_eq_dec str x20 = 3%nat
  /\ color_in_range c.
Proof.
  intros Hnn Hlen H. split; [|split]; [| |exact (ParseSDLColor_range _ _ _ H)];
    unfold ParseSDLColor in H;
    pose proof (color_scan_string str (Z.to_nat n) [] tail n 0 Hnn
                  ltac:(cbn [length]; lia) ltac:(lia)) as Hscan;
    cbn [app length] in Hscan; change (Z.of_nat 0) with 0 in Hscan;
    rewrite Hscan in H;
    destruct (scan_chars str 0) as [k|] eqn:E; try discriminate;
    destruct (Z.eqb_spec k 3) as [->|]; try discriminate;
    destruct (scan_chars_sound _ _ _ E) as [H1 H2]; [exact H1|lia].
Qed.

(** * The theorems at concrete inputs *)

Lemma update_png_dpi_one_pHYs_witness :
  exists pre idat post,
    png_chunks (snd (update_png_dpi sample_png 300))
    = Done (pre ++ pHYs_bytes (_png_dpi_to_ppm 300) :: idat :: post)
    /\ is_pHYs (pHYs_bytes (_png_dpi_to_ppm 300)) = true
    /\ is_IDAT idat = true
    /\ forallb (fun c => negb (is_IDAT c)) pre = true
    /\ forallb not_pHYs (pre ++ idat :: post) = true
    /\ length (filter is_pHYs
                 (pre ++ pHYs_bytes (_png_dpi_to_ppm 300) :: idat :: post))
       = 1%nat.
Proof.
  apply (update_png_dpi_one_pHYs_before_first_IDAT
           sample_png (snd (update_png_dpi sample_png 300)) 300
           (chunks_of sample_png)).
  - vm_compute. reflexivity.
  - vm_compute. reflexivity.
  - vm_compute. reflexivity.
  - vm_compute. reflexivity.
Defined.

Lemma stream_of_sample : stream_of sample_png_chunks [x0a; x0a].
Proof.
  split; [repeat constructor; vm_compute; reflexivity|].
  left. exists (removelast sample_png_chunks), (_png_write_chunk [] tag_IEND []).
  split; [reflexivity|]. split; [repeat constructor|reflexivity].
Qed.

Lemma update_png_dpi_keeps_other_chunks_witness :
  sample_png = PNG_SIG ++ concat sample_png_chunks ++ [x0a; x0a]
  /\ (let cs' := insert_before_IDAT (pHYs_bytes (_png_dpi_to_ppm 300))
                   (filter not_pHYs sample_png_chunks) in
      update_png_dpi (PNG_SIG ++ concat sample_png_chunks ++ [x0a; x0a]) 300
      = (0, PNG_SIG ++ concat cs')
      /\ stream_of cs' []
      /\ filter not_pHYs cs' = filter not_pHYs sample_png_chunks).
Proof.
  split; [vm_compute; reflexivity|].
  apply (proj1 (update_png_dpi_keeps_other_chunks 300)).
  - exact stream_of_sample.
  - vm_compute. discriminate.
Defined.

Lemma update_png_dpi_idempotent_witness :
  png_rebuild (snd (update_png_dpi sample_png 300)) 300
  = Done (snd (update_png_dpi sample_png 300)).
Proof.
  apply (proj1 (update_png_dpi_idempotent sample_png 300)).
  vm_compute. reflexivity.
Defined.

Lemma update_png_dpi_error_keeps_file_witness :
  (fst (update_png_dpi seven_bytes 300) <> 0
   /\ snd (update_png_dpi seven_bytes 300) = seven_bytes)
  /\ (fst (update_png_dpi overrun_png 300) <> 0
      /\ snd (update_png_dpi overrun_png 300) = overrun_png)
  /\ (fst (TempFile.update_png_dpi overrun_png (Some sample_png) 300) <> 0
      /\ snd (TempFile.update_png_dpi overrun_png (Some sample_png) 300)
         = Some sample_png).
Proof.
  split; [|split].
  - apply (proj1 (update_png_dpi_error_keeps_file seven_bytes None 300)).
    left. vm_compute. reflexivity.
  - apply (proj1 (update_png_dpi_error_keeps_file overrun_png None 300)).
    right. right. vm_compute. reflexivity.
  - apply (proj2 (update_png_dpi_error_keeps_file
                    overrun_png (Some sample_png) 300)).
    right. right. exists 24. vm_compute. reflexivity.
Defined.

Lemma emit_pHYs_layout_witness :
  exists c,
    _png_emit_pHYs_to_mem PNG_SIG PNG_OUT_CAP (_png_dpi_to_ppm 300)
    = Some (PNG_SIG ++ c)
    /\ c = pHYs_bytes (_png_dpi_to_ppm 300)
    /\ length c = 21%nat
    /\ _png_read_u32_be (sub c 0 4) = 9
    /\ sub c 4 4 = tag_pHYs
    /\ _png_read_u32_be (sub c 8 4) = _png_dpi_to_ppm 300
    /\ _png_read_u32_be (sub c 12 4) = _png_dpi_to_ppm 300
    /\ sub c 16 1 = [x01]
    /\ _png_read_u32_be (sub c 17 4) = crc32_reference (sub c 4 13).
Proof.
  apply (emit_pHYs_layout 300 PNG_SIG PNG_OUT_CAP).
  vm_compute. discriminate.
Defined.




Lemma _png_dpi_to_ppm_values_witness :
  (_png_dpi_to_ppm 0 = 39 /\ round_product 1 = 39)
  /\ _png_dpi_to_ppm 300 = round_product 300
  /\ _png_dpi_to_ppm 25000000 = round_product 25000000 - 1
  /\ (nearest_to_product 300 (_png_dpi_to_ppm 300)
      /\ 1 <= _png_dpi_to_ppm 300)
  /\ (4294967295 * 100000000 < 2147483647 * 3937007874
      /\ 4294967295 < round_product 2147483647
      /\ _png_dpi_to_ppm 2147483647 = 4294967295).
Proof.
  split; [|split; [|split; [|split]]].
  - apply (proj1 (_png_dpi_to_ppm_values 0)). lia.
  - apply (proj1 (proj2 (_png_dpi_to_ppm_values 300))); lia.
  - apply (proj1 (proj2 (proj2 (_png_dpi_to_ppm_values 25000000)))).
    right. left. reflexivity.
  - apply (proj1 (proj2 (proj2 (proj2 (_png_dpi_to_ppm_values 300))))); lia.
  - apply (proj1 (proj2 (proj2 (proj2 (proj2
             (_png_dpi_to_ppm_values 2147483647)))))). lia.
Defined.

Lemma _png_u32_be_round_trip_witness :
  _png_read_u32_be (_png_write_u32_be 11811) = 11811
  /\ _png_write_u32_be (_png_read_u32_be [x00; x00; x2e; x23])
     = [x00; x00; x2e; x23]
  /\ length (_png_write_u32_be 11811) = 4%nat
  /\ 0 <= _png_read_u32_be [x00; x00; x2e; x23] < 2 ^ 32.
Proof.
  apply (_png_u32_be_round_trip 11811 [x00; x00; x2e; x23]);
    [lia|reflexivity].
Defined.

Lemma _png_crc32_detects_changed_byte_witness :
  _png_crc32 ([x49] ++ x44 :: [x41; x54]) 0
  <> _png_crc32 ([x49] ++ x45 :: [x41; x54]) 0.
Proof.
  apply (_png_crc32_detects_changed_byte [x49] [x41; x54] x44 x45 0);
    [lia|discriminate].
Defined.

Lemma _png_dpi_to_ppm_increasing_witness :
  _png_dpi_to_ppm 299 + 38 <= _png_dpi_to_ppm 300.
Proof. apply (_png_dpi_to_ppm_increasing 299 300); lia. Defined.

Lemma temp_file_same_pHYs_witness :
  TempFile._png_dpi_to_ppm 300 = _png_dpi_to_ppm 300
  /\ TempFile._png_write_pHYs PNG_SIG (TempFile._png_dpi_to_ppm 300)
                              (TempFile._png_dpi_to_ppm 300)
     = PNG_SIG ++ pHYs_bytes (_png_dpi_to_ppm 300)
  /\ length (pHYs_bytes (_png_dpi_to_ppm 300)) = 21%nat.
Proof. apply (temp_file_same_pHYs PNG_SIG 300). lia. Defined.

Lemma temp_file_success_in_place_witness :
  update_png_dpi sample_png 300 = (0, snd (update_png_dpi sample_png 300)).
Proof.
  apply (temp_file_success_in_place sample_png None 300).
  - vm_compute. discriminate.
  - lia.
  - vm_compute. reflexivity.
Defined.

Lemma stream_of_no_idat : stream_of no_idat_chunks [].
Proof.
  split; [repeat constructor; vm_compute; reflexivity|].
  left. exists (removelast no_idat_chunks), (_png_write_chunk [] tag_IEND []).
  split; [reflexivity|]. split; [repeat constructor|reflexivity].
Qed.

Lemma update_png_dpi_no_IDAT_witness :
  no_idat_png = PNG_SIG ++ concat no_idat_chunks ++ []
  /\ update_png_dpi (PNG_SIG ++ concat no_idat_chunks ++ []) 300
     = (0, PNG_SIG ++ concat (filter not_pHYs no_idat_chunks))
  /\ stream_of (filter not_pHYs no_idat_chunks) [].
Proof.
  split; [vm_compute; reflexivity|].
  apply (update_png_dpi_no_IDAT no_idat_chunks [] 300).
  - exact stream_of_no_idat.
  - reflexivity.
  - vm_compute. discriminate.
Defined.

Lemma update_png_dpi_to_IEND_witness :
  update_png_dpi
    (PNG_SIG ++ concat sample_chunks ++ _png_write_chunk [] tag_IEND []
     ++ [x0a; x0a]) 300
  = (0, PNG_SIG
        ++ concat (patch_chunks 300
                     (sample_chunks ++ [_png_write_chunk [] tag_IEND []]))).
Proof.
  apply (update_png_dpi_to_IEND sample_chunks (_png_write_chunk [] tag_IEND [])
           [x0a; x0a] 300).
  - repeat constructor; vm_compute; reflexivity.
  - repeat constructor.
  - split; vm_compute; reflexivity.
  - reflexivity.
  - vm_compute. discriminate.
Defined.

Lemma _png_write_chunk_layout_witness :
  exists c,
    _png_write_chunk PNG_SIG tag_IDAT [x78; x9c] = PNG_SIG ++ c
    /\ whole c
    /\ chunk_len c = 2
    /\ chunk_type c = tag_IDAT
    /\ sub c 8 2 = [x78; x9c]
    /\ _png_read_u32_be (sub c (8 + 2) 4)
       = crc32_reference (tag_IDAT ++ [x78; x9c]).
Proof.
  apply (_png_write_chunk_layout PNG_SIG tag_IDAT [x78; x9c]);
    [reflexivity|cbn; lia].
Defined.

Lemma card_slots_layout_witness :
  let c := CardPlacement 0 ppi300 paperA4 in
  let c' := CardPlacement 4 ppi300 paperA4 in
  (0 <= SDL.x c /\ SDL.x c + SDL.w c <= PageWidth ppi300 paperA4
   /\ 0 <= SDL.y c /\ SDL.y c + SDL.h c <= PageHeight ppi300 paperA4)
  /\ (0 <> 4 ->
      SDL.x c + SDL.w c + GUTTER_THICKNESS_PIXELS <= SDL.x c'
      \/ SDL.x c' + SDL.w c' + GUTTER_THICKNESS_PIXELS <= SDL.x c
      \/ SDL.y c + SDL.h c + GUTTER_THICKNESS_PIXELS <= SDL.y c'
      \/ SDL.y c' + SDL.h c' + GUTTER_THICKNESS_PIXELS <= SDL.y c).
Proof. apply (card_slots_layout ppi300 paperA4 0 4); lia. Defined.

Lemma blank_border_ring_witness :
  (exists r, In r (DrawBlankCardBorder 4 ppi600 paperUS)
             /\ in_rect r 1820 2300)
  <-> in_rect (CardPlacement 4 ppi600 paperUS) 1820 2300
      /\ ~ in_rect (grow (CardPlacement 4 ppi600 paperUS)
                         (- border_pixels ppi600)) 1820 2300.
Proof. apply (blank_border_ring 4 ppi600 paperUS 1820 2300). lia. Defined.

Lemma pages_list_every_card_witness :
  let ps := pages (fun _ => true) false 20 in
  Z.of_nat (length ps) = pageCount 20
  /\ pageCount 20 <= MAX_NUM_PAGES
  /\ concat (map listed ps) = zrange 0 (Z.to_nat 20)
  /\ map page_number ps = zrange 1 (length ps)
  /\ Forall (fun pg =>
               let m := length (listed pg) in
               (1 <= m <= 9)%nat
               /\ listed pg = zrange ((page_number pg - 1) * 9) m
               /\ map (fun i => Z.rem i CARDS_PER_PAGE) (listed pg)
                  = zrange 0 m) ps.
Proof.
  apply (pages_list_every_card (fun _ => true) false 20).
  split; [lia|vm_compute; discriminate].
Defined.

Lemma blank_border_on_image_witness :
  let pg := build_page (fun i => negb (i =? 0)) false 2 0 in
  ((exists pos, In pos (added pg) /\ In pos (blanks pg))
   <-> exists i j, In i (listed pg) /\ In j (listed pg) /\ i < j
                   /\ negb (i =? 0) = false /\ negb (j =? 0) = true)
  /\ ((forall i, In i (listed pg) -> negb (i =? 0) = true) ->
      added pg = zrange 0 (length (listed pg))
      /\ blanks pg = zrange (Z.of_nat (length (listed pg)))
                            (9 - length (listed pg))).
Proof. apply (blank_border_on_image (fun i => negb (i =? 0)) false 2 0). lia. Defined.

Lemma outputFilename_pages_witness :
  Z.of_nat (length (outputFilename outputPrefix_default 0))
  = strlen outputPrefix_default + OUTPUT_SUFFIX_LEN
  /\ Z.of_nat (length (outputFilename outputPrefix_default 0)) < MAX_PATHLEN
  /\ (outputFilename outputPrefix_default 0
      = outputFilename outputPrefix_default 2 -> 0 = 2).
Proof.
  apply (outputFilename_pages outputPrefix_default 20 0 2).
  - split; [lia|vm_compute; discriminate].
  - vm_compute. reflexivity.
  - vm_compute. split; [discriminate|reflexivity].
  - vm_compute. split; [discriminate|reflexivity].
Defined.

Lemma outputPrefix_lengths_witness :
  let str := repeat x61 121 in
  let k := Z.of_nat (length str) in
  (k < OUTPUT_PATHLEN - 1 ->
   exists arr, outputPrefix (Some (str ++ [x00])) = Some arr
               /\ Z.of_nat (length arr) = OUTPUT_PATHLEN - 1
               /\ cstr arr = str /\ strlen arr < Z.of_nat (length arr))
  /\ (k = OUTPUT_PATHLEN - 1 ->
      outputPrefix (Some (str ++ [x00])) = Some str
      /\ strlen str = Z.of_nat (length str))
  /\ (OUTPUT_PATHLEN <= k -> outputPrefix (Some (str ++ [x00])) = None).
Proof. apply (outputPrefix_lengths (repeat x61 121)). reflexivity. Defined.

Lemma Trim_strips_both_ends_witness :
  let s := [x20; x61; x62; x09; x00; x00] in
  let t := cstr (Trim s 6) in
  (exists ws1 ws2,
      cstr s = ws1 ++ t ++ ws2
      /\ forallb isspace ws1 = true /\ forallb isspace ws2 = true)
  /\ isspace (hd x00 t) = false /\ isspace (last t x00) = false
  /\ length (Trim s 6) = length s
  /\ cstr (Trim (Trim s 6) 6) = t.
Proof.
  apply (Trim_strips_both_ends [x20; x61; x62; x09; x00; x00] 6).
  - reflexivity.
  - split; reflexivity.
Defined.

Lemma ParsePaperSize_exact_witness :
  ParsePaperSize ([x41; x34] ++ x00 :: []) 16
  = if bytes_eqb [x41; x34] [x55; x53] then Some paperUS
    else if bytes_eqb [x41; x34] [x41; x34] then Some paperA4
    else None.
Proof. apply (ParsePaperSize_exact [x41; x34] [] 16); [lia|reflexivity]. Defined.


Lemma ParseSDLColor_accepts_witness :
  let str := [x31] ++ spaces 2 ++ [x32] ++ spaces 1 ++ [x33] ++ spaces 0 ++ [] in
  ParseSDLColor (str ++ x00 :: []) MAX_PATHLEN
  = Some (SDL.mkColor (dec_value [x31]) (dec_value [x32]) (dec_value [x33])
                      (dec_value []))
  /\ (@nil byte = [] -> dec_value [] = 0).
Proof.
  apply (ParseSDLColor_accepts [x31] [x32] [x33] [] [] 2 1 0 MAX_PATHLEN);
    try (split; [discriminate|reflexivity]); try (vm_compute; discriminate);
    try lia; try reflexivity.
  now left.
Defined.

Lemma ParseSDLColor_sound_witness :
  forallb (fun ch => isdigit ch || Byte.eqb ch x20)
          [x31; x20; x32; x20; x33; x20; x34] = true
  /\ count_occ Byte.byte_eq_dec [x31; x20; x32; x20; x33; x20; x34] x20
     = 3%nat
  /\ color_in_range (SDL.mkColor 1 2 3 4).
Proof.
  apply (ParseSDLColor_sound [x31; x20; x32; x20; x33; x20; x34] []
           MAX_PATHLEN (SDL.mkColor 1 2 3 4)).
  - reflexivity.
  - reflexivity.
  - vm_compute. reflexivity.
Defined.

Lemma color_digits_255 : color_digits digits_255 digits_255 digits_255 digits_255.
Proof.
  unfold color_digits, digits.
  repeat split; try discriminate; try reflexivity; cbn; lia.
Qed.

Lemma color_digits_0_255 : color_digits [x30] [x30] [x30] digits_255.
Proof.
  unfold color_digits, digits.
  repeat split; try discriminate; try reflexivity; cbn; lia.
Qed.

Lemma card_name_sample : Forall card_name [sample_card_name].
Proof.
  constructor; [|constructor]. split; [|reflexivity].
  unfold text_line. repeat split; try reflexivity; try (cbn; lia).
  cbn. intuition discriminate.
Qed.

Lemma LoadConfig_reads_text_witness :
  let kept := firstn (Z.to_nat MAX_CARDS) [sample_card_name] in
  LoadConfig 2 line_at_start sample_config
  = Returned
      (Config (Z.of_nat (length kept))
         (mkConfig paperA4 ppi600
            (SDL.mkColor (dec_value digits_255) (dec_value digits_255)
                         (dec_value digits_255) (dec_value digits_255))
            (SDL.mkColor (dec_value [x30]) (dec_value [x30]) (dec_value [x30])
                         (dec_value digits_255))
            (if true then 1 else 0)
            (map card_array kept))).
Proof.
  apply (LoadConfig_reads_text 2 line_at_start paperA4 ppi600
           digits_255 digits_255 digits_255 digits_255
           [x30] [x30] [x30] digits_255 true [sample_card_name]).
  - reflexivity.
  - exact color_digits_255.
  - exact color_digits_0_255.
  - exact card_name_sample.
  - cbn. lia.
Defined.

Lemma LoadConfig_stores_witness :
  let c := mkConfig paperA4 ppi600 (SDL.mkColor 255 255 255 255)
                    (SDL.mkColor 0 0 0 255) 1 [card_array sample_card_name] in
  0 <= 1 <= MAX_CARDS
  /\ 1 = Z.of_nat (length (cfg_cards c))
  /\ Forall card_entry (cfg_cards c)
  /\ (cfg_roundedcorners c = 0 \/ cfg_roundedcorners c = 1)
  /\ color_in_range (cfg_cardBGColor c)
  /\ color_in_range (cfg_cardLineColor c)
  /\ (forall turns', (2 <= turns')%nat ->
        LoadConfig turns' line_at_start sample_config = Returned (Config 1 c)).
Proof.
  apply (LoadConfig_stores 2 line_at_start sample_config 1).
  - reflexivity.
  - discriminate.
  - vm_compute. reflexivity.
Defined.

Lemma only_comments_sample : only_comments comments_only.
Proof.
  apply (oc_line comments_only [x23; x20; x63; x0a] [x0a]);
    [discriminate|reflexivity|reflexivity|].
  apply (oc_line [x0a] [x0a] []); [discriminate|reflexivity|reflexivity|].
  apply oc_end.
Qed.

Lemma LoadConfig_only_comments_witness :
  LoadConfig 1000 line_at_start comments_only = TurnsOut.
Proof.
  apply (LoadConfig_only_comments 1000 line_at_start comments_only).
  - reflexivity.
  - discriminate.
  - exact only_comments_sample.
Defined.
